(** * gvcode: piece table, line layout and completion sessions

    A shallow embedding of the text-editing core of the gvcode editor
    (package [buffer]: [PieceTable] and [PieceTableReader]; package
    [layout]: [Line] and [Paragraph]; package [completion]: [session]
    and [DefaultCompletion]; package [textview]: paragraph lookup, tab
    stops and words; the selection of the editor's text view) together
    with the properties its specification states about them and further
    properties of the code.

    Conventions.
    - A Go [string] or [[]byte] is a [list byte].
    - A Go [int] / [int64] is a [Z]; the counters of the piece table are
      bounded by the size of the text held in memory, so the 64-bit
      wrap-around is never reached and is not written out.  The 32-bit
      fixed-point values of the layout code do wrap, see [Layout].
    - A Go pointer to a piece is an index into the table's piece store;
      [nil] is [None].
    - A Go panic (nil dereference, slice out of range) or a loop that
      does not terminate is [None]. *)

From Stdlib Require Import ZArith List Bool Lia String Ascii.
From Stdlib Require Import Strings.Byte.
From stdpp Require Import base option list.

Local Open Scope Z_scope.

(** Sequencing of computations that may panic. *)
Notation "'let?' x ':=' m 'in' k" :=
  (match m with Some x => k | None => None end)
  (at level 10, x pattern, m at level 100, k at level 200).

(** Go string literals. *)
Definition B (s : string) : list byte := list_byte_of_string s.

Definition b2z (b : byte) : Z := Z.of_N (Byte.to_N b).

#[global] Instance byte_eq_decision : EqDecision byte := byte_eq_dec.

(** [byte(z)]: the low eight bits. *)
Definition z2b (z : Z) : byte :=
  match Byte.of_N (Z.to_N (z mod 256)) with
  | Some b => b
  | None => x00
  end.

(** ** Package unicode/utf8 (Go standard library) *)

Module Utf8.

Definition RuneError : Z := 65533.
Definition UTFMax : Z := 4.

(** The [first] table: information about the first byte of an encoding. *)
Definition xx : Z := 241.   (* 0xF1: invalid, size 1 *)
Definition as' : Z := 240.  (* 0xF0: ASCII, size 1 *)
Definition s1 : Z := 2.     (* 0x02: accept 0, size 2 *)
Definition s2 : Z := 19.    (* 0x13: accept 1, size 3 *)
Definition s3 : Z := 3.     (* 0x03: accept 0, size 3 *)
Definition s4 : Z := 35.    (* 0x23: accept 2, size 3 *)
Definition s5 : Z := 52.    (* 0x34: accept 3, size 4 *)
Definition s6 : Z := 4.     (* 0x04: accept 0, size 4 *)
Definition s7 : Z := 68.    (* 0x44: accept 4, size 4 *)

Definition first (p0 : Z) : Z :=
  if p0 <? 128 then as'
  else if p0 <? 194 then xx
  else if p0 <? 224 then s1
  else if p0 =? 224 then s2
  else if p0 <? 237 then s3
  else if p0 =? 237 then s4
  else if p0 <? 240 then s3
  else if p0 =? 240 then s5
  else if p0 <? 244 then s6
  else if p0 =? 244 then s7
  else xx.

Definition locb : Z := 128.
Definition hicb : Z := 191.

(** [acceptRanges]: the range of a valid second byte. *)
Definition acceptRanges (i : Z) : Z * Z :=
  if i =? 0 then (locb, hicb)
  else if i =? 1 then (160, hicb)
  else if i =? 2 then (locb, 159)
  else if i =? 3 then (144, hicb)
  else if i =? 4 then (locb, 143)
  else (0, 0).

Definition maskx : Z := 63.
Definition mask2 : Z := 31.
Definition mask3 : Z := 15.
Definition mask4 : Z := 7.

(** [utf8.DecodeRune]: the first rune of [p] and its width in bytes;
    [(RuneError, 0)] on empty input and [(RuneError, 1)] on an invalid
    encoding. *)
Definition DecodeRune (p : list byte) : Z * nat :=
  match p with
  | [] => (RuneError, 0%nat)
  | c0 :: t0 =>
    let p0 := b2z c0 in
    let x := first p0 in
    if as' <=? x then
      (if x =? as' then p0 else RuneError, 1%nat)
    else
      let sz := Z.land x 7 in
      let accept := acceptRanges (Z.shiftr x 4) in
      if Z.of_nat (List.length p) <? sz then (RuneError, 1%nat)
      else
        match t0 with
        | [] => (RuneError, 1%nat)
        | c1 :: t1 =>
          let b1 := b2z c1 in
          if (b1 <? fst accept) || (snd accept <? b1) then (RuneError, 1%nat)
          else if sz <=? 2 then
            (Z.lor (Z.shiftl (Z.land p0 mask2) 6) (Z.land b1 maskx), 2%nat)
          else
            match t1 with
            | [] => (RuneError, 1%nat)
            | c2 :: t2 =>
              let b2 := b2z c2 in
              if (b2 <? locb) || (hicb <? b2) then (RuneError, 1%nat)
              else if sz <=? 3 then
                (Z.lor (Z.lor (Z.shiftl (Z.land p0 mask3) 12)
                              (Z.shiftl (Z.land b1 maskx) 6))
                       (Z.land b2 maskx), 3%nat)
              else
                match t2 with
                | [] => (RuneError, 1%nat)
                | c3 :: _ =>
                  let b3 := b2z c3 in
                  if (b3 <? locb) || (hicb <? b3) then (RuneError, 1%nat)
                  else
                    (Z.lor (Z.lor (Z.lor (Z.shiftl (Z.land p0 mask4) 18)
                                         (Z.shiftl (Z.land b1 maskx) 12))
                                  (Z.shiftl (Z.land b2 maskx) 6))
                           (Z.land b3 maskx), 4%nat)
                end
            end
        end
  end.

(** The width of the first rune, at least one byte on non-empty input. *)
Definition width (p : list byte) : nat := snd (DecodeRune p).

(** The successive runes of a byte string, each with the bytes that
    encode it, in the order a [for range] loop or [[]rune(s)] meets
    them.  The fuel is the number of bytes: every rune takes at least
    one. *)
Fixpoint runes_go (fuel : nat) (p : list byte) : list (list byte) :=
  match fuel with
  | O => []
  | S f =>
    match p with
    | [] => []
    | _ => take (width p) p :: runes_go f (drop (width p) p)
    end
  end.

Definition runes (p : list byte) : list (list byte) :=
  runes_go (List.length p) p.

(** [utf8.RuneCount] and [utf8.RuneCountInString]. *)
Definition RuneCount (p : list byte) : Z := Z.of_nat (List.length (runes p)).

(** [[]rune(s)]: the code points of a string. *)
Definition to_runes (p : list byte) : list Z :=
  map (fun c => fst (DecodeRune c)) (runes p).

(** A decoding of non-empty input is an encoding error when it is
    [(RuneError, 1)]. *)
Definition valid_rune (p : list byte) : bool :=
  negb ((fst (DecodeRune p) =? RuneError) && (Nat.eqb (snd (DecodeRune p)) 1)).

(** [utf8.Valid]: no position of the walk decodes as an encoding
    error. *)
Fixpoint Valid_go (fuel : nat) (p : list byte) : bool :=
  match fuel with
  | O => true
  | S f =>
    match p with
    | [] => true
    | _ => valid_rune p && Valid_go f (drop (width p) p)
    end
  end.

Definition Valid (p : list byte) : bool := Valid_go (List.length p) p.

(** The bytes of one valid rune, whole. *)
Definition good (c : list byte) : Prop :=
  c <> [] /\ width c = List.length c /\ valid_rune c = true.

(** [utf8.EncodeRune]; a rune out of range or a surrogate is encoded as
    [RuneError]. *)
Definition encode3 (r : Z) : list byte :=
  [z2b (Z.lor 224 (Z.shiftr r 12));
   z2b (Z.lor 128 (Z.land (Z.shiftr r 6) maskx));
   z2b (Z.lor 128 (Z.land r maskx))].

Definition EncodeRune (r : Z) : list byte :=
  if (0 <=? r) && (r <=? 127) then [z2b r]
  else if (0 <=? r) && (r <=? 2047) then
    [z2b (Z.lor 192 (Z.shiftr r 6)); z2b (Z.lor 128 (Z.land r maskx))]
  else if (r <? 0) || (1114111 <? r) || ((55296 <=? r) && (r <=? 57343)) then
    encode3 RuneError
  else if r <=? 65535 then encode3 r
  else
    [z2b (Z.lor 240 (Z.shiftr r 18));
     z2b (Z.lor 128 (Z.land (Z.shiftr r 12) maskx));
     z2b (Z.lor 128 (Z.land (Z.shiftr r 6) maskx));
     z2b (Z.lor 128 (Z.land r maskx))].

(** [string(rs)] for a slice of runes. *)
Definition of_runes (rs : list Z) : list byte := concat (map EncodeRune rs).

End Utf8.

(** ** Package buffer *)

Module Buffer.

Inductive bufSrc := original | modify.
Inductive action := actionUnknown | actionInsert.
Inductive error := nil | EOF | ErrUnexpectedEOF | ErrShortBuffer.

Definition error_eqb (a b : error) : bool :=
  match a, b with
  | nil, nil | EOF, EOF | ErrUnexpectedEOF, ErrUnexpectedEOF
  | ErrShortBuffer, ErrShortBuffer => true
  | _, _ => false
  end.

Definition bufSrc_eqb (a b : bufSrc) : bool :=
  match a, b with original, original | modify, modify => true | _, _ => false end.
Definition action_eqb (a b : action) : bool :=
  match a, b with
  | actionUnknown, actionUnknown | actionInsert, actionInsert => true
  | _, _ => false
  end.

(** *** textBuffer *)

(** Modelled from the spec: [textBuffer], the append-only byte buffer
    with its rune-to-byte index, is not part of the sources at hand.  It
    is the bytes appended so far; rune positions are those of the
    forward walk over these bytes. *)
Definition textBuffer := list byte.

Definition newTextBuffer : textBuffer := [].

Definition len (p : list byte) : Z := Z.of_nat (List.length p).

(** Modelled from the spec: [textBuffer.RuneOffset], the byte offset of
    the rune at index [runeIdx] (the whole length past the end, zero
    before the start). *)
Definition tb_RuneOffset (tb : textBuffer) (runeIdx : Z) : Z :=
  len (concat (take (Z.to_nat runeIdx) (Utf8.runes tb))).

(** Modelled from the spec: [textBuffer.bytesForRange], the number of
    bytes taken by [runeCnt] runes starting at rune [runeOff]. *)
Definition tb_bytesForRange (tb : textBuffer) (runeOff runeCnt : Z) : Z :=
  tb_RuneOffset tb (runeOff + runeCnt) - tb_RuneOffset tb runeOff.

(** Modelled from the spec: [textBuffer.getTextByRange], the [size]
    bytes at [byteOff]; slicing out of range panics. *)
Definition tb_getTextByRange (tb : textBuffer) (byteOff size : Z)
  : option (list byte) :=
  if (0 <=? byteOff) && (0 <=? size) && (byteOff + size <=? len tb)
  then Some (take (Z.to_nat size) (drop (Z.to_nat byteOff) tb))
  else None.

(** Modelled from the spec: [textBuffer.set] installs the text and
    returns its rune count. *)
Definition tb_set (text : list byte) : textBuffer * Z :=
  (text, Utf8.RuneCount text).

(** Modelled from the spec: [textBuffer.append] returns the rune offset
    and byte offset at which the text was appended and its rune count. *)
Definition tb_append (tb : textBuffer) (text : list byte)
  : textBuffer * (Z * Z * Z) :=
  (tb ++ text, (Utf8.RuneCount tb, len tb, Utf8.RuneCount text)).

(** *** piece and pieceList *)

(** A piece of the sequence.  [length'] is the Go field [length], the
    rune count of the piece; [prev] and [next] link the list. *)
Record piece := mkPiece {
  source : bufSrc;
  offset : Z;
  length' : Z;
  byteOff : Z;
  byteLength : Z;
  prev : option nat;
  next : option nat
}.

(** The heap of pieces: a pointer is an index. *)
Abbreviation store := (list piece).

Definition head : nat := 0.
Definition tail : nat := 1.

Definition sentinel (p n : option nat) : piece :=
  mkPiece original 0 0 0 0 p n.

(** Modelled from the spec: [newPieceList], a doubly linked sequence
    with sentinel head and tail. *)
Definition newPieceList : store :=
  [sentinel None (Some tail); sentinel (Some head) None].

Definition set_next (n : option nat) (p : piece) : piece :=
  mkPiece (source p) (offset p) (length' p) (byteOff p) (byteLength p) (prev p) n.
Definition set_prev (n : option nat) (p : piece) : piece :=
  mkPiece (source p) (offset p) (length' p) (byteOff p) (byteLength p) n (next p).
Definition grow (runes bytes : Z) (p : piece) : piece :=
  mkPiece (source p) (offset p) (length' p + runes) (byteOff p)
          (byteLength p + bytes) (prev p) (next p).

(** A write through a pointer; a nil or dangling pointer panics. *)
Definition modify_at (st : store) (q : option nat) (f : piece -> piece)
  : option store :=
  let? i := q in let? p := st !! i in Some (<[i := f p]> st).

Definition load (st : store) (q : option nat) : option piece :=
  let? i := q in st !! i.

(** [&piece{...}] *)
Definition alloc (st : store) (p : piece) : store * nat :=
  (st ++ [p], List.length st).

(** Modelled from the spec: [pieceList.Head], the first piece after the
    head sentinel. *)
Definition Head (st : store) : option nat := let? h := st !! head in next h.

(** Modelled from the spec: [pieceList.InsertBeforeTail]. *)
Definition InsertBeforeTail (st : store) (p : nat) : option store :=
  let? t := st !! tail in
  let? st1 := modify_at st (Some p) (fun x => set_next (Some tail) (set_prev (prev t) x)) in
  let? st2 := modify_at st1 (prev t) (set_next (Some p)) in
  modify_at st2 (Some tail) (set_prev (Some p)).

(** Modelled from the spec: [pieceList.FindPiece], lookup by rune index
    returning the piece and the rune offset within it; the tail
    sentinel at the end of the sequence.  The walk is the one
    [RuneOffset] below makes. *)
Fixpoint FindPiece_loop (fuel : nat) (st : store) (n : nat)
    (runes runeIndex : Z) : option (nat * Z) :=
  match fuel with
  | O => None
  | S f =>
    if Nat.eqb n tail then Some (tail, 0)
    else
      let? p := st !! n in
      if runeIndex <? runes + length' p then Some (n, runeIndex - runes)
      else let? nx := next p in FindPiece_loop f st nx (runes + length' p) runeIndex
  end.

Definition FindPiece (st : store) (runeIndex : Z) : option (nat * Z) :=
  let? n := Head st in FindPiece_loop (List.length st) st n 0 runeIndex.

(** *** pieceRange *)

Record pieceRange := mkRange {
  first : option nat;
  last : option nat;
  boundary : bool;
  rng_seqLength : Z;
  rng_seqBytes : Z;
  rng_runeIndex : Z
}.

(** Modelled from the spec: a captured span of the piece list with the
    saved rune and byte lengths and the rune index of the edit. *)
Definition newUndoPieceRange (seqLength seqBytes runeIndex : Z) : pieceRange :=
  mkRange None None false seqLength seqBytes runeIndex.

Definition newPieceRange : pieceRange := mkRange None None false 0 0 0.

Definition with_span (r : pieceRange) (f l : option nat) (b : bool) : pieceRange :=
  mkRange f l b (rng_seqLength r) (rng_seqBytes r) (rng_runeIndex r).

(** Modelled from the spec: [pieceRange.AsBoundary], the empty span just
    before piece [p]. *)
Definition AsBoundary (r : pieceRange) (st : store) (p : nat)
  : option pieceRange :=
  let? x := st !! p in Some (with_span r (prev x) (Some p) true).

(** Modelled from the spec: [pieceRange.Append] links [p] at the end of
    the span. *)
Definition Append (r : pieceRange) (st : store) (p : nat)
  : option (pieceRange * store) :=
  match first r with
  | None => Some (with_span r (Some p) (Some p) false, st)
  | Some _ =>
    let? st1 := modify_at st (last r) (set_next (Some p)) in
    let? st2 := modify_at st1 (Some p) (set_prev (last r)) in
    Some (with_span r (first r) (Some p) false, st2)
  end.

(** Modelled from the spec: [pieceRange.Swap] links the span [dest] into
    the list in place of the span [src]; the pieces of [src] keep their
    own links. *)
Definition Swap (src dest : pieceRange) (st : store) : option store :=
  if boundary src then
    if boundary dest then Some st
    else
      let? st1 := modify_at st (first src) (set_next (first dest)) in
      let? st2 := modify_at st1 (last src) (set_prev (last dest)) in
      let? st3 := modify_at st2 (first dest) (set_prev (first src)) in
      modify_at st3 (last dest) (set_next (last src))
  else
    let? f := load st (first src) in
    let? l := load st (last src) in
    if boundary dest then
      let? st1 := modify_at st (prev f) (set_next (next l)) in
      modify_at st1 (next l) (set_prev (prev f))
    else
      let? st1 := modify_at st (prev f) (set_next (first dest)) in
      let? st2 := modify_at st1 (next l) (set_prev (last dest)) in
      let? st3 := modify_at st2 (first dest) (set_prev (prev f)) in
      modify_at st3 (last dest) (set_next (next l)).

(** Modelled from the spec: [pieceRange.Restore] re-splices the span
    back into the list, replaying the prior linkage, and keeps the span
    it replaces; the saved counters are those of capture time. *)
Definition Restore (r : pieceRange) (st : store)
  : option (pieceRange * store) :=
  if boundary r then
    let? f := load st (first r) in
    let? l := load st (last r) in
    let? st1 := modify_at st (first r) (set_next (last r)) in
    let? st2 := modify_at st1 (last r) (set_prev (first r)) in
    Some (with_span r (next f) (prev l) false, st2)
  else
    let? f := load st (first r) in
    let? l := load st (last r) in
    let? before := load st (prev f) in
    if bool_decide (next before = next l) then
      let? st1 := modify_at st (prev f) (set_next (first r)) in
      let? st2 := modify_at st1 (next l) (set_prev (last r)) in
      Some (with_span r (prev f) (next l) true, st2)
    else
      let? after := load st (next l) in
      let? st1 := modify_at st (prev f) (set_next (first r)) in
      let? st2 := modify_at st1 (next l) (set_prev (last r)) in
      Some (with_span r (next before) (prev after) false, st2).

(** *** PieceTable *)

Record PieceTable := mkPT {
  originalBuf : textBuffer;
  modifyBuf : textBuffer;
  (* Length of the text sequence in runes. *)
  seqLength : Z;
  (* bytes size of the text sequence. *)
  seqBytes : Z;
  (* undo stack and redo stack, top first *)
  undoStack : list pieceRange;
  redoStack : list pieceRange;
  (* piece list: the heap holding the pieces, sentinels included *)
  pieces : store;
  (* last action and action position in rune offset in the text sequence. *)
  lastAction : action;
  lastActionEndIdx : Z;
  (* last inserted piece, for insertion optimization purpose. *)
  lastInsertPiece : option nat
}.

Definition with_bufs (pt : PieceTable) (o m : textBuffer) : PieceTable :=
  mkPT o m (seqLength pt) (seqBytes pt) (undoStack pt) (redoStack pt)
       (pieces pt) (lastAction pt) (lastActionEndIdx pt) (lastInsertPiece pt).
Definition with_seq (pt : PieceTable) (l b : Z) : PieceTable :=
  mkPT (originalBuf pt) (modifyBuf pt) l b (undoStack pt) (redoStack pt)
       (pieces pt) (lastAction pt) (lastActionEndIdx pt) (lastInsertPiece pt).
Definition with_stacks (pt : PieceTable) (u r : list pieceRange) : PieceTable :=
  mkPT (originalBuf pt) (modifyBuf pt) (seqLength pt) (seqBytes pt) u r
       (pieces pt) (lastAction pt) (lastActionEndIdx pt) (lastInsertPiece pt).
Definition with_pieces (pt : PieceTable) (st : store) : PieceTable :=
  mkPT (originalBuf pt) (modifyBuf pt) (seqLength pt) (seqBytes pt)
       (undoStack pt) (redoStack pt) st
       (lastAction pt) (lastActionEndIdx pt) (lastInsertPiece pt).
Definition with_lastInsertPiece (pt : PieceTable) (p : option nat) : PieceTable :=
  mkPT (originalBuf pt) (modifyBuf pt) (seqLength pt) (seqBytes pt)
       (undoStack pt) (redoStack pt) (pieces pt)
       (lastAction pt) (lastActionEndIdx pt) p.

Definition addToBuffer (pt : PieceTable) (source : bufSrc) (text : list byte)
  : PieceTable * (Z * Z * Z) :=
  if len text <=? 0 then (pt, (0, 0, 0))
  else if bufSrc_eqb source original then
    let '(tb, n) := tb_set text in
    (with_bufs pt tb (modifyBuf pt), (0, 0, n))
  else
    let '(tb, r) := tb_append (modifyBuf pt) text in
    (with_bufs pt (originalBuf pt) tb, r).

Definition getBuf (pt : PieceTable) (source : bufSrc) : textBuffer :=
  if bufSrc_eqb source original then originalBuf pt else modifyBuf pt.

Definition recordAction (pt : PieceTable) (a : action) (runeIndex : Z) : PieceTable :=
  mkPT (originalBuf pt) (modifyBuf pt) (seqLength pt) (seqBytes pt)
       (undoStack pt) (redoStack pt) (pieces pt) a runeIndex (lastInsertPiece pt).

(** Initialize the piece table with the text by adding the text to the
    original buffer, and create the first piece point to the buffer. *)
Definition init (pt : PieceTable) (text : list byte) : option PieceTable :=
  let '(pt, (_, _, runeCnt)) := addToBuffer pt original text in
  if runeCnt <=? 0 then Some pt
  else
    let '(st, p) := alloc (pieces pt)
      (mkPiece original 0 runeCnt 0 (len text) None None) in
    let? st := InsertBeforeTail st p in
    Some (with_seq (with_pieces pt st) runeCnt (len text)).

Definition NewPieceTable (text : list byte) : option PieceTable :=
  init (mkPT newTextBuffer newTextBuffer 0 0 [] [] newPieceList
             actionUnknown 0 None) text.

(** Check if this insert action can be optimized by merging the input
    with previous one.  multiple characters input won't be merged. *)
Definition tryAppendToLastPiece (pt : PieceTable) (runeIndex : Z)
    (text : list byte) : option (bool * PieceTable) :=
  if negb (action_eqb (lastAction pt) actionInsert)
     || negb (runeIndex =? lastActionEndIdx pt)
     || negb (bool_decide (is_Some (lastInsertPiece pt)))
     || (1 <? Utf8.RuneCount text)
  then Some (false, pt)
  else
    let '(pt, (_, _, textRunes)) := addToBuffer pt modify text in
    let? st := modify_at (pieces pt) (lastInsertPiece pt) (grow textRunes (len text)) in
    let pt := with_pieces pt st in
    let pt := with_seq pt (seqLength pt + textRunes) (seqBytes pt + len text) in
    Some (true, recordAction pt actionInsert (runeIndex + textRunes)).

Definition insertAtBoundary (pt : PieceTable) (runeIndex : Z)
    (text : list byte) (oldPiece : nat) : option PieceTable :=
  let '(pt, (textRuneOff, textByteOff, textRunes)) :=
    addToBuffer pt modify text in
  let '(st, newPiece) := alloc (pieces pt)
    (mkPiece modify textRuneOff textRunes textByteOff (len text) None None) in
  let pt := with_lastInsertPiece pt (Some newPiece) in
  (* insertion is at the boundary of 2 pieces. *)
  let oldPieces := newUndoPieceRange (seqLength pt) (seqBytes pt) runeIndex in
  let? oldPieces := AsBoundary oldPieces st oldPiece in
  let pt := with_stacks pt (oldPieces :: undoStack pt) (redoStack pt) in
  let? (newPieces, st) := Append newPieceRange st newPiece in
  (* swap link the new piece into the sequence *)
  let? st := Swap oldPieces newPieces st in
  let pt := with_pieces pt st in
  let pt := with_seq pt (seqLength pt + textRunes) (seqBytes pt + len text) in
  Some (recordAction pt actionInsert (runeIndex + textRunes)).

Definition insertInMiddle (pt : PieceTable) (runeIndex : Z)
    (text : list byte) (oldPiece : nat) (inRuneOff : Z) : option PieceTable :=
  let '(pt, (textRuneOff, textByteOff, textRunes)) :=
    addToBuffer pt modify text in
  let '(st, newPiece) := alloc (pieces pt)
    (mkPiece modify textRuneOff textRunes textByteOff (len text) None None) in
  let pt := with_lastInsertPiece pt (Some newPiece) in
  (* preserve the old pieces as a pieceRange, and push to the undo stack. *)
  let oldPieces := newUndoPieceRange (seqLength pt) (seqBytes pt) runeIndex in
  let? (oldPieces, st) := Append oldPieces st oldPiece in
  let pt := with_stacks pt (oldPieces :: undoStack pt) (redoStack pt) in
  let? old := st !! oldPiece in
  (* Append the left part of the old piece. *)
  let byteLen := tb_bytesForRange (getBuf pt (source old)) (offset old) inRuneOff in
  let '(st, leftPiece) := alloc st
    (mkPiece (source old) (offset old) inRuneOff (byteOff old) byteLen None None) in
  let? (newPieces, st) := Append newPieceRange st leftPiece in
  (* Then the newly added piece. *)
  let? (newPieces, st) := Append newPieces st newPiece in
  (* And the right part of the old piece. *)
  let byteOff' := tb_RuneOffset (getBuf pt (source old)) (offset old + inRuneOff) in
  let byteLen := tb_bytesForRange (getBuf pt (source old))
                   (offset old + inRuneOff) (length' old - inRuneOff) in
  let '(st, rightPiece) := alloc st
    (mkPiece (source old) (offset old + inRuneOff) (length' old - inRuneOff)
             byteOff' byteLen None None) in
  let? (newPieces, st) := Append newPieces st rightPiece in
  let? st := Swap oldPieces newPieces st in
  let pt := with_pieces pt st in
  let pt := with_seq pt (seqLength pt + textRunes) (seqBytes pt + len text) in
  Some (recordAction pt actionInsert (runeIndex + textRunes)).

(** Insert insert text at the logical position specifed by runeIndex.
    runeIndex is measured by rune. *)
Definition Insert (pt : PieceTable) (runeIndex : Z) (text : list byte)
  : option (bool * PieceTable) :=
  if (seqLength pt <? runeIndex) || (runeIndex <? 0) then Some (false, pt)
  else
    let pt := with_stacks pt (undoStack pt) [] in
    (* special-case: inserting at the end of a prior insertion at a
       piece boundary. *)
    let? (ok, pt) := tryAppendToLastPiece pt runeIndex text in
    if ok then Some (true, pt)
    else
      let? (oldPiece, inRuneOff) := FindPiece (pieces pt) runeIndex in
      let? pt := (if inRuneOff =? 0 then insertAtBoundary pt runeIndex text oldPiece
            else insertInMiddle pt runeIndex text oldPiece inRuneOff) in
      Some (true, pt).

Definition restorePieceRange (pt : PieceTable) (rng : pieceRange)
  : option (pieceRange * PieceTable) :=
  let? (rng, st) := Restore rng (pieces pt) in
  Some (rng, with_seq (with_pieces pt st) (rng_seqLength rng) (rng_seqBytes rng)).

(** [undoRedo] with [undo = true] moves a range from the undo stack to
    the redo stack, and the other way round otherwise.  The popped range
    is pushed onto the destination stack before it is restored; the
    stack holds a pointer to it, so the entry seen there afterwards is
    the restored range. *)
Definition undoRedo (pt : PieceTable) (undo : bool) : option (bool * PieceTable) :=
  let src := if undo then undoStack pt else redoStack pt in
  let dest := if undo then redoStack pt else undoStack pt in
  match src with
  | [] => Some (false, pt)
  | rng :: src =>
    let? (rng, pt) := restorePieceRange pt rng in
    let dest := rng :: dest in
    Some (true, if undo then with_stacks pt src dest else with_stacks pt dest src)
  end.

Definition Erase (pt : PieceTable) : PieceTable := pt.

Definition Replace (pt : PieceTable) : PieceTable := pt.

Definition Undo (pt : PieceTable) : option (bool * PieceTable) := undoRedo pt true.

Definition Redo (pt : PieceTable) : option (bool * PieceTable) := undoRedo pt false.

(** Size returns the total length of the document data in bytes. *)
Definition Length (pt : PieceTable) : Z := seqLength pt.

(** *** PieceTableReader *)

Record lineInfo := mkLineInfo { li_length : Z; hasLineBreak : bool }.

(** The reader embeds the piece table it reads. *)
Record PieceTableReader := mkReader {
  table : PieceTable;
  lines : list lineInfo;
  lastPiece : option nat;
  seekCursor : Z
}.

Definition with_seekCursor (r : PieceTableReader) (c : Z) : PieceTableReader :=
  mkReader (table r) (lines r) (lastPiece r) c.

(** [copy(p, fragment)] on the unwritten rest [p] of the destination:
    the bytes copied and the rest that remains. *)
Definition copy (p fragment : list byte) : list byte * list byte :=
  let n := Nat.min (List.length p) (List.length fragment) in
  (take n fragment, drop n p).

(** The loop of [ReadAt].  [out] is what has been written so far at the
    front of the destination, [p] its unwritten rest. *)
Fixpoint ReadAt_loop (fuel : nat) (pt : PieceTable) (n : nat)
    (out p : list byte) (total expected bytes offset : Z)
  : option (list byte * list byte * Z) :=
  match fuel with
  | O => None
  | S f =>
    if Nat.eqb n tail then Some (out, p, total)
    else
      let? pc := pieces pt !! n in
      let bytes := bytes + byteLength pc in
      if offset <? bytes then
        let? fragment := tb_getTextByRange (getBuf pt (source pc))
                           (byteOff pc + byteLength pc - (bytes - offset))
                           (bytes - offset) in
        let '(written, p) := copy p fragment in
        let n' := len written in
        let out := out ++ written in
        let total := total + n' in
        let offset := offset + n' in
        if expected <=? total then Some (out, p, total)
        else
          let? nx := next pc in
          ReadAt_loop f pt nx out p total expected bytes offset
      else
        let? nx := next pc in
        ReadAt_loop f pt nx out p total expected bytes offset
  end.

(** ReadAt implements [io.ReaderAt].  The result is the destination
    after the call, the number of bytes read and the error. *)
Definition ReadAt (r : PieceTableReader) (p : list byte) (offset : Z)
  : option (list byte * Z * error) :=
  if len p =? 0 then Some (p, 0, nil)
  else if seqBytes (table r) <=? offset then Some (p, 0, EOF)
  else
    let expected := len p in
    let? n := Head (pieces (table r)) in
    let? (out, rest, total) :=
      ReadAt_loop (List.length (pieces (table r))) (table r) n [] p 0 expected 0 offset in
    Some (out ++ rest, total, if total <? expected then EOF else nil).

Inductive whence := SeekStart | SeekCurrent | SeekEnd.

(** Seek implements [io.Seeker]. *)
Definition Seek (r : PieceTableReader) (offset : Z) (w : whence)
  : PieceTableReader * Z :=
  let c := match w with
           | SeekStart => offset
           | SeekCurrent => seekCursor r + offset
           | SeekEnd => seqBytes (table r) + offset
           end in
  (with_seekCursor r c, c).

(** Read implements [io.Reader]. *)
Definition Read (r : PieceTableReader) (p : list byte)
  : option (PieceTableReader * list byte * Z * error) :=
  let? (p, n, err) := ReadAt r p (seekCursor r) in
  Some (with_seekCursor r (seekCursor r + n), p, n, err).

(** [io.ReadFull], that is [io.ReadAtLeast(r, buf, len(buf))]: read
    until [min] bytes are there or an error occurs.  [done] is the
    filled front [buf[:n]] and [rest] is [buf[n:]]. *)
Fixpoint ReadAtLeast_loop (fuel : nat) (r : PieceTableReader)
    (done rest : list byte) (n min : Z) (err : error)
  : option (PieceTableReader * list byte * list byte * Z * error) :=
  if (n <? min) && error_eqb err nil then
    match fuel with
    | O => None
    | S f =>
      let? (r, p, nn, err) := Read r rest in
      ReadAtLeast_loop f r (done ++ take (Z.to_nat nn) p)
                       (drop (Z.to_nat nn) p) (n + nn) min err
    end
  else Some (r, done, rest, n, err).

Definition ReadFull (r : PieceTableReader) (buf : list byte)
  : option (PieceTableReader * list byte * Z * error) :=
  let min := len buf in
  let? (r, done, rest, n, err) :=
    ReadAtLeast_loop (S (List.length buf)) r [] buf 0 min nil in
  let err := if min <=? n then nil
             else if (0 <? n) && error_eqb err EOF then ErrUnexpectedEOF
             else err in
  Some (r, done ++ rest, n, err).

(** [Text] reads the whole document into [buf], reallocated when its
    capacity (here its length) is too small. *)
Definition Text (r : PieceTableReader) (buf : list byte)
  : option (PieceTableReader * list byte) :=
  let size := seqBytes (table r) in
  if size <? 0 then None
  else
    let buf := if len buf <? size then replicate (Z.to_nat size) x00 else buf in
    let buf := take (Z.to_nat size) buf in
    let '(r, _) := Seek r 0 SeekStart in
    let? (r, buf, n, _) := ReadFull r buf in
    Some (r, take (Z.to_nat n) buf).

(** The loop of [RuneOffset]. *)
Fixpoint RuneOffset_loop (fuel : nat) (pt : PieceTable) (n : nat)
    (bytes runes runeOff : Z) : option Z :=
  match fuel with
  | O => None
  | S f =>
    if Nat.eqb n tail then Some bytes
    else
      let? pc := pieces pt !! n in
      if runeOff <? runes + length' pc then
        Some (bytes + tb_bytesForRange (getBuf pt (source pc)) (offset pc)
                                       (runeOff - runes))
      else
        let? nx := next pc in
        RuneOffset_loop f pt nx (bytes + byteLength pc) (runes + length' pc) runeOff
  end.

(** RuneOffset returns the byte offset for the rune at position runeOff. *)
Definition RuneOffset (r : PieceTableReader) (runeOff : Z) : option Z :=
  let pt := table r in
  if seqLength pt =? 0 then Some 0
  else if seqLength pt <=? runeOff then Some (seqBytes pt)
  else
    let? n := Head (pieces pt) in
    RuneOffset_loop (List.length (pieces pt)) pt n 0 0 runeOff.

Definition NewReader (pt : PieceTable) : PieceTableReader :=
  mkReader pt [] None 0.

Definition NewTextSource : option PieceTableReader :=
  let? pt := NewPieceTable (B "") in Some (NewReader pt).

(** The document text: what [Text] reads through a reader of the table. *)
Definition document (pt : PieceTable) : option (list byte) :=
  let? (_, buf) := Text (NewReader pt) [] in Some buf.

(** *** The sequence a piece list stands for *)

(** The pieces from [n] up to the tail sentinel, in list order. *)
Fixpoint walk (fuel : nat) (st : store) (n : nat) : option (list nat) :=
  match fuel with
  | O => None
  | S f =>
    if Nat.eqb n tail then Some []
    else
      let? p := st !! n in
      let? nx := next p in
      let? r := walk f st nx in
      Some (n :: r)
  end.

Definition piece_ids (pt : PieceTable) : option (list nat) :=
  let? n := Head (pieces pt) in walk (List.length (pieces pt)) (pieces pt) n.

(** What a piece refers to: source, rune offset and length, byte offset
    and length. *)
Definition span_of (p : piece) : bufSrc * Z * Z * Z * Z :=
  (source p, offset p, length' p, byteOff p, byteLength p).

Definition piece_spans (pt : PieceTable) : option (list (bufSrc * Z * Z * Z * Z)) :=
  let? ids := piece_ids pt in
  Some (omap (fun i => option_map span_of (pieces pt !! i)) ids).

(** [a.next == b] and [b.prev == a]. *)
Definition nxt (st : store) (a : nat) : option nat := let? p := st !! a in next p.
Definition prv (st : store) (a : nat) : option nat := let? p := st !! a in prev p.
Definition linked (st : store) (a b : nat) : Prop :=
  nxt st a = Some b /\ prv st b = Some a.

(** Consecutive nodes of [l] are linked both ways. *)
Fixpoint seg (st : store) (l : list nat) : Prop :=
  match l with
  | a :: ((b :: _) as t) => linked st a b /\ seg st t
  | _ => True
  end.

(** The store holds the list [head; ps; tail]. *)
Definition is_list (st : store) (ps : list nat) : Prop :=
  seg st (head :: ps ++ [tail]) /\ NoDup (head :: ps ++ [tail]).

(** A table whose piece list is [ps] and whose last-insert pointer, when
    set, points to an allocated piece. *)
Definition wf_table (pt : PieceTable) (ps : list nat) : Prop :=
  is_list (pieces pt) ps /\
  (forall p, lastInsertPiece pt = Some p -> is_Some (pieces pt !! p)).

(** *** The text a table stands for *)

(** The piece a pointer refers to. *)
Definition piece_at (st : store) (p : nat) : piece :=
  default (sentinel None None) (st !! p).

(** The runes a piece covers in its buffer. *)
Definition chunks_of (pt : PieceTable) (pc : piece) : list (list byte) :=
  take (Z.to_nat (length' pc))
       (drop (Z.to_nat (offset pc)) (Utf8.runes (getBuf pt (source pc)))).

(** A piece lies within its buffer, and its byte offset and byte length
    are those of its runes. *)
Definition piece_ok (pt : PieceTable) (pc : piece) : Prop :=
  0 <= offset pc /\ 0 <= length' pc /\
  offset pc + length' pc <= Utf8.RuneCount (getBuf pt (source pc)) /\
  byteOff pc = tb_RuneOffset (getBuf pt (source pc)) (offset pc) /\
  byteLength pc = tb_bytesForRange (getBuf pt (source pc)) (offset pc) (length' pc).

Definition sum_runes (st : store) (l : list nat) : Z :=
  fold_right (fun p s => length' (piece_at st p) + s) 0 l.
Definition sum_bytes (st : store) (l : list nat) : Z :=
  fold_right (fun p s => byteLength (piece_at st p) + s) 0 l.

(** The runes of the document: those of its pieces, in list order. *)
Definition doc_chunks (pt : PieceTable) (l : list nat) : list (list byte) :=
  concat (map (fun p => chunks_of pt (piece_at (pieces pt) p)) l).

(** A well-formed document: the pieces [ps] form the list, the buffers
    hold valid UTF-8, every piece is within its buffer, and the counters
    are the sums over the pieces. *)
Definition doc_ok (pt : PieceTable) (ps : list nat) : Prop :=
  is_list (pieces pt) ps /\
  Utf8.Valid (originalBuf pt) = true /\
  Utf8.Valid (modifyBuf pt) = true /\
  Forall (fun p => piece_ok pt (piece_at (pieces pt) p)) ps /\
  seqLength pt = sum_runes (pieces pt) ps /\
  seqBytes pt = sum_bytes (pieces pt) ps.

(** The coalescing state is sound: after an insert, the last inserted
    piece is in the list, ends where the last action ended, and covers
    the end of the modify buffer. *)
Definition last_ok (pt : PieceTable) (ps : list nat) : Prop :=
  (forall p, lastInsertPiece pt = Some p -> is_Some (pieces pt !! p)) /\
  (lastAction pt = actionInsert ->
   forall lp, lastInsertPiece pt = Some lp ->
     exists l1 l2,
       ps = l1 ++ lp :: l2 /\
       source (piece_at (pieces pt) lp) = modify /\
       offset (piece_at (pieces pt) lp) + length' (piece_at (pieces pt) lp)
         = Utf8.RuneCount (modifyBuf pt) /\
       sum_runes (pieces pt) (l1 ++ [lp]) = lastActionEndIdx pt).

(** *** The reference: edits of a plain string *)

(** Modelled from the spec: the reference string of the testable
    properties; inserting [text] before the rune at index [i]. *)
Definition ref_insert (s : list byte) (i : Z) (text : list byte) : list byte :=
  let b := Z.to_nat (tb_RuneOffset s i) in
  take b s ++ text ++ drop b s.

(** An insert, with its index in range of the reference string. *)
Definition ref_step (s : list byte) (op : Z * list byte) : option (list byte) :=
  if (0 <=? fst op) && (fst op <=? Utf8.RuneCount s)
  then Some (ref_insert s (fst op) (snd op)) else None.

Fixpoint ref_run (s : list byte) (ops : list (Z * list byte)) : option (list byte) :=
  match ops with
  | [] => Some s
  | op :: ops' => let? s' := ref_step s op in ref_run s' ops'
  end.

(** The same inserts applied to the table, each one accepted. *)
Fixpoint run_inserts (pt : PieceTable) (ops : list (Z * list byte))
  : option PieceTable :=
  match ops with
  | [] => Some pt
  | op :: ops' =>
    let? (ok, pt') := Insert pt (fst op) (snd op) in
    if ok : bool then run_inserts pt' ops' else None
  end.

(** The texts inserted are valid UTF-8 and not empty. *)
Definition text_ok (op : Z * list byte) : Prop :=
  Utf8.Valid (snd op) = true /\ snd op <> [].

(** *** Views of the store used in the proofs *)

(** A function changed at one point. *)
Definition upd {A} (f : nat -> A) (i : nat) (x : A) : nat -> A :=
  fun a => if decide (a = i) then x else f a.

(** The span of the piece a pointer refers to. *)
Definition spn (st : store) (a : nat) : bufSrc * Z * Z * Z * Z :=
  span_of (piece_at st a).

(** The store after a new piece [pcn] has been linked between [p] and
    [x]. *)
Definition boundary_store (st : store) (p x : nat) (pcn : piece) : store :=
  let n := List.length st in
  alter (set_next (Some x)) n
    (alter (set_prev (Some p)) n
       (alter (set_prev (Some n)) x
          (alter (set_next (Some n)) p (st ++ [pcn])))).

(** The store after the pieces [l], [m], [r] (left part, new piece,
    right part) have been linked between [p] and [s]. *)
Definition middle_store (st : store) (p s : nat) (pcm pcl pcr : piece) : store :=
  let m := List.length st in
  let l := S m in
  let r := S l in
  alter (set_next (Some s)) r
    (alter (set_prev (Some p)) l
       (alter (set_prev (Some r)) s
          (alter (set_next (Some l)) p
             (alter (set_prev (Some m)) r
                (alter (set_next (Some r)) m
                   ((alter (set_prev (Some l)) m
                       (alter (set_next (Some m)) l
                          ((st ++ [pcm]) ++ [pcl]))) ++ [pcr])))))).

(** The table after the text has been added to the modify buffer. *)
Definition buffered (pt : PieceTable) (text : list byte) : PieceTable :=
  with_bufs pt (originalBuf pt) (modifyBuf pt ++ text).

(** Where the text lies in the modify buffer, as [addToBuffer] reports
    it: nowhere for an empty text. *)
Definition text_pos (pt : PieceTable) (text : list byte) : Z * Z :=
  match text with
  | [] => (0, 0)
  | _ => (Utf8.RuneCount (modifyBuf pt), len (modifyBuf pt))
  end.

(** The condition under which an insert is merged into the last
    inserted piece. *)
Definition coalesces (pt : PieceTable) (runeIndex : Z) (text : list byte) : bool :=
  action_eqb (lastAction pt) actionInsert
  && (runeIndex =? lastActionEndIdx pt)
  && bool_decide (is_Some (lastInsertPiece pt))
  && (Utf8.RuneCount text <=? 1).

(** The table after an insert merged into the piece [lp]. *)
Definition coalesced (pt : PieceTable) (i : Z) (text : list byte) (lp : nat)
  : PieceTable :=
  mkPT (originalBuf pt) (modifyBuf pt ++ text)
       (seqLength pt + Utf8.RuneCount text) (seqBytes pt + len text)
       (undoStack pt) []
       (alter (grow (Utf8.RuneCount text) (len text)) lp (pieces pt))
       actionInsert (i + Utf8.RuneCount text) (Some lp).

(** The new piece of an insert. *)
Definition new_piece (pt : PieceTable) (text : list byte) : piece :=
  mkPiece modify (fst (text_pos pt text)) (Utf8.RuneCount text)
          (snd (text_pos pt text)) (len text) None None.

(** The left and right parts of the piece [pcx] split at rune [off]. *)
Definition left_piece (pt : PieceTable) (text : list byte) (pcx : piece) (off : Z)
  : piece :=
  let buf := getBuf (buffered pt text) (source pcx) in
  mkPiece (source pcx) (offset pcx) off (byteOff pcx)
          (tb_bytesForRange buf (offset pcx) off) None None.
Definition right_piece (pt : PieceTable) (text : list byte) (pcx : piece) (off : Z)
  : piece :=
  let buf := getBuf (buffered pt text) (source pcx) in
  mkPiece (source pcx) (offset pcx + off) (length' pcx - off)
          (tb_RuneOffset buf (offset pcx + off))
          (tb_bytesForRange buf (offset pcx + off) (length' pcx - off))
          None None.

(** The table after an insert at the boundary before [x], whose
    predecessor is [p]. *)
Definition inserted_boundary (pt : PieceTable) (i : Z) (text : list byte)
    (p x : nat) : PieceTable :=
  mkPT (originalBuf pt) (modifyBuf pt ++ text)
       (seqLength pt + Utf8.RuneCount text) (seqBytes pt + len text)
       (mkRange (Some p) (Some x) true (seqLength pt) (seqBytes pt) i
          :: undoStack pt)
       []
       (boundary_store (pieces pt) p x (new_piece pt text))
       actionInsert (i + Utf8.RuneCount text)
       (Some (List.length (pieces pt))).

(** The table after an insert in the middle of [x], at rune [off] of
    it; [p] and [s] are the neighbours of [x]. *)
Definition inserted_middle (pt : PieceTable) (i : Z) (text : list byte)
    (p s x : nat) (off : Z) : PieceTable :=
  mkPT (originalBuf pt) (modifyBuf pt ++ text)
       (seqLength pt + Utf8.RuneCount text) (seqBytes pt + len text)
       (mkRange (Some x) (Some x) false (seqLength pt) (seqBytes pt) i
          :: undoStack pt)
       []
       (middle_store (pieces pt) p s (new_piece pt text)
          (left_piece pt text (piece_at (pieces pt) x) off)
          (right_piece pt text (piece_at (pieces pt) x) off))
       actionInsert (i + Utf8.RuneCount text)
       (Some (List.length (pieces pt))).

(** Texts typed one after the other, each at the position where the
    one before ended. *)
Fixpoint type_texts (pt : PieceTable) (i : Z) (texts : list (list byte))
  : option PieceTable :=
  match texts with
  | [] => Some pt
  | t :: ts =>
    let? (ok, pt') := Insert pt i t in
    if ok : bool then type_texts pt' (i + Utf8.RuneCount t) ts else None
  end.

(** The table holding "hello", and the empty one. *)
Definition hello_table : PieceTable :=
  Eval vm_compute in default (mkPT [] [] 0 0 [] [] [] actionUnknown 0 None)
                             (NewPieceTable (B "hello")).
Definition empty_table : PieceTable :=
  Eval vm_compute in default (mkPT [] [] 0 0 [] [] [] actionUnknown 0 None)
                             (NewPieceTable (B "")).

(** *** The document as a list of runes *)

(** The invariant of the tables built by [NewPieceTable] and [Insert]. *)
Definition doc_inv (pt : PieceTable) (ps : list nat) : Prop :=
  doc_ok pt ps /\ last_ok pt ps.

(** The bytes a piece covers in its buffer. *)
Definition piece_bytes (pt : PieceTable) (pc : piece) : list byte :=
  concat (chunks_of pt pc).

(** Modelled from the spec: the reference string of the testable
    properties with the runes from [start] up to [end'] erased. *)
Definition ref_erase (s : list byte) (start end' : Z) : list byte :=
  take (Z.to_nat (tb_RuneOffset s start)) s ++
  drop (Z.to_nat (tb_RuneOffset s end')) s.

(** Modelled from the spec: the conversion of a byte offset of the
    document into a rune index, which the sources at hand do not have;
    it is the number of runes in the bytes before the offset. *)
Definition RuneIndex (doc : list byte) (byteOffset : Z) : Z :=
  Utf8.RuneCount (take (Z.to_nat byteOffset) doc).

(** The forward byte walk: the bytes taken by the first [r] runes of the
    document, counted rune by rune from its start. *)
Fixpoint byte_walk (fuel : nat) (doc : list byte) (r : Z) (bytes : Z) : Z :=
  match fuel with
  | O => bytes
  | S f =>
    if (r <=? 0) || (len doc =? 0) then bytes
    else
      let w := Utf8.width doc in
      byte_walk f (drop w doc) (r - 1) (bytes + Z.of_nat w)
  end.

Definition forward_walk (doc : list byte) (r : Z) : Z :=
  byte_walk (List.length doc) doc r 0.

(** The table holding a text with runes of two and three bytes, after
    an insert in the middle of its piece. *)
Definition mixed_table : PieceTable :=
  Eval vm_compute in
    default (mkPT [] [] 0 0 [] [] [] actionUnknown 0 None)
      (let? pt := NewPieceTable (B "héllo") in
       let? (_, pt) := Insert pt 3 (B "日本") in Some pt).

(** *** The reader: runes and lines *)

(** ReadRuneAtBytes reads the rune starting at the given byte offset,
    if any: the rune, its width and the error. *)
Definition ReadRuneAtBytes (r : PieceTableReader) (off : Z)
  : option (Z * nat * error) :=
  let b := replicate (Z.to_nat Utf8.UTFMax) x00 in
  let? (b, n, err) := ReadAt r b off in
  let err := if error_eqb err EOF && (0 <? n) then nil else err in
  let b := take (Z.to_nat n) b in
  let '(c, s) := Utf8.DecodeRune b in
  Some (c, s, err).

Definition ReadRuneAt (r : PieceTableReader) (runeOff : Z) : option (Z * error) :=
  let? bytesOff := RuneOffset r runeOff in
  let? (c, _, err) := ReadRuneAtBytes r bytesOff in
  Some (c, err).

(** Modelled from the spec: the constant [lineBreak] is not among the
    sources at hand; a hard line break is the newline rune. *)
Definition lineBreak : Z := 10.

(** The loop of [parseLine] over the runes of the text; [n] counts the
    runes of the line being read. *)
Fixpoint parseLine_loop (rs : list Z) (n : Z) (lines : list lineInfo)
  : list lineInfo * Z :=
  match rs with
  | [] => (lines, n)
  | c :: rs' =>
    let n := n + 1 in
    if c =? lineBreak
    then parseLine_loop rs' 0 (lines ++ [mkLineInfo n true])
    else parseLine_loop rs' n lines
  end.

(** [parseLine] on the runes [for range] yields. *)
Definition parseRunes (rs : list Z) : list lineInfo :=
  let '(lines, n) := parseLine_loop rs 0 [] in
  (* The remaining bytes that don't end with a line break. *)
  if 0 <? n then lines ++ [mkLineInfo n false] else lines.

Definition parseLine (text : list byte) : list lineInfo :=
  parseRunes (Utf8.to_runes text).

(** The lines of one more piece added to those found so far: the first
    one is merged with the last line so far when that one has no line
    break. *)
Definition add_lines (lines new : list lineInfo) : list lineInfo :=
  match new with
  | [] => lines
  | l0 :: rest =>
    match list.last lines with
    | Some lastLine =>
      if negb (hasLineBreak lastLine)
      then removelast lines ++
           mkLineInfo (li_length l0 + li_length lastLine) (hasLineBreak l0) :: rest
      else lines ++ new
    | None => lines ++ new
    end
  end.

Fixpoint Lines_loop (fuel : nat) (pt : PieceTable) (n : nat)
    (lines : list lineInfo) : option (list lineInfo) :=
  match fuel with
  | O => None
  | S f =>
    if Nat.eqb n tail then Some lines
    else
      let? pc := pieces pt !! n in
      let? pieceText := tb_getTextByRange (getBuf pt (source pc))
                          (byteOff pc) (byteLength pc) in
      let lines := add_lines lines (parseLine pieceText) in
      let? nx := next pc in
      Lines_loop f pt nx lines
  end.

(** [Lines] rebuilds the line table of the reader and returns the
    number of lines. *)
Definition Lines (r : PieceTableReader) : option (PieceTableReader * Z) :=
  let? n := Head (pieces (table r)) in
  let? lines := Lines_loop (List.length (pieces (table r))) (table r) n [] in
  Some (mkReader (table r) lines (lastPiece r) (seekCursor r),
        Z.of_nat (List.length lines)).

(** The rune lengths of a line table, summed. *)
Definition lines_runes (lines : list lineInfo) : Z :=
  fold_right (fun l s => li_length l + s) 0 lines.

(** A document of three lines in three pieces, the line breaks not at
    the piece boundaries: "a", then the inserted "x\ny", then "b\ncd". *)
Definition lines_table : PieceTable :=
  Eval vm_compute in
    default (mkPT [] [] 0 0 [] [] [] actionUnknown 0 None)
      (let? pt := NewPieceTable (B "ab" ++ [x0a] ++ B "cd") in
       let? (_, pt) := Insert pt 1 (B "x" ++ [x0a] ++ B "y") in Some pt).

End Buffer.

(** ** Package layout *)

Module Layout.

(** [fixed.Int26_6] is an [int32]: sums and differences wrap around. *)
Definition wrap32 (z : Z) : Z := (z + 2147483648) mod 4294967296 - 2147483648.
Definition add32 (a b : Z) : Z := wrap32 (a + b).
Definition sub32 (a b : Z) : Z := wrap32 (a - b).

(** [fixed.I] *)
Definition I (i : Z) : Z := wrap32 (Z.shiftl i 6).

(** The flags of [gioui.org/text]: bits of a [uint16]. *)
Definition FlagTowardOrigin : Z := 1.
Definition FlagLineBreak : Z := 2.
Definition FlagRunBreak : Z := 4.
Definition FlagClusterBreak : Z := 8.
Definition FlagParagraphBreak : Z := 16.

(** [text.Glyph], the fields the layout code reads or writes. *)
Record Glyph := mkGlyph {
  X : Z;
  Y : Z;
  Advance : Z;
  Ascent : Z;
  Descent : Z;
  Runes : Z;
  Flags : Z
}.

Definition set_X (g : Glyph) (x : Z) : Glyph :=
  mkGlyph x (Y g) (Advance g) (Ascent g) (Descent g) (Runes g) (Flags g).
Definition set_Flags (g : Glyph) (f : Z) : Glyph :=
  mkGlyph (X g) (Y g) (Advance g) (Ascent g) (Descent g) (Runes g) f.

(** Line contains various metrics of a line of text.  [Glyphs] holds
    pointers to glyphs of the line's own, one per position. *)
Record Line := mkLine {
  XOff : Z;
  YOff : Z;
  Width : Z;
  LAscent : Z;
  LDescent : Z;
  Glyphs : list Glyph;
  (* runes is the number of runes represented by this line. *)
  LRunes : Z;
  (* runeOff tracks the rune offset of the first rune of the line in the
     document. *)
  RuneOff : Z
}.

Definition with_glyphs (li : Line) (gs : list Glyph) (runeOff : Z) : Line :=
  mkLine (XOff li) (YOff li) (Width li) (LAscent li) (LDescent li) gs
         (LRunes li) runeOff.

(** [g.Flags & text.FlagTowardOrigin] *)
Definition dir (g : Glyph) : Z := Z.land (Flags g) FlagTowardOrigin.

(** Ensure the last glyph in the line gets the break flag. *)
Definition break_if_last (gs : list Glyph) (j : nat) (g : Glyph) : Glyph :=
  if Z.of_nat j =? Z.of_nat (List.length gs) - 1
  then set_Flags g (Z.lor (Flags g) FlagLineBreak) else g.

(** [for j := runStart; j < i; j++ { runWidth += li.Glyphs[j].Advance }],
    [n] iterations from [j]. *)
Fixpoint runWidth_loop (gs : list Glyph) (j n : nat) (runWidth : Z) : option Z :=
  match n with
  | O => Some runWidth
  | S n' =>
    let? g := gs !! j in
    runWidth_loop gs (S j) n' (add32 runWidth (Advance g))
  end.

(** RTL Run: start the cursor at the right edge and subtract advances. *)
Fixpoint rtl_loop (gs : list Glyph) (j n : nat) (cursor : Z)
  : option (list Glyph) :=
  match n with
  | O => Some gs
  | S n' =>
    let? g := gs !! j in
    let cursor := sub32 cursor (Advance g) in
    let g := break_if_last gs j (set_X g cursor) in
    rtl_loop (<[j := g]> gs) (S j) n' cursor
  end.

(** LTR Run: start the cursor at the left edge and add advances. *)
Fixpoint ltr_loop (gs : list Glyph) (j n : nat) (cursor : Z)
  : option (list Glyph) :=
  match n with
  | O => Some gs
  | S n' =>
    let? g := gs !! j in
    let g' := break_if_last gs j (set_X g cursor) in
    ltr_loop (<[j := g']> gs) (S j) n' (add32 cursor (Advance g))
  end.

(** [for i := 0; i <= len(li.Glyphs); i++], [n] iterations from [i]. *)
Fixpoint recompute_loop (n : nat) (gs : list Glyph) (alignOff xOff : Z)
    (runStart i : nat) : option (list Glyph) :=
  match n with
  | O => Some gs
  | S n' =>
    (* Determine if the current run has ended (end of line or direction
       change) *)
    let? endOfRun :=
      if Nat.eqb i (List.length gs) then Some true
      else
        let? gi := gs !! i in
        let? g0 := gs !! runStart in
        Some (negb (dir gi =? dir g0)) in
    if endOfRun : bool then
      (* Calculate the total width of this specific run *)
      let? runWidth := runWidth_loop gs runStart (i - runStart) (I 0) in
      let? g0 := gs !! runStart in
      let isRTL := dir g0 =? FlagTowardOrigin in
      let? gs :=
        if isRTL
        then rtl_loop gs runStart (i - runStart)
                      (add32 (add32 alignOff xOff) runWidth)
        else ltr_loop gs runStart (i - runStart) (add32 alignOff xOff) in
      (* Advance the global line offset by the run's width *)
      recompute_loop n' gs alignOff (add32 xOff runWidth) i (S i)
    else recompute_loop n' gs alignOff xOff runStart (S i)
  end.

(** recompute re-computes X position for Bidi text by processing runs of
    direction. *)
Definition recompute (li : Line) (alignOff runeOff : Z) : option Line :=
  if Nat.eqb (List.length (Glyphs li)) 0 then
    Some (with_glyphs li (Glyphs li) runeOff)
  else
    let? gs := recompute_loop (S (List.length (Glyphs li))) (Glyphs li)
                              alignOff (I 0) 0 0 in
    Some (with_glyphs li gs runeOff).

(** *** The layout the specification describes *)

(** The maximal runs of equal direction flag, in logical order. *)
Fixpoint runs (gs : list Glyph) : list (list Glyph) :=
  match gs with
  | [] => []
  | g :: t =>
    match runs t with
    | (h :: r) :: rs =>
      if dir g =? dir h then (g :: h :: r) :: rs else [g] :: (h :: r) :: rs
    | _ => [[g]]
    end
  end.

(** A run: glyphs that all have the direction [d]. *)
Definition uniform (d : Z) (run : list Glyph) : Prop :=
  Forall (fun g => dir g = d) run.

(** Every run is non-empty and of one direction, and neighbouring runs
    differ in direction: the runs are maximal. *)
Fixpoint maximal_runs (rs : list (list Glyph)) : Prop :=
  match rs with
  | [] => True
  | r :: rs' =>
    match r with
    | [] => False
    | g :: _ =>
      uniform (dir g) r /\
      match rs' with
      | (h :: _) :: _ => dir g <> dir h
      | _ => True
      end /\ maximal_runs rs'
    end
  end.

Definition run_width (run : list Glyph) : Z :=
  fold_left (fun w g => add32 w (Advance g)) run 0.

(** Glyphs placed from [cursor] ascending by each advance. *)
Fixpoint place_ltr (cursor : Z) (run : list Glyph) : list Glyph :=
  match run with
  | [] => []
  | g :: t => set_X g cursor :: place_ltr (add32 cursor (Advance g)) t
  end.

(** Glyphs placed from the right edge [cursor] descending by each
    advance. *)
Fixpoint place_rtl (cursor : Z) (run : list Glyph) : list Glyph :=
  match run with
  | [] => []
  | g :: t =>
    set_X g (sub32 cursor (Advance g)) :: place_rtl (sub32 cursor (Advance g)) t
  end.

Definition is_rtl (run : list Glyph) : bool :=
  match run with
  | g :: _ => dir g =? FlagTowardOrigin
  | [] => false
  end.

(** One run laid out in the span that starts at [left] and is
    [run_width run] wide. *)
Definition place_run (left : Z) (run : list Glyph) : list Glyph :=
  if is_rtl run then place_rtl (add32 left (run_width run)) run
  else place_ltr left run.

(** The runs laid out left to right, each in the next span. *)
Fixpoint place_runs (alignOff xOff : Z) (rs : list (list Glyph)) : list Glyph :=
  match rs with
  | [] => []
  | r :: rs' =>
    place_run (add32 alignOff xOff) r
      ++ place_runs alignOff (add32 xOff (run_width r)) rs'
  end.

(** The final glyph of the line receives the [LineBreak] flag. *)
Fixpoint mark_last (gs : list Glyph) : list Glyph :=
  match gs with
  | [] => []
  | [g] => [set_Flags g (Z.lor (Flags g) FlagLineBreak)]
  | g :: t => g :: mark_last t
  end.

Definition mark (g : Glyph) : Glyph := set_Flags g (Z.lor (Flags g) FlagLineBreak).

(** The glyphs of the run being laid out get the flag on their last
    glyph when nothing follows the run. *)
Definition fin (rest l : list Glyph) : list Glyph :=
  match rest with [] => mark_last l | _ => l end.

Definition visual_layout (alignOff : Z) (gs : list Glyph) : list Glyph :=
  mark_last (place_runs alignOff 0 (runs gs)).

(** The extent of the glyphs on the X axis. *)
Definition x_min (gs : list Glyph) : Z :=
  match gs with
  | [] => 0
  | g :: t => fold_left (fun m h => Z.min m (X h)) t (X g)
  end.
Definition x_max (gs : list Glyph) : Z :=
  match gs with
  | [] => 0
  | g :: t => fold_left (fun m h => Z.max m (X h + Advance h)) t (X g + Advance g)
  end.
Definition x_span (gs : list Glyph) : Z := x_max gs - x_min gs.

(** The glyphs of [l] lie within [[a, b]] and reach both ends. *)
Definition tiles (a b : Z) (l : list Glyph) : Prop :=
  Forall (fun g => a <= X g /\ X g + Advance g <= b) l /\
  Exists (fun g => X g = a) l /\
  Exists (fun g => X g + Advance g = b) l.

(** Values that fit a [fixed.Int26_6]. *)
Definition fits32 (z : Z) : Prop := -2147483648 <= z < 2147483648.

Definition sum_advances (gs : list Glyph) : Z :=
  fold_right (fun g s => Advance g + s) 0 gs.

(** *** Lines and paragraphs *)

Definition set_Y (g : Glyph) (y : Z) : Glyph :=
  mkGlyph (X g) y (Advance g) (Ascent g) (Descent g) (Runes g) (Flags g).

(** One round of the loop of [Line.append]. *)
Definition append_glyph (li : Line) (gl : Glyph) : Line :=
  mkLine (if X gl <? XOff li then X gl else XOff li)
         (Y gl)
         (add32 (Width li) (Advance gl))
         (* glyph ascent and descent are derived from the line ascent
            and descent, so it is safe to just set them as the line's
            ascent and descent. *)
         (Ascent gl) (Descent gl)
         (Glyphs li ++ [gl])
         (LRunes li + Runes gl)
         (RuneOff li).

(** [Line.append]: the line gets its own copy of each glyph. *)
Definition append (li : Line) (glyphs : list Glyph) : Line :=
  fold_left append_glyph glyphs li.

(** [Line.adjustYOff]; the glyphs' Y is an [int32]. *)
Definition adjustYOff (li : Line) (yOff : Z) : Line :=
  mkLine (XOff li) yOff (Width li) (LAscent li) (LDescent li)
         (map (fun gl => set_Y gl (wrap32 yOff)) (Glyphs li))
         (LRunes li) (RuneOff li).

(** Paragraph contains the pixel coordinates of the start and end
    position of the paragraph. *)
Record Paragraph := mkParagraph {
  StartX : Z;
  StartY : Z;
  EndX : Z;
  EndY : Z;
  (* Runes is the number of runes represented by this paragraph. *)
  PRunes : Z;
  (* RuneOff tracks the rune offset of the first rune of the paragraph
     in the document. *)
  PRuneOff : Z
}.

Definition Paragraph_zero : Paragraph := mkParagraph 0 0 0 0 0 0.

(** Add add a visual line to the paragraph, returning a boolean value
    indicating the end of a paragraph.  A line without glyphs panics. *)
Definition Add (p : Paragraph) (li : Line) : option (bool * Paragraph) :=
  let? lastGlyph := list.last (Glyphs li) in
  let? p :=
    if PRunes p =? 0 then
      let? start := Glyphs li !! 0%nat in
      Some (mkParagraph (X start) (Y start) (X lastGlyph) (Y lastGlyph)
                        (PRunes p) (RuneOff li))
    else
      Some (mkParagraph (StartX p) (StartY p) (X lastGlyph) (Y lastGlyph)
                        (PRunes p) (PRuneOff p)) in
  let p := mkParagraph (StartX p) (StartY p) (EndX p) (EndY p)
                       (PRunes p + LRunes li) (PRuneOff p) in
  Some (negb (Z.land (Flags lastGlyph) FlagParagraphBreak =? 0), p).

(** The lines of a paragraph added one after the other. *)
Fixpoint Add_all (p : Paragraph) (lis : list Line) : option Paragraph :=
  match lis with
  | [] => Some p
  | li :: lis' => let? (_, p') := Add p li in Add_all p' lis'
  end.

(** The glyphs agree in all but X and flags. *)
Definition same_shape (g g' : Glyph) : Prop :=
  Y g' = Y g /\ Advance g' = Advance g /\ Ascent g' = Ascent g /\
  Descent g' = Descent g /\ Runes g' = Runes g.

(** What the layout reads of a glyph: its advance and its direction. *)
Definition same_run_key (g g' : Glyph) : Prop :=
  Advance g' = Advance g /\ dir g' = dir g.

(** [o] is the glyph [g] moved along the X axis. *)
Definition placed (g o : Glyph) : Prop := o = set_X g (X o).

Definition sum_glyph_runes (gs : list Glyph) : Z :=
  fold_right (fun g s => Runes g + s) 0 gs.

(** The glyphs in the order they are seen from left to right: the runs
    in order, a right-to-left run back to front. *)
Definition visual_order (rs : list (list Glyph)) : list Glyph :=
  concat (map (fun r => if is_rtl r then rev r else r) rs).

(** Each glyph starts at [c], the next one where it ends. *)
Fixpoint chained (c : Z) (gs : list Glyph) : Prop :=
  match gs with
  | [] => True
  | g :: t => X g = c /\ chained (add32 c (Advance g)) t
  end.

(** Where a chain of glyphs that starts at [c] ends. *)
Definition chain_end (c : Z) (gs : list Glyph) : Z :=
  fold_left (fun c g => add32 c (Advance g)) gs c.

(** The runs as [place_runs] lays them out, one list per run. *)
Fixpoint place_each (alignOff xOff : Z) (rs : list (list Glyph))
  : list (list Glyph) :=
  match rs with
  | [] => []
  | r :: rs' =>
    place_run (add32 alignOff xOff) r
      :: place_each alignOff (add32 xOff (run_width r)) rs'
  end.

(** The glyphs agree in X, advance and direction. *)
Definition same_place (g g' : Glyph) : Prop :=
  X g' = X g /\ Advance g' = Advance g /\ dir g' = dir g.

End Layout.

(** ** Package completion *)

Module Completion.

(** Strings compare and search by their bytes. *)
Definition string_eqb (a b : list byte) : bool := bool_decide (a = b).

(** *** The types of package gvcode the completion engine uses *)

Record Position := mkPosition { Line : Z; Column : Z; Runes : Z }.
Record EditRange := mkEditRange { Start : Position; End' : Position }.

Definition Position_zero : Position := mkPosition 0 0 0.
Definition EditRange_zero : EditRange := mkEditRange Position_zero Position_zero.

Definition Position_eqb (a b : Position) : bool :=
  (Line a =? Line b) && (Column a =? Column b) && (Runes a =? Runes b).
Definition EditRange_eqb (a b : EditRange) : bool :=
  Position_eqb (Start a) (Start b) && Position_eqb (End' a) (End' b).

Record CompletionContext := mkCtx {
  Input : list byte;
  Position' : Position;
  Coords : Z * Z
}.

Record CompletionCandidate := mkCandidate {
  Label : list byte;
  NewText : list byte;
  CandRange : EditRange;
  TextFormat : list byte
}.

(** [key.Name] is a string and [key.Modifiers] a bit set. *)
Record KeyBinding := mkKeyBinding { Name : list byte; Modifiers : Z }.

Record Trigger := mkTrigger {
  Characters : list (list byte);
  Binding : KeyBinding
}.

(** The [gvcode.Completor] interface: what its methods return. *)
Record Completor := mkCompletor {
  GetTrigger : Trigger;
  Suggest : CompletionContext -> list CompletionCandidate;
  FilterAndRank : list byte -> list CompletionCandidate -> list CompletionCandidate
}.

(** Modelled from the spec: the editor's command registry, not part of
    the sources at hand; [RegisterCommand] records the key filter. *)
Record Editor := mkEditor { commands : list KeyBinding }.

Definition RegisterCommand (e : Editor) (k : KeyBinding) : Editor :=
  mkEditor (commands e ++ [k]).

(** *** session.go *)

Inductive triggerKind := autoTrigger | charTrigger | keyTrigger.

(** [popup] stands for the completor's [gvcode.CompletionPopup]. *)
Record delegatedCompletor := mkDelegated {
  popup : nat;
  completor_of : Completor
}.

Record triggerState := mkTriggerState {
  kind : triggerKind;
  (* the activated completor. *)
  completor : delegatedCompletor;
  triggered : bool;
  triggerChars : list byte
}.

(** A session is started when some trigger is activated, and is
    destroyed when the completion is canceled or confirmed. *)
Record session := mkSession {
  ctx : CompletionContext;
  state : triggerState;
  canceled : bool;
  (* buffered text while the user types. *)
  prefix : list Z;
  (* input range of the cursor since when the session started and when
     completion confirmed. *)
  prefixRange : EditRange;
  (* Full candidates from the completor. *)
  candidates : list CompletionCandidate
}.

Definition ctx_zero : CompletionContext := mkCtx [] Position_zero (0, 0).

Definition newSession (c : delegatedCompletor) (k : triggerKind) : session :=
  mkSession ctx_zero (mkTriggerState k c true []) false [] EditRange_zero [].

(** ['{', '}', '(', ')', ',', ';', ' ', '\n', '\t', '.'] *)
Definition terminatingChars : list Z :=
  [123; 125; 40; 41; 44; 59; 32; 10; 9; 46].

(** [slices.Contains] *)
Definition contains_rune (l : list Z) (r : Z) : bool := existsb (Z.eqb r) l.
Definition contains_string (l : list (list byte)) (s : list byte) : bool :=
  existsb (string_eqb s) l.

(** [[]rune(input)[0]]; indexing an empty slice panics. *)
Definition first_rune (input : list byte) : option Z :=
  Utf8.to_runes input !! 0%nat.

Definition hasTerminateChar (input : list byte) : bool :=
  match input with
  | [] => false
  | _ => match first_rune input with
         | Some r => contains_rune terminatingChars r
         | None => false
         end
  end.

Definition isSymbolChar (ch : Z) : bool :=
  ((97 <=? ch) && (ch <=? 122))
  || ((65 <=? ch) && (ch <=? 90))
  || ((48 <=? ch) && (ch <=? 57))
  || (ch =? 95).

Definition makeInvalid (s : session) : session :=
  mkSession (ctx s) (state s) true [] EditRange_zero [].

(** The block of [Update] run on the first update of a session. *)
Definition arm (s : session) (c : CompletionContext) : session :=
  if triggered (state s) then
    mkSession (ctx s)
      (mkTriggerState (kind (state s)) (completor (state s)) false (Input c))
      (canceled s) [] EditRange_zero
      (Suggest (completor_of (completor (state s))) c)
  else s.

(** The prefix bookkeeping of [Update] for an input that begins with a
    symbol character. *)
Definition extend_prefix (s : session) (c : CompletionContext) : session :=
  let rs := Utf8.to_runes (Input c) in
  let range :=
    if EditRange_eqb (prefixRange s) EditRange_zero then
      mkEditRange
        (mkPosition (Line (Position' c))
                    (Z.max 0 (Column (Position' c) - Z.of_nat (List.length rs)))
                    0)
        (End' (prefixRange s))
    else prefixRange s in
  mkSession (ctx s) (state s) (canceled s) (prefix s ++ rs)
    (mkEditRange (Start range)
       (mkPosition (Line (Position' c)) (Column (Position' c)) 0))
    (candidates s).

Definition Update (s : session) (c : CompletionContext)
  : list CompletionCandidate * session :=
  if canceled s then ([], s)
  else
    let s := arm s c in
    if hasTerminateChar (Input c)
       && negb (string_eqb (Input c) (triggerChars (state s)))
    then
      (* Always terminate when encountering a terminating character
         (including trigger characters like "." for method chaining) *)
      ([], makeInvalid s)
    else
      let s := mkSession c (state s) (canceled s) (prefix s) (prefixRange s)
                         (candidates s) in
      let s :=
        match Input c, first_rune (Input c) with
        | _ :: _, Some r => if isSymbolChar r then extend_prefix s c else s
        | _, _ => s
        end in
      (FilterAndRank (completor_of (completor (state s)))
         (Utf8.of_runes (prefix s)) (candidates s), s).

(** [s != nil && s.state != nil && !s.canceled]; the state of a session
    made by [newSession] is never nil. *)
(** Prefix returns text buffered since the session is triggered. *)
Definition Prefix (s : session) : list byte := Utf8.of_runes (prefix s).

Definition IsValid (s : option session) : bool :=
  match s with
  | Some s => negb (canceled s)
  | None => false
  end.

(** *** default.go *)

Record DefaultCompletion := mkDC {
  editor : Editor;
  completors : list delegatedCompletor;
  dc_candidates : list CompletionCandidate;
  current : option session
}.

(** Two key bindings are the same: same key name and same modifiers. *)
Definition same_key (a b : KeyBinding) : Prop :=
  Name a = Name b /\ Modifiers a = Modifiers b.

Definition same_binding (a b : KeyBinding) : bool :=
  string_eqb (Name a) (Name b) && (Modifiers a =? Modifiers b).

(** [AddCompletor] returns whether it failed with "duplicated key
    binding" and the engine afterwards. *)
Definition AddCompletor (dc : DefaultCompletion) (c : Completor) (pop : nat)
  : bool * DefaultCompletion :=
  let d := mkDelegated pop c in
  let trigger := GetTrigger c in
  let duplicatedKey :=
    existsb (fun cm => same_binding (Binding (GetTrigger (completor_of cm)))
                                    (Binding trigger))
            (completors dc) in
  if duplicatedKey then (true, dc)
  else
    let e :=
      if negb (string_eqb (Name (Binding trigger)) [])
         && negb (Modifiers (Binding trigger) =? 0)
      then RegisterCommand (editor dc) (Binding trigger)
      else editor dc in
    (false, mkDC e (completors dc ++ [d]) (dc_candidates dc) (current dc)).

Definition updateCandidates (dc : DefaultCompletion)
    (cs : list CompletionCandidate) : DefaultCompletion :=
  mkDC (editor dc) (completors dc) cs (current dc).

Definition with_session (dc : DefaultCompletion) (s : option session)
  : DefaultCompletion :=
  mkDC (editor dc) (completors dc) (dc_candidates dc) s.

Definition Cancel (dc : DefaultCompletion) : DefaultCompletion :=
  let dc :=
    match current dc with
    | Some s => if IsValid (Some s) then with_session dc (Some (makeInvalid s)) else dc
    | None => dc
    end in
  mkDC (editor dc) (completors dc) [] (current dc).

Definition canTrigger (tr : Trigger) (input : list byte) : option bool :=
  (* Check explicit trigger characters first. *)
  if contains_string (Characters tr) input then Some true
  else
    (* Always allow symbol characters to trigger completion. *)
    let? r := first_rune input in Some (isSymbolChar r).

(** The search loop of [OnText]: the first completor the input can
    trigger. *)
Fixpoint find_completor (cs : list delegatedCompletor) (input : list byte)
  : option (option delegatedCompletor) :=
  match cs with
  | [] => Some None
  | cmp :: rest =>
    let? ok := canTrigger (GetTrigger (completor_of cmp)) input in
    if ok : bool then Some (Some cmp) else find_completor rest input
  end.

Definition IsActive (dc : DefaultCompletion) : bool := IsValid (current dc).

Definition OnText (dc : DefaultCompletion) (c : CompletionContext)
  : option DefaultCompletion :=
  match Input c with
  | [] => Some (Cancel dc)
  | _ =>
    let '(dc, done) :=
      match current dc with
      | Some s =>
        if IsValid (Some s) then
          let '(cs, s') := Update s c in
          let dc := updateCandidates (with_session dc (Some s')) cs in
          (dc, IsValid (Some s'))
          (* Session became invalid (e.g., terminated by a trigger char
             like ".").  Fall through to check if input can start a new
             completion session. *)
        else (dc, false)
      | None => (dc, false)
      end in
    if done : bool then Some dc
    else
      let? found := find_completor (completors dc) (Input c) in
      match found with
      | None => Some dc
      | Some cmp =>
        let s := if IsValid (current dc) then current dc
                 else Some (newSession cmp charTrigger) in
        let? s := s in
        let '(cs, s') := Update s c in
        Some (updateCandidates (with_session dc (Some s')) cs)
      end
  end.

(** *** Confirming a candidate *)

(** mergeRange merges two edit ranges on the same line, returning a
    range that covers both.  This ensures we replace everything: the
    LSP's detected token start and everything the user typed. *)
Definition mergeRange (r1 r2 : EditRange) : EditRange :=
  (* If either range is empty, return the other *)
  if EditRange_eqb r1 EditRange_zero then r2
  else if EditRange_eqb r2 EditRange_zero then r1
  (* Only merge if on the same line *)
  else if negb (Line (Start r1) =? Line (Start r2))
          || negb (Line (End' r1) =? Line (End' r2)) then r1
  else
    (* Take the earlier start and later end *)
    let result := r1 in
    let result :=
      if Column (Start r2) <? Column (Start result)
      then mkEditRange (Start r2) (End' result) else result in
    let result :=
      if Column (End' result) <? Column (End' r2)
      then mkEditRange (Start result) (End' r2) else result in
    result.

(** The range [r] covers the range [q] of the same lines. *)
Definition covers (r q : EditRange) : Prop :=
  Line (Start r) = Line (Start q) /\ Line (End' r) = Line (End' q) /\
  Column (Start r) <= Column (Start q) /\ Column (End' q) <= Column (End' r).

(** The session after a sequence of updates, one per input. *)
Definition Update_all (s : session) (cs : list CompletionContext) : session :=
  fold_left (fun s c => snd (Update s c)) cs s.

(** An input that starts with a symbol character. *)
Definition symbol_input (c : CompletionContext) : Prop :=
  exists r, first_rune (Input c) = Some r /\ isSymbolChar r = true.


(** The state of a session that has seen the inputs [cs], [c1] being
    the first of them. *)
Definition typed (cmp : delegatedCompletor) (k : triggerKind)
    (c1 : CompletionContext) (cs : list CompletionContext) (s : session) : Prop :=
  canceled s = false /\
  state s = mkTriggerState k cmp false (Input c1) /\
  candidates s = Suggest (completor_of cmp) c1 /\
  prefix s = concat (map (fun c => Utf8.to_runes (Input c)) cs) /\
  ctx s = List.last cs c1 /\
  prefixRange s =
    mkEditRange
      (mkPosition (Line (Position' c1))
         (Z.max 0 (Column (Position' c1)
                   - Z.of_nat (List.length (Utf8.to_runes (Input c1))))) 0)
      (mkPosition (Line (Position' (List.last cs c1)))
         (Column (Position' (List.last cs c1))) 0).


End Completion.

(** ** Package textview *)

Module Textview.

Import Layout.

(** [l[i]] for a Go [int] index; out of range panics. *)
Definition index {A} (l : list A) (i : Z) : option A :=
  if i <? 0 then None else l !! Z.to_nat i.

(** *** line.go *)

(** [sort.Search]: binary search for the smallest index in [[0, n)] at
    which [f] is true, [n] if there is none. *)
Fixpoint Search_loop (fuel : nat) (f : Z -> option bool) (i j : Z) : option Z :=
  match fuel with
  | O => None
  | S fuel' =>
    if i <? j then
      let h := Z.shiftr (i + j) 1 in
      let? b := f h in
      if negb b then Search_loop fuel' f (h + 1) j
      else Search_loop fuel' f i h
    else Some i
  end.

Definition Search (n : Z) (f : Z -> option bool) : option Z :=
  Search_loop (S (Z.to_nat n)) f 0 n.

Definition Paragraph_eqb (p q : Paragraph) : bool :=
  (StartX p =? StartX q) && (StartY p =? StartY q) && (EndX p =? EndX q)
  && (EndY p =? EndY q) && (PRunes p =? PRunes q) && (PRuneOff p =? PRuneOff q).

(** find a paragraph by rune index, returning the line number (starting
    from zero) and the paragraph itself. *)
Definition FindParagraph (paragraphs : list Paragraph) (runeIdx : Z)
  : option (Z * Paragraph) :=
  let n := Z.of_nat (List.length paragraphs) in
  if n =? 0 then Some (0, Paragraph_zero)
  else
    let? idx := Search n (fun i =>
      let? rng := index paragraphs i in
      Some (runeIdx <? PRuneOff rng + PRunes rng)) in
    (* No exsiting paragraph found. *)
    if idx =? n then
      let? p := index paragraphs (idx - 1) in Some (idx - 1, p)
    else
      let? p := index paragraphs idx in Some (idx, p).

(** [strings.Repeat]; a negative count panics. *)
Definition Repeat (s : list byte) (count : Z) : option (list byte) :=
  if count <? 0 then None else Some (concat (replicate (Z.to_nat count) s)).

(** The interface [buffer.TextSource]: what the methods used by the
    word functions return. *)
Record TextSource := mkSource {
  Len : Z;
  ReadRuneAt : Z -> Z * Buffer.error
}.

(** The fields of [TextView] the functions below read. *)
Record TextView := mkTextView {
  SoftTab : bool;
  TabWidth : Z;
  WordSeperators : list byte;
  Paragraphs : list Paragraph;
  src : TextSource;
  caret_start : Z;
  caret_end : Z
}.

(** expandTab tries to expand tab character to spaces while respecting
    tab stops.  If s is a single tab character and the editor is
    configured to use soft tab, the tab is expanded with spaces, also tab
    stop is accounted when calculating space number.  Integer division
    truncates and panics on a zero divisor. *)
Definition expandTab (e : TextView) (start end' : Z) (s : list byte)
  : option (list byte) :=
  if negb (SoftTab e) || negb (bool_decide (s = [x09])) then Some s
  else
    let start := if end' <? start then end' else start in
    let? (_, p) := FindParagraph (Paragraphs e) start in
    if Paragraph_eqb p Paragraph_zero then Repeat [x20] (TabWidth e)
    else
      let advance := start - PRuneOff p in
      if TabWidth e =? 0 then None
      else
        let nextTabStop := (Z.quot advance (TabWidth e) + 1) * TabWidth e in
        let spaces := nextTabStop - advance in
        Repeat [x20] spaces.

(** The paragraphs follow one another from the rune [off] on: each
    starts at the rune where the one before it ends, and none has a
    negative number of runes. *)
Fixpoint contiguous (off : Z) (ps : list Paragraph) : Prop :=
  match ps with
  | [] => True
  | p :: t => PRuneOff p = off /\ 0 <= PRunes p /\ contiguous (off + PRunes p) t
  end.

(** The runes of the paragraphs, summed. *)
Definition total_runes (ps : list Paragraph) : Z :=
  fold_right (fun p s => PRunes p + s) 0 ps.

(** *** word.go *)

(** defaultWordSeperators defines a default set of word seperators.  It
    is used when no custom word seperators are set. *)
Definition defaultWordSeperators : list byte :=
  B "`~!@#$%^&*()-=+[{]}\|;:'" ++ [x22] ++ B ",.<>/?".

(** [strings.ContainsRune]: the code point is within the string. *)
Definition ContainsRune (s : list byte) (r : Z) : bool :=
  existsb (Z.eqb r) (Utf8.to_runes s).

(** [unicode.IsSpace]: the Unicode White Space property. *)
Definition IsSpace (r : Z) : bool :=
  ((9 <=? r) && (r <=? 13)) || (r =? 32) || (r =? 133) || (r =? 160)
  || (r =? 5760) || ((8192 <=? r) && (r <=? 8202)) || (r =? 8232)
  || (r =? 8233) || (r =? 8239) || (r =? 8287) || (r =? 12288).

(** IsWordSeperator check r to see if it is a word seperator.  A word
    seperator set the boundary when navigating by words, or deleting by
    words. *)
Definition IsWordSeperator (e : TextView) (r : Z) : bool :=
  let seperators :=
    match WordSeperators e with
    | [] => defaultWordSeperators
    | s => s
    end in
  ContainsRune seperators r || IsSpace r.

(** readBySeperator reads in the specified direction from caretOff
    until the seperator returns false.  It returns the read text. *)
Fixpoint readBySeperator_loop (fuel : nat) (s : TextSource) (direction caretOff : Z)
    (seperator : Z -> bool) (buf : list Z) : option (list Z) :=
  match fuel with
  | O => None
  | S f =>
    if (caretOff <? 0) || (Len s <? caretOff) then Some buf
    else
      let '(r, err) := ReadRuneAt s caretOff in
      if seperator r || negb (Buffer.error_eqb err Buffer.nil) then Some buf
      else if direction <? 0 then
        readBySeperator_loop f s direction (caretOff - 1) seperator (r :: buf)
      else
        readBySeperator_loop f s direction (caretOff + 1) seperator (buf ++ [r])
  end.

Definition readBySeperator (e : TextView) (direction caretOff : Z)
    (seperator : Z -> bool) : option (list Z) :=
  readBySeperator_loop (Z.to_nat (Len (src e)) + 2) (src e) direction caretOff
                       seperator [].

(** The separator of [ReadWord] and [WordBoundariesAt]. *)
Definition seperator_of (e : TextView) (bySpace : bool) (r : Z) : bool :=
  if bySpace then IsSpace r else IsWordSeperator e r.

(** ReadWord tries to read one word nearby the caret, returning the
    word if there's one, and the offset of the caret in the word. *)
Definition ReadWord (e : TextView) (bySpace : bool) : option (list byte * Z) :=
  let caret := Z.max (caret_start e) (caret_end e) in
  let? left' := readBySeperator e (-1) (caret - 1) (seperator_of e bySpace) in
  let? right' := readBySeperator e 1 caret (seperator_of e bySpace) in
  Some (Utf8.of_runes (left' ++ right'), Z.of_nat (List.length left')).

(** WordBoundariesAt returns the start and end rune offsets of the word
    at the given caret position.  If caret is on a word separator, start
    and end will both equal caret (empty word). *)
Definition WordBoundariesAt (e : TextView) (caret : Z) (bySpace : bool)
  : option (Z * Z) :=
  (* Read leftwards from caret-1 *)
  let? left' := readBySeperator e (-1) (caret - 1) (seperator_of e bySpace) in
  (* Read rightwards from caret *)
  let? right' := readBySeperator e 1 caret (seperator_of e bySpace) in
  Some (caret - Z.of_nat (List.length left'),
        caret + Z.of_nat (List.length right')).

(** The source delivers the runes [rs]: the rune of an index in range
    with no error, and an error past the end. *)
Definition reads (s : TextSource) (rs : list Z) : Prop :=
  Len s = Z.of_nat (List.length rs) /\
  forall i, 0 <= i ->
    ReadRuneAt s i = match rs !! Z.to_nat i with
                     | Some x => (x, Buffer.nil)
                     | None => (Utf8.RuneError, Buffer.EOF)
                     end.

(** The longest prefix of [rs] without a separator. *)
Fixpoint word_prefix (seperator : Z -> bool) (rs : list Z) : list Z :=
  match rs with
  | [] => []
  | r :: t => if seperator r then [] else r :: word_prefix seperator t
  end.

(** A text source over a list of runes. *)
Definition source_of (rs : list Z) : TextSource :=
  mkSource (Z.of_nat (List.length rs))
           (fun i => match index rs i with
                     | Some x => (x, Buffer.nil)
                     | None => (Utf8.RuneError, Buffer.EOF)
                     end).

End Textview.

(** ** Package gvcode: the text view of the editor *)

Module Editor.

(** The caret and the text source of [textView]. *)
Record textView := mkTextView {
  src : Buffer.PieceTableReader;
  caret_start : Z;
  caret_end : Z
}.

(** SelectionLen returns the length of the selection, in runes; it is
    equivalent to utf8.RuneCountInString(e.SelectedText()). *)
Definition SelectionLen (e : textView) : Z := Z.abs (caret_start e - caret_end e).

(** SelectedText returns the currently selected text (if any) from the
    editor, filling the provided byte slice if it is large enough or
    allocating and returning a new byte slice if the provided one is
    insufficient.  [buf] stands for the slice up to its capacity. *)
Definition SelectedText (e : textView) (buf : list byte) : option (list byte) :=
  let? startOff := Buffer.RuneOffset (src e) (caret_start e) in
  let? endOff := Buffer.RuneOffset (src e) (caret_end e) in
  let start := Z.min startOff endOff in
  let end' := Z.max startOff endOff in
  let buf := if Buffer.len buf <? end' - start
             then replicate (Z.to_nat (end' - start)) x00 else buf in
  let buf := take (Z.to_nat (end' - start)) buf in
  let? (buf, n, _) := Buffer.ReadAt (src e) buf start in
  (* There is no way to reasonably handle a read error here. *)
  Some (take (Z.to_nat n) buf).

End Editor.

(** * Properties *)

(** ** Decoding examples *)

Example utf8_hello : Utf8.RuneCount (B "hello") = 5.
Proof. reflexivity. Qed.

Example utf8_cjk : Utf8.to_runes (B "a中b") = [97; 20013; 98].
Proof. vm_compute. reflexivity. Qed.

Example utf8_invalid :
  Utf8.Valid [x80] = false /\ Utf8.Valid (B "héllo") = true.
Proof. vm_compute. auto. Qed.


(** ** Piece table scenarios *)

Section BufferScenarios.
Import Buffer.

(** C3: on a table holding "hello", [Insert(2, "XY")] returns true and
    the document reads "heXYllo"; the containing piece is split into a
    left part, the new piece and a right part, the byte offset and
    lengths of the parts being those the original buffer's rune index
    gives; [Undo] then returns true and the document reads "hello"
    again. *)
Theorem C3_split_insert_then_undo :
  exists pt0 pt1 pt2,
    NewPieceTable (B "hello") = Some pt0 /\
    Insert pt0 2 (B "XY") = Some (true, pt1) /\
    document pt1 = Some (B "heXYllo") /\
    piece_spans pt0 = Some [(original, 0, 5, 0, 5)] /\
    piece_spans pt1 =
      Some [(original, 0, 2, 0, tb_bytesForRange (originalBuf pt0) 0 2);
            (modify, 0, 2, 0, 2);
            (original, 2, 3, tb_RuneOffset (originalBuf pt0) 2,
             tb_bytesForRange (originalBuf pt0) 2 3)] /\
    Undo pt1 = Some (true, pt2) /\
    document pt2 = Some (B "hello") /\
    piece_spans pt2 = piece_spans pt0.
Proof.
  eexists _, _, _.
  split. { vm_compute. reflexivity. }
  split. { vm_compute. reflexivity. }
  split. { vm_compute. reflexivity. }
  split. { vm_compute. reflexivity. }
  split. { vm_compute. reflexivity. }
  split. { vm_compute. reflexivity. }
  split. { vm_compute. reflexivity. }
  vm_compute. reflexivity.
Qed.

(** The same split on a text with a two-byte rune: the parts' byte
    offsets differ from their rune offsets. *)
Example split_insert_multibyte :
  exists pt0 pt1,
    NewPieceTable (B "héllo") = Some pt0 /\
    Insert pt0 2 (B "中") = Some (true, pt1) /\
    document pt1 = Some (B "hé中llo") /\
    piece_spans pt1 =
      Some [(original, 0, 2, 0, 3); (modify, 0, 1, 0, 3); (original, 2, 3, 3, 3)].
Proof.
  eexists _, _.
  split. { vm_compute. reflexivity. }
  split. { vm_compute. reflexivity. }
  split. { vm_compute. reflexivity. }
  vm_compute. reflexivity.
Qed.

(** C2 at the input where it fails: after [Insert(2, "XY")] on "hello"
    the undo stack is not empty; [Undo] and then [Redo] both return
    true, the piece list is the one before the [Undo], but the table's
    byte and rune lengths stay those saved at capture time, 5, and the
    document reads "heXYl" instead of "heXYllo". *)
Theorem C2_redo_after_undo_truncates :
  exists pt0 pt1 pt2 pt3,
    NewPieceTable (B "hello") = Some pt0 /\
    Insert pt0 2 (B "XY") = Some (true, pt1) /\
    List.length (undoStack pt1) = 1%nat /\
    Undo pt1 = Some (true, pt2) /\
    Redo pt2 = Some (true, pt3) /\
    document pt1 = Some (B "heXYllo") /\
    document pt3 = Some (B "heXYl") /\
    piece_spans pt3 = piece_spans pt1 /\
    seqBytes pt1 = 7 /\ seqBytes pt3 = 5 /\
    seqLength pt1 = 7 /\ seqLength pt3 = 5.
Proof.
  eexists _, _, _, _.
  split. { vm_compute. reflexivity. }
  split. { vm_compute. reflexivity. }
  split. { vm_compute. reflexivity. }
  split. { vm_compute. reflexivity. }
  split. { vm_compute. reflexivity. }
  split. { vm_compute. reflexivity. }
  split. { vm_compute. reflexivity. }
  split. { vm_compute. reflexivity. }
  repeat split.
Qed.

End BufferScenarios.

(** ** ReadAt and the end of the stream *)

Section ReadAtProps.
Import Buffer.

Lemma len_zero_iff (p : list byte) : len p = 0 <-> p = [].
Proof.
  unfold len. destruct p; simpl; split; intros H; try reflexivity; try lia.
  discriminate.
Qed.

(** C10: with an empty buffer [ReadAt] returns [(0, nil)] at every
    offset, also at or past the end of the document, and never
    [io.EOF]; a call that returns does so with [io.EOF] exactly when the
    buffer is not empty and either the offset is at or past the
    document's byte length or fewer bytes than [len(p)] were read. *)
Theorem C10_ReadAt_eof (r : PieceTableReader) (offset : Z) :
  ReadAt r [] offset = Some ([], 0, nil) /\
  forall p p' total err,
    ReadAt r p offset = Some (p', total, err) ->
    (err = EOF <->
     p <> [] /\ (seqBytes (table r) <= offset \/ total < len p)).
Proof.
  split; [reflexivity|].
  intros p p' total err. unfold ReadAt.
  destruct (len p =? 0) eqn:Hl.
  - apply Z.eqb_eq, len_zero_iff in Hl. intros [= <- <- <-].
    split; [discriminate|]. intros [Hne _]. contradiction.
  - apply Z.eqb_neq in Hl.
    assert (Hp : p <> []) by (intros ->; apply Hl; reflexivity).
    destruct (seqBytes (table r) <=? offset) eqn:Ho.
    + apply Z.leb_le in Ho. intros [= <- <- <-].
      split; [intros _; split; [exact Hp | left; exact Ho] | reflexivity].
    + apply Z.leb_gt in Ho.
      destruct (Head (pieces (table r))) as [n|]; [|discriminate].
      destruct (ReadAt_loop _ _ _ _ _ _ _ _ _) as [[[out rest] tot]|];
        [|discriminate].
      intros [= <- <- <-].
      destruct (tot <? len p) eqn:Ht.
      * apply Z.ltb_lt in Ht.
        split; [intros _; split; [exact Hp | right; exact Ht] | reflexivity].
      * apply Z.ltb_ge in Ht.
        split; [discriminate|]. intros [_ [H|H]]; lia.
Qed.

(** A call on a document of two pieces: a short read at the end. *)
Lemma C10_ReadAt_eof_witness :
  exists r p',
    ReadAt r (B "....") 3 = Some (p', 2, EOF) /\
    (EOF = EOF <->
     B "...." <> [] /\ (seqBytes (table r) <= 3 \/ 2 < len (B "...."))).
Proof.
  destruct (NewPieceTable (B "hello")) as [pt|] eqn:E; [|discriminate E].
  exists (NewReader pt), (B "lo..").
  assert (H : ReadAt (NewReader pt) (B "....") 3 = Some (B "lo..", 2, EOF)).
  { revert E. vm_compute. intros [= <-]. reflexivity. }
  split; [exact H|].
  exact (proj2 (C10_ReadAt_eof (NewReader pt) 3) _ _ _ _ H).
Defined.

End ReadAtProps.

(** ** Visual reordering of a line *)

Section LayoutProps.
Import Layout.

Lemma runs_nonempty_head (gs : list Glyph) :
  gs <> [] -> exists h r rs, runs gs = (h :: r) :: rs.
Proof.
  destruct gs as [|g t]; [congruence|]. intros _.
  induction t as [|g' t IH] in g |- *.
  - simpl. eauto.
  - specialize (IH g'). destruct IH as (h & r & rs & E).
    change (runs (g :: g' :: t)) with
      (match runs (g' :: t) with
       | (h :: r) :: rs =>
         if dir g =? dir h then (g :: h :: r) :: rs else [g] :: (h :: r) :: rs
       | _ => [[g]]
       end).
    rewrite E. destruct (dir g =? dir h); eauto.
Qed.

Lemma runs_cons (g : Glyph) (t : list Glyph) :
  runs (g :: t) =
  match runs t with
  | (h :: r) :: rs =>
    if dir g =? dir h then (g :: h :: r) :: rs else [g] :: (h :: r) :: rs
  | _ => [[g]]
  end.
Proof. reflexivity. Qed.

Lemma runs_head_first (g : Glyph) (t : list Glyph) :
  exists r rs, runs (g :: t) = (g :: r) :: rs.
Proof.
  rewrite runs_cons. destruct (runs t) as [|[|h r] rs]; eauto.
  destruct (dir g =? dir h); eauto.
Qed.

(** The runs are a partition of the glyphs in logical order. *)
Lemma runs_concat (gs : list Glyph) : concat (runs gs) = gs.
Proof.
  induction gs as [|g t IH]; [reflexivity|].
  rewrite runs_cons. destruct (runs t) as [|[|h r] rs] eqn:E.
  - simpl in *. subst. reflexivity.
  - destruct t as [|g' t']; [reflexivity|].
    destruct (runs_head_first g' t') as (r' & rs' & E'). congruence.
  - destruct (dir g =? dir h); simpl in *; rewrite <- IH; reflexivity.
Qed.

Lemma runs_maximal (gs : list Glyph) : maximal_runs (runs gs).
Proof.
  induction gs as [|g t IH]; [exact Logic.I|].
  rewrite runs_cons. destruct (runs t) as [|[|h r] rs] eqn:E.
  - simpl. repeat split. constructor; [reflexivity|constructor].
  - simpl in IH. destruct IH.
  - destruct (dir g =? dir h) eqn:D.
    + apply Z.eqb_eq in D. simpl in IH |- *.
      destruct IH as (Hu & Hn & Hm).
      split; [constructor; [reflexivity | rewrite D; exact Hu]|].
      split; [rewrite D; exact Hn | exact Hm].
    + apply Z.eqb_neq in D. simpl in IH |- *.
      repeat split; [constructor; [reflexivity|constructor] | exact D | apply IH | apply IH | apply IH].
Qed.

(** A uniform non-empty prefix followed by a glyph of the other
    direction is a run of its own. *)
Lemma runs_app_change (run : list Glyph) (g : Glyph) (rest : list Glyph) (g0 : Glyph) :
  hd_error run = Some g0 -> uniform (dir g0) run -> dir g <> dir g0 ->
  runs (run ++ g :: rest) = run :: runs (g :: rest).
Proof.
  intros Hh Hu Hd. revert g0 Hh Hu Hd.
  induction run as [|a run IH]; intros g0 Hh Hu Hd; [discriminate|].
  injection Hh as ->. inversion Hu as [|? ? Ha Hu']; subst.
  destruct run as [|b run].
  - simpl app. rewrite runs_cons.
    destruct (runs_head_first g rest) as (r & rs & E). rewrite E.
    destruct (dir g0 =? dir g) eqn:D; [apply Z.eqb_eq in D; congruence|].
    reflexivity.
  - change ((g0 :: b :: run) ++ g :: rest) with (g0 :: ((b :: run) ++ g :: rest)).
    rewrite runs_cons.
    inversion Hu' as [|? ? Hb Hu'']; subst.
    rewrite (IH b eq_refl) by (rewrite ?Hb; assumption || congruence).
    rewrite Hb, Z.eqb_refl. reflexivity.
Qed.

Lemma runs_uniform (run : list Glyph) (g0 : Glyph) :
  hd_error run = Some g0 -> uniform (dir g0) run -> runs run = [run].
Proof.
  revert g0. induction run as [|a run IH]; intros g0 Hh Hu; [discriminate|].
  injection Hh as ->. inversion Hu as [|? ? Ha Hu']; subst.
  destruct run as [|b run]; [reflexivity|].
  rewrite runs_cons. inversion Hu' as [|? ? Hb Hu'']; subst.
  rewrite (IH b eq_refl) by (rewrite ?Hb; assumption).
  rewrite Hb, Z.eqb_refl. reflexivity.
Qed.

Lemma runs_app_same (run : list Glyph) (g : Glyph) (rest : list Glyph) (g0 : Glyph) :
  hd_error run = Some g0 -> uniform (dir g0) run -> dir g = dir g0 ->
  hd_error (run ++ [g]) = Some g0 /\ uniform (dir g0) (run ++ [g]).
Proof.
  intros Hh Hu Hd. split.
  - destruct run; [discriminate|exact Hh].
  - apply Forall_app. split; [exact Hu|]. constructor; [exact Hd|constructor].
Qed.

(** *** The loops of [recompute] *)

Lemma mark_last_cons (a : Glyph) (l : list Glyph) :
  l <> [] -> mark_last (a :: l) = a :: mark_last l.
Proof. destruct l; [congruence|reflexivity]. Qed.

Lemma mark_last_app (l1 l2 : list Glyph) :
  l2 <> [] -> mark_last (l1 ++ l2) = l1 ++ mark_last l2.
Proof.
  intros H. induction l1 as [|a l1 IH]; [reflexivity|].
  simpl app. rewrite mark_last_cons, IH; [reflexivity|].
  destruct l1; simpl; [exact H | discriminate].
Qed.

Lemma lookup_middle (pre : list Glyph) (g : Glyph) (post : list Glyph) :
  (pre ++ g :: post) !! List.length pre = Some g.
Proof. apply list_lookup_middle. reflexivity. Qed.

Lemma insert_middle (pre : list Glyph) (g g' : Glyph) (post : list Glyph) :
  <[List.length pre := g']> (pre ++ g :: post) = (pre ++ [g']) ++ post.
Proof.
  rewrite insert_app_r_alt by lia. rewrite Nat.sub_diag. simpl.
  rewrite <- app_assoc. reflexivity.
Qed.

Lemma break_if_last_spec (pre : list Glyph) (g a : Glyph) (run rest : list Glyph) :
  break_if_last (pre ++ g :: run ++ rest) (List.length pre) a =
  match run ++ rest with [] => mark a | _ => a end.
Proof.
  unfold break_if_last. rewrite length_app. simpl List.length.
  destruct (run ++ rest) as [|b l] eqn:E.
  - simpl. replace (Z.of_nat (List.length pre) =? _) with true; [reflexivity|].
    symmetry. apply Z.eqb_eq. lia.
  - simpl List.length.
    replace (Z.of_nat (List.length pre) =? _) with false; [reflexivity|].
    symmetry. apply Z.eqb_neq. lia.
Qed.

Lemma runWidth_loop_spec (run pre rest : list Glyph) (acc : Z) :
  runWidth_loop (pre ++ run ++ rest) (List.length pre) (List.length run) acc
  = Some (fold_left (fun w g => add32 w (Advance g)) run acc).
Proof.
  revert pre acc. induction run as [|g run IH]; intros pre acc; [reflexivity|].
  simpl. rewrite lookup_middle.
  replace (pre ++ g :: run ++ rest) with ((pre ++ [g]) ++ run ++ rest)
    by (rewrite <- app_assoc; reflexivity).
  replace (S (List.length pre)) with (List.length (pre ++ [g]))
    by (rewrite length_app; simpl; lia).
  apply IH.
Qed.

Lemma ltr_loop_spec (run pre rest : list Glyph) (cursor : Z) :
  ltr_loop (pre ++ run ++ rest) (List.length pre) (List.length run) cursor
  = Some (pre ++ fin rest (place_ltr cursor run) ++ rest).
Proof.
  revert pre cursor. induction run as [|g run IH]; intros pre cursor.
  - simpl. destruct rest; reflexivity.
  - simpl ltr_loop. simpl app. rewrite lookup_middle.
    rewrite break_if_last_spec, insert_middle.
    replace (S (List.length pre))
      with (List.length (pre ++ [match run ++ rest with
                                 | [] => mark (set_X g cursor)
                                 | _ => set_X g cursor end]))
      by (rewrite length_app; simpl; lia).
    rewrite IH. f_equal. rewrite <- app_assoc. f_equal. simpl.
    destruct rest as [|b rest].
    + rewrite app_nil_r. simpl fin. destruct run as [|b run]; reflexivity.
    + simpl fin. destruct run; reflexivity.
Qed.

Lemma rtl_loop_spec (run pre rest : list Glyph) (cursor : Z) :
  rtl_loop (pre ++ run ++ rest) (List.length pre) (List.length run) cursor
  = Some (pre ++ fin rest (place_rtl cursor run) ++ rest).
Proof.
  revert pre cursor. induction run as [|g run IH]; intros pre cursor.
  - simpl. destruct rest; reflexivity.
  - simpl rtl_loop. simpl app. rewrite lookup_middle.
    rewrite break_if_last_spec, insert_middle.
    replace (S (List.length pre))
      with (List.length (pre ++ [match run ++ rest with
                                 | [] => mark (set_X g (sub32 cursor (Advance g)))
                                 | _ => set_X g (sub32 cursor (Advance g)) end]))
      by (rewrite length_app; simpl; lia).
    rewrite IH. f_equal. rewrite <- app_assoc. f_equal. simpl.
    destruct rest as [|b rest].
    + rewrite app_nil_r. simpl fin. destruct run as [|b run]; reflexivity.
    + simpl fin. destruct run; reflexivity.
Qed.

Lemma place_ltr_length (run : list Glyph) (c : Z) :
  List.length (place_ltr c run) = List.length run.
Proof. revert c. induction run; intros c; simpl; [reflexivity|]. rewrite IHrun. reflexivity. Qed.

Lemma place_rtl_length (run : list Glyph) (c : Z) :
  List.length (place_rtl c run) = List.length run.
Proof. revert c. induction run; intros c; simpl; [reflexivity|]. rewrite IHrun. reflexivity. Qed.

Lemma place_run_length (run : list Glyph) (c : Z) :
  List.length (place_run c run) = List.length run.
Proof.
  unfold place_run. destruct (is_rtl run);
    [apply place_rtl_length | apply place_ltr_length].
Qed.

Lemma mark_last_length (l : list Glyph) : List.length (mark_last l) = List.length l.
Proof.
  induction l as [|a l IH]; [reflexivity|].
  destruct l; [reflexivity|]. rewrite mark_last_cons by discriminate.
  simpl in *. rewrite IH. reflexivity.
Qed.

Lemma I_zero : I 0 = 0.
Proof. reflexivity. Qed.

(** Closing the run [run] that starts after [pre]: what the body of the
    outer loop does to the glyphs at the end of a run. *)
Lemma close_run (pre run rest : list Glyph) (g0 : Glyph) (alignOff xOff : Z) :
  hd_error run = Some g0 ->
  let gs := pre ++ run ++ rest in
  (if dir g0 =? FlagTowardOrigin
   then rtl_loop gs (List.length pre) (List.length run)
          (add32 (add32 alignOff xOff) (run_width run))
   else ltr_loop gs (List.length pre) (List.length run) (add32 alignOff xOff))
  = Some (pre ++ fin rest (place_run (add32 alignOff xOff) run) ++ rest).
Proof.
  intros Hh gs. unfold place_run, is_rtl.
  destruct run as [|a run]; [discriminate|]. injection Hh as ->.
  destruct (dir g0 =? FlagTowardOrigin);
    [apply rtl_loop_spec | apply ltr_loop_spec].
Qed.

Lemma recompute_loop_S (n : nat) (gs : list Glyph) (alignOff xOff : Z)
    (runStart i : nat) :
  recompute_loop (S n) gs alignOff xOff runStart i =
  let? endOfRun :=
    if Nat.eqb i (List.length gs) then Some true
    else
      let? gi := gs !! i in
      let? g0 := gs !! runStart in
      Some (negb (dir gi =? dir g0)) in
  if endOfRun : bool then
    let? runWidth := runWidth_loop gs runStart (i - runStart) (I 0) in
    let? g0 := gs !! runStart in
    let? gs :=
      if dir g0 =? FlagTowardOrigin
      then rtl_loop gs runStart (i - runStart)
                    (add32 (add32 alignOff xOff) runWidth)
      else ltr_loop gs runStart (i - runStart) (add32 alignOff xOff) in
    recompute_loop n gs alignOff (add32 xOff runWidth) i (S i)
  else recompute_loop n gs alignOff xOff runStart (S i).
Proof. reflexivity. Qed.

(** The outer loop, entered at the glyph after the current run [run]
    with [rest] still to come, lays out [run ++ rest] as the
    specification says. *)
Lemma recompute_loop_spec (rest pre run : list Glyph) (g0 : Glyph) (alignOff xOff : Z) :
  hd_error run = Some g0 -> uniform (dir g0) run ->
  recompute_loop (S (List.length rest)) (pre ++ run ++ rest) alignOff xOff
                 (List.length pre) (List.length pre + List.length run)
  = Some (pre ++ mark_last (place_runs alignOff xOff (runs (run ++ rest)))).
Proof.
  revert pre run g0 xOff.
  induction rest as [|g rest IH]; intros pre run g0 xOff Hh Hu.
  - (* the end of the line closes the last run *)
    rewrite recompute_loop_S.
    replace (Nat.eqb _ _) with true
      by (symmetry; apply Nat.eqb_eq; rewrite !length_app; simpl; lia).
    replace (List.length pre + List.length run - List.length pre)%nat
      with (List.length run) by lia.
    rewrite I_zero, runWidth_loop_spec.
    assert (Hg0 : (pre ++ run ++ []) !! List.length pre = Some g0).
    { destruct run as [|a run]; [discriminate|]. injection Hh as ->.
      simpl. apply lookup_middle. }
    rewrite Hg0. fold (run_width run).
    rewrite (close_run pre run [] g0 alignOff xOff Hh).
    rewrite !app_nil_r, (runs_uniform run g0 Hh Hu). simpl. rewrite !app_nil_r.
    reflexivity.
  - change (S (List.length (g :: rest))) with (S (S (List.length rest))).
    rewrite recompute_loop_S.
    replace (Nat.eqb _ _) with false
      by (symmetry; apply Nat.eqb_neq; rewrite !length_app; simpl; lia).
    assert (Hgi : (pre ++ run ++ g :: rest) !! (List.length pre + List.length run)%nat
                  = Some g).
    { rewrite app_assoc, <- length_app. apply lookup_middle. }
    assert (Hg0 : (pre ++ run ++ g :: rest) !! List.length pre = Some g0).
    { destruct run as [|a run]; [discriminate|]. injection Hh as ->.
      simpl. apply lookup_middle. }
    rewrite Hgi, Hg0.
    destruct (dir g =? dir g0) eqn:D; simpl negb; cbv iota.
    + (* same direction: the run goes on *)
      apply Z.eqb_eq in D.
      destruct (runs_app_same run g rest g0 Hh Hu D) as [Hh' Hu'].
      assert (E1 : run ++ g :: rest = (run ++ [g]) ++ rest)
        by (rewrite <- app_assoc; reflexivity).
      rewrite E1.
      replace (S (List.length pre + List.length run))
        with (List.length pre + List.length (run ++ [g]))%nat
        by (rewrite length_app; simpl; lia).
      exact (IH pre (run ++ [g]) g0 xOff Hh' Hu').
    + (* the direction changes: close the run, start the next at [g] *)
      apply Z.eqb_neq in D.
      replace (List.length pre + List.length run - List.length pre)%nat
        with (List.length run) by lia.
      rewrite I_zero, runWidth_loop_spec. fold (run_width run).
      rewrite (close_run pre run (g :: rest) g0 alignOff xOff Hh).
      simpl fin.
      assert (Hug : uniform (dir g) [g]) by (constructor; [reflexivity|constructor]).
      pose proof (IH (pre ++ place_run (add32 alignOff xOff) run) [g] g
                     (add32 xOff (run_width run)) eq_refl Hug) as IH'.
      rewrite length_app, place_run_length in IH'.
      rewrite <- app_assoc in IH'.
      change ([g] ++ rest) with (g :: rest) in IH'.
      change (List.length [g]) with 1%nat in IH'.
      replace (S (List.length pre + List.length run))
        with (List.length pre + List.length run + 1)%nat by lia.
      rewrite IH'.
      rewrite (runs_app_change run g rest g0 Hh Hu D).
      destruct (runs_head_first g rest) as (r & rs & E). rewrite E.
      change (place_runs alignOff xOff (run :: (g :: r) :: rs))
        with (place_run (add32 alignOff xOff) run
              ++ place_runs alignOff (add32 xOff (run_width run)) ((g :: r) :: rs)).
      rewrite mark_last_app.
      { rewrite <- app_assoc. reflexivity. }
      cbn [place_runs]. unfold place_run.
      destruct (is_rtl (g :: r)); simpl; discriminate.
Qed.

Lemma recompute_spec (li : Line) (alignOff runeOff : Z) :
  recompute li alignOff runeOff
  = Some (with_glyphs li (visual_layout alignOff (Glyphs li)) runeOff).
Proof.
  unfold recompute, visual_layout.
  destruct (Glyphs li) as [|g t] eqn:E; [reflexivity|].
  change (Nat.eqb (List.length (g :: t)) 0) with false. cbv iota.
  rewrite recompute_loop_S.
  change (Nat.eqb 0 (List.length (g :: t))) with false. cbv iota.
  change ((g :: t) !! 0%nat) with (Some g). cbv iota beta.
  rewrite Z.eqb_refl. simpl negb. cbv iota.
  pose proof (recompute_loop_spec t [] [g] g alignOff (I 0) eq_refl) as H.
  rewrite I_zero in *.
  change ([] ++ [g] ++ t) with (g :: t) in H.
  change ([g] ++ t) with (g :: t) in H.
  change (List.length (g :: t)) with (S (List.length t)).
  change (List.length (@nil Glyph) + List.length [g])%nat with 1%nat in H.
  change (List.length (@nil Glyph)) with 0%nat in H.
  rewrite H by (constructor; [reflexivity|constructor]).
  reflexivity.
Qed.

(** *** The extent of the laid out glyphs *)

Lemma wrap32_id (z : Z) : fits32 z -> wrap32 z = z.
Proof. unfold fits32, wrap32. intros H. rewrite Z.mod_small; lia. Qed.

Lemma x_min_fold (t : list Glyph) (m : Z) :
  fold_left (fun m h => Z.min m (X h)) t m <= m /\
  Forall (fun g => fold_left (fun m h => Z.min m (X h)) t m <= X g) t /\
  (fold_left (fun m h => Z.min m (X h)) t m = m \/
   Exists (fun g => X g = fold_left (fun m h => Z.min m (X h)) t m) t).
Proof.
  revert m. induction t as [|g t IH]; intros m; simpl.
  - split; [lia|]. split; [constructor | left; reflexivity].
  - destruct (IH (Z.min m (X g))) as (H1 & H2 & H3).
    split; [lia|]. split; [constructor; [lia | exact H2]|].
    destruct H3 as [H3|H3].
    + destruct (Z.min_spec m (X g)) as [[_ E]|[_ E]]; rewrite E in H3.
      * left. rewrite E. exact H3.
      * right. left. rewrite E. symmetry. exact H3.
    + right. right. exact H3.
Qed.

Lemma x_max_fold (t : list Glyph) (m : Z) :
  m <= fold_left (fun m h => Z.max m (X h + Advance h)) t m /\
  Forall (fun g => X g + Advance g
                   <= fold_left (fun m h => Z.max m (X h + Advance h)) t m) t /\
  (fold_left (fun m h => Z.max m (X h + Advance h)) t m = m \/
   Exists (fun g => X g + Advance g
                    = fold_left (fun m h => Z.max m (X h + Advance h)) t m) t).
Proof.
  revert m. induction t as [|g t IH]; intros m; simpl.
  - split; [lia|]. split; [constructor | left; reflexivity].
  - destruct (IH (Z.max m (X g + Advance g))) as (H1 & H2 & H3).
    split; [lia|]. split; [constructor; [lia | exact H2]|].
    destruct H3 as [H3|H3].
    + destruct (Z.max_spec m (X g + Advance g)) as [[_ E]|[_ E]]; rewrite E in H3.
      * right. left. rewrite E. symmetry. exact H3.
      * left. rewrite E. exact H3.
    + right. right. exact H3.
Qed.

Lemma tiles_span (a b : Z) (l : list Glyph) :
  tiles a b l -> x_min l = a /\ x_max l = b.
Proof.
  intros (Hb & Hlo & Hhi). destruct l as [|g t].
  - inversion Hlo.
  - unfold x_min, x_max. inversion Hb as [|? ? [Hg1 Hg2] Ht]; subst.
    destruct (x_min_fold t (X g)) as (M1 & M2 & M3).
    destruct (x_max_fold t (X g + Advance g)) as (N1 & N2 & N3).
    rewrite List.Forall_forall in Ht, M2, N2.
    split.
    + apply Z.le_antisymm.
      * apply List.Exists_exists in Hlo. destruct Hlo as (h & Hin & Hh).
        destruct Hin as [<-|Hin]; [lia|]. specialize (M2 h Hin). lia.
      * destruct M3 as [M3|M3]; [lia|].
        apply List.Exists_exists in M3. destruct M3 as (h & Hin & Hh).
        destruct (Ht h Hin). lia.
    + apply Z.le_antisymm.
      * destruct N3 as [N3|N3]; [lia|].
        apply List.Exists_exists in N3. destruct N3 as (h & Hin & Hh).
        destruct (Ht h Hin). lia.
      * apply List.Exists_exists in Hhi. destruct Hhi as (h & Hin & Hh).
        destruct Hin as [<-|Hin]; [lia|]. specialize (N2 h Hin). lia.
Qed.

Lemma tiles_app (a b c : Z) (l1 l2 : list Glyph) :
  a <= b <= c -> tiles a b l1 -> tiles b c l2 -> tiles a c (l1 ++ l2).
Proof.
  intros Habc (F1 & L1 & H1) (F2 & L2 & H2). split; [|split].
  - apply Forall_app. split.
    + eapply List.Forall_impl; [|exact F1]. simpl. intros g Hg. lia.
    + eapply List.Forall_impl; [|exact F2]. simpl. intros g Hg. lia.
  - apply Exists_app. left. exact L1.
  - apply Exists_app. right. exact H2.
Qed.

Lemma tiles_app_rev (a b c : Z) (l1 l2 : list Glyph) :
  a <= b <= c -> tiles b c l1 -> tiles a b l2 -> tiles a c (l1 ++ l2).
Proof.
  intros Habc (F1 & L1 & H1) (F2 & L2 & H2). split; [|split].
  - apply Forall_app. split.
    + eapply List.Forall_impl; [|exact F1]. simpl. intros g Hg. lia.
    + eapply List.Forall_impl; [|exact F2]. simpl. intros g Hg. lia.
  - apply Exists_app. right. exact L2.
  - apply Exists_app. left. exact H1.
Qed.

Lemma tiles_one (g : Glyph) (c : Z) :
  tiles c (c + Advance g) [set_X g c].
Proof.
  split; [|split].
  - constructor; [simpl; lia | constructor].
  - left. reflexivity.
  - left. reflexivity.
Qed.

Lemma sum_advances_nonneg (run : list Glyph) :
  Forall (fun g => 0 <= Advance g) run -> 0 <= sum_advances run.
Proof.
  induction 1 as [|g t Hg Ht IH]; simpl; lia.
Qed.

Lemma sum_advances_app (l1 l2 : list Glyph) :
  sum_advances (l1 ++ l2) = sum_advances l1 + sum_advances l2.
Proof. induction l1 as [|g t IH]; simpl; lia. Qed.

Lemma place_ltr_tiles (run : list Glyph) (c : Z) :
  run <> [] -> Forall (fun g => 0 <= Advance g) run ->
  fits32 c -> fits32 (c + sum_advances run) ->
  tiles c (c + sum_advances run) (place_ltr c run).
Proof.
  revert c. induction run as [|g t IH]; intros c Hne Hadv Hc Hs; [congruence|].
  inversion Hadv as [|? ? Hg Ht]; subst. pose proof (sum_advances_nonneg t Ht) as Hn.
  simpl in *. destruct t as [|g' t].
  - simpl. replace (c + (Advance g + 0)) with (c + Advance g) by lia.
    apply tiles_one.
  - assert (E : add32 c (Advance g) = c + Advance g)
      by (apply wrap32_id; unfold fits32 in *; lia).
    rewrite E.
    change (set_X g c :: place_ltr (c + Advance g) (g' :: t))
      with ([set_X g c] ++ place_ltr (c + Advance g) (g' :: t)).
    apply (tiles_app c (c + Advance g)); [lia | apply tiles_one|].
    replace (c + (Advance g + sum_advances (g' :: t)))
      with (c + Advance g + sum_advances (g' :: t)) by lia.
    apply IH; [discriminate | exact Ht | unfold fits32 in *; lia
               | unfold fits32 in *; lia].
Qed.

Lemma place_rtl_tiles (run : list Glyph) (c : Z) :
  run <> [] -> Forall (fun g => 0 <= Advance g) run ->
  fits32 c -> fits32 (c - sum_advances run) ->
  tiles (c - sum_advances run) c (place_rtl c run).
Proof.
  revert c. induction run as [|g t IH]; intros c Hne Hadv Hc Hs; [congruence|].
  inversion Hadv as [|? ? Hg Ht]; subst. pose proof (sum_advances_nonneg t Ht) as Hn.
  simpl in *.
  assert (E : sub32 c (Advance g) = c - Advance g)
    by (apply wrap32_id; unfold fits32 in *; lia).
  rewrite E.
  assert (T1 : tiles (c - Advance g) c [set_X g (c - Advance g)]).
  { pose proof (tiles_one g (c - Advance g)) as T.
    replace (c - Advance g + Advance g) with c in T by lia. exact T. }
  destruct t as [|g' t].
  - simpl. replace (c - (Advance g + 0)) with (c - Advance g) by lia. exact T1.
  - change (set_X g (c - Advance g) :: place_rtl (c - Advance g) (g' :: t))
      with ([set_X g (c - Advance g)] ++ place_rtl (c - Advance g) (g' :: t)).
    apply (tiles_app_rev _ (c - Advance g)); [lia | exact T1|].
    replace (c - (Advance g + sum_advances (g' :: t)))
      with (c - Advance g - sum_advances (g' :: t)) by lia.
    apply IH; [discriminate | exact Ht | unfold fits32 in *; lia
               | unfold fits32 in *; lia].
Qed.

Lemma run_width_fold (run : list Glyph) (acc : Z) :
  Forall (fun g => 0 <= Advance g) run ->
  0 <= acc -> fits32 (acc + sum_advances run) ->
  fold_left (fun w g => add32 w (Advance g)) run acc = acc + sum_advances run.
Proof.
  revert acc. induction run as [|g t IH]; intros acc Hadv Ha Hs; simpl in *; [lia|].
  inversion Hadv as [|? ? Hg Ht]; subst. pose proof (sum_advances_nonneg t Ht) as Hn.
  assert (E : add32 acc (Advance g) = acc + Advance g)
    by (apply wrap32_id; unfold fits32 in *; lia).
  rewrite E, IH; [lia | exact Ht | lia | unfold fits32 in *].
  replace (acc + Advance g + sum_advances t)
    with (acc + (Advance g + sum_advances t)) by lia. exact Hs.
Qed.

Lemma run_width_exact (run : list Glyph) :
  Forall (fun g => 0 <= Advance g) run -> fits32 (sum_advances run) ->
  run_width run = sum_advances run.
Proof.
  intros Hadv Hs. unfold run_width.
  rewrite run_width_fold; [lia | exact Hadv | lia | exact Hs].
Qed.

Lemma place_run_tiles (run : list Glyph) (left : Z) :
  run <> [] -> Forall (fun g => 0 <= Advance g) run ->
  fits32 left -> fits32 (sum_advances run) -> fits32 (left + sum_advances run) ->
  tiles left (left + sum_advances run) (place_run left run).
Proof.
  intros Hne Hadv Hl Hs Hls. unfold place_run.
  destruct (is_rtl run).
  - rewrite (run_width_exact run Hadv Hs).
    assert (E : add32 left (sum_advances run) = left + sum_advances run)
      by (apply wrap32_id; exact Hls).
    rewrite E.
    pose proof (place_rtl_tiles run (left + sum_advances run) Hne Hadv Hls) as T.
    replace (left + sum_advances run - sum_advances run) with left in T by lia.
    apply T. exact Hl.
  - apply place_ltr_tiles; assumption.
Qed.

Lemma place_runs_tiles (rs : list (list Glyph)) (a x : Z) :
  rs <> [] -> Forall (fun r => r <> []) rs ->
  Forall (fun g => 0 <= Advance g) (concat rs) ->
  0 <= x -> fits32 a -> fits32 (x + sum_advances (concat rs)) ->
  fits32 (a + x + sum_advances (concat rs)) ->
  tiles (a + x) (a + x + sum_advances (concat rs)) (place_runs a x rs).
Proof.
  revert x. induction rs as [|r rs IH]; intros x Hne Hr Hadv Hx Ha Hxs Haxs;
    [congruence|].
  inversion Hr as [|? ? Hr1 Hr2]; subst.
  simpl concat in *. rewrite sum_advances_app in *.
  apply Forall_app in Hadv. destruct Hadv as [Hadv1 Hadv2].
  pose proof (sum_advances_nonneg r Hadv1) as Hn1.
  pose proof (sum_advances_nonneg _ Hadv2) as Hn2.
  assert (E1 : add32 a x = a + x) by (apply wrap32_id; unfold fits32 in *; lia).
  assert (Hf : fits32 (sum_advances r)) by (unfold fits32 in *; lia).
  assert (E2 : add32 x (run_width r) = x + sum_advances r).
  { rewrite (run_width_exact r Hadv1 Hf). apply wrap32_id. unfold fits32 in *; lia. }
  cbn [place_runs]. rewrite E1, E2.
  assert (T1 : tiles (a + x) (a + x + sum_advances r) (place_run (a + x) r)).
  { apply place_run_tiles; try assumption; unfold fits32 in *; lia. }
  destruct rs as [|r' rs].
  - simpl. rewrite app_nil_r. replace (a + x + (sum_advances r + 0))
      with (a + x + sum_advances r) by lia. exact T1.
  - apply (tiles_app _ (a + x + sum_advances r)); [lia | exact T1|].
    replace (a + x + (sum_advances r + sum_advances (concat (r' :: rs))))
      with (a + (x + sum_advances r) + sum_advances (concat (r' :: rs))) by lia.
    replace (a + x + sum_advances r) with (a + (x + sum_advances r)) by lia.
    apply IH; try assumption; try discriminate; unfold fits32 in *; lia.
Qed.

Lemma mark_last_Forall (P : Z -> Z -> Prop) (l : list Glyph) :
  Forall (fun g => P (X g) (Advance g)) l ->
  Forall (fun g => P (X g) (Advance g)) (mark_last l).
Proof.
  induction l as [|g t IH]; intros H; [constructor|].
  inversion H; subst. destruct t as [|g' t].
  - constructor; [assumption|constructor].
  - rewrite mark_last_cons by discriminate. constructor; [assumption|].
    apply IH. assumption.
Qed.

Lemma mark_last_Exists (P : Z -> Z -> Prop) (l : list Glyph) :
  Exists (fun g => P (X g) (Advance g)) l ->
  Exists (fun g => P (X g) (Advance g)) (mark_last l).
Proof.
  induction l as [|g t IH]; intros H; [inversion H|].
  destruct t as [|g' t].
  - inversion H as [? ? Hg|? ? Ht]; subst; [left; exact Hg | inversion Ht].
  - rewrite mark_last_cons by discriminate.
    inversion H as [? ? Hg|? ? Ht]; subst;
      [left; exact Hg | right; apply IH; exact Ht].
Qed.

Lemma tiles_mark_last (a b : Z) (l : list Glyph) :
  tiles a b l -> tiles a b (mark_last l).
Proof.
  intros (F & L & H). split; [|split].
  - exact (mark_last_Forall (fun x adv => a <= x /\ x + adv <= b) l F).
  - exact (mark_last_Exists (fun x _ => x = a) l L).
  - exact (mark_last_Exists (fun x adv => x + adv = b) l H).
Qed.

Lemma maximal_runs_nonempty (rs : list (list Glyph)) :
  maximal_runs rs -> Forall (fun r => r <> []) rs.
Proof.
  induction rs as [|r rs IH]; intros H; [constructor|].
  simpl in H. destruct r as [|g r]; [destruct H|].
  destruct H as (_ & _ & H). constructor; [discriminate | apply IH; exact H].
Qed.

Lemma mark_has_break (g : Glyph) :
  Z.land (Flags (mark g)) FlagLineBreak = FlagLineBreak.
Proof.
  unfold mark. cbn [Flags set_Flags].
  apply Z.bits_inj'. intros n _. rewrite Z.land_spec, Z.lor_spec.
  destruct (Z.testbit (Flags g) n), (Z.testbit FlagLineBreak n); reflexivity.
Qed.

Lemma mark_last_snoc (l : list Glyph) (g : Glyph) :
  mark_last (l ++ [g]) = l ++ [mark g].
Proof. rewrite mark_last_app by discriminate. reflexivity. Qed.

Lemma mark_last_last (l l' : list Glyph) (g : Glyph) :
  mark_last l = l' ++ [g] -> exists g0, g = mark g0 /\ l = l' ++ [g0].
Proof.
  destruct l as [|x xs].
  - simpl. intros H. destruct l'; discriminate.
  - destruct (exists_last (l := x :: xs)) as (l0 & g0 & E); [discriminate|].
    rewrite E, mark_last_snoc. intros H.
    apply app_inj_tail in H. destruct H as [-> <-]. eauto.
Qed.

(** C7: [recompute] lays the line out as the specification says.  The
    glyphs are partitioned, in logical order, into maximal runs of equal
    direction flag; the runs are placed left to right, each in the next
    span as wide as the run, starting at the alignment offset; within a
    right-to-left run X goes down from the run's right edge by each
    advance, within a left-to-right run it goes up from the left edge;
    the final glyph of the line receives the [LineBreak] flag.  When the
    advances are not negative and the offsets fit the 32-bit fixed-point
    type, the extent of the glyphs on the X axis is the sum of their
    advances. *)
Theorem C7_recompute_bidi (li : Line) (alignOff runeOff : Z) :
  concat (runs (Glyphs li)) = Glyphs li /\
  maximal_runs (runs (Glyphs li)) /\
  recompute li alignOff runeOff
  = Some (with_glyphs li
            (mark_last (place_runs alignOff 0 (runs (Glyphs li)))) runeOff) /\
  (forall l g,
      visual_layout alignOff (Glyphs li) = l ++ [g] ->
      Z.land (Flags g) FlagLineBreak = FlagLineBreak) /\
  (Glyphs li <> [] ->
   Forall (fun g => 0 <= Advance g) (Glyphs li) ->
   fits32 alignOff ->
   fits32 (sum_advances (Glyphs li)) ->
   fits32 (alignOff + sum_advances (Glyphs li)) ->
   x_min (visual_layout alignOff (Glyphs li)) = alignOff /\
   x_span (visual_layout alignOff (Glyphs li)) = sum_advances (Glyphs li)).
Proof.
  split; [apply runs_concat|].
  split; [apply runs_maximal|].
  split; [apply recompute_spec|].
  split.
  - intros l g H. apply mark_last_last in H. destruct H as (g0 & -> & _).
    apply mark_has_break.
  - intros Hne Hadv Ha Hs Has.
    assert (T : tiles (alignOff + 0)
                      (alignOff + 0 + sum_advances (concat (runs (Glyphs li))))
                      (place_runs alignOff 0 (runs (Glyphs li)))).
    { apply place_runs_tiles.
      - destruct (runs_nonempty_head (Glyphs li) Hne) as (h & r & rs & E).
        rewrite E. discriminate.
      - apply maximal_runs_nonempty, runs_maximal.
      - rewrite runs_concat. exact Hadv.
      - lia.
      - exact Ha.
      - rewrite runs_concat. exact Hs.
      - rewrite runs_concat, Z.add_0_r. exact Has. }
    rewrite runs_concat, Z.add_0_r in T.
    apply tiles_mark_last, tiles_span in T. destruct T as [T1 T2].
    unfold x_span, visual_layout. rewrite T1, T2. split; [reflexivity | lia].
Qed.

(** The theorem on a mixed line: a left-to-right glyph, two
    right-to-left glyphs and a left-to-right glyph, aligned at 3. *)
Lemma C7_recompute_bidi_witness :
  let gs := [mkGlyph 0 0 10 0 0 1 0; mkGlyph 0 0 7 0 0 1 1;
             mkGlyph 0 0 8 0 0 1 1; mkGlyph 0 0 5 0 0 1 0] in
  let li := mkLine 0 0 30 0 0 gs 4 0 in
  option_map (fun l => map X (Glyphs l)) (recompute li 3 0) = Some [3; 21; 13; 28] /\
  x_span (visual_layout 3 gs) = 30.
Proof.
  intros gs li. split; [reflexivity|].
  refine (proj2 (proj2 (proj2 (proj2 (proj2 (C7_recompute_bidi li 3 0))))
                  _ _ _ _ _)).
  - discriminate.
  - repeat constructor; simpl; lia.
  - unfold fits32. lia.
  - unfold fits32. simpl. lia.
  - unfold fits32. simpl. lia.
Defined.

End LayoutProps.

(** ** Lines, paragraphs and the layout of a line again *)

Section LayoutMore.
Import Layout.
Implicit Types (g o : Glyph) (gs run : list Glyph) (rs : list (list Glyph))
         (li : Line).

Lemma add32_wrap32 (a b : Z) : add32 (wrap32 a) b = wrap32 (a + b).
Proof.
  unfold add32, wrap32.
  replace ((a + 2147483648) mod 4294967296 - 2147483648 + b + 2147483648)
    with ((a + 2147483648) mod 4294967296 + b) by lia.
  rewrite Zplus_mod_idemp_l. f_equal. f_equal. lia.
Qed.

Lemma append_snoc li gs g : append li (gs ++ [g]) = append_glyph (append li gs) g.
Proof. unfold append. rewrite fold_left_app. reflexivity. Qed.

(** X10: [Line.append] adds the glyphs at the end of the line in
    order; the line's rune count grows by the runes of the glyphs, its
    width by their advances (in 32-bit fixed point), its X offset
    becomes the least of the old offset and the glyphs' X positions,
    and its Y offset, ascent and descent become those of the last glyph
    added; the rune offset is kept. *)
Theorem Line_append_spec li gs :
  fits32 (Width li) ->
  let li' := append li gs in
  Glyphs li' = Glyphs li ++ gs /\
  LRunes li' = LRunes li + sum_glyph_runes gs /\
  Width li' = wrap32 (Width li + sum_advances gs) /\
  RuneOff li' = RuneOff li /\
  (XOff li' <= XOff li /\ Forall (fun g => XOff li' <= X g) gs /\
   (XOff li' = XOff li \/ Exists (fun g => X g = XOff li') gs)) /\
  (forall g, list.last gs = Some g ->
             YOff li' = Y g /\ LAscent li' = Ascent g /\ LDescent li' = Descent g).
Proof.
  intros Hw. cbv zeta.
  induction gs as [|g gs IH] using rev_ind.
  - change (append li []) with li. cbn [sum_glyph_runes sum_advances fold_right].
    rewrite app_nil_r, !Z.add_0_r, wrap32_id by exact Hw.
    split; [reflexivity|]. split; [reflexivity|]. split; [reflexivity|].
    split; [reflexivity|]. split.
    + split; [lia|]. split; [constructor | left; reflexivity].
    + intros g Hg. discriminate Hg.
  - destruct IH as (H1 & H2 & H3 & H4 & (H5 & H6 & H7) & _).
    rewrite append_snoc. unfold append_glyph at 1 2 3 4 5 6 7 8 9 10.
    cbn [Glyphs LRunes Width RuneOff XOff YOff LAscent LDescent].
    split; [rewrite H1, app_assoc; reflexivity|].
    split.
    { rewrite H2. unfold sum_glyph_runes. rewrite fold_right_app. cbn [fold_right].
      clear. induction gs as [|a gs IH]; cbn [fold_right]; lia. }
    split.
    { rewrite H3, add32_wrap32, sum_advances_app. cbn. f_equal. lia. }
    split; [exact H4|].
    split.
    { destruct (X g <? XOff (append li gs)) eqn:E.
      - apply Z.ltb_lt in E. split; [lia|]. split.
        + apply Forall_app. split.
          * eapply Forall_impl; [exact H6|]. cbn. intros; lia.
          * constructor; [lia | constructor].
        + right. apply Exists_app. right. left. reflexivity.
      - apply Z.ltb_ge in E. split; [exact H5|]. split.
        + apply Forall_app. split; [exact H6|].
          constructor; [lia | constructor].
        + destruct H7 as [H7|H7]; [left; exact H7|].
          right. apply Exists_app. left. exact H7. }
    intros g' Hg'. rewrite last_snoc in Hg'. injection Hg' as <-. auto.
Qed.

Lemma Line_append_spec_witness :
  let li := mkLine 100 0 0 0 0 [] 0 7 in
  let gs := [mkGlyph 30 5 10 8 2 1 0; mkGlyph 40 5 12 8 2 2 0] in
  Glyphs (append li gs) = gs /\ Width (append li gs) = 22 /\
  XOff (append li gs) = 30 /\ LRunes (append li gs) = 3.
Proof.
  intros li gs.
  destruct (Line_append_spec li gs ltac:(unfold fits32; cbn; lia))
    as (H1 & H2 & H3 & _).
  split; [exact H1|]. split; [exact H3|]. split; [reflexivity | exact H2].
Defined.

(** *** Paragraphs *)

Lemma last_cons_default {A} (x d : A) (t : list A) :
  List.last (x :: t) d = List.last t x.
Proof.
  revert x d. induction t as [|y t IH]; intros x d; [reflexivity|].
  change (List.last (x :: y :: t) d) with (List.last (y :: t) d).
  rewrite IH. symmetry. apply IH.
Qed.

Lemma Add_runes (p : Paragraph) li :
  forall b p', Add p li = Some (b, p') ->
    PRunes p' = PRunes p + LRunes li /\
    (exists g, list.last (Glyphs li) = Some g /\
               EndX p' = X g /\ EndY p' = Y g /\
               b = negb (Z.land (Flags g) FlagParagraphBreak =? 0)) /\
    (PRunes p <> 0 ->
     StartX p' = StartX p /\ StartY p' = StartY p /\ PRuneOff p' = PRuneOff p) /\
    (PRunes p = 0 ->
     exists s, Glyphs li !! 0%nat = Some s /\
               StartX p' = X s /\ StartY p' = Y s /\ PRuneOff p' = RuneOff li).
Proof.
  intros b p' H. unfold Add in H.
  destruct (list.last (Glyphs li)) as [g|] eqn:El; [|discriminate H].
  cbv beta iota in H.
  destruct (PRunes p =? 0) eqn:E0.
  - apply Z.eqb_eq in E0.
    destruct (Glyphs li !! 0%nat) as [s|] eqn:Es; [|discriminate H].
    cbv beta iota in H. injection H as <- <-. cbn.
    split; [reflexivity|]. split; [eauto|]. split; [congruence|].
    intros _. eauto.
  - apply Z.eqb_neq in E0. cbv beta iota in H. injection H as <- <-. cbn.
    split; [reflexivity|]. split; [eauto|]. split; [auto|]. congruence.
Qed.

Lemma Add_some (p : Paragraph) li :
  Glyphs li <> [] -> exists b p', Add p li = Some (b, p').
Proof.
  intros Hne. unfold Add.
  destruct (Glyphs li) as [|s t] eqn:Eg; [congruence|].
  assert (Hl : is_Some (list.last (s :: t))).
  { destruct (list.last (s :: t)) eqn:El; [eauto|].
    apply last_None in El. discriminate El. }
  destruct Hl as [g ->]. cbv beta iota.
  destruct (PRunes p =? 0); cbv beta iota; cbn [lookup list_lookup]; eauto.
Qed.

(** X11: a paragraph built by adding visual lines that all have
    glyphs, the first of them with runes, starts at the first glyph and
    the rune offset of the first line, ends at the last glyph of the
    last line, and has the runes of all lines; [Add] reports the end of
    the paragraph exactly when the last glyph of the line added has the
    [ParagraphBreak] flag.  Adding a line without glyphs panics. *)
Theorem Paragraph_Add_spec (p0 : Paragraph) (l1 : Line) (lis : list Line) :
  PRunes p0 = 0 -> 0 < LRunes l1 ->
  Forall (fun li => Glyphs li <> [] /\ 0 <= LRunes li) (l1 :: lis) ->
  (exists p s e,
     Add_all p0 (l1 :: lis) = Some p /\
     PRunes p = fold_right (fun li n => LRunes li + n) 0 (l1 :: lis) /\
     PRuneOff p = RuneOff l1 /\
     Glyphs l1 !! 0%nat = Some s /\ StartX p = X s /\ StartY p = Y s /\
     list.last (Glyphs (List.last lis l1)) = Some e /\
     EndX p = X e /\ EndY p = Y e) /\
  (forall p li b p', Add p li = Some (b, p') ->
     exists g, list.last (Glyphs li) = Some g /\
               (b = true <-> Z.land (Flags g) FlagParagraphBreak <> 0)) /\
  (forall p li, Glyphs li = [] -> Add p li = None).
Proof.
  intros Hp0 Hl1 Hall. split; [|split].
  - apply Forall_cons in Hall as [[Hg1 _] Hall].
    destruct (Add_some p0 l1 Hg1) as (b1 & p1 & HA1).
    destruct (Add_runes p0 l1 b1 p1 HA1) as (Hr1 & (e1 & He1 & Hex1 & Hey1 & _) & _ & Hs1).
    destruct (Hs1 Hp0) as (s & Hs & Hsx & Hsy & Hro).
    cbn [Add_all]. rewrite HA1. cbv beta iota.
    assert (Hpos : 0 < PRunes p1) by lia.
    rewrite Hp0, Z.add_0_l in Hr1. clear HA1 Hs1 Hp0.
    assert (G : forall lis p1 l1 e1,
               0 < PRunes p1 ->
               list.last (Glyphs l1) = Some e1 -> EndX p1 = X e1 -> EndY p1 = Y e1 ->
               Forall (fun li => Glyphs li <> [] /\ 0 <= LRunes li) lis ->
               exists p e,
                 Add_all p1 lis = Some p /\
                 PRunes p = PRunes p1 + fold_right (fun li n => LRunes li + n) 0 lis /\
                 PRuneOff p = PRuneOff p1 /\ StartX p = StartX p1 /\
                 StartY p = StartY p1 /\
                 list.last (Glyphs (List.last lis l1)) = Some e /\
                 EndX p = X e /\ EndY p = Y e).
    { clear. induction lis as [|l lis IH]; intros p1 l1 e1 Hpos He Hx Hy Hall.
      - exists p1, e1. cbn. repeat split; try assumption; lia.
      - apply Forall_cons in Hall as [[Hg Hr] Hall].
        destruct (Add_some p1 l Hg) as (b & p2 & HA).
        destruct (Add_runes p1 l b p2 HA)
          as (Hr2 & (e2 & He2 & Hex2 & Hey2 & _) & Hkeep & _).
        destruct (Hkeep ltac:(lia)) as (K1 & K2 & K3).
        destruct (IH p2 l e2 ltac:(lia) He2 Hex2 Hey2 Hall)
          as (p & e & H1 & H2 & H3 & H4 & H5 & H6 & H7 & H8).
        exists p, e. cbn [Add_all]. rewrite HA. cbv beta iota.
        split; [exact H1|]. split; [cbn [fold_right]; lia|].
        split; [congruence|]. split; [congruence|]. split; [congruence|].
        split; [|auto].
        rewrite last_cons_default. exact H6. }
    destruct (G lis p1 l1 e1 Hpos He1 Hex1 Hey1 Hall)
      as (p & e & H1 & H2 & H3 & H4 & H5 & H6 & H7 & H8).
    exists p, s, e. split; [exact H1|]. split; [cbn [fold_right]; lia|].
    split; [congruence|]. split; [exact Hs|]. split; [congruence|].
    split; [congruence|]. auto.
  - intros p li b p' HA.
    destruct (Add_runes p li b p' HA) as (_ & (g & Hg & _ & _ & Hb) & _).
    exists g. split; [exact Hg|]. rewrite Hb.
    destruct (Z.land (Flags g) FlagParagraphBreak =? 0) eqn:E; cbn.
    + apply Z.eqb_eq in E. split; [discriminate | congruence].
    + apply Z.eqb_neq in E. tauto.
  - intros p li Hg. unfold Add. rewrite Hg. reflexivity.
Qed.

Lemma Paragraph_Add_spec_witness :
  let l1 := mkLine 0 10 22 8 2 [mkGlyph 0 10 10 8 2 1 0; mkGlyph 10 10 12 8 2 2 2] 3 40 in
  let l2 := mkLine 0 20 9 8 2 [mkGlyph 0 20 9 8 2 1 18] 1 43 in
  exists p, Add_all Paragraph_zero [l1; l2] = Some p /\
            PRunes p = 4 /\ PRuneOff p = 40 /\ StartY p = 10 /\ EndY p = 20.
Proof.
  intros l1 l2.
  destruct (proj1 (Paragraph_Add_spec Paragraph_zero l1 [l2] eq_refl
                     ltac:(cbn; lia)
                     ltac:(repeat constructor; cbn; (discriminate || lia))))
    as (p & s & e & H1 & H2 & H3 & Hs & _ & Hsy & He & _ & Hey).
  exists p. split; [exact H1|]. split; [exact H2|]. split; [exact H3|].
  cbn in Hs, He. injection Hs as <-. injection He as <-. auto.
Defined.

(** *** What [recompute] keeps *)

Lemma placed_refl g : placed g g.
Proof. destruct g; reflexivity. Qed.

Lemma place_ltr_placed run (c : Z) : Forall2 placed run (place_ltr c run).
Proof.
  revert c. induction run as [|g t IH]; intros c; cbn [place_ltr]; constructor;
    [reflexivity | apply IH].
Qed.

Lemma place_rtl_placed run (c : Z) : Forall2 placed run (place_rtl c run).
Proof.
  revert c. induction run as [|g t IH]; intros c; cbn [place_rtl]; constructor;
    [reflexivity | apply IH].
Qed.

Lemma place_runs_placed rs (a x : Z) :
  Forall2 placed (concat rs) (place_runs a x rs).
Proof.
  revert x. induction rs as [|r rs IH]; intros x; [constructor|].
  cbn [place_runs concat]. apply Forall2_app; [|apply IH].
  unfold place_run. destruct (is_rtl r);
    [apply place_rtl_placed | apply place_ltr_placed].
Qed.

Lemma dir_mark g : dir (mark g) = dir g.
Proof.
  unfold dir, mark. cbn [Flags set_Flags].
  rewrite Z.land_lor_distr_l. change (Z.land FlagLineBreak FlagTowardOrigin) with 0.
  apply Z.lor_0_r.
Qed.

Lemma mark_mark g : mark (mark g) = mark g.
Proof.
  unfold mark, set_Flags. cbn [X Y Advance Ascent Descent Runes Flags].
  rewrite <- Z.lor_assoc, Z.lor_diag. reflexivity.
Qed.

Lemma placed_mark_last l l' :
  Forall2 placed l l' ->
  Forall2 (fun g o => same_shape g o /\ same_run_key g o) l (mark_last l').
Proof.
  intros H. induction H as [|g o l l' Hp H IH]; [constructor|].
  assert (Ho : same_shape g o /\ same_run_key g o).
  { rewrite Hp. unfold same_shape, same_run_key, dir. cbn. tauto. }
  destruct l' as [|o' l'].
  - inversion H; subst. cbn [mark_last]. constructor; [|constructor].
    fold (mark o). destruct Ho as [Hs [Ha Hd]].
    split; [exact Hs|]. split; [exact Ha|]. rewrite dir_mark. exact Hd.
  - rewrite mark_last_cons by discriminate. constructor; [exact Ho | exact IH].
Qed.

(** The runs of two lists of glyphs that agree in direction are cut at
    the same places. *)
Lemma runs_rel (R : Glyph -> Glyph -> Prop) gs gs' :
  (forall g g', R g g' -> dir g' = dir g) ->
  Forall2 R gs gs' -> Forall2 (Forall2 R) (runs gs) (runs gs').
Proof.
  intros HR H. induction H as [|g g' t t' Hk H IH]; [constructor|].
  rewrite !runs_cons.
  assert (H1 : Forall2 R [g] [g']) by (constructor; [exact Hk | constructor]).
  destruct IH as [|r r' rs rs' Hr Hrs].
  - constructor; [exact H1 | constructor].
  - destruct Hr as [|h h' r r' Hh Hr].
    + constructor; [exact H1 | constructor].
    + rewrite (HR _ _ Hk), (HR _ _ Hh). destruct (dir g =? dir h).
      * constructor; [|exact Hrs].
        constructor; [exact Hk|]. constructor; assumption.
      * constructor; [exact H1|].
        constructor; [|exact Hrs]. constructor; assumption.
Qed.

Lemma runs_same_key gs gs' :
  Forall2 same_run_key gs gs' -> Forall2 (Forall2 same_run_key) (runs gs) (runs gs').
Proof. apply runs_rel. intros g g' [_ H]. exact H. Qed.

Lemma run_width_same_key r r' :
  Forall2 same_run_key r r' -> run_width r = run_width r'.
Proof.
  unfold run_width. generalize 0 as acc.
  intros acc H. revert acc.
  induction H as [|g g' t t' [Ha _] H IH]; intros acc; [reflexivity|].
  cbn [fold_left]. rewrite Ha. apply IH.
Qed.

Lemma is_rtl_same_key r r' : Forall2 same_run_key r r' -> is_rtl r = is_rtl r'.
Proof.
  intros H. destruct H as [|g g' t t' [_ Hd] H]; [reflexivity|].
  cbn [is_rtl]. rewrite Hd. reflexivity.
Qed.

Lemma place_ltr_same_key r r' (c : Z) :
  Forall2 same_run_key r r' -> map X (place_ltr c r) = map X (place_ltr c r').
Proof.
  intros H. revert c.
  induction H as [|g g' t t' [Ha _] H IH]; intros c; [reflexivity|].
  cbn [place_ltr map]. rewrite Ha, IH. reflexivity.
Qed.

Lemma place_rtl_same_key r r' (c : Z) :
  Forall2 same_run_key r r' -> map X (place_rtl c r) = map X (place_rtl c r').
Proof.
  intros H. revert c.
  induction H as [|g g' t t' [Ha _] H IH]; intros c; [reflexivity|].
  cbn [place_rtl map]. rewrite Ha, IH. reflexivity.
Qed.

(** The X positions depend on the advances and the directions only. *)
Lemma place_runs_same_key rs rs' (a x : Z) :
  Forall2 (Forall2 same_run_key) rs rs' ->
  map X (place_runs a x rs) = map X (place_runs a x rs').
Proof.
  intros H. revert x.
  induction H as [|r r' rs rs' Hr H IH]; intros x; [reflexivity|].
  cbn [place_runs]. rewrite !map_app. unfold place_run.
  rewrite (is_rtl_same_key _ _ Hr), (run_width_same_key _ _ Hr), IH.
  f_equal. destruct (is_rtl r');
    [apply place_rtl_same_key | apply place_ltr_same_key]; exact Hr.
Qed.

Lemma placed_unique l p p' :
  Forall2 placed l p -> Forall2 placed l p' -> map X p = map X p' -> p = p'.
Proof.
  intros H. revert p'. induction H as [|g o l p Ho H IH]; intros p' H' HX.
  - inversion H'. reflexivity.
  - inversion H' as [|? o' ? p'' Ho' H'']; subst.
    cbn [map] in HX. injection HX as Hx HX.
    rewrite Ho, Ho', Hx. f_equal. apply IH; assumption.
Qed.

Lemma map_X_mark_last l : map X (mark_last l) = map X l.
Proof.
  induction l as [|g l IH]; [reflexivity|].
  destruct l as [|h l]; [reflexivity|].
  rewrite mark_last_cons by discriminate. cbn [map]. rewrite IH. reflexivity.
Qed.

Lemma mark_last_idem l : mark_last (mark_last l) = mark_last l.
Proof.
  destruct l as [|x xs]; [reflexivity|].
  destruct (exists_last (l := x :: xs)) as (l0 & g0 & ->); [discriminate|].
  rewrite !mark_last_snoc, mark_mark. reflexivity.
Qed.

Lemma visual_layout_idem (a : Z) gs :
  visual_layout a (visual_layout a gs) = visual_layout a gs.
Proof.
  unfold visual_layout.
  set (P := place_runs a 0 (runs gs)).
  assert (HP : Forall2 placed gs P).
  { pose proof (place_runs_placed (runs gs) a 0) as H.
    rewrite runs_concat in H. exact H. }
  assert (Hk : Forall2 same_run_key gs (mark_last P)).
  { eapply Forall2_impl; [apply placed_mark_last; exact HP|].
    cbn. intros ? ? [_ H]. exact H. }
  set (P' := place_runs a 0 (runs (mark_last P))).
  assert (HP' : Forall2 placed (mark_last P) P').
  { pose proof (place_runs_placed (runs (mark_last P)) a 0) as H.
    rewrite runs_concat in H. exact H. }
  assert (E : P' = mark_last P).
  { apply (placed_unique (mark_last P)); [exact HP'| |].
    - clear. induction (mark_last P); constructor; [apply placed_refl | assumption].
    - rewrite map_X_mark_last. symmetry.
      apply place_runs_same_key, runs_same_key. exact Hk. }
  rewrite E. apply mark_last_idem.
Qed.

(** X12: [recompute] is idempotent: laying out again, with the same
    alignment offset and rune offset, a line that [recompute] has laid
    out leaves the line as it is. *)
Theorem recompute_idempotent li (alignOff runeOff : Z) :
  exists li1, recompute li alignOff runeOff = Some li1 /\
              recompute li1 alignOff runeOff = Some li1.
Proof.
  exists (with_glyphs li (visual_layout alignOff (Glyphs li)) runeOff).
  split; [apply recompute_spec|].
  rewrite recompute_spec. cbn [Glyphs with_glyphs].
  rewrite visual_layout_idem. reflexivity.
Qed.

Lemma mark_last_lookup l (i : nat) g :
  l !! i = Some g ->
  mark_last l !! i = Some (if Nat.eqb (S i) (List.length l) then mark g else g).
Proof.
  revert i. induction l as [|x l IH]; intros i H; [discriminate H|].
  destruct l as [|y l].
  - destruct i as [|i]; [|discriminate H]. injection H as ->. reflexivity.
  - rewrite mark_last_cons by discriminate.
    destruct i as [|i].
    + injection H as ->. reflexivity.
    + apply (IH i) in H. exact H.
Qed.

(** X13: [recompute] changes the X of the glyphs, the flags of the
    last glyph and the rune offset of the line, and nothing else: the
    glyphs stay in their (logical) order with their Y, advance, ascent,
    descent and rune count, the last one gets [FlagLineBreak] added to
    its flags, the others keep their flags, and the line keeps its
    offsets, width, ascent, descent and rune count. *)
Theorem recompute_keeps li (alignOff runeOff : Z) :
  exists li', recompute li alignOff runeOff = Some li' /\
    XOff li' = XOff li /\ YOff li' = YOff li /\ Width li' = Width li /\
    LAscent li' = LAscent li /\ LDescent li' = LDescent li /\
    LRunes li' = LRunes li /\ RuneOff li' = runeOff /\
    List.length (Glyphs li') = List.length (Glyphs li) /\
    forall (i : nat) g, Glyphs li !! i = Some g ->
      exists o, Glyphs li' !! i = Some o /\ same_shape g o /\
        Flags o = if Nat.eqb (S i) (List.length (Glyphs li))
                  then Z.lor (Flags g) FlagLineBreak else Flags g.
Proof.
  exists (with_glyphs li (visual_layout alignOff (Glyphs li)) runeOff).
  split; [apply recompute_spec|]. cbn [XOff YOff Width LAscent LDescent LRunes
                                       RuneOff Glyphs with_glyphs].
  do 7 (split; [reflexivity|]).
  unfold visual_layout.
  pose proof (place_runs_placed (runs (Glyphs li)) alignOff 0) as HP.
  rewrite runs_concat in HP.
  set (P := place_runs alignOff 0 (runs (Glyphs li))) in *.
  pose proof (Forall2_length _ _ _ HP) as HL.
  split; [rewrite mark_last_length; symmetry; exact HL|].
  intros i g Hg.
  destruct (Forall2_lookup_l _ _ _ _ _ HP Hg) as (p & Hp & Hpl).
  rewrite (mark_last_lookup _ _ _ Hp), <- HL.
  eexists. split; [reflexivity|].
  rewrite Hpl. destruct (Nat.eqb (S i) (List.length (Glyphs li)));
    unfold same_shape; cbn; tauto.
Qed.

(** The theorem on a line of two glyphs: the second keeps its shape and
    gets the flag. *)
Lemma recompute_keeps_witness :
  let g1 := mkGlyph 0 5 10 8 2 1 0 in
  let g2 := mkGlyph 0 5 7 8 2 2 1 in
  let li := mkLine 0 5 17 8 2 [g1; g2] 3 0 in
  exists li' o, recompute li 3 9 = Some li' /\ Glyphs li' !! 1%nat = Some o /\
                same_shape g2 o /\ Flags o = 3.
Proof.
  intros g1 g2 li.
  destruct (recompute_keeps li 3 9) as (li' & H & _ & _ & _ & _ & _ & _ & _ & _ & Hi).
  destruct (Hi 1%nat g2 eq_refl) as (o & Ho & Hs & Hf).
  exists li', o. auto.
Defined.

(** *** The glyphs from left to right *)

Lemma wrap32_decomp (z : Z) : exists k, wrap32 z = z + k * 4294967296.
Proof.
  exists (- ((z + 2147483648) / 4294967296)). unfold wrap32.
  pose proof (Z_div_mod_eq_full (z + 2147483648) 4294967296). lia.
Qed.

Lemma wrap32_cong (a b k : Z) : a = b + k * 4294967296 -> wrap32 a = wrap32 b.
Proof.
  intros ->. unfold wrap32.
  replace (b + k * 4294967296 + 2147483648)
    with (b + 2147483648 + k * 4294967296) by lia.
  rewrite Z_mod_plus_full. reflexivity.
Qed.

Lemma wrap32_fits (z : Z) : fits32 (wrap32 z).
Proof.
  unfold fits32, wrap32.
  pose proof (Z.mod_pos_bound (z + 2147483648) 4294967296 ltac:(lia)). lia.
Qed.

Lemma wrap32_wrap32 (z : Z) : wrap32 (wrap32 z) = wrap32 z.
Proof. apply wrap32_id, wrap32_fits. Qed.

Lemma chain_end_sum (c : Z) gs :
  wrap32 (chain_end c gs) = wrap32 (c + sum_advances gs).
Proof.
  unfold chain_end. revert c.
  induction gs as [|g t IH]; intros c; cbn [fold_left sum_advances fold_right].
  - f_equal. lia.
  - rewrite IH. unfold add32. fold (sum_advances t).
    destruct (wrap32_decomp (c + Advance g)) as [k ->].
    apply (wrap32_cong _ _ k). lia.
Qed.

Lemma chain_end_fits (c : Z) gs : fits32 c -> fits32 (chain_end c gs).
Proof.
  unfold chain_end. revert c.
  induction gs as [|g t IH]; intros c Hc; cbn [fold_left]; [exact Hc|].
  apply IH, wrap32_fits.
Qed.

Lemma chain_end_exact (c : Z) gs :
  fits32 c -> chain_end c gs = wrap32 (c + sum_advances gs).
Proof.
  intros Hc. rewrite <- chain_end_sum.
  symmetry. apply wrap32_id, chain_end_fits, Hc.
Qed.

Lemma run_width_sum run : run_width run = wrap32 (sum_advances run).
Proof.
  change (run_width run) with (chain_end 0 run).
  rewrite chain_end_exact by (unfold fits32; lia). reflexivity.
Qed.

Lemma chain_end_app (c : Z) l1 l2 :
  chain_end c (l1 ++ l2) = chain_end (chain_end c l1) l2.
Proof. unfold chain_end. apply fold_left_app. Qed.

Lemma chained_app (c : Z) l1 l2 :
  chained c l1 -> chained (chain_end c l1) l2 -> chained c (l1 ++ l2).
Proof.
  revert c. induction l1 as [|g t IH]; intros c H1 H2; [exact H2|].
  destruct H1 as [Hx Ht]. split; [exact Hx|]. apply IH; assumption.
Qed.

Lemma sum_advances_place_ltr (c : Z) run :
  sum_advances (place_ltr c run) = sum_advances run.
Proof.
  revert c. induction run as [|g t IH]; intros c; [reflexivity|].
  cbn [place_ltr sum_advances fold_right] in *. rewrite IH. reflexivity.
Qed.

Lemma place_ltr_chained (c : Z) run : chained c (place_ltr c run).
Proof.
  revert c. induction run as [|g t IH]; intros c; [exact Logic.I|].
  cbn [place_ltr chained]. split; [reflexivity | apply IH].
Qed.

(** A right-to-left run read back to front starts at the left edge of
    its span and ends at the right edge. *)
Lemma place_rtl_chained (R : Z) run :
  fits32 R ->
  chained (wrap32 (R - sum_advances run)) (rev (place_rtl R run)) /\
  chain_end (wrap32 (R - sum_advances run)) (rev (place_rtl R run)) = R.
Proof.
  revert R. induction run as [|g t IH]; intros R HR.
  - cbn. rewrite Z.sub_0_r, wrap32_id by exact HR. split; [exact Logic.I | reflexivity].
  - cbn [place_rtl rev sum_advances fold_right]. fold (sum_advances t).
    set (R' := sub32 R (Advance g)).
    destruct (IH R' (wrap32_fits _)) as [IH1 IH2].
    assert (E : wrap32 (R - (Advance g + sum_advances t))
                = wrap32 (R' - sum_advances t)).
    { unfold R', sub32. destruct (wrap32_decomp (R - Advance g)) as [k ->].
      symmetry. apply (wrap32_cong _ _ k). lia. }
    rewrite E. split.
    + apply chained_app; [exact IH1|]. rewrite IH2.
      split; [reflexivity | exact Logic.I].
    + rewrite chain_end_app, IH2. unfold chain_end. cbn [fold_left Advance set_X].
      unfold R', sub32, add32. destruct (wrap32_decomp (R - Advance g)) as [k ->].
      rewrite <- (wrap32_id R HR) at 2. apply (wrap32_cong _ _ k). lia.
Qed.

Lemma is_rtl_rel (R : Glyph -> Glyph -> Prop) r r' :
  (forall g g', R g g' -> dir g' = dir g) ->
  Forall2 R r r' -> is_rtl r' = is_rtl r.
Proof.
  intros HR H. destruct H as [|g g' t t' Hd H]; [reflexivity|].
  cbn [is_rtl]. rewrite (HR _ _ Hd). reflexivity.
Qed.

Lemma placed_dir g o : placed g o -> dir o = dir g.
Proof. intros ->. reflexivity. Qed.

Lemma place_run_placed run (c : Z) : Forall2 placed run (place_run c run).
Proof.
  unfold place_run. destruct (is_rtl run);
    [apply place_rtl_placed | apply place_ltr_placed].
Qed.

(** One run, seen from left to right, fills its span. *)
Lemma place_run_chained (left : Z) run :
  fits32 left ->
  let v := if is_rtl run then rev (place_run left run) else place_run left run in
  chained left v /\ chain_end left v = wrap32 (left + sum_advances run).
Proof.
  intros Hl. unfold place_run. destruct (is_rtl run); cbv zeta.
  - set (R := add32 left (run_width run)).
    assert (HR : fits32 R) by apply wrap32_fits.
    assert (E : wrap32 (R - sum_advances run) = left).
    { unfold R, add32. rewrite run_width_sum.
      destruct (wrap32_decomp (sum_advances run)) as [k ->].
      destruct (wrap32_decomp (left + (sum_advances run + k * 4294967296)))
        as [k' ->].
      rewrite <- (wrap32_id left Hl) at 2. apply (wrap32_cong _ _ (k + k')). lia. }
    destruct (place_rtl_chained R run HR) as [H1 H2]. rewrite E in H1, H2.
    split; [exact H1|]. rewrite H2. unfold R, add32. rewrite run_width_sum.
    destruct (wrap32_decomp (sum_advances run)) as [k ->].
    apply (wrap32_cong _ _ k). lia.
  - split; [apply place_ltr_chained|].
    rewrite chain_end_exact by exact Hl. rewrite sum_advances_place_ltr.
    reflexivity.
Qed.

Lemma place_each_concat (a x : Z) rs :
  concat (place_each a x rs) = place_runs a x rs.
Proof.
  revert x. induction rs as [|r rs IH]; intros x; [reflexivity|].
  cbn [place_each place_runs concat]. rewrite IH. reflexivity.
Qed.

Lemma place_each_placed (a x : Z) rs :
  Forall2 (Forall2 placed) rs (place_each a x rs).
Proof.
  revert x. induction rs as [|r rs IH]; intros x; constructor;
    [apply place_run_placed | apply IH].
Qed.

Lemma place_each_chained (a x : Z) rs :
  chained (add32 a x) (visual_order (place_each a x rs)).
Proof.
  revert x. induction rs as [|r rs IH]; intros x; [exact Logic.I|].
  cbn [place_each]. unfold visual_order. cbn [map concat].
  rewrite (is_rtl_rel placed _ _ placed_dir (place_run_placed r (add32 a x))).
  destruct (place_run_chained (add32 a x) r (wrap32_fits _)) as [H1 H2].
  apply chained_app; [exact H1|]. rewrite H2.
  replace (wrap32 (add32 a x + sum_advances r))
    with (add32 a (add32 x (run_width r))); [apply IH|].
  unfold add32. rewrite run_width_sum.
  destruct (wrap32_decomp (sum_advances r)) as [k ->].
  destruct (wrap32_decomp (x + (sum_advances r + k * 4294967296))) as [k1 ->].
  destruct (wrap32_decomp (a + x)) as [k2 ->].
  apply (wrap32_cong _ _ (k + k1 - k2)). lia.
Qed.

(** Maximal runs stay maximal when the glyphs keep their direction. *)
Lemma maximal_runs_rel (R : Glyph -> Glyph -> Prop) rs rs' :
  (forall g g', R g g' -> dir g' = dir g) ->
  Forall2 (Forall2 R) rs rs' -> maximal_runs rs -> maximal_runs rs'.
Proof.
  intros HR H. induction H as [|r r' rs rs' Hr H IH]; intros Hm; [exact Logic.I|].
  cbn [maximal_runs] in Hm |- *.
  destruct Hr as [|g g' t t' Hg Ht]; [destruct Hm|].
  destruct Hm as (Hu & Hn & Hm).
  split; [|split; [|apply IH; exact Hm]].
  - unfold uniform in *. rewrite (HR _ _ Hg).
    inversion Hu as [|? ? _ Hut]; subst. constructor; [exact (HR _ _ Hg)|].
    clear - HR Ht Hut. induction Ht as [|y y' t t' Hy Ht IH]; [constructor|].
    inversion Hut; subst. constructor; [rewrite (HR _ _ Hy); assumption|].
    apply IH; assumption.
  - destruct H as [|s s' ? ? Hs _]; [exact Logic.I|].
    destruct Hs as [|h h' ? ? Hh _]; [exact Logic.I|].
    rewrite (HR _ _ Hg), (HR _ _ Hh). exact Hn.
Qed.

Lemma runs_app_maximal (r : list Glyph) (rs : list (list Glyph)) :
  maximal_runs (r :: rs) -> runs (r ++ concat rs) = r :: runs (concat rs).
Proof.
  intros Hm. cbn [maximal_runs] in Hm.
  destruct r as [|g t]; [destruct Hm|]. destruct Hm as (Hu & Hn & Hm).
  unfold uniform in Hu. inversion Hu as [|? ? _ Hut]; subst. clear Hu.
  revert g Hut Hn. induction t as [|y t IH]; intros g Hut Hn.
  - cbn [app]. rewrite runs_cons.
    destruct rs as [|[|h s] rs']; [reflexivity | destruct Hm |].
    cbn [concat]. change ((h :: s) ++ concat rs') with (h :: s ++ concat rs').
    destruct (runs_head_first h (s ++ concat rs')) as (r1 & rs1 & E).
    rewrite E. replace (dir g =? dir h) with false
      by (symmetry; apply Z.eqb_neq; exact Hn).
    reflexivity.
  - inversion Hut as [|? ? Hy Hut']; subst.
    change ((g :: y :: t) ++ concat rs) with (g :: (y :: t) ++ concat rs).
    rewrite runs_cons, (IH y).
    + rewrite Hy, Z.eqb_refl. reflexivity.
    + rewrite Hy. exact Hut'.
    + rewrite Hy. exact Hn.
Qed.

(** Maximal runs are the runs of their concatenation. *)
Lemma runs_of_maximal (rs : list (list Glyph)) :
  maximal_runs rs -> runs (concat rs) = rs.
Proof.
  induction rs as [|r rs IH]; intros Hm; [reflexivity|].
  cbn [concat]. rewrite (runs_app_maximal r rs Hm), IH; [reflexivity|].
  cbn [maximal_runs] in Hm. destruct r; [destruct Hm | apply Hm].
Qed.

Lemma Forall2_rev_rel {A B} (R : A -> B -> Prop) l l' :
  Forall2 R l l' -> Forall2 R (rev l) (rev l').
Proof.
  intros H. induction H as [|x y l l' Hxy H IH]; [constructor|].
  cbn [rev]. apply Forall2_app; [exact IH|]. constructor; [exact Hxy | constructor].
Qed.

Lemma visual_order_rel (R : Glyph -> Glyph -> Prop) rs rs' :
  (forall g g', R g g' -> dir g' = dir g) ->
  Forall2 (Forall2 R) rs rs' -> Forall2 R (visual_order rs) (visual_order rs').
Proof.
  intros HR H. unfold visual_order.
  induction H as [|r r' rs rs' Hr H IH]; [constructor|].
  cbn [map concat]. apply Forall2_app; [|exact IH].
  rewrite (is_rtl_rel R _ _ HR Hr). destruct (is_rtl r);
    [apply Forall2_rev_rel|]; exact Hr.
Qed.

Lemma chained_rel (c : Z) l l' :
  Forall2 same_place l l' -> chained c l -> chained c l'.
Proof.
  intros H. revert c. induction H as [|g g' l l' (Hx & Ha & _) H IH]; intros c Hc;
    [exact Logic.I|].
  destruct Hc as [Hc Ht]. split; [congruence|]. rewrite Ha. apply IH, Ht.
Qed.

Lemma same_place_mark_last l : Forall2 same_place l (mark_last l).
Proof.
  induction l as [|g l IH]; [constructor|].
  destruct l as [|h l].
  - cbn [mark_last]. fold (mark g). constructor; [|constructor].
    split; [reflexivity|]. split; [reflexivity | apply dir_mark].
  - rewrite mark_last_cons by discriminate. constructor; [|exact IH].
    split; [reflexivity|]. split; reflexivity.
Qed.

Lemma visual_order_perm rs : Permutation (visual_order rs) (concat rs).
Proof.
  unfold visual_order. induction rs as [|r rs IH]; [constructor|].
  cbn [map concat]. apply Permutation_app; [|exact IH].
  destruct (is_rtl r); [symmetry; apply Permutation_rev | reflexivity].
Qed.

(** X14: after [recompute] the glyphs of the line, taken in the order
    they are seen (the runs of equal direction in order, each
    right-to-left run back to front), are the glyphs of the line, and
    they lie side by side: the first one starts at the alignment offset
    and each next one starts where the one before it ends (in the
    32-bit fixed-point arithmetic of the code). *)
Theorem recompute_side_by_side li (alignOff runeOff : Z) :
  exists li', recompute li alignOff runeOff = Some li' /\
    Permutation (visual_order (runs (Glyphs li'))) (Glyphs li') /\
    chained (wrap32 alignOff) (visual_order (runs (Glyphs li'))).
Proof.
  exists (with_glyphs li (visual_layout alignOff (Glyphs li)) runeOff).
  split; [apply recompute_spec|]. cbn [Glyphs with_glyphs].
  split.
  { rewrite <- (runs_concat (visual_layout alignOff (Glyphs li))) at 2.
    apply visual_order_perm. }
  unfold visual_layout.
  set (rs := runs (Glyphs li)).
  assert (Hd : forall g g', same_place g g' -> dir g' = dir g)
    by (intros g g' (_ & _ & H); exact H).
  assert (Hm : maximal_runs (place_each alignOff 0 rs)).
  { apply (maximal_runs_rel placed rs); [exact placed_dir | | apply runs_maximal].
    apply place_each_placed. }
  pose proof (place_each_chained alignOff 0 rs) as Hc.
  replace (add32 alignOff 0) with (wrap32 alignOff) in Hc
    by (unfold add32; f_equal; lia).
  rewrite <- place_each_concat.
  eapply chained_rel; [|exact Hc].
  apply (visual_order_rel same_place); [exact Hd|].
  rewrite <- (runs_of_maximal _ Hm) at 1.
  apply runs_rel; [exact Hd | apply same_place_mark_last].
Qed.

End LayoutMore.

(** ** Completion sessions *)

Section CompletionProps.
Import Completion.

Lemma string_eqb_eq (a b : list byte) : string_eqb a b = true <-> a = b.
Proof. unfold string_eqb. apply bool_decide_eq_true. Qed.

Lemma string_eqb_neq (a b : list byte) : string_eqb a b = false <-> a <> b.
Proof. unfold string_eqb. apply bool_decide_eq_false. Qed.

Lemma makeInvalid_cleared (s : session) :
  canceled (makeInvalid s) = true /\
  prefix (makeInvalid s) = [] /\
  prefixRange (makeInvalid s) = EditRange_zero /\
  candidates (makeInvalid s) = [].
Proof. repeat split. Qed.

(** A one-character terminating input is recognised as such. *)
Lemma dot_terminates : hasTerminateChar (B ".") = true.
Proof. reflexivity. Qed.

(** On a session that is not cancelled, [Update] with a terminating
    input other than the session's trigger characters returns no
    candidates and leaves the session invalid and cleared. *)
Lemma Update_terminates (s : session) (c : CompletionContext) :
  canceled s = false ->
  hasTerminateChar (Input c) = true ->
  Input c <> triggerChars (state (arm s c)) ->
  Update s c = ([], makeInvalid (arm s c)).
Proof.
  intros Hc Ht Hne. unfold Update. rewrite Hc, Ht.
  apply string_eqb_neq in Hne. rewrite Hne. reflexivity.
Qed.

(** C8: for every active session, an input whose first character is a
    terminating character and which differs from the session's own
    trigger characters (those the session holds when the input is
    compared: the input that armed it) invalidates the session at once,
    clearing its prefix, prefix range and candidates.  The same input may
    then open a new session: with trigger characters ["."], whatever the
    completor suggests, "foo" opens a session whose trigger characters
    and prefix are "foo"; a following "." cancels and clears that
    session, and [OnText], having found the completor accepts ".",
    starts a new session armed on ".". *)
Theorem C8_terminating_input (sug : CompletionContext -> list CompletionCandidate)
    (far : list byte -> list CompletionCandidate -> list CompletionCandidate)
    (kb : KeyBinding) (e : Editor) (p1 p2 : Position) (xy1 xy2 : Z * Z) :
  (forall s c,
      IsValid (Some s) = true ->
      hasTerminateChar (Input c) = true ->
      Input c <> triggerChars (state (arm s c)) ->
      let s' := snd (Update s c) in
      fst (Update s c) = [] /\
      IsValid (Some s') = false /\
      prefix s' = [] /\ prefixRange s' = EditRange_zero /\ candidates s' = []) /\
  let cmp := mkDelegated 0 (mkCompletor (mkTrigger [B "."] kb) sug far) in
  let dc0 := mkDC e [cmp] [] None in
  let foo := mkCtx (B "foo") p1 xy1 in
  let dot := mkCtx (B ".") p2 xy2 in
  exists dc1 s1 dc2 s2,
    OnText dc0 foo = Some dc1 /\
    current dc1 = Some s1 /\ IsActive dc1 = true /\
    triggerChars (state s1) = B "foo" /\ Prefix s1 = B "foo" /\
    snd (Update s1 dot) = makeInvalid s1 /\
    canTrigger (GetTrigger (completor_of cmp)) (Input dot) = Some true /\
    OnText dc1 dot = Some dc2 /\
    current dc2 = Some s2 /\ IsActive dc2 = true /\
    triggerChars (state s2) = B "." /\ kind (state s2) = charTrigger /\
    completor (state s2) = cmp /\ prefix s2 = [] /\
    candidates s2 = sug dot /\ dc_candidates dc2 = far [] (sug dot).
Proof.
  split.
  - intros s c Hv Ht Hne. simpl in Hv.
    assert (Hc : canceled s = false) by (destruct (canceled s); [discriminate|reflexivity]).
    rewrite (Update_terminates s c Hc Ht Hne). simpl. repeat split.
  - intros cmp dc0 foo dot.
    eexists _, _, _, _.
    split; [reflexivity|]. split; [reflexivity|].
    repeat split.
Qed.

(** The theorem at a session armed on "f" that receives ";". *)
Lemma C8_terminating_input_witness :
  let cmp := mkDelegated 0 (mkCompletor (mkTrigger [B "."] (mkKeyBinding [] 0))
                                        (fun _ => []) (fun _ cs => cs)) in
  let s := snd (Update (newSession cmp charTrigger)
                       (mkCtx (B "f") Position_zero (0, 0))) in
  let c := mkCtx (B ";") Position_zero (0, 0) in
  IsValid (Some s) = true /\
  hasTerminateChar (Input c) = true /\
  Input c <> triggerChars (state (arm s c)) /\
  fst (Update s c) = [] /\ IsValid (Some (snd (Update s c))) = false.
Proof.
  intros cmp s c.
  assert (H1 : IsValid (Some s) = true) by reflexivity.
  assert (H2 : hasTerminateChar (Input c) = true) by reflexivity.
  assert (H3 : Input c <> triggerChars (state (arm s c))) by discriminate.
  split; [exact H1|]. split; [exact H2|]. split; [exact H3|].
  pose proof (proj1 (C8_terminating_input (fun _ => []) (fun _ cs => cs)
                       (mkKeyBinding [] 0) (mkEditor []) Position_zero
                       Position_zero (0, 0) (0, 0)) s c H1 H2 H3) as H.
  simpl in H. destruct H as (Ha & Hb & _). split; [exact Ha | exact Hb].
Defined.

Lemma same_binding_spec (a b : KeyBinding) :
  same_binding a b = true <-> same_key a b.
Proof.
  unfold same_binding, same_key.
  rewrite andb_true_iff, string_eqb_eq, Z.eqb_eq. reflexivity.
Qed.

(** C9: [AddCompletor] returns the error, and then leaves the engine as
    it was, if and only if some registered completor's trigger has the
    same key binding as the new one's; otherwise it appends the
    completor to the list and returns nil. *)
Theorem C9_AddCompletor_duplicate (dc : DefaultCompletion) (c : Completor) (pop : nat) :
  let dup := exists cm, In cm (completors dc) /\
               same_key (Binding (GetTrigger (completor_of cm)))
                        (Binding (GetTrigger c)) in
  (fst (AddCompletor dc c pop) = true <-> dup) /\
  (dup -> AddCompletor dc c pop = (true, dc)) /\
  (~ dup ->
   fst (AddCompletor dc c pop) = false /\
   completors (snd (AddCompletor dc c pop)) = completors dc ++ [mkDelegated pop c]).
Proof.
  intros dup. unfold AddCompletor.
  destruct (existsb _ (completors dc)) eqn:E.
  - assert (Hd : dup).
    { apply existsb_exists in E. destruct E as (cm & Hin & Hs).
      exists cm. split; [exact Hin|]. apply same_binding_spec. exact Hs. }
    simpl. split; [split; auto|]. split; [reflexivity|]. intros Hn. contradiction.
  - assert (Hd : ~ dup).
    { intros (cm & Hin & Hs). apply same_binding_spec in Hs.
      assert (existsb (fun cm => same_binding (Binding (GetTrigger (completor_of cm)))
                                              (Binding (GetTrigger c)))
                      (completors dc) = true) as E'
        by (apply existsb_exists; exists cm; auto).
      rewrite E in E'. discriminate. }
    simpl. split; [split; [discriminate | intros H; contradiction]|].
    split; [intros H; contradiction|]. intros _. split; reflexivity.
Qed.

(** The theorem at an engine that already has a completor bound to
    Shortcut-P, for a second completor with the same binding, and at an
    empty engine. *)
Lemma C9_AddCompletor_duplicate_witness :
  let kb := mkKeyBinding (B "P") 2 in
  let c := mkCompletor (mkTrigger [B "."] kb) (fun _ => []) (fun _ cs => cs) in
  let dc := mkDC (mkEditor [kb]) [mkDelegated 0 c] [] None in
  AddCompletor dc c 1 = (true, dc) /\
  completors (snd (AddCompletor (mkDC (mkEditor []) [] [] None) c 0))
    = [mkDelegated 0 c].
Proof.
  intros kb c dc. split.
  - apply (proj1 (proj2 (C9_AddCompletor_duplicate dc c 1))).
    exists (mkDelegated 0 c). split; [left; reflexivity | split; reflexivity].
  - apply (proj2 (proj2 (C9_AddCompletor_duplicate (mkDC (mkEditor []) [] [] None) c 0))).
    intros (cm & Hin & _). destruct Hin.
Defined.

End CompletionProps.

(** ** Runes of a byte string *)

Ltac decode_consts :=
  change (Z.land 2 7) with 2 in *; change (Z.land 19 7) with 3 in *;
  change (Z.land 3 7) with 3 in *; change (Z.land 35 7) with 3 in *;
  change (Z.land 52 7) with 4 in *; change (Z.land 4 7) with 4 in *;
  change (Z.land 68 7) with 4 in *;
  change (Z.shiftr 2 4) with 0 in *; change (Z.shiftr 19 4) with 1 in *;
  change (Z.shiftr 3 4) with 0 in *; change (Z.shiftr 35 4) with 2 in *;
  change (Z.shiftr 52 4) with 3 in *; change (Z.shiftr 4 4) with 0 in *;
  change (Z.shiftr 68 4) with 4 in *.

Ltac decode_simpl :=
  cbn -[b2z Z.of_nat List.length Utf8.first] in *; decode_consts;
  cbn -[b2z Z.of_nat List.length Utf8.first] in *.

Ltac decode_len :=
  repeat match goal with
         | |- context [Z.of_nat (List.length ?l) <? ?k] =>
           replace (Z.of_nat (List.length l) <? k) with false
             by (symmetry; apply Z.ltb_ge; simpl List.length; lia)
         end.

Ltac decode_cases :=
  repeat match goal with
         | H : context [if ?c then _ else _] |- _ => destruct c eqn:?
         | H : context [match ?l with [] => _ | _ :: _ => _ end] |- _ =>
           destruct l; decode_simpl
         end.

Section Utf8Props.
Import Utf8.

Lemma first_cases (p0 : Z) :
  first p0 = as' \/ first p0 = xx \/ first p0 = s1 \/ first p0 = s2 \/
  first p0 = s3 \/ first p0 = s4 \/ first p0 = s5 \/ first p0 = s6 \/
  first p0 = s7.
Proof.
  unfold first.
  repeat match goal with
         | |- context [if ?c then _ else _] => destruct c
         end; tauto.
Qed.

(** The width of a rune is between one byte and the bytes there are. *)
Lemma width_bounds (p : list byte) :
  p <> [] -> (1 <= width p <= List.length p)%nat.
Proof.
  destruct p as [|c0 t0]; [congruence|]. intros _.
  unfold width, DecodeRune.
  destruct (first_cases (b2z c0)) as [H|[H|[H|[H|[H|[H|[H|[H|H]]]]]]]];
    rewrite H; cbn -[b2z Z.of_nat List.length Z.lor Z.land Z.shiftl];
    repeat match goal with
           | |- context [if ?c then _ else _] => destruct c eqn:?
           | |- context [match ?l with [] => _ | _ :: _ => _ end] =>
             destruct l; cbn -[b2z Z.of_nat List.length Z.lor Z.land Z.shiftl] in *
           end; simpl; try lia.
Qed.

(** A valid rune is decoded from its own bytes alone: what follows them
    does not matter. *)
Lemma decode_stable (p rest : list byte) :
  p <> [] -> valid_rune p = true ->
  DecodeRune (take (width p) p ++ rest) = DecodeRune p.
Proof.
  destruct p as [|c0 t0]; [congruence|]. intros _.
  unfold valid_rune, width, DecodeRune.
  destruct (first_cases (b2z c0)) as [H|[H|[H|[H|[H|[H|[H|[H|H]]]]]]]];
    unfold as', xx, s1, s2, s3, s4, s5, s6, s7 in H;
    rewrite H; decode_simpl; intros Hv.
  all: try (rewrite H; reflexivity).
  all: try discriminate Hv.
  all: decode_cases; try discriminate Hv; decode_simpl; rewrite ?H; decode_simpl; decode_len.
  all: repeat match goal with
              | E : ?c = _ |- context [if ?c then _ else _] => rewrite E
              end.
  all: try reflexivity.
Qed.

Lemma runes_go_fuel (f1 f2 : nat) (p : list byte) :
  (List.length p <= f1)%nat -> (List.length p <= f2)%nat ->
  runes_go f1 p = runes_go f2 p.
Proof.
  revert f2 p. induction f1 as [|f1 IH]; intros f2 p H1 H2.
  - destruct p; [|simpl in H1; lia]. destruct f2; reflexivity.
  - destruct p as [|c t]; [destruct f2; reflexivity|].
    destruct f2 as [|f2]; [simpl in H2; lia|].
    pose proof (width_bounds (c :: t) ltac:(discriminate)) as Hw.
    cbn [runes_go]. f_equal.
    apply IH; rewrite length_drop; simpl in *; lia.
Qed.

Lemma runes_nil : runes [] = [].
Proof. reflexivity. Qed.

Lemma runes_step (p : list byte) :
  p <> [] -> runes p = take (width p) p :: runes (drop (width p) p).
Proof.
  intros Hp. unfold runes. destruct p as [|c t]; [congruence|].
  pose proof (width_bounds (c :: t) Hp) as Hw.
  cbn [List.length runes_go]. f_equal.
  apply runes_go_fuel; rewrite length_drop; simpl in *; lia.
Qed.

Lemma Valid_go_fuel (f1 f2 : nat) (p : list byte) :
  (List.length p <= f1)%nat -> (List.length p <= f2)%nat ->
  Valid_go f1 p = Valid_go f2 p.
Proof.
  revert f2 p. induction f1 as [|f1 IH]; intros f2 p H1 H2.
  - destruct p; [|simpl in H1; lia]. destruct f2; reflexivity.
  - destruct p as [|c t]; [destruct f2; reflexivity|].
    destruct f2 as [|f2]; [simpl in H2; lia|].
    pose proof (width_bounds (c :: t) ltac:(discriminate)) as Hw.
    cbn [Valid_go]. f_equal.
    apply IH; rewrite length_drop; simpl in *; lia.
Qed.

Lemma Valid_step (p : list byte) :
  p <> [] -> Valid p = valid_rune p && Valid (drop (width p) p).
Proof.
  intros Hp. unfold Valid. destruct p as [|c t]; [congruence|].
  pose proof (width_bounds (c :: t) Hp) as Hw.
  cbn [List.length Valid_go]. f_equal.
  apply Valid_go_fuel; rewrite length_drop; simpl in *; lia.
Qed.

(** Induction over a byte string rune by rune. *)
Lemma rune_ind (P : list byte -> Prop) :
  P [] ->
  (forall p, p <> [] -> P (drop (width p) p) -> P p) ->
  forall p, P p.
Proof.
  intros H0 HS p.
  remember (List.length p) as n eqn:Hn.
  revert p Hn. induction n as [n IH] using lt_wf_ind. intros p Hn.
  destruct p as [|c t]; [exact H0|].
  pose proof (width_bounds (c :: t) ltac:(discriminate)) as Hw.
  apply HS; [discriminate|].
  apply (IH (List.length (drop (width (c :: t)) (c :: t)))); [|reflexivity].
  rewrite length_drop. subst n. simpl in *. lia.
Qed.

Lemma runes_concat (p : list byte) : concat (runes p) = p.
Proof.
  induction p as [|p Hp IH] using rune_ind; [reflexivity|].
  rewrite (runes_step p Hp). simpl. rewrite IH. apply take_drop.
Qed.

Lemma runes_nonempty (p : list byte) : Forall (fun c => c <> []) (runes p).
Proof.
  induction p as [|p Hp IH] using rune_ind; [constructor|].
  rewrite (runes_step p Hp). constructor; [|exact IH].
  pose proof (width_bounds p Hp) as Hw.
  destruct p as [|c t]; [congruence|].
  destruct (width (c :: t)); [lia|]. discriminate.
Qed.

(** The runes of a valid string are whole valid runes. *)
Lemma runes_good (p : list byte) : Valid p = true -> Forall good (runes p).
Proof.
  induction p as [|p Hp IH] using rune_ind; [constructor|].
  rewrite (Valid_step p Hp), andb_true_iff. intros [Hv Hr].
  rewrite (runes_step p Hp). constructor; [|exact (IH Hr)].
  pose proof (width_bounds p Hp) as Hw.
  pose proof (decode_stable p [] Hp Hv) as Hd. rewrite app_nil_r in Hd.
  split; [|split].
  - destruct p as [|c t]; [congruence|].
    destruct (width (c :: t)); [lia|]. discriminate.
  - unfold width at 1. rewrite Hd. fold (width p). rewrite length_take. lia.
  - unfold valid_rune. rewrite Hd. exact Hv.
Qed.

Lemma good_decode (c rest : list byte) :
  good c -> DecodeRune (c ++ rest) = DecodeRune c.
Proof.
  intros (Hne & Hw & Hv).
  pose proof (decode_stable c rest Hne Hv) as Hd.
  rewrite Hw, firstn_all in Hd. exact Hd.
Qed.

Lemma runes_cons_good (c rest : list byte) :
  good c -> runes (c ++ rest) = c :: runes rest.
Proof.
  intros Hg. pose proof Hg as (Hne & Hw & Hv).
  assert (Hne' : c ++ rest <> []) by (destruct c; [congruence|discriminate]).
  rewrite (runes_step _ Hne').
  assert (E : width (c ++ rest) = List.length c)
    by (unfold width; rewrite (good_decode c rest Hg); exact Hw).
  rewrite E, take_app_length, drop_app_length. reflexivity.
Qed.

Lemma runes_of_chunks (cs : list (list byte)) (rest : list byte) :
  Forall good cs -> runes (concat cs ++ rest) = cs ++ runes rest.
Proof.
  induction 1 as [|c cs Hc Hcs IH]; [reflexivity|].
  simpl. rewrite <- app_assoc, (runes_cons_good c _ Hc), IH. reflexivity.
Qed.

Lemma runes_app (a b : list byte) :
  Valid a = true -> runes (a ++ b) = runes a ++ runes b.
Proof.
  intros Ha. rewrite <- (runes_concat a) at 1.
  apply runes_of_chunks, runes_good, Ha.
Qed.

Lemma Valid_of_chunks (cs : list (list byte)) (rest : list byte) :
  Forall good cs -> Valid rest = true -> Valid (concat cs ++ rest) = true.
Proof.
  intros Hcs Hr. induction Hcs as [|c cs Hc Hcs IH]; [exact Hr|].
  simpl. rewrite <- app_assoc. pose proof Hc as (Hne & Hw & Hv).
  assert (Hne' : c ++ concat cs ++ rest <> [])
    by (destruct c; [congruence|discriminate]).
  rewrite (Valid_step _ Hne').
  assert (E : width (c ++ concat cs ++ rest) = List.length c)
    by (unfold width; rewrite (good_decode c _ Hc); exact Hw).
  unfold valid_rune at 1. rewrite (good_decode c _ Hc).
  fold (valid_rune c). rewrite Hv, E, drop_app_length. exact IH.
Qed.

Lemma Valid_app (a b : list byte) :
  Valid a = true -> Valid b = true -> Valid (a ++ b) = true.
Proof.
  intros Ha Hb. rewrite <- (runes_concat a).
  apply Valid_of_chunks; [apply runes_good, Ha | exact Hb].
Qed.

Lemma Valid_concat (cs : list (list byte)) :
  Forall good cs -> Valid (concat cs) = true.
Proof.
  intros H. rewrite <- (app_nil_r (concat cs)).
  apply Valid_of_chunks; [exact H | reflexivity].
Qed.

Lemma runes_concat_good (cs : list (list byte)) :
  Forall good cs -> runes (concat cs) = cs.
Proof.
  intros H. rewrite <- (app_nil_r (concat cs)), (runes_of_chunks cs [] H).
  apply app_nil_r.
Qed.

Lemma RuneCount_app (a b : list byte) :
  Valid a = true -> RuneCount (a ++ b) = RuneCount a + RuneCount b.
Proof.
  intros Ha. unfold RuneCount. rewrite (runes_app a b Ha), length_app. lia.
Qed.

Lemma RuneCount_nonneg (p : list byte) : 0 <= RuneCount p.
Proof. unfold RuneCount. lia. Qed.

Lemma RuneCount_pos (p : list byte) : p <> [] -> 1 <= RuneCount p.
Proof.
  intros Hp. unfold RuneCount. rewrite (runes_step p Hp). simpl. lia.
Qed.


End Utf8Props.

(** ** Completion: typing, triggering and confirming *)

Section CompletionMore.
Import Completion.

Lemma Position_eqb_eq (a b : Position) : Position_eqb a b = true <-> a = b.
Proof.
  unfold Position_eqb. rewrite !andb_true_iff, !Z.eqb_eq.
  destruct a, b; cbn. split; [intros [[-> ->] ->]; reflexivity|].
  intros H; injection H as -> -> ->. auto.
Qed.

Lemma EditRange_eqb_eq (a b : EditRange) : EditRange_eqb a b = true <-> a = b.
Proof.
  unfold EditRange_eqb. rewrite andb_true_iff, !Position_eqb_eq.
  destruct a, b; cbn. split; [intros [-> ->]; reflexivity|].
  intros H; injection H as -> ->. auto.
Qed.

Lemma EditRange_eqb_neq (a b : EditRange) : EditRange_eqb a b = false <-> a <> b.
Proof.
  rewrite <- not_true_iff_false, EditRange_eqb_eq. reflexivity.
Qed.

(** X15: [mergeRange] returns the other range when one of the two is
    the empty range; for two non-empty ranges on the same lines it
    returns a range on those lines that covers both, from the smaller
    start column to the larger end column, each end being an end of one
    of the two; for non-empty ranges on different lines it returns the
    first range as it is. *)
Theorem mergeRange_spec (r1 r2 : EditRange) :
  mergeRange EditRange_zero r2 = r2 /\
  mergeRange r1 EditRange_zero = r1 /\
  (r1 <> EditRange_zero -> r2 <> EditRange_zero ->
   (Line (Start r1) = Line (Start r2) /\ Line (End' r1) = Line (End' r2) ->
    let m := mergeRange r1 r2 in
    covers m r1 /\ covers m r2 /\
    Column (Start m) = Z.min (Column (Start r1)) (Column (Start r2)) /\
    Column (End' m) = Z.max (Column (End' r1)) (Column (End' r2)) /\
    (Start m = Start r1 \/ Start m = Start r2) /\
    (End' m = End' r1 \/ End' m = End' r2)) /\
   (Line (Start r1) <> Line (Start r2) \/ Line (End' r1) <> Line (End' r2) ->
    mergeRange r1 r2 = r1)).
Proof.
  split; [reflexivity|]. split.
  { unfold mergeRange. destruct (EditRange_eqb r1 EditRange_zero) eqn:E.
    - apply EditRange_eqb_eq in E. congruence.
    - reflexivity. }
  intros H1 H2. apply EditRange_eqb_neq in H1, H2.
  unfold mergeRange. rewrite H1, H2. split.
  - intros [Hs He]. rewrite Hs, He, !Z.eqb_refl. cbn [negb orb]. cbv zeta.
    unfold covers.
    destruct (Column (Start r2) <? Column (Start r1)) eqn:Ea;
      [apply Z.ltb_lt in Ea | apply Z.ltb_ge in Ea];
      cbn [Start End'];
      (destruct (Column (End' r1) <? Column (End' r2)) eqn:Eb;
       [apply Z.ltb_lt in Eb | apply Z.ltb_ge in Eb]);
      cbn [Start End']; repeat split; try lia; auto.
  - intros Hd.
    replace (negb (Line (Start r1) =? Line (Start r2))
             || negb (Line (End' r1) =? Line (End' r2))) with true; [reflexivity|].
    symmetry. apply orb_true_iff.
    destruct Hd as [Hd|Hd]; [left|right]; apply negb_true_iff, Z.eqb_neq; exact Hd.
Qed.

Lemma mergeRange_spec_witness :
  let r1 := mkEditRange (mkPosition 3 4 0) (mkPosition 3 6 0) in
  let r2 := mkEditRange (mkPosition 3 2 0) (mkPosition 3 9 0) in
  mergeRange r1 r2 = r2 /\
  mergeRange r1 (mkEditRange (mkPosition 4 2 0) (mkPosition 4 9 0)) = r1.
Proof.
  intros r1 r2. split.
  - destruct (proj2 (proj2 (mergeRange_spec r1 r2)) ltac:(discriminate)
                ltac:(discriminate)) as [H _].
    destruct (H ltac:(split; reflexivity)) as (_ & _ & _ & _ & _ & _).
    reflexivity.
  - apply (proj2 (proj2 (mergeRange_spec r1
             (mkEditRange (mkPosition 4 2 0) (mkPosition 4 9 0))))
             ltac:(discriminate) ltac:(discriminate)).
    left. discriminate.
Defined.

(** *** Typing into a session *)

Lemma symbol_not_terminating (r : Z) :
  isSymbolChar r = true -> contains_rune terminatingChars r = false.
Proof.
  unfold isSymbolChar, contains_rune, terminatingChars. intros H.
  cbn [existsb].
  repeat match goal with
         | |- context [r =? ?k] =>
           let E := fresh in destruct (r =? k) eqn:E;
             [apply Z.eqb_eq in E; subst r; discriminate H | clear E]
         end.
  reflexivity.
Qed.

Lemma symbol_input_nonempty (c : CompletionContext) :
  symbol_input c -> Input c <> [].
Proof. intros (r & Hr & _) E. rewrite E in Hr. discriminate Hr. Qed.

Lemma symbol_input_continues (c : CompletionContext) :
  symbol_input c -> hasTerminateChar (Input c) = false.
Proof.
  intros (r & Hr & Hs). unfold hasTerminateChar. rewrite Hr.
  rewrite (symbol_not_terminating r Hs). destruct (Input c); reflexivity.
Qed.

(** One update with an input that starts with a symbol character. *)
Lemma Update_symbol (s : session) (c : CompletionContext) :
  canceled s = false -> symbol_input c ->
  Update s c =
  (let s1 := arm s c in
   let s2 := extend_prefix (mkSession c (state s1) (canceled s1) (prefix s1)
                                      (prefixRange s1) (candidates s1)) c in
   (FilterAndRank (completor_of (completor (state s2)))
                  (Utf8.of_runes (prefix s2)) (candidates s2), s2)).
Proof.
  intros Hc Hs. pose proof (symbol_input_continues c Hs) as Ht.
  pose proof (symbol_input_nonempty c Hs) as Hne.
  destruct Hs as (r & Hr & Hs). unfold Update. rewrite Hc, Ht.
  cbn [andb]. cbv zeta. rewrite Hr, Hs.
  destruct (Input c); [congruence | reflexivity].
Qed.

Lemma typed_step cmp k c1 cs s c :
  cs <> [] -> typed cmp k c1 cs s ->
  0 < Column (Position' (List.last cs c1)) ->
  symbol_input c ->
  typed cmp k c1 (cs ++ [c]) (snd (Update s c)) /\
  fst (Update s c)
  = FilterAndRank (completor_of cmp)
      (Utf8.of_runes (concat (map (fun c => Utf8.to_runes (Input c)) (cs ++ [c]))))
      (Suggest (completor_of cmp) c1).
Proof.
  intros Hne (Hc & Hst & Hcd & Hp & Hx & Hr) Hcol Hs.
  rewrite (Update_symbol s c Hc Hs). cbv zeta.
  unfold arm. rewrite Hst. cbn [triggered].
  unfold extend_prefix. cbn [prefixRange prefix state candidates canceled ctx
                             fst snd completor completor_of].
  assert (Hnz : EditRange_eqb (prefixRange s) EditRange_zero = false).
  { apply EditRange_eqb_neq. rewrite Hr. intros E.
    apply (f_equal (fun r => Column (End' r))) in E. cbn in E. lia. }
  assert (E : concat (map (fun c => Utf8.to_runes (Input c)) (cs ++ [c]))
              = concat (map (fun c => Utf8.to_runes (Input c)) cs)
                ++ Utf8.to_runes (Input c)).
  { rewrite map_app, concat_app. cbn [map concat]. rewrite app_nil_r. reflexivity. }
  unfold typed. cbn [canceled state candidates prefix ctx prefixRange].
  rewrite Hnz, Hst, Hcd, Hp, Hr, E, last_last.
  cbn [completor completor_of Start End'].
  repeat split; try reflexivity; exact Hc.
Qed.

Lemma typed_first cmp k c1 :
  symbol_input c1 ->
  typed cmp k c1 [c1] (snd (Update (newSession cmp k) c1)) /\
  fst (Update (newSession cmp k) c1)
  = FilterAndRank (completor_of cmp) (Utf8.of_runes (Utf8.to_runes (Input c1)))
      (Suggest (completor_of cmp) c1).
Proof.
  intros Hs. rewrite (Update_symbol (newSession cmp k) c1 eq_refl Hs). cbv zeta.
  unfold arm, newSession, extend_prefix.
  cbn [triggered state kind completor canceled prefix prefixRange candidates ctx
       fst snd completor_of app].
  change (EditRange_eqb EditRange_zero EditRange_zero) with true. cbv iota.
  cbn [Start End']. split; [|reflexivity].
  unfold typed. cbn [canceled state candidates prefix ctx prefixRange map concat
                     List.last].
  rewrite app_nil_r. repeat split; reflexivity.
Qed.

Lemma Update_all_snoc s cs c :
  Update_all s (cs ++ [c]) = snd (Update (Update_all s cs) c).
Proof. unfold Update_all. rewrite fold_left_app. reflexivity. Qed.

Lemma typed_all cmp k c1 cs :
  Forall (fun c => symbol_input c /\ 0 < Column (Position' c)) (c1 :: cs) ->
  typed cmp k c1 (c1 :: cs) (Update_all (newSession cmp k) (c1 :: cs)).
Proof.
  induction cs as [|c cs IH] using rev_ind; intros Hall.
  - apply Forall_cons in Hall as [[Hs _] _]. apply (typed_first cmp k c1 Hs).
  - rewrite app_comm_cons in Hall |- *. apply Forall_app in Hall as [Hall Hc].
    apply Forall_cons in Hc as [[Hs _] _].
    rewrite Update_all_snoc.
    apply typed_step; [discriminate | apply IH; exact Hall | | exact Hs].
    assert (Hin : List.last (c1 :: cs) c1 ∈ c1 :: cs).
    { clear. destruct (exists_last (l := c1 :: cs)) as (l & x & E); [discriminate|].
      rewrite E, last_last. apply elem_of_app. right. left. }
    rewrite Forall_forall in Hall. apply (Hall _ Hin).
Qed.

(** X16: a new session fed inputs that each start with a symbol
    character (a letter, a digit or an underscore), the caret column
    being positive each time, stays valid; it asks the completor for
    suggestions once, with the first input; its prefix is the runes of
    all inputs in order; its prefix range goes from the column before
    the first input (not less than 0) to the position of the last input;
    and each update returns the suggestions of the first input filtered
    and ranked by the prefix typed so far. *)
Theorem session_typing cmp k c1 cs c :
  Forall (fun c => symbol_input c /\ 0 < Column (Position' c)) (c1 :: cs ++ [c]) ->
  let s := Update_all (newSession cmp k) (c1 :: cs) in
  let typed_runes := concat (map (fun c => Utf8.to_runes (Input c)) (c1 :: cs ++ [c])) in
  let s' := snd (Update s c) in
  fst (Update s c)
  = FilterAndRank (completor_of cmp) (Utf8.of_runes typed_runes)
                  (Suggest (completor_of cmp) c1) /\
  IsValid (Some s') = true /\
  prefix s' = typed_runes /\
  candidates s' = Suggest (completor_of cmp) c1 /\
  triggerChars (state s') = Input c1 /\
  prefixRange s' =
    mkEditRange
      (mkPosition (Line (Position' c1))
         (Z.max 0 (Column (Position' c1)
                   - Z.of_nat (List.length (Utf8.to_runes (Input c1))))) 0)
      (mkPosition (Line (Position' c)) (Column (Position' c)) 0).
Proof.
  intros Hall. cbv zeta.
  rewrite app_comm_cons in Hall. apply Forall_app in Hall as [Hall Hc].
  apply Forall_cons in Hc as [[Hs _] _].
  pose proof (typed_all cmp k c1 cs Hall) as Ht.
  assert (Hcol : 0 < Column (Position' (List.last (c1 :: cs) c1))).
  { assert (Hin : List.last (c1 :: cs) c1 ∈ c1 :: cs).
    { clear. destruct (exists_last (l := c1 :: cs)) as (l & x & E); [discriminate|].
      rewrite E, last_last. apply elem_of_app. right. left. }
    rewrite Forall_forall in Hall. apply (Hall _ Hin). }
  destruct (typed_step cmp k c1 (c1 :: cs) _ c ltac:(discriminate) Ht Hcol Hs)
    as [(H1 & H2 & H3 & H4 & H5 & H6) H7].
  rewrite <- app_comm_cons in *.
  split; [exact H7|]. split; [cbn [IsValid]; rewrite H1; reflexivity|].
  split; [exact H4|]. split; [exact H3|]. split; [rewrite H2; reflexivity|].
  rewrite H6. rewrite app_comm_cons, last_last. reflexivity.
Qed.

(** The theorem on a session that sees "f", "o", "o" typed on line 2. *)
Lemma session_typing_witness :
  let cand := mkCandidate (B "foo") (B "foo") EditRange_zero [] in
  let cmp := mkDelegated 0
    (mkCompletor (mkTrigger [] (mkKeyBinding [] 0)) (fun _ => [cand])
                 (fun _ cs => cs)) in
  let c1 := mkCtx (B "f") (mkPosition 2 1 0) (0, 0) in
  let c2 := mkCtx (B "o") (mkPosition 2 2 0) (0, 0) in
  let c3 := mkCtx (B "o") (mkPosition 2 3 0) (0, 0) in
  let s' := snd (Update (Update_all (newSession cmp charTrigger) [c1; c2]) c3) in
  Prefix s' = B "foo" /\
  prefixRange s' = mkEditRange (mkPosition 2 0 0) (mkPosition 2 3 0).
Proof.
  intros cand cmp c1 c2 c3 s'.
  assert (Hall : Forall (fun c => symbol_input c /\ 0 < Column (Position' c))
                        (c1 :: [c2] ++ [c3])).
  { repeat constructor; try (eexists; split; vm_compute; reflexivity). }
  destruct (session_typing cmp charTrigger c1 [c2] c3 Hall)
    as (_ & _ & Hp & _ & _ & Hr).
  split; [unfold Prefix, s'; rewrite Hp; reflexivity | exact Hr].
Defined.

(** *** Text input *)

Lemma first_rune_some (input : list byte) :
  input <> [] -> exists r, first_rune input = Some r.
Proof.
  intros Hne. unfold first_rune, Utf8.to_runes.
  rewrite (runes_step input Hne). cbn. eauto.
Qed.

Lemma find_completor_some (cs : list delegatedCompletor) (input : list byte) :
  input <> [] -> exists f, find_completor cs input = Some f.
Proof.
  intros Hne. destruct (first_rune_some input Hne) as [r Hr].
  induction cs as [|cmp cs IH]; cbn [find_completor]; [eauto|].
  unfold canTrigger. rewrite Hr.
  destruct (contains_string _ input); [eauto|].
  destruct (isSymbolChar r); [eauto | exact IH].
Qed.

(** X17: [OnText] never panics, the methods of the completors taken to
    return: [canTrigger] indexes the first rune of the input, which
    would panic on an empty input, but [OnText] hands it non-empty
    inputs only, and a session is there whenever [OnText] updates one. *)
Theorem OnText_no_panic (dc : DefaultCompletion) (c : CompletionContext) :
  exists dc', OnText dc c = Some dc'.
Proof.
  unfold OnText. destruct (Input c) as [|b t] eqn:Ei; [eauto|].
  assert (Hne : b :: t <> []) by discriminate.
  set (first := match current dc with
                | Some s =>
                  if IsValid (Some s)
                  then let '(cs, s') := Update s c in
                       (updateCandidates (with_session dc (Some s')) cs,
                        IsValid (Some s'))
                  else (dc, false)
                | None => (dc, false)
                end).
  destruct first as [dc1 done]. destruct done; [eauto|].
  destruct (find_completor_some (completors dc1) (b :: t) Hne) as [f ->].
  destruct f as [cmp|]; [|eauto].
  destruct (current dc1) as [s1|]; cbn [IsValid].
  - destruct (negb (canceled s1)); destruct (Update _ c); eauto.
  - destruct (Update _ c); eauto.
Qed.

(** X18: when no session is active, an input that starts with a
    symbol character is given to the completor registered first,
    whatever the trigger characters of the completors are: [OnText]
    starts a session of that completor, triggered by a character, whose
    prefix is the input, and the candidates are the suggestions of that
    completor filtered and ranked by the input. *)
Theorem OnText_first_completor (dc : DefaultCompletion) (c : CompletionContext)
    (c0 : delegatedCompletor) (rest : list delegatedCompletor) :
  completors dc = c0 :: rest -> IsActive dc = false -> symbol_input c ->
  exists dc' s',
    OnText dc c = Some dc' /\ current dc' = Some s' /\ IsActive dc' = true /\
    completor (state s') = c0 /\ kind (state s') = charTrigger /\
    prefix s' = Utf8.to_runes (Input c) /\
    dc_candidates dc'
    = FilterAndRank (completor_of c0) (Utf8.of_runes (Utf8.to_runes (Input c)))
                    (Suggest (completor_of c0) c) /\
    completors dc' = completors dc /\ editor dc' = editor dc.
Proof.
  intros Hcs Hact Hs.
  pose proof (symbol_input_nonempty c Hs) as Hne.
  destruct (typed_first c0 charTrigger c Hs) as [(H1 & H2 & H3 & H4 & _) H5].
  cbn [map concat] in H4. rewrite app_nil_r in H4.
  unfold OnText. destruct (Input c) as [|b t] eqn:Ei; [congruence|].
  cbv iota. rewrite <- Ei in *. clear Ei b t.
  unfold IsActive in Hact.
  assert (E : match current dc with
              | Some s =>
                if IsValid (Some s)
                then let '(cs, s') := Update s c in
                     (updateCandidates (with_session dc (Some s')) cs,
                      IsValid (Some s'))
                else (dc, false)
              | None => (dc, false)
              end = (dc, false)).
  { destruct (current dc) as [s|]; [rewrite Hact|]; reflexivity. }
  rewrite E, Hcs. cbn [find_completor]. unfold canTrigger.
  destruct Hs as (r & Hr & Hsym). rewrite Hr, Hsym.
  replace (if contains_string (Characters (GetTrigger (completor_of c0))) (Input c)
           then Some true else Some true) with (Some true)
    by (destruct (contains_string _ _); reflexivity).
  cbv beta iota. rewrite Hact.
  destruct (Update (newSession c0 charTrigger) c) as [cs s'] eqn:EU.
  cbn [fst snd] in *.
  exists (updateCandidates (with_session dc (Some s')) cs), s'.
  split; [reflexivity|]. split; [reflexivity|].
  split; [unfold IsActive; cbn; rewrite H1; reflexivity|].
  rewrite H2. cbn [completor kind].
  split; [reflexivity|]. split; [reflexivity|]. split; [exact H4|].
  split; [exact H5|]. split; [exact Hcs|]. reflexivity.
Qed.

(** The theorem on two completors, the second of which has "f" among
    its trigger characters: the input "f" goes to the first. *)
Lemma OnText_first_completor_witness :
  let far := fun (_ : list byte) (cs : list CompletionCandidate) => cs in
  let c0 := mkDelegated 0
    (mkCompletor (mkTrigger [] (mkKeyBinding (B "a") 1)) (fun _ => []) far) in
  let c1 := mkDelegated 1
    (mkCompletor (mkTrigger [B "f"] (mkKeyBinding (B "b") 1)) (fun _ => []) far) in
  let dc := mkDC (mkEditor []) [c0; c1] [] None in
  exists dc' s',
    OnText dc (mkCtx (B "f") (mkPosition 0 1 0) (0, 0)) = Some dc' /\
    current dc' = Some s' /\ completor (state s') = c0.
Proof.
  intros far c0 c1 dc.
  destruct (OnText_first_completor dc (mkCtx (B "f") (mkPosition 0 1 0) (0, 0))
              c0 [c1] eq_refl eq_refl
              ltac:(eexists; split; vm_compute; reflexivity))
    as (dc' & s' & H1 & H2 & _ & H3 & _).
  exists dc', s'. auto.
Defined.

End CompletionMore.

(** ** The piece store *)

Section StoreProps.
Import Buffer.

Implicit Types (st : store) (a b i : nat) (v : option nat) (pc : piece).

Lemma modify_at_Some st i pc (f : piece -> piece) :
  st !! i = Some pc -> modify_at st (Some i) f = Some (alter f i st).
Proof.
  intros H. unfold modify_at. rewrite H. f_equal.
  apply list_eq. intros j. rewrite list_lookup_alter.
  destruct (decide (i = j)) as [<-|Hne].
  - rewrite list_lookup_insert_eq by (eapply lookup_lt_Some; eauto).
    rewrite H. reflexivity.
  - rewrite list_lookup_insert_ne by exact Hne. reflexivity.
Qed.

Lemma modify_at_lt st i (f : piece -> piece) :
  (i < List.length st)%nat -> modify_at st (Some i) f = Some (alter f i st).
Proof.
  intros H. destruct (lookup_lt_is_Some_2 st i H) as [pc Hpc].
  eapply modify_at_Some; eauto.
Qed.

Lemma nxt_lt st a b : nxt st a = Some b -> (a < List.length st)%nat.
Proof.
  unfold nxt. destruct (st !! a) eqn:E; [|discriminate].
  intros _. eapply lookup_lt_Some; eauto.
Qed.

Lemma prv_lt st a b : prv st a = Some b -> (a < List.length st)%nat.
Proof.
  unfold prv. destruct (st !! a) eqn:E; [|discriminate].
  intros _. eapply lookup_lt_Some; eauto.
Qed.

(** Views of the store after a write. *)
Lemma nxt_set_next st i v a :
  (i < List.length st)%nat ->
  nxt (alter (set_next v) i st) a = upd (nxt st) i v a.
Proof.
  intros Hi. unfold nxt, upd. rewrite list_lookup_alter.
  destruct (decide (a = i)) as [->|Hne].
  - destruct (decide (i = i)); [|congruence].
    destruct (lookup_lt_is_Some_2 st i Hi) as [pc ->]. reflexivity.
  - destruct (decide (i = a)); [congruence|reflexivity].
Qed.

Lemma prv_set_next st i v a : prv (alter (set_next v) i st) a = prv st a.
Proof.
  unfold prv. rewrite list_lookup_alter.
  destruct (decide (i = a)) as [->|]; [|reflexivity].
  destruct (st !! a); reflexivity.
Qed.

Lemma prv_set_prev st i v a :
  (i < List.length st)%nat ->
  prv (alter (set_prev v) i st) a = upd (prv st) i v a.
Proof.
  intros Hi. unfold prv, upd. rewrite list_lookup_alter.
  destruct (decide (a = i)) as [->|Hne].
  - destruct (decide (i = i)); [|congruence].
    destruct (lookup_lt_is_Some_2 st i Hi) as [pc ->]. reflexivity.
  - destruct (decide (i = a)); [congruence|reflexivity].
Qed.

Lemma nxt_set_prev st i v a : nxt (alter (set_prev v) i st) a = nxt st a.
Proof.
  unfold nxt. rewrite list_lookup_alter.
  destruct (decide (i = a)) as [->|]; [|reflexivity].
  destruct (st !! a); reflexivity.
Qed.

Lemma nxt_grow st i r n a : nxt (alter (grow r n) i st) a = nxt st a.
Proof.
  unfold nxt. rewrite list_lookup_alter.
  destruct (decide (i = a)) as [->|]; [|reflexivity].
  destruct (st !! a); reflexivity.
Qed.

Lemma prv_grow st i r n a : prv (alter (grow r n) i st) a = prv st a.
Proof.
  unfold prv. rewrite list_lookup_alter.
  destruct (decide (i = a)) as [->|]; [|reflexivity].
  destruct (st !! a); reflexivity.
Qed.

Lemma nxt_snoc st pc a :
  nxt (st ++ [pc]) a = if decide (a = List.length st) then next pc else nxt st a.
Proof.
  unfold nxt. destruct (decide (a = List.length st)) as [->|Hne].
  - rewrite list_lookup_middle by reflexivity. reflexivity.
  - destruct (decide (a < List.length st)%nat).
    + rewrite lookup_app_l by assumption. reflexivity.
    + rewrite !lookup_ge_None_2; [reflexivity | lia | rewrite length_app; simpl; lia].
Qed.

Lemma prv_snoc st pc a :
  prv (st ++ [pc]) a = if decide (a = List.length st) then prev pc else prv st a.
Proof.
  unfold prv. destruct (decide (a = List.length st)) as [->|Hne].
  - rewrite list_lookup_middle by reflexivity. reflexivity.
  - destruct (decide (a < List.length st)%nat).
    + rewrite lookup_app_l by assumption. reflexivity.
    + rewrite !lookup_ge_None_2; [reflexivity | lia | rewrite length_app; simpl; lia].
Qed.

(** The span a piece refers to is untouched by relinking. *)
Lemma span_set_next v pc : span_of (set_next v pc) = span_of pc.
Proof. reflexivity. Qed.
Lemma span_set_prev v pc : span_of (set_prev v pc) = span_of pc.
Proof. reflexivity. Qed.

Lemma spn_alter_link st i (f : piece -> piece) a :
  (forall pc, span_of (f pc) = span_of pc) ->
  spn (alter f i st) a = spn st a.
Proof.
  intros Hf. unfold spn, piece_at. rewrite list_lookup_alter.
  destruct (decide (i = a)) as [->|]; [|reflexivity].
  destruct (st !! a); simpl; [apply Hf | reflexivity].
Qed.

Lemma spn_snoc st pc a :
  spn (st ++ [pc]) a =
  if decide (a = List.length st) then span_of pc else spn st a.
Proof.
  unfold spn, piece_at. destruct (decide (a = List.length st)) as [->|Hne].
  - rewrite list_lookup_middle by reflexivity. reflexivity.
  - destruct (decide (a < List.length st)%nat).
    + rewrite lookup_app_l by assumption. reflexivity.
    + rewrite !lookup_ge_None_2; [reflexivity | lia | rewrite length_app; simpl; lia].
Qed.

Lemma spn_grow st i r n a :
  (i < List.length st)%nat ->
  spn (alter (grow r n) i st) a =
  if decide (a = i) then span_of (grow r n (piece_at st i)) else spn st a.
Proof.
  intros Hi. unfold spn, piece_at. rewrite list_lookup_alter.
  destruct (decide (a = i)) as [->|Hne].
  - destruct (decide (i = i)); [|congruence].
    destruct (lookup_lt_is_Some_2 st i Hi) as [pc ->]. reflexivity.
  - destruct (decide (i = a)); [congruence|reflexivity].
Qed.

(** *** List segments *)

Lemma seg_cons2 st a b l : seg st (a :: b :: l) <-> linked st a b /\ seg st (b :: l).
Proof. reflexivity. Qed.

Lemma seg_app st l1 a l2 :
  seg st (l1 ++ a :: l2) <-> seg st (l1 ++ [a]) /\ seg st (a :: l2).
Proof.
  induction l1 as [|x l1 IH]; simpl app.
  - simpl. tauto.
  - destruct l1 as [|y l1].
    + simpl app. rewrite !seg_cons2. simpl. tauto.
    + simpl app in *. rewrite !seg_cons2, IH. tauto.
Qed.

Lemma seg_snoc st l a b :
  seg st (l ++ [a; b]) <-> seg st (l ++ [a]) /\ linked st a b.
Proof.
  rewrite (seg_app st l a [b]). simpl. tauto.
Qed.

(** A segment survives writes that leave alone the [next] of all its
    nodes but the last and the [prev] of all but the first. *)
Lemma seg_frame st st' l :
  seg st l ->
  (forall a, a ∈ removelast l -> nxt st' a = nxt st a) ->
  (forall b, b ∈ List.tl l -> prv st' b = prv st b) ->
  seg st' l.
Proof.
  induction l as [|x l IH]; intros Hs Hn Hp; [exact Logic.I|].
  destruct l as [|y l]; [exact Logic.I|].
  apply seg_cons2 in Hs. destruct Hs as [[H1 H2] Hs].
  change (removelast (x :: y :: l)) with (x :: removelast (y :: l)) in Hn.
  change (List.tl (x :: y :: l)) with (y :: l) in Hp.
  apply seg_cons2. split.
  - split.
    + rewrite Hn; [exact H1|]. apply elem_of_cons. left. reflexivity.
    + rewrite Hp; [exact H2|]. apply elem_of_cons. left. reflexivity.
  - apply IH; [exact Hs| |].
    + intros a Ha. apply Hn. apply elem_of_cons. right. exact Ha.
    + intros b Hb. apply Hp. apply elem_of_cons. right. exact Hb.
Qed.

Lemma seg_in_lt st l a :
  seg st l -> (2 <= List.length l)%nat -> a ∈ l -> (a < List.length st)%nat.
Proof.
  induction l as [|x l IH]; intros Hs Hl Ha; [inversion Ha|].
  destruct l as [|y l]; [simpl in Hl; lia|].
  apply seg_cons2 in Hs. destruct Hs as [[H1 H2] Hs].
  apply elem_of_cons in Ha. destruct Ha as [->|Ha].
  - eapply nxt_lt; eauto.
  - destruct l as [|z l].
    + apply list_elem_of_singleton in Ha. subst. eapply prv_lt; eauto.
    + apply IH; [exact Hs | simpl; lia | exact Ha].
Qed.

End StoreProps.

(** ** Insert, step by step *)

Ltac ev :=
  cbn [fst snd Buffer.buffered Buffer.with_bufs Buffer.pieces
       Buffer.seqLength Buffer.seqBytes Buffer.alloc
       Buffer.with_lastInsertPiece Buffer.originalBuf Buffer.modifyBuf
       Buffer.undoStack Buffer.redoStack Buffer.lastAction
       Buffer.lastActionEndIdx Buffer.lastInsertPiece
       Buffer.newUndoPieceRange Buffer.Append Buffer.first Buffer.last
       Buffer.with_span Buffer.with_stacks Buffer.newPieceRange
       Buffer.boundary Buffer.rng_seqLength Buffer.rng_seqBytes
       Buffer.rng_runeIndex Buffer.getBuf Buffer.Swap Buffer.load
       Buffer.with_pieces Buffer.with_seq Buffer.recordAction].

Ltac len_side Hm :=
  rewrite ?length_alter, ?length_app, ?length_alter, ?length_app, <- ?Hm;
  cbn [List.length]; lia.

Section InsertEval.
Import Buffer.

Implicit Types (st : store) (pt : PieceTable) (text : list byte).

Lemma with_bufs_id pt : with_bufs pt (originalBuf pt) (modifyBuf pt) = pt.
Proof. destruct pt; reflexivity. Qed.

Lemma addToBuffer_modify pt text :
  addToBuffer pt modify text =
  (buffered pt text,
   (fst (text_pos pt text), snd (text_pos pt text), Utf8.RuneCount text)).
Proof.
  unfold addToBuffer, buffered, text_pos. destruct text as [|c t].
  - simpl. rewrite app_nil_r, with_bufs_id. reflexivity.
  - replace (len (c :: t) <=? 0) with false
      by (symmetry; apply Z.leb_gt; unfold len; simpl; lia).
    reflexivity.
Qed.

Lemma insertAtBoundary_eval pt i text x pcx p :
  pieces pt !! x = Some pcx -> prev pcx = Some p ->
  (p < List.length (pieces pt))%nat ->
  let n := List.length (pieces pt) in
  let tr := Utf8.RuneCount text in
  let pcn := mkPiece modify (fst (text_pos pt text)) tr
                     (snd (text_pos pt text)) (len text) None None in
  insertAtBoundary pt i text x =
  Some (mkPT (originalBuf pt) (modifyBuf pt ++ text)
             (seqLength pt + tr) (seqBytes pt + len text)
             (mkRange (Some p) (Some x) true (seqLength pt) (seqBytes pt) i
                :: undoStack pt)
             (redoStack pt)
             (boundary_store (pieces pt) p x pcn)
             actionInsert (i + tr) (Some n)).
Proof.
  intros Hx Hp Hlt n tr pcn.
  assert (Hxlt : (x < List.length (pieces pt))%nat) by (eapply lookup_lt_Some; eauto).
  unfold insertAtBoundary. rewrite addToBuffer_modify.
  cbn [fst snd buffered with_bufs pieces seqLength seqBytes alloc
       with_lastInsertPiece originalBuf modifyBuf undoStack redoStack
       lastAction lastActionEndIdx lastInsertPiece newUndoPieceRange].
  unfold AsBoundary.
  rewrite lookup_app_l by exact Hxlt. rewrite Hx.
  cbn [with_span first last boundary rng_seqLength rng_seqBytes rng_runeIndex
       with_stacks pieces Append newPieceRange Swap originalBuf modifyBuf
       seqLength seqBytes undoStack redoStack lastAction lastActionEndIdx
       lastInsertPiece].
  rewrite Hp.
  rewrite (modify_at_lt _ p) by (rewrite length_app; simpl; lia).
  rewrite (modify_at_lt _ x) by (rewrite length_alter, length_app; simpl; lia).
  rewrite (modify_at_lt _ (List.length (pieces pt)))
    by (rewrite !length_alter, length_app; simpl; lia).
  rewrite (modify_at_lt _ (List.length (pieces pt)))
    by (rewrite !length_alter, length_app; simpl; lia).
  reflexivity.
Qed.

Lemma insertInMiddle_eval pt i text x pcx p s off :
  pieces pt !! x = Some pcx -> prev pcx = Some p -> next pcx = Some s ->
  (p < List.length (pieces pt))%nat -> (s < List.length (pieces pt))%nat ->
  let m := List.length (pieces pt) in
  let tr := Utf8.RuneCount text in
  let buf := getBuf (buffered pt text) (source pcx) in
  let pcm := mkPiece modify (fst (text_pos pt text)) tr
                     (snd (text_pos pt text)) (len text) None None in
  let pcl := mkPiece (source pcx) (offset pcx) off (byteOff pcx)
                     (tb_bytesForRange buf (offset pcx) off) None None in
  let pcr := mkPiece (source pcx) (offset pcx + off) (length' pcx - off)
                     (tb_RuneOffset buf (offset pcx + off))
                     (tb_bytesForRange buf (offset pcx + off) (length' pcx - off))
                     None None in
  insertInMiddle pt i text x off =
  Some (mkPT (originalBuf pt) (modifyBuf pt ++ text)
             (seqLength pt + tr) (seqBytes pt + len text)
             (mkRange (Some x) (Some x) false (seqLength pt) (seqBytes pt) i
                :: undoStack pt)
             (redoStack pt)
             (middle_store (pieces pt) p s pcm pcl pcr)
             actionInsert (i + tr) (Some m)).
Proof.
  intros Hx Hp Hs Hplt Hslt m tr buf pcm pcl pcr.
  subst m tr buf pcm pcl pcr. unfold middle_store.
  assert (Hxlt : (x < List.length (pieces pt))%nat) by (eapply lookup_lt_Some; eauto).
  unfold insertInMiddle. rewrite addToBuffer_modify. ev.
  rewrite lookup_app_l by exact Hxlt. rewrite Hx. ev.
  rewrite !length_app. cbn [List.length].
  remember (List.length (pieces pt)) as m eqn:Hm.
  replace (m + 1)%nat with (S m) by lia.
  rewrite (modify_at_lt _ (S m)) by len_side Hm.
  rewrite (modify_at_lt _ m) by len_side Hm. ev.
  rewrite !length_alter, !length_app, <- ?Hm. cbn [List.length].
  replace (m + 1 + 1)%nat with (S (S m)) by lia.
  rewrite (modify_at_lt _ m) by len_side Hm.
  rewrite (modify_at_lt _ (S (S m))) by len_side Hm. ev.
  match goal with
  | |- context [?st5 !! x] =>
    assert (E : st5 !! x = Some pcx)
  end.
  { rewrite !list_lookup_alter_ne by lia.
    rewrite lookup_app_l by len_side Hm.
    rewrite !list_lookup_alter_ne by lia.
    rewrite !lookup_app_l by len_side Hm.
    exact Hx. }
  rewrite E. ev. rewrite Hp, Hs.
  rewrite (modify_at_lt _ p) by len_side Hm.
  rewrite (modify_at_lt _ s) by len_side Hm.
  rewrite (modify_at_lt _ (S m)) by len_side Hm.
  rewrite (modify_at_lt _ (S (S m))) by len_side Hm.
  reflexivity.
Qed.

End InsertEval.

(** ** The linked list after an insert *)

Ltac mid_len :=
  rewrite ?length_alter, ?length_app, ?length_alter, ?length_app;
  cbn [List.length]; lia.

Section ListStruct.
Import Buffer.

Implicit Types (st : store) (a b p x s : nat) (l : list nat) (pc : piece).

Lemma nodup_bound l (n : nat) :
  NoDup l -> (forall a, a ∈ l -> (a < n)%nat) -> (List.length l <= n)%nat.
Proof.
  intros Hnd Hlt.
  assert (H : (List.length l <= List.length (seq 0 n))%nat).
  { apply NoDup_incl_length; [apply NoDup_ListNoDup; exact Hnd|].
    intros a Ha. apply list_elem_of_In in Ha. apply in_seq.
    specialize (Hlt a Ha). lia. }
  rewrite List.length_seq in H. exact H.
Qed.

Lemma snoc_split (l l1 l2 : list nat) (t x : nat) :
  l ++ [t] = l1 ++ x :: l2 ->
  (l2 = [] /\ x = t /\ l = l1) \/
  (exists l2', l2 = l2' ++ [t] /\ l = l1 ++ x :: l2').
Proof.
  destruct l2 as [|y l2' _] using rev_ind; intros H.
  - left. apply app_inj_tail in H. destruct H as [-> ->]. auto.
  - right. exists l2'.
    change (l1 ++ x :: l2' ++ [y]) with (l1 ++ (x :: l2') ++ [y]) in H.
    rewrite app_assoc in H. apply app_inj_tail in H.
    destruct H as [-> ->]. auto.
Qed.

Lemma cons_snoc (h : nat) (l1 : list nat) : exists A p, h :: l1 = A ++ [p].
Proof.
  destruct (exists_last (l := h :: l1)) as (A & p & E); [discriminate|eauto].
Qed.

Lemma elem_of_removelast l a : a ∈ removelast l -> a ∈ l.
Proof.
  induction l as [|y l IH]; [intros H; inversion H|].
  destruct l as [|z l]; [intros H; inversion H|].
  change (removelast (y :: z :: l)) with (y :: removelast (z :: l)).
  rewrite !(elem_of_cons _ a y). intros [->|H]; [left; reflexivity|].
  right. apply IH, H.
Qed.

Lemma elem_of_tl l a : a ∈ List.tl l -> a ∈ l.
Proof. destruct l; simpl; [auto|]. intros H. apply elem_of_cons. auto. Qed.

Lemma removelast_snoc l a : removelast (l ++ [a]) = l.
Proof. apply removelast_last. Qed.

(** Distinctness around a position of a list without duplicates. *)
Lemma nodup_around (A : list nat) p x (C : list nat) :
  NoDup ((A ++ [p]) ++ x :: C) ->
  (forall a, a ∈ A -> a <> p /\ a <> x) /\ p <> x /\
  (forall b, b ∈ C -> b <> p /\ b <> x) /\
  (forall a, a ∈ A -> a ∉ C).
Proof.
  intros H. apply NoDup_app in H. destruct H as (H1 & H2 & H3).
  apply NoDup_app in H1. destruct H1 as (H1a & H1b & _).
  apply NoDup_cons in H3. destruct H3 as [H3a H3b].
  split; [|split; [|split]].
  - intros a Ha. split.
    + intros ->. apply (H1b p Ha). apply elem_of_cons. auto.
    + intros ->. apply (H2 x); [apply elem_of_app; auto|apply elem_of_cons; auto].
  - intros ->. apply (H2 x); [apply elem_of_app; right|]; apply elem_of_cons; auto.
  - intros b Hb. split.
    + intros ->. apply (H2 p); [apply elem_of_app; right|]; apply elem_of_cons; auto.
    + intros ->. contradiction.
  - intros a Ha Hc. apply (H2 a); [apply elem_of_app; auto|].
    apply elem_of_cons. auto.
Qed.

(** *** Views of the stores built by an insert *)

Lemma boundary_length st p x pcn :
  List.length (boundary_store st p x pcn) = S (List.length st).
Proof.
  unfold boundary_store. rewrite !length_alter, length_app. simpl. lia.
Qed.

Lemma boundary_nxt st p x pcn a :
  (p < List.length st)%nat ->
  nxt (boundary_store st p x pcn) a =
  if decide (a = List.length st) then Some x
  else if decide (a = p) then Some (List.length st) else nxt st a.
Proof.
  intros Hp. unfold boundary_store.
  rewrite nxt_set_next by (rewrite !length_alter, length_app; simpl; lia).
  unfold upd. destruct (decide (a = List.length st)); [reflexivity|].
  rewrite !nxt_set_prev.
  rewrite nxt_set_next by (rewrite length_app; simpl; lia).
  unfold upd. destruct (decide (a = p)); [reflexivity|].
  rewrite nxt_snoc. destruct (decide (a = List.length st)); [contradiction|reflexivity].
Qed.

Lemma boundary_prv st p x pcn a :
  (x < List.length st)%nat ->
  prv (boundary_store st p x pcn) a =
  if decide (a = List.length st) then Some p
  else if decide (a = x) then Some (List.length st) else prv st a.
Proof.
  intros Hx. unfold boundary_store.
  rewrite prv_set_next.
  rewrite prv_set_prev by (rewrite !length_alter, length_app; simpl; lia).
  unfold upd. destruct (decide (a = List.length st)); [reflexivity|].
  rewrite prv_set_prev by (rewrite !length_alter, length_app; simpl; lia).
  unfold upd. destruct (decide (a = x)); [reflexivity|].
  rewrite prv_set_next, prv_snoc.
  destruct (decide (a = List.length st)); [contradiction|reflexivity].
Qed.

Lemma boundary_spn st p x pcn a :
  spn (boundary_store st p x pcn) a =
  if decide (a = List.length st) then span_of pcn else spn st a.
Proof.
  unfold boundary_store.
  rewrite !spn_alter_link by (intros; reflexivity).
  apply spn_snoc.
Qed.

Lemma middle_length st p s pcm pcl pcr :
  List.length (middle_store st p s pcm pcl pcr) = S (S (S (List.length st))).
Proof.
  unfold middle_store.
  rewrite !length_alter, length_app, !length_alter, !length_app. simpl. lia.
Qed.

Lemma middle_nxt st p s pcm pcl pcr a :
  (p < List.length st)%nat ->
  nxt (middle_store st p s pcm pcl pcr) a =
  if decide (a = S (S (List.length st))) then Some s
  else if decide (a = p) then Some (S (List.length st))
  else if decide (a = List.length st) then Some (S (S (List.length st)))
  else if decide (a = S (List.length st)) then Some (List.length st)
  else nxt st a.
Proof.
  intros Hp. unfold middle_store.
  rewrite nxt_set_next by mid_len.
  unfold upd. destruct (decide (a = S (S (List.length st)))); [reflexivity|].
  rewrite !nxt_set_prev.
  rewrite nxt_set_next by mid_len.
  unfold upd. destruct (decide (a = p)); [reflexivity|].
  rewrite nxt_set_prev.
  rewrite nxt_set_next by mid_len.
  unfold upd. destruct (decide (a = List.length st)); [reflexivity|].
  rewrite nxt_snoc.
  rewrite !length_alter, !length_app. cbn [List.length].
  destruct (decide (a = (List.length st + 1 + 1)%nat)); [lia|].
  rewrite nxt_set_prev.
  rewrite nxt_set_next by mid_len.
  unfold upd. destruct (decide (a = S (List.length st))); [reflexivity|].
  rewrite !nxt_snoc. rewrite length_app. cbn [List.length].
  destruct (decide (a = (List.length st + 1)%nat)); [lia|].
  destruct (decide (a = List.length st)); [lia|reflexivity].
Qed.

Lemma middle_prv st p s pcm pcl pcr a :
  (s < List.length st)%nat ->
  prv (middle_store st p s pcm pcl pcr) a =
  if decide (a = S (List.length st)) then Some p
  else if decide (a = s) then Some (S (S (List.length st)))
  else if decide (a = S (S (List.length st))) then Some (List.length st)
  else if decide (a = List.length st) then Some (S (List.length st))
  else prv st a.
Proof.
  intros Hs. unfold middle_store.
  rewrite prv_set_next.
  rewrite prv_set_prev by mid_len.
  unfold upd. destruct (decide (a = S (List.length st))); [reflexivity|].
  rewrite prv_set_prev by mid_len.
  unfold upd. destruct (decide (a = s)); [reflexivity|].
  rewrite prv_set_next.
  rewrite prv_set_prev by mid_len.
  unfold upd. destruct (decide (a = S (S (List.length st)))); [reflexivity|].
  rewrite prv_set_next, prv_snoc.
  rewrite !length_alter, !length_app. cbn [List.length].
  destruct (decide (a = (List.length st + 1 + 1)%nat)); [lia|].
  rewrite prv_set_prev by mid_len.
  unfold upd. destruct (decide (a = List.length st)); [reflexivity|].
  rewrite prv_set_next, !prv_snoc. rewrite length_app. cbn [List.length].
  destruct (decide (a = (List.length st + 1)%nat)); [lia|].
  destruct (decide (a = List.length st)); [lia|reflexivity].
Qed.

Lemma middle_spn st p s pcm pcl pcr a :
  spn (middle_store st p s pcm pcl pcr) a =
  if decide (a = List.length st) then span_of pcm
  else if decide (a = S (List.length st)) then span_of pcl
  else if decide (a = S (S (List.length st))) then span_of pcr
  else spn st a.
Proof.
  unfold middle_store.
  rewrite !spn_alter_link by (intros; reflexivity).
  rewrite spn_snoc.
  rewrite !length_alter, !length_app. cbn [List.length].
  rewrite !spn_alter_link by (intros; reflexivity).
  rewrite !spn_snoc, length_app. cbn [List.length].
  repeat case_decide; try reflexivity; lia.
Qed.

(** *** The list after an insert *)

Lemma is_list_lt st ps a :
  is_list st ps -> a ∈ head :: ps ++ [tail] -> (a < List.length st)%nat.
Proof.
  intros [Hs _] Ha. eapply seg_in_lt; [exact Hs | | exact Ha].
  simpl. rewrite length_app. simpl. lia.
Qed.

Lemma nodup_insert_fresh (l k : list nat) (n : nat) :
  NoDup (l ++ k) -> n ∉ l ++ k -> NoDup (l ++ n :: k).
Proof.
  intros H Hn. apply NoDup_app in H. destruct H as (H1 & H2 & H3).
  apply not_elem_of_app in Hn. destruct Hn as [Hn1 Hn2].
  apply NoDup_app. split; [exact H1|]. split.
  - intros y Hy Hc. apply elem_of_cons in Hc. destruct Hc as [->|Hc];
      [contradiction | exact (H2 y Hy Hc)].
  - apply NoDup_cons. split; assumption.
Qed.

Lemma nodup_remove (l k : list nat) (x : nat) :
  NoDup (l ++ x :: k) -> NoDup (l ++ k).
Proof.
  intros H. apply NoDup_app in H. destruct H as (H1 & H2 & H3).
  apply NoDup_cons in H3. destruct H3 as [_ H3].
  apply NoDup_app. split; [exact H1|]. split; [|exact H3].
  intros y Hy Hc. apply (H2 y Hy). apply elem_of_cons. auto.
Qed.

Lemma elem_of_remove (l k : list nat) (x a : nat) :
  a ∈ l ++ k -> a ∈ l ++ x :: k.
Proof.
  rewrite !elem_of_app, elem_of_cons. tauto.
Qed.

(** The decomposition of the list around a node [x]: the nodes before
    its predecessor, the predecessor, and the nodes after [x]. *)
Lemma split_at st ps l1 x l2 :
  is_list st ps -> ps ++ [tail] = l1 ++ x :: l2 ->
  exists A p,
    head :: l1 = A ++ [p] /\
    head :: ps ++ [tail] = (A ++ [p]) ++ x :: l2 /\
    seg st (A ++ [p]) /\ linked st p x /\ seg st (x :: l2).
Proof.
  intros [Hs Hnd] E.
  destruct (cons_snoc head l1) as (A & p & EA).
  exists A, p.
  assert (Ef : head :: ps ++ [tail] = (A ++ [p]) ++ x :: l2).
  { rewrite <- EA. simpl. f_equal. exact E. }
  rewrite Ef in Hs. apply seg_app in Hs. destruct Hs as [Hs1 Hs2].
  rewrite <- app_assoc in Hs1. simpl in Hs1.
  apply seg_snoc in Hs1. destruct Hs1 as [Hs1 Hl].
  auto.
Qed.

Lemma boundary_is_list st ps l1 x l2 p pcn :
  is_list st ps -> ps ++ [tail] = l1 ++ x :: l2 -> prv st x = Some p ->
  exists ps',
    ps' ++ [tail] = l1 ++ List.length st :: x :: l2 /\
    is_list (boundary_store st p x pcn) ps'.
Proof.
  intros Hl E Hp. pose proof Hl as [Hs Hnd].
  destruct (split_at st ps l1 x l2 Hl E) as (A & p' & EA & Ef & Hs1 & Hlk & Hs2).
  assert (p' = p) by (destruct Hlk as [_ H]; congruence). subst p'.
  rewrite Ef in Hnd.
  pose proof (nodup_around A p x l2 Hnd) as (Ha & Hpx & Hc & _).
  assert (Hlt : forall a, a ∈ (A ++ [p]) ++ x :: l2 -> (a < List.length st)%nat).
  { intros a Hin. apply (is_list_lt st ps a Hl). rewrite Ef. exact Hin. }
  assert (Hplt : (p < List.length st)%nat).
  { apply Hlt. apply elem_of_app. left. apply elem_of_app. right.
    apply elem_of_cons. auto. }
  assert (Hxlt : (x < List.length st)%nat).
  { apply Hlt. apply elem_of_app. right. apply elem_of_cons. auto. }
  set (n := List.length st) in *.
  assert (Eps : exists ps', ps' ++ [tail] = l1 ++ n :: x :: l2).
  { destruct (snoc_split ps l1 l2 tail x E) as [(-> & -> & ->)|(l2' & -> & ->)].
    - exists (l1 ++ [n]). rewrite <- app_assoc. reflexivity.
    - exists (l1 ++ n :: x :: l2'). rewrite <- app_assoc. reflexivity. }
  destruct Eps as (ps' & Eps). exists ps'. split; [exact Eps|].
  assert (Ef' : head :: ps' ++ [tail] = (A ++ [p]) ++ n :: x :: l2).
  { rewrite <- EA. simpl. f_equal. exact Eps. }
  split; rewrite Ef'.
  - apply seg_app. split.
    + rewrite <- app_assoc. simpl. apply seg_snoc. split.
      * apply (seg_frame st); [exact Hs1| |].
        -- intros a Hin. rewrite removelast_snoc in Hin.
           rewrite boundary_nxt by exact Hplt. fold n.
           destruct (Ha a Hin) as [Hap Hax].
           assert ((a < n)%nat)
             by (apply Hlt; apply elem_of_app; left; apply elem_of_app; auto).
           destruct (decide (a = n)); [lia|].
           destruct (decide (a = p)); [contradiction|reflexivity].
        -- intros b Hin. apply elem_of_tl in Hin.
           rewrite boundary_prv by exact Hxlt. fold n.
           assert ((b < n)%nat) by (apply Hlt; apply elem_of_app; auto).
           assert (b <> x).
           { apply elem_of_app in Hin. destruct Hin as [Hin|Hin].
             - apply Ha. exact Hin.
             - apply list_elem_of_singleton in Hin. subst b. exact Hpx. }
           destruct (decide (b = n)); [lia|].
           destruct (decide (b = x)); [contradiction|reflexivity].
      * split.
        -- rewrite boundary_nxt by exact Hplt. fold n.
           destruct (decide (p = n)); [lia|].
           destruct (decide (p = p)); [reflexivity|contradiction].
        -- rewrite boundary_prv by exact Hxlt. fold n.
           destruct (decide (n = n)); [reflexivity|contradiction].
    + apply seg_cons2. split.
      * split.
        -- rewrite boundary_nxt by exact Hplt. fold n.
           destruct (decide (n = n)); [reflexivity|contradiction].
        -- rewrite boundary_prv by exact Hxlt. fold n.
           destruct (decide (x = n)); [lia|].
           destruct (decide (x = x)); [reflexivity|contradiction].
      * apply (seg_frame st); [exact Hs2| |].
        -- intros a Hin. apply elem_of_removelast in Hin.
           rewrite boundary_nxt by exact Hplt. fold n.
           assert ((a < n)%nat) by (apply Hlt; apply elem_of_app; auto).
           assert (a <> p).
           { apply elem_of_cons in Hin. destruct Hin as [->|Hin];
               [auto | apply Hc; exact Hin]. }
           destruct (decide (a = n)); [lia|].
           destruct (decide (a = p)); [contradiction|reflexivity].
        -- intros b Hin. simpl in Hin.
           rewrite boundary_prv by exact Hxlt. fold n.
           assert ((b < n)%nat)
             by (apply Hlt; apply elem_of_app; right; apply elem_of_cons; auto).
           destruct (Hc b Hin) as [_ Hbx].
           destruct (decide (b = n)); [lia|].
           destruct (decide (b = x)); [contradiction|reflexivity].
  - apply nodup_insert_fresh; [exact Hnd|].
    intros Hin. specialize (Hlt n Hin). lia.
Qed.

Lemma middle_is_list st l1 x l2 p s pcm pcl pcr :
  is_list st (l1 ++ x :: l2) -> prv st x = Some p -> nxt st x = Some s ->
  let m := List.length st in
  is_list (middle_store st p s pcm pcl pcr) (l1 ++ S m :: m :: S (S m) :: l2).
Proof.
  intros Hl Hp Hn m. pose proof Hl as [Hs Hnd].
  assert (E : (l1 ++ x :: l2) ++ [tail] = l1 ++ x :: (l2 ++ [tail]))
    by (rewrite <- app_assoc; reflexivity).
  destruct (split_at st _ l1 x _ Hl E) as (A & p' & EA & Ef & Hs1 & Hlk & Hs2).
  assert (p' = p) by (destruct Hlk as [_ H]; congruence). subst p'.
  destruct (l2 ++ [tail]) as [|s' C] eqn:EC; [destruct l2; discriminate|].
  apply seg_cons2 in Hs2. destruct Hs2 as [Hlk2 Hs2].
  assert (s' = s) by (destruct Hlk2 as [H _]; congruence). subst s'.
  rewrite Ef in Hnd.
  pose proof (nodup_around A p x (s :: C) Hnd) as (Ha & Hpx & Hc & Hac).
  assert (Hlt : forall a, a ∈ (A ++ [p]) ++ x :: s :: C -> (a < m)%nat).
  { intros a Hin. apply (is_list_lt st _ a Hl). rewrite Ef. exact Hin. }
  assert (Hplt : (p < m)%nat).
  { apply Hlt. apply elem_of_app. left. apply elem_of_app. right.
    apply elem_of_cons. auto. }
  assert (Hslt : (s < m)%nat).
  { apply Hlt. apply elem_of_app. right. apply elem_of_cons. right.
    apply elem_of_cons. auto. }
  assert (Hps : p <> s).
  { destruct (Hc s) as [H _]; [apply elem_of_cons; auto|]. auto. }
  assert (Ef' : head :: (l1 ++ S m :: m :: S (S m) :: l2) ++ [tail]
                = (A ++ [p]) ++ S m :: m :: S (S m) :: s :: C).
  { rewrite <- EA, <- EC. simpl. rewrite <- app_assoc. reflexivity. }
  split; rewrite Ef'.
  - apply seg_app. split.
    + rewrite <- app_assoc. simpl. apply seg_snoc. split.
      * apply (seg_frame st); [exact Hs1| |].
        -- intros a Hin. rewrite removelast_snoc in Hin.
           rewrite middle_nxt by exact Hplt. fold m.
           destruct (Ha a Hin) as [Hap Hax].
           assert ((a < m)%nat)
             by (apply Hlt; apply elem_of_app; left; apply elem_of_app; auto).
           repeat case_decide; try lia; try contradiction; reflexivity.
        -- intros b Hin. apply elem_of_tl in Hin.
           rewrite middle_prv by exact Hslt. fold m.
           assert ((b < m)%nat) by (apply Hlt; apply elem_of_app; auto).
           assert (b <> s).
           { apply elem_of_app in Hin. destruct Hin as [Hin|Hin].
             - intros ->. apply (Hac s Hin). apply elem_of_cons. auto.
             - apply list_elem_of_singleton in Hin. subst b. exact Hps. }
           repeat case_decide; try lia; try contradiction; reflexivity.
      * split.
        -- rewrite middle_nxt by exact Hplt. fold m.
           repeat case_decide; try lia; try contradiction; reflexivity.
        -- rewrite middle_prv by exact Hslt. fold m.
           repeat case_decide; try lia; try contradiction; reflexivity.
    + repeat (apply seg_cons2; split).
      1-3: split;
           first [rewrite middle_nxt by exact Hplt | rewrite middle_prv by exact Hslt];
           fold m; repeat case_decide; try lia; try contradiction; reflexivity.
      apply (seg_frame st); [exact Hs2| |].
      * intros a Hin. apply elem_of_removelast in Hin.
        rewrite middle_nxt by exact Hplt. fold m.
        assert ((a < m)%nat)
          by (apply Hlt; apply elem_of_app; right; apply elem_of_cons; auto).
        assert (a <> p) by (apply Hc; exact Hin).
        repeat case_decide; try lia; try contradiction; reflexivity.
      * intros b Hin. simpl in Hin.
        rewrite middle_prv by exact Hslt. fold m.
        assert ((b < m)%nat).
        { apply Hlt. apply elem_of_app. right. apply elem_of_cons. right.
          apply elem_of_cons. auto. }
        assert (b <> s).
        { intros ->. apply NoDup_app in Hnd. destruct Hnd as (_ & _ & Hnd).
          apply NoDup_cons in Hnd. destruct Hnd as [_ Hnd].
          apply NoDup_cons in Hnd. destruct Hnd as [Hnd _]. contradiction. }
        repeat case_decide; try lia; try contradiction; reflexivity.
  - apply nodup_remove in Hnd.
    assert (HL : forall a, a ∈ A ++ [p] -> (a < m)%nat)
      by (intros a Hin; apply Hlt; apply elem_of_app; auto).
    assert (HK : forall a, a ∈ s :: C -> (a < m)%nat).
    { intros a Hin. apply Hlt. apply elem_of_app. right.
      apply elem_of_cons. auto. }
    apply NoDup_app in Hnd. destruct Hnd as (N1 & N2 & N3).
    apply NoDup_app. split; [exact N1|]. split.
    + intros y Hy Hin. specialize (HL y Hy).
      repeat (apply elem_of_cons in Hin; destruct Hin as [->|Hin]; [lia|]).
      exact (N2 y Hy Hin).
    + apply NoDup_cons; split;
        [|apply NoDup_cons; split; [|apply NoDup_cons; split; [|exact N3]]].
      all: intros Hin;
        repeat (apply elem_of_cons in Hin; destruct Hin as [Hin|Hin]; [lia|]);
        pose proof (HK _ (proj2 (elem_of_cons _ _ _) (or_intror Hin))); lia.
Qed.

End ListStruct.

(** ** The three ways of an insert *)

Section InsertCases.
Import Buffer.

Implicit Types (st : store) (pt : PieceTable) (text : list byte).

Lemma action_eqb_eq (a b : action) : action_eqb a b = true <-> a = b.
Proof. destruct a, b; simpl; split; congruence. Qed.

Lemma coalesces_spec pt i text :
  coalesces pt i text = true <->
  lastAction pt = actionInsert /\ i = lastActionEndIdx pt /\
  is_Some (lastInsertPiece pt) /\ Utf8.RuneCount text <= 1.
Proof.
  unfold coalesces.
  rewrite !andb_true_iff, action_eqb_eq, Z.eqb_eq, bool_decide_eq_true, Z.leb_le.
  tauto.
Qed.

Lemma tryAppend_cond pt i text :
  negb (action_eqb (lastAction pt) actionInsert)
  || negb (i =? lastActionEndIdx pt)
  || negb (bool_decide (is_Some (lastInsertPiece pt)))
  || (1 <? Utf8.RuneCount text)
  = negb (coalesces pt i text).
Proof.
  unfold coalesces. rewrite !negb_andb. f_equal.
  rewrite Z.ltb_antisym. reflexivity.
Qed.

Lemma tryAppend_false pt i text :
  coalesces pt i text = false -> tryAppendToLastPiece pt i text = Some (false, pt).
Proof.
  intros H. unfold tryAppendToLastPiece. rewrite tryAppend_cond, H. reflexivity.
Qed.

Lemma tryAppend_true pt i text lp :
  coalesces pt i text = true -> lastInsertPiece pt = Some lp ->
  (lp < List.length (pieces pt))%nat -> redoStack pt = [] ->
  tryAppendToLastPiece pt i text = Some (true, coalesced pt i text lp).
Proof.
  intros H Hlp Hlt Hr. unfold tryAppendToLastPiece.
  rewrite tryAppend_cond, H. cbn [negb]. rewrite addToBuffer_modify.
  cbn [buffered with_bufs pieces lastInsertPiece]. rewrite Hlp.
  rewrite modify_at_lt by exact Hlt.
  unfold coalesced, recordAction, with_seq, with_pieces, buffered, with_bufs.
  simpl. rewrite Hr, Hlp. reflexivity.
Qed.

(** The loop of [FindPiece] on the rest of the list. *)
Lemma FindPiece_loop_spec st i (body : list nat) :
  forall fuel runes,
    seg st (body ++ [tail]) -> tail ∉ body ->
    (List.length (body ++ [tail]) <= fuel)%nat ->
    exists x off l1 l2,
      FindPiece_loop fuel st (List.hd tail (body ++ [tail])) runes i = Some (x, off) /\
      body ++ [tail] = l1 ++ x :: l2 /\
      (l1 <> [] -> runes + sum_runes st l1 <= i) /\
      ((x = tail /\ off = 0 /\ l2 = []) \/
       (x <> tail /\ off = i - (runes + sum_runes st l1) /\
        i < runes + sum_runes st l1 + length' (piece_at st x))).
Proof.
  induction body as [|n body IH]; intros fuel runes Hs Ht Hf.
  - destruct fuel as [|f]; [simpl in Hf; lia|].
    exists tail, 0, [], []. simpl. repeat split; [congruence|]. left. auto.
  - destruct fuel as [|f]; [simpl in Hf; lia|].
    assert (Hn : n <> tail) by (intros ->; apply Ht; apply elem_of_cons; auto).
    assert (Ht' : tail ∉ body) by (intros H; apply Ht; apply elem_of_cons; auto).
    simpl app in *. cbn [List.hd FindPiece_loop].
    destruct (Nat.eqb n tail) eqn:En; [apply Nat.eqb_eq in En; contradiction|].
    destruct (body ++ [tail]) as [|m rest] eqn:Eb; [destruct body; discriminate|].
    apply seg_cons2 in Hs. destruct Hs as [[Hnx _] Hs].
    unfold nxt in Hnx. destruct (st !! n) as [pc|] eqn:Epc; [|discriminate].
    assert (Hpa : piece_at st n = pc) by (unfold piece_at; rewrite Epc; reflexivity).
    destruct (i <? runes + length' pc) eqn:Ei.
    + apply Z.ltb_lt in Ei. exists n, (i - runes), [], (m :: rest).
      split; [reflexivity|]. split; [reflexivity|].
      split; [congruence|]. right. simpl. rewrite Hpa.
      repeat split; [exact Hn | f_equal; lia | lia].
    + apply Z.ltb_ge in Ei. rewrite Hnx.
      destruct (IH f (runes + length' pc)) as (x & off & l1 & l2 & Hr & El & Hl1 & Hx);
        [exact Hs | exact Ht' | simpl in Hf |- *; lia|].
      cbn [List.hd] in Hr.
      exists x, off, (n :: l1), l2.
      split; [exact Hr|]. split; [rewrite El; reflexivity|].
      cbn [sum_runes fold_right]. fold (sum_runes st l1). rewrite Hpa.
      split.
      * intros _. destruct l1 as [|y l1]; [simpl; lia|].
        specialize (Hl1 ltac:(discriminate)). lia.
      * destruct Hx as [Hx|(Hx1 & Hx2 & Hx3)]; [left; exact Hx|].
        right. split; [exact Hx1|]. split; lia.
Qed.

Lemma is_list_Head st ps :
  is_list st ps -> Head st = Some (List.hd tail (ps ++ [tail])).
Proof.
  intros [Hs _]. destruct (ps ++ [tail]) as [|m rest] eqn:E;
    [destruct ps; discriminate|].
  apply seg_cons2 in Hs. destruct Hs as [[Hn _] _].
  exact Hn.
Qed.

Lemma is_list_fuel st ps :
  is_list st ps -> (S (List.length (ps ++ [tail])) <= List.length st)%nat.
Proof.
  intros Hl. pose proof Hl as [_ Hnd].
  change (S (List.length (ps ++ [tail])))
    with (List.length (head :: ps ++ [tail])).
  apply nodup_bound; [exact Hnd|].
  intros a Ha. eapply is_list_lt; eauto.
Qed.

Lemma is_list_body st ps :
  is_list st ps -> seg st (ps ++ [tail]) /\ tail ∉ ps.
Proof.
  intros [Hs Hnd]. split.
  - destruct (ps ++ [tail]) as [|m rest] eqn:E; [exact Logic.I|].
    apply seg_cons2 in Hs. apply Hs.
  - apply NoDup_cons in Hnd. destruct Hnd as [_ Hnd].
    apply NoDup_app in Hnd. destruct Hnd as (_ & H & _).
    intros Hin. apply (H tail Hin). apply elem_of_cons. auto.
Qed.

Lemma FindPiece_spec st ps i :
  is_list st ps -> 0 <= i ->
  exists x off l1 l2,
    FindPiece st i = Some (x, off) /\
    ps ++ [tail] = l1 ++ x :: l2 /\
    sum_runes st l1 <= i /\
    ((x = tail /\ off = 0 /\ l2 = []) \/
     (x <> tail /\ off = i - sum_runes st l1 /\
      i < sum_runes st l1 + length' (piece_at st x))).
Proof.
  intros Hl Hi. destruct (is_list_body st ps Hl) as [Hs Ht].
  pose proof (is_list_fuel st ps Hl) as Hf.
  destruct (FindPiece_loop_spec st i ps (List.length st) 0 Hs Ht ltac:(lia))
    as (x & off & l1 & l2 & Hr & El & Hl1 & Hx).
  exists x, off, l1, l2. unfold FindPiece. rewrite (is_list_Head st ps Hl).
  split; [exact Hr|]. split; [exact El|]. split.
  - destruct l1 as [|y l1]; [simpl; lia|].
    specialize (Hl1 ltac:(discriminate)). lia.
  - destruct Hx as [Hx|(Hx1 & Hx2 & Hx3)]; [left; exact Hx|].
    right. split; [exact Hx1|]. split; lia.
Qed.

Lemma linked_lookup st p x :
  linked st p x ->
  exists pcp pcx,
    st !! p = Some pcp /\ next pcp = Some x /\
    st !! x = Some pcx /\ prev pcx = Some p.
Proof.
  intros [Hn Hp]. unfold nxt, prv in *.
  destruct (st !! p) as [pcp|]; [|discriminate].
  destruct (st !! x) as [pcx|]; [|discriminate].
  eauto 10.
Qed.

(** An insert in range of a well-formed table succeeds in one of three
    ways: merged into the last inserted piece, linked at a boundary, or
    splitting a piece in three. *)
Lemma Insert_cases pt ps i text :
  wf_table pt ps -> 0 <= i <= seqLength pt ->
  (coalesces pt i text = true /\
   exists lp, lastInsertPiece pt = Some lp /\
     (lp < List.length (pieces pt))%nat /\
     Insert pt i text = Some (true, coalesced pt i text lp))
  \/
  (coalesces pt i text = false /\
   exists x l1 l2 p,
     ps ++ [tail] = l1 ++ x :: l2 /\
     sum_runes (pieces pt) l1 <= i /\
     ((x = tail /\ l2 = []) \/
      (x <> tail /\ i = sum_runes (pieces pt) l1 /\
       0 < length' (piece_at (pieces pt) x))) /\
     prv (pieces pt) x = Some p /\
     Insert pt i text = Some (true, inserted_boundary pt i text p x))
  \/
  (coalesces pt i text = false /\
   exists x l1 l2 p s off,
     ps = l1 ++ x :: l2 /\
     off = i - sum_runes (pieces pt) l1 /\
     0 < off < length' (piece_at (pieces pt) x) /\
     prv (pieces pt) x = Some p /\ nxt (pieces pt) x = Some s /\
     Insert pt i text = Some (true, inserted_middle pt i text p s x off)).
Proof.
  intros [Hl Hlp] Hi. unfold Insert.
  replace ((seqLength pt <? i) || (i <? 0)) with false
    by (symmetry; apply orb_false_iff; split;
        [apply Z.ltb_ge | apply Z.ltb_ge]; lia).
  set (pt0 := with_stacks pt (undoStack pt) []).
  assert (Ec : coalesces pt0 i text = coalesces pt i text) by reflexivity.
  destruct (coalesces pt i text) eqn:Hc.
  - left. split; [reflexivity|].
    pose proof (proj1 (coalesces_spec pt i text) Hc) as (_ & _ & [lp Elp] & _).
    destruct (Hlp lp Elp) as [pcl Hpcl].
    assert (Hlt : (lp < List.length (pieces pt))%nat)
      by (eapply lookup_lt_Some; eauto).
    exists lp. split; [exact Elp|]. split; [exact Hlt|].
    rewrite (tryAppend_true pt0 i text lp Ec Elp Hlt eq_refl). reflexivity.
  - right. rewrite (tryAppend_false pt0 i text Ec).
    change (pieces pt0) with (pieces pt).
    destruct (FindPiece_spec (pieces pt) ps i Hl ltac:(lia))
      as (x & off & l1 & l2 & Hr & El & Hs1 & Hx).
    rewrite Hr.
    destruct (split_at (pieces pt) ps l1 x l2 Hl El)
      as (A & p & EA & Ef & HsA & Hlk & Hs2).
    destruct (linked_lookup _ _ _ Hlk) as (pcp & pcx & Ep & Enp & Epx & Epp).
    assert (Hplt : (p < List.length (pieces pt))%nat)
      by (eapply lookup_lt_Some; eauto).
    assert (Hprv : prv (pieces pt) x = Some p) by apply Hlk.
    destruct (off =? 0) eqn:Eoff.
    + left. split; [reflexivity|]. apply Z.eqb_eq in Eoff.
      exists x, l1, l2, p. split; [exact El|]. split; [exact Hs1|].
      split.
      { destruct Hx as [(-> & _ & ->)|(Hx1 & Hx2 & Hx3)]; [left; auto|].
        right. split; [exact Hx1|]. split; lia. }
      split; [exact Hprv|].
      rewrite (insertAtBoundary_eval pt0 i text x pcx p Epx Epp Hplt).
      reflexivity.
    + right. split; [reflexivity|]. apply Z.eqb_neq in Eoff.
      destruct Hx as [(_ & -> & _)|(Hx1 & Hx2 & Hx3)]; [contradiction|].
      destruct (snoc_split ps l1 l2 tail x El) as [(_ & -> & _)|(l2' & -> & ->)];
        [contradiction|].
      destruct (l2' ++ [tail]) as [|s C] eqn:EC; [destruct l2'; discriminate|].
      apply seg_cons2 in Hs2. destruct Hs2 as [Hlk2 Hs2].
      destruct (linked_lookup _ _ _ Hlk2) as (pcx' & pcs & Epx' & Enx & Eps & _).
      assert (pcx' = pcx) by congruence. subst pcx'.
      assert (Hslt : (s < List.length (pieces pt))%nat)
        by (eapply lookup_lt_Some; eauto).
      exists x, l1, l2', p, s, off.
      split; [reflexivity|]. split; [exact Hx2|].
      split; [lia|]. split; [exact Hprv|]. split; [apply Hlk2|].
      rewrite (insertInMiddle_eval pt0 i text x pcx p s off Epx Epp Enx Hplt Hslt).
      unfold inserted_middle, piece_at. rewrite Epx. reflexivity.
Qed.

End InsertCases.

(** ** Insert on a well-formed table *)

(** A short list of distinct numbers has no duplicates. *)
Ltac nodup_small :=
  repeat (apply NoDup_cons; split);
  try apply NoDup_nil_2;
  let H := fresh in
  intros H;
  repeat (apply elem_of_cons in H; destruct H as [H|H]; [discriminate|]);
  inversion H.

Section InsertWf.
Import Buffer.

Implicit Types (st : store) (pt : PieceTable) (text : list byte).

Lemma is_list_ext st st' ps :
  is_list st ps ->
  (forall a, nxt st' a = nxt st a) -> (forall a, prv st' a = prv st a) ->
  is_list st' ps.
Proof.
  intros [Hs Hnd] Hn Hp. split; [|exact Hnd].
  apply (seg_frame st); auto.
Qed.

(** What an accepted insert leaves: a well-formed table with an empty
    redo stack; either nothing was allocated and the undo stack is the
    same (the insert was merged) or pieces were allocated and one entry
    was pushed. *)
Lemma Insert_wf pt ps i text :
  wf_table pt ps -> 0 <= i <= seqLength pt ->
  exists pt' ps',
    Insert pt i text = Some (true, pt') /\
    wf_table pt' ps' /\
    redoStack pt' = [] /\
    (lastAction pt' = actionInsert /\
     lastActionEndIdx pt' = i + Utf8.RuneCount text /\
     is_Some (lastInsertPiece pt') /\
     seqLength pt' = seqLength pt + Utf8.RuneCount text) /\
    (if coalesces pt i text
     then ps' = ps /\ undoStack pt' = undoStack pt /\
          List.length (pieces pt') = List.length (pieces pt)
     else (List.length ps' = S (List.length ps) \/
           (ps <> [] /\ List.length ps' = S (S (List.length ps)))) /\
          (exists rng, undoStack pt' = rng :: undoStack pt) /\
          (List.length (pieces pt) < List.length (pieces pt'))%nat).
Proof.
  intros Hwf Hi. pose proof Hwf as [Hl Hlp].
  destruct (Insert_cases pt ps i text Hwf Hi)
    as [(Hc & lp & Elp & Hlt & HI)
       |[(Hc & x & l1 & l2 & p & El & _ & _ & Hprv & HI)
        |(Hc & x & l1 & l2 & p & s & off & El & _ & _ & Hprv & Hnxt & HI)]];
    rewrite Hc, HI.
  - exists (coalesced pt i text lp), ps. split; [reflexivity|].
    split; [|split; [reflexivity|split; [cbn; eauto|]]].
    + split.
      * apply (is_list_ext (pieces pt)); [exact Hl| |]; intros a; cbn [coalesced pieces].
        -- apply nxt_grow.
        -- apply prv_grow.
      * intros q [= <-]. cbn [coalesced pieces].
        apply lookup_lt_is_Some_2. rewrite length_alter. exact Hlt.
    + cbn [coalesced pieces undoStack]. rewrite length_alter. auto.
  - destruct (boundary_is_list (pieces pt) ps l1 x l2 p (new_piece pt text) Hl El Hprv)
      as (ps' & Eps' & Hl').
    exists (inserted_boundary pt i text p x), ps'. split; [reflexivity|].
    split; [|split; [reflexivity|split; [cbn; eauto|]]].
    + split; [exact Hl'|].
      intros q [= <-]. cbn [inserted_boundary pieces].
      apply lookup_lt_is_Some_2. rewrite boundary_length. lia.
    + split; [|split].
      * assert (E : List.length (ps' ++ [tail]) = S (List.length (ps ++ [tail]))).
        { rewrite Eps', El, !length_app. simpl. lia. }
        rewrite !length_app in E. simpl in E. left. lia.
      * eexists. reflexivity.
      * cbn [inserted_boundary pieces]. rewrite boundary_length. lia.
  - subst ps.
    pose proof (middle_is_list (pieces pt) l1 x l2 p s (new_piece pt text)
                  (left_piece pt text (piece_at (pieces pt) x) off)
                  (right_piece pt text (piece_at (pieces pt) x) off)
                  Hl Hprv Hnxt) as Hl'.
    eexists (inserted_middle pt i text p s x off), _.
    split; [reflexivity|].
    split; [|split; [reflexivity|split; [cbn; eauto|]]].
    + split; [exact Hl'|].
      intros q [= <-]. cbn [inserted_middle pieces].
      apply lookup_lt_is_Some_2. rewrite middle_length. lia.
    + split; [|split].
      * right. split; [destruct l1; discriminate|].
        rewrite !length_app. simpl. lia.
      * eexists. reflexivity.
      * cbn [inserted_middle pieces]. rewrite middle_length. lia.
Qed.

(** Walking the list from its first piece visits the pieces in order. *)
Lemma walk_spec st (body : list nat) :
  forall fuel,
    seg st (body ++ [tail]) -> tail ∉ body ->
    (List.length (body ++ [tail]) <= fuel)%nat ->
    walk fuel st (List.hd tail (body ++ [tail])) = Some body.
Proof.
  induction body as [|n body IH]; intros fuel Hs Ht Hf.
  - destruct fuel as [|f]; [simpl in Hf; lia|]. reflexivity.
  - destruct fuel as [|f]; [simpl in Hf; lia|].
    assert (Hn : n <> tail) by (intros ->; apply Ht; apply elem_of_cons; auto).
    assert (Ht' : tail ∉ body) by (intros H; apply Ht; apply elem_of_cons; auto).
    simpl app in *. cbn [List.hd walk].
    destruct (Nat.eqb n tail) eqn:En; [apply Nat.eqb_eq in En; contradiction|].
    specialize (IH f).
    destruct (body ++ [tail]) as [|m rest] eqn:Eb; [destruct body; discriminate|].
    apply seg_cons2 in Hs. destruct Hs as [[Hnx _] Hs].
    unfold nxt in Hnx. destruct (st !! n) as [pc|] eqn:Epc; [|discriminate].
    rewrite Hnx. cbn [List.hd] in IH.
    rewrite IH; [reflexivity | exact Hs | exact Ht' | simpl in Hf |- *; lia].
Qed.

Lemma piece_ids_spec pt ps : is_list (pieces pt) ps -> piece_ids pt = Some ps.
Proof.
  intros Hl. unfold piece_ids. rewrite (is_list_Head _ ps Hl).
  destruct (is_list_body _ ps Hl) as [Hs Ht].
  pose proof (is_list_fuel _ ps Hl) as Hf.
  apply walk_spec; [exact Hs | exact Ht | lia].
Qed.

Lemma NewPieceTable_wf text :
  exists pt ps, NewPieceTable text = Some pt /\ wf_table pt ps /\
                undoStack pt = [] /\ redoStack pt = [] /\
                lastAction pt = actionUnknown /\ lastInsertPiece pt = None.
Proof.
  unfold NewPieceTable, init, addToBuffer.
  destruct (len text <=? 0) eqn:E.
  - exists (mkPT newTextBuffer newTextBuffer 0 0 [] [] newPieceList
                 actionUnknown 0 None), [].
    cbn. split; [reflexivity|].
    split; [|auto].
    split; [|intros q Hq; discriminate].
    split.
    + simpl. repeat split.
    + nodup_small.
  - cbn [bufSrc_eqb tb_set with_bufs].
    destruct (Utf8.RuneCount text <=? 0) eqn:E2.
    + eexists _, []. split; [reflexivity|].
      cbn. split; [|auto].
      split; [|intros q Hq; discriminate].
      split.
      * simpl. repeat split.
      * nodup_small.
    + eexists _, [2%nat]. split; [reflexivity|].
      cbn. split; [|auto].
      split; [|intros q Hq; discriminate].
      split.
      * simpl. repeat split.
      * nodup_small.
Qed.

End InsertWf.

(** ** Insert: range check and coalescing *)

Section InsertClaims.
Import Buffer.

Lemma hello_table_wf : wf_table hello_table [2%nat].
Proof.
  split; [split|].
  - simpl. repeat split.
  - nodup_small.
  - intros p Hp. discriminate Hp.
Qed.

Lemma empty_table_wf : wf_table empty_table [].
Proof.
  split; [split|].
  - simpl. repeat split.
  - nodup_small.
  - intros p Hp. discriminate Hp.
Qed.

(** C5: with [runeIndex] outside [[0, seqLength]], [Insert] returns
    false and leaves the table as it was: text, piece list, lengths and
    both stacks; with [runeIndex] inside, on a well-formed table,
    [Insert] returns true and the redo stack is empty afterwards. *)
Theorem C5_Insert_range (pt : PieceTable) (i : Z) (text : list byte) :
  (seqLength pt < i \/ i < 0 -> Insert pt i text = Some (false, pt)) /\
  (forall ps, wf_table pt ps -> 0 <= i <= seqLength pt ->
     exists pt' ps',
       Insert pt i text = Some (true, pt') /\ redoStack pt' = [] /\
       wf_table pt' ps').
Proof.
  split.
  - intros H. unfold Insert.
    replace ((seqLength pt <? i) || (i <? 0)) with true; [reflexivity|].
    symmetry. apply orb_true_iff.
    destruct H; [left; apply Z.ltb_lt | right; apply Z.ltb_lt]; lia.
  - intros ps Hwf Hi.
    destruct (Insert_wf pt ps i text Hwf Hi) as (pt' & ps' & HI & Hwf' & Hr & _).
    eauto.
Qed.

(** The theorem on the table holding "hello": index 9 is refused, index
    2 is accepted. *)
Lemma C5_Insert_range_witness :
  Insert hello_table 9 (B "XY") = Some (false, hello_table) /\
  exists pt' ps',
    Insert hello_table 2 (B "XY") = Some (true, pt') /\ redoStack pt' = [] /\
    wf_table pt' ps'.
Proof.
  split.
  - apply (proj1 (C5_Insert_range hello_table 9 (B "XY"))). left.
    vm_compute. reflexivity.
  - apply (proj2 (C5_Insert_range hello_table 2 (B "XY")) [2%nat]).
    + exact hello_table_wf.
    + split; vm_compute; discriminate.
Defined.

(** Typing texts of at most one rune each, from where the last insert
    ended, allocates nothing and pushes nothing. *)
Lemma type_texts_coalesce (texts : list (list byte)) :
  forall pt ps i,
    wf_table pt ps -> 0 <= i <= seqLength pt ->
    lastAction pt = actionInsert -> lastActionEndIdx pt = i ->
    is_Some (lastInsertPiece pt) ->
    Forall (fun t => Utf8.RuneCount t <= 1) texts ->
    exists pt',
      type_texts pt i texts = Some pt' /\ wf_table pt' ps /\
      undoStack pt' = undoStack pt /\
      List.length (pieces pt') = List.length (pieces pt).
Proof.
  induction texts as [|t ts IH]; intros pt ps i Hwf Hi Ha He Hp Ht.
  - exists pt. auto.
  - inversion Ht as [|? ? Ht1 Ht2]; subst.
    assert (Hc : coalesces pt (lastActionEndIdx pt) t = true)
      by (apply coalesces_spec; auto).
    destruct (Insert_wf pt ps _ t Hwf Hi)
      as (pt1 & ps1 & HI & Hwf1 & _ & (Ha1 & He1 & Hp1 & Hs1) & Hk).
    rewrite Hc in Hk. destruct Hk as (-> & Hu & Hn).
    pose proof (RuneCount_nonneg t) as Hnn.
    destruct (IH pt1 ps (lastActionEndIdx pt + Utf8.RuneCount t) Hwf1
                 ltac:(lia) Ha1 He1 Hp1 Ht2) as (pt' & HT & Hwf' & Hu' & Hn').
    exists pt'. cbn [type_texts]. rewrite HI. cbn.
    split; [exact HT|]. split; [exact Hwf'|]. split; congruence.
Qed.

(** Typing "a", "b", "c" into an empty document, then a two-rune insert
    or an insert elsewhere. *)
Lemma typing_abc :
  exists abc pt2 pt3,
    type_texts empty_table 0 [B "a"; B "b"; B "c"] = Some abc /\
    document abc = Some (B "abc") /\
    piece_spans abc = Some [(modify, 0, 3, 0, 3)] /\
    List.length (undoStack abc) = 1%nat /\
    Insert abc 3 (B "de") = Some (true, pt2) /\
    List.length (undoStack pt2) = 2%nat /\
    Insert abc 1 (B "x") = Some (true, pt3) /\
    List.length (undoStack pt3) = 2%nat.
Proof.
  eexists _, _, _.
  split. { vm_compute. reflexivity. }
  split. { vm_compute. reflexivity. }
  split. { vm_compute. reflexivity. }
  split. { vm_compute. reflexivity. }
  split. { vm_compute. reflexivity. }
  split. { vm_compute. reflexivity. }
  split. { vm_compute. reflexivity. }
  vm_compute. reflexivity.
Qed.

(** C4, as the code has it: an insert in range is merged into the last
    inserted piece, allocating no piece and pushing no undo entry,
    exactly when the last action was an insert, the index is the end of
    that action, the text has at most one rune and the last inserted
    piece is not nil; any other insert in range allocates a piece and
    pushes one undo entry.  So texts of one rune typed at advancing
    positions into an empty document leave one piece and one undo entry;
    on "abc" typed this way a two-rune insert or an insert elsewhere
    starts a new undo entry. *)
Theorem C4_coalescing (pt : PieceTable) (ps : list nat) (i : Z) (text : list byte) :
  wf_table pt ps -> 0 <= i <= seqLength pt ->
  let cond := lastAction pt = actionInsert /\ i = lastActionEndIdx pt /\
              Utf8.RuneCount text <= 1 /\ lastInsertPiece pt <> None in
  (exists pt' ps',
     Insert pt i text = Some (true, pt') /\ wf_table pt' ps' /\
     ((List.length (pieces pt') = List.length (pieces pt) /\
       undoStack pt' = undoStack pt) <-> cond) /\
     (cond -> ps' = ps) /\
     (~ cond ->
      (List.length (pieces pt) < List.length (pieces pt'))%nat /\
      exists rng, undoStack pt' = rng :: undoStack pt)) /\
  (forall t ts,
     Forall (fun t => Utf8.RuneCount t <= 1) (t :: ts) ->
     exists pt' p,
       type_texts empty_table 0 (t :: ts) = Some pt' /\
       piece_ids pt' = Some [p] /\ List.length (undoStack pt') = 1%nat) /\
  (exists abc pt2 pt3,
     type_texts empty_table 0 [B "a"; B "b"; B "c"] = Some abc /\
     document abc = Some (B "abc") /\
     piece_spans abc = Some [(modify, 0, 3, 0, 3)] /\
     List.length (undoStack abc) = 1%nat /\
     Insert abc 3 (B "de") = Some (true, pt2) /\
     List.length (undoStack pt2) = 2%nat /\
     Insert abc 1 (B "x") = Some (true, pt3) /\
     List.length (undoStack pt3) = 2%nat).
Proof.
  intros Hwf Hi cond. split; [|split].
  - destruct (Insert_wf pt ps i text Hwf Hi)
      as (pt' & ps' & HI & Hwf' & _ & _ & Hk).
    exists pt', ps'. split; [exact HI|]. split; [exact Hwf'|].
    assert (Hcc : coalesces pt i text = true <-> cond).
    { rewrite coalesces_spec. unfold cond.
      rewrite <- not_eq_None_Some. tauto. }
    destruct (coalesces pt i text).
    + destruct Hk as (-> & Hu & Hn).
      assert (cond) by (apply Hcc; reflexivity).
      split; [tauto|]. split; [reflexivity|]. tauto.
    + destruct Hk as (Hl & [rng Hr] & Hn).
      assert (~ cond) by (intros H; apply Hcc in H; discriminate).
      split; [|split; [tauto|]].
      * split; [intros [H1 _]; lia | tauto].
      * intros _. split; [exact Hn | eauto].
  - intros t ts Ht. inversion Ht as [|? ? Ht1 Ht2]; subst.
    assert (H0 : 0 <= 0 <= seqLength empty_table) by (split; vm_compute; discriminate).
    destruct (Insert_wf empty_table [] 0 t empty_table_wf H0)
      as (pt1 & ps1 & HI & Hwf1 & _ & (Ha1 & He1 & Hp1 & Hs1) & Hk).
    change (coalesces empty_table 0 t) with false in Hk.
    destruct Hk as (Hl & [rng Hr] & Hn).
    pose proof (RuneCount_nonneg t) as Hnn.
    destruct (type_texts_coalesce ts pt1 ps1 (0 + Utf8.RuneCount t) Hwf1
                ltac:(change (seqLength empty_table) with 0 in Hs1; lia)
                Ha1 He1 Hp1 Ht2)
      as (pt' & HT & Hwf' & Hu' & Hn').
    cbn [type_texts]. rewrite HI.
    destruct ps1 as [|p [|q ps1]];
      [destruct Hl as [Hl|[Hl _]]; try discriminate; congruence
      | | destruct Hl as [Hl|[Hl _]]; try discriminate; congruence].
    exists pt', p. split; [exact HT|].
    split; [apply piece_ids_spec; apply Hwf'|].
    rewrite Hu', Hr. reflexivity.
  - exact typing_abc.
Qed.

(** The theorem on the table holding "hello", with "X" inserted at
    index 2: nothing was inserted before, so a piece is allocated and an
    undo entry is pushed. *)
Lemma C4_coalescing_witness :
  wf_table hello_table [2%nat] /\ 0 <= 2 <= seqLength hello_table /\
  exists pt' ps',
    Insert hello_table 2 (B "X") = Some (true, pt') /\ wf_table pt' ps' /\
    (List.length (pieces hello_table) < List.length (pieces pt'))%nat /\
    exists rng, undoStack pt' = rng :: undoStack hello_table.
Proof.
  assert (Hr : 0 <= 2 <= seqLength hello_table)
    by (split; vm_compute; discriminate).
  split; [exact hello_table_wf|]. split; [exact Hr|].
  destruct (C4_coalescing hello_table [2%nat] 2 (B "X") hello_table_wf Hr)
    as [(pt' & ps' & HI & Hwf & _ & _ & Hn) _].
  exists pt', ps'. split; [exact HI|]. split; [exact Hwf|].
  apply Hn. intros (Ha & _). vm_compute in Ha. discriminate Ha.
Defined.

(** C4, as the specification words it, fails: with "exactly one rune"
    for the third condition, the empty text inserted where the last
    insert ended is a counterexample, since it is merged too. *)
Lemma C4_single_rune_counterexample :
  ~ (forall pt ps i text pt',
       wf_table pt ps -> 0 <= i <= seqLength pt ->
       Insert pt i text = Some (true, pt') ->
       ((List.length (pieces pt') = List.length (pieces pt) /\
         undoStack pt' = undoStack pt) <->
        (lastAction pt = actionInsert /\ i = lastActionEndIdx pt /\
         Utf8.RuneCount text = 1 /\ lastInsertPiece pt <> None))).
Proof.
  intros H.
  assert (H0 : 0 <= 0 <= seqLength empty_table)
    by (split; vm_compute; discriminate).
  destruct (Insert_wf empty_table [] 0 (B "a") empty_table_wf H0)
    as (pt1 & ps1 & HI & Hwf1 & _).
  assert (E : Some (true, pt1) = Insert empty_table 0 (B "a"))
    by (symmetry; exact HI).
  vm_compute in E. injection E as ->.
  match type of Hwf1 with wf_table ?t _ => set (pt1 := t) in * end.
  assert (H1 : 0 <= 1 <= seqLength pt1) by (split; vm_compute; discriminate).
  assert (HI2 : exists pt2, Insert pt1 1 [] = Some (true, pt2) /\
                  List.length (pieces pt2) = List.length (pieces pt1) /\
                  undoStack pt2 = undoStack pt1).
  { eexists. split. { vm_compute. reflexivity. }
    split; vm_compute; reflexivity. }
  destruct HI2 as (pt2 & HI2 & Hl & Hu).
  destruct (proj1 (H pt1 ps1 1 [] pt2 Hwf1 H1 HI2) (conj Hl Hu))
    as (_ & _ & Hc & _).
  vm_compute in Hc. discriminate Hc.
Qed.

End InsertClaims.

(** ** Pieces and the runes they cover *)

Section Chunks.
Import Buffer.
Implicit Types (pt : PieceTable) (pc : piece) (cs : list (list byte))
         (tb text : list byte).

Lemma len_app (a b : list byte) : len (a ++ b) = len a + len b.
Proof. unfold len. rewrite length_app. lia. Qed.

Lemma len_nonneg (a : list byte) : 0 <= len a.
Proof. unfold len. lia. Qed.

Lemma len_concat_app cs1 cs2 :
  len (concat (cs1 ++ cs2)) = len (concat cs1) + len (concat cs2).
Proof. rewrite List.concat_app. apply len_app. Qed.

Lemma len_concat_take_le cs (n : nat) : len (concat (take n cs)) <= len (concat cs).
Proof.
  rewrite <- (take_drop n cs) at 2. rewrite len_concat_app.
  pose proof (len_nonneg (concat (drop n cs))). lia.
Qed.

(** The bytes of the runes from [a] on, [k] of them, cut out of the
    bytes of all. *)
Lemma slice_concat cs (a k : nat) :
  take (List.length (concat (take k (drop a cs))))
       (drop (List.length (concat (take a cs))) (concat cs))
  = concat (take k (drop a cs)).
Proof.
  rewrite <- (take_drop a cs) at 3. rewrite List.concat_app, drop_app_length.
  rewrite <- (take_drop k (drop a cs)) at 2.
  rewrite List.concat_app, take_app_length. reflexivity.
Qed.

Lemma RuneOffset_runes tb (r : Z) :
  tb_RuneOffset tb r = len (concat (take (Z.to_nat r) (Utf8.runes tb))).
Proof. reflexivity. Qed.

Lemma RuneOffset_nonneg tb r : 0 <= tb_RuneOffset tb r.
Proof. apply len_nonneg. Qed.

Lemma RuneOffset_le tb r : tb_RuneOffset tb r <= len tb.
Proof.
  rewrite RuneOffset_runes. rewrite <- (runes_concat tb) at 2.
  apply len_concat_take_le.
Qed.

Lemma RuneOffset_all tb r : Utf8.RuneCount tb <= r -> tb_RuneOffset tb r = len tb.
Proof.
  intros H. rewrite RuneOffset_runes, take_ge, runes_concat; [reflexivity|].
  unfold Utf8.RuneCount in H. lia.
Qed.

Lemma RuneOffset_add tb (a k : Z) :
  0 <= a -> 0 <= k ->
  tb_RuneOffset tb (a + k) =
  tb_RuneOffset tb a +
  len (concat (take (Z.to_nat k) (drop (Z.to_nat a) (Utf8.runes tb)))).
Proof.
  intros Ha Hk. rewrite !RuneOffset_runes, Z2Nat.inj_add by lia.
  rewrite <- take_take_drop. apply len_concat_app.
Qed.

Lemma bytesForRange_runes tb (a k : Z) :
  0 <= a -> 0 <= k ->
  tb_bytesForRange tb a k =
  len (concat (take (Z.to_nat k) (drop (Z.to_nat a) (Utf8.runes tb)))).
Proof.
  intros Ha Hk. unfold tb_bytesForRange. rewrite RuneOffset_add by lia. lia.
Qed.

(** Appending to a buffer of valid UTF-8 moves no rune of it. *)
Lemma RuneOffset_app tb text (r : Z) :
  Utf8.Valid tb = true -> r <= Utf8.RuneCount tb ->
  tb_RuneOffset (tb ++ text) r = tb_RuneOffset tb r.
Proof.
  intros Hv Hr. rewrite !RuneOffset_runes, runes_app by exact Hv.
  rewrite take_app_le; [reflexivity|]. unfold Utf8.RuneCount in Hr. lia.
Qed.

Lemma slice_app (R T : list (list byte)) (a k : nat) :
  (a + k <= List.length R)%nat ->
  take k (drop a (R ++ T)) = take k (drop a R).
Proof.
  intros H. rewrite drop_app_le by lia. apply take_app_le.
  rewrite length_drop. lia.
Qed.

(** *** One piece *)

Lemma piece_ok_length pc pt :
  piece_ok pt pc -> Z.of_nat (List.length (chunks_of pt pc)) = length' pc.
Proof.
  intros (Ho & Hl & Hr & _). unfold chunks_of, Utf8.RuneCount in *.
  rewrite length_take, length_drop. lia.
Qed.

Lemma piece_ok_bytes pc pt :
  piece_ok pt pc -> byteLength pc = len (piece_bytes pt pc).
Proof.
  intros (Ho & Hl & Hr & _ & Hb). rewrite Hb.
  apply bytesForRange_runes; assumption.
Qed.

Lemma piece_ok_byteLength_nonneg pc pt : piece_ok pt pc -> 0 <= byteLength pc.
Proof. intros H. rewrite (piece_ok_bytes _ _ H). apply len_nonneg. Qed.

(** The bytes [ReadAt] takes out of the buffer for a whole piece. *)
Lemma piece_ok_text pc pt :
  piece_ok pt pc ->
  tb_getTextByRange (getBuf pt (source pc)) (byteOff pc) (byteLength pc)
  = Some (piece_bytes pt pc).
Proof.
  intros Hok. pose proof (piece_ok_bytes _ _ Hok) as Hbl.
  destruct Hok as (Ho & Hl & Hr & Hbo & Hb).
  set (tb := getBuf pt (source pc)) in *.
  assert (Hsum : byteOff pc + byteLength pc = tb_RuneOffset tb (offset pc + length' pc)).
  { rewrite Hbo, Hb. unfold tb_bytesForRange. lia. }
  pose proof (RuneOffset_le tb (offset pc + length' pc)) as Hle.
  pose proof (RuneOffset_nonneg tb (offset pc)) as Hnn.
  pose proof (len_nonneg (piece_bytes pt pc)) as Hnn'.
  unfold tb_getTextByRange.
  replace ((0 <=? byteOff pc) && (0 <=? byteLength pc)
           && (byteOff pc + byteLength pc <=? len tb)) with true.
  2:{ symmetry. rewrite !andb_true_iff, !Z.leb_le. lia. }
  f_equal. rewrite Hbl, Hbo, RuneOffset_runes. unfold len.
  rewrite !Nat2Z.id. unfold piece_bytes, chunks_of. fold tb.
  rewrite <- (runes_concat tb) at 3. apply slice_concat.
Qed.

Lemma chunks_good pc pt :
  Utf8.Valid (getBuf pt (source pc)) = true -> Forall Utf8.good (chunks_of pt pc).
Proof.
  intros H. unfold chunks_of. apply Forall_take, Forall_drop, runes_good, H.
Qed.

(** Only the span of a piece matters, not its links. *)
Lemma chunks_of_span pt pc pc' :
  span_of pc = span_of pc' -> chunks_of pt pc = chunks_of pt pc'.
Proof.
  unfold span_of, chunks_of. intros H. injection H as -> -> -> _ _. reflexivity.
Qed.

Lemma piece_ok_span pt pc pc' :
  span_of pc = span_of pc' -> piece_ok pt pc -> piece_ok pt pc'.
Proof.
  unfold span_of, piece_ok. intros H. injection H as -> -> -> -> ->. tauto.
Qed.

Lemma text_pos_nonempty pt text :
  text <> [] ->
  text_pos pt text = (Utf8.RuneCount (modifyBuf pt), len (modifyBuf pt)).
Proof. destruct text; [congruence | reflexivity]. Qed.

(** *** After text has been appended to the modify buffer *)

Section Appended.
Variables (pt pt' : PieceTable) (text : list byte).
Hypothesis Horig : originalBuf pt' = originalBuf pt.
Hypothesis Hmod : modifyBuf pt' = modifyBuf pt ++ text.
Hypothesis Hvo : Utf8.Valid (originalBuf pt) = true.
Hypothesis Hvm : Utf8.Valid (modifyBuf pt) = true.

Lemma getBuf_appended (s : bufSrc) :
  getBuf pt' s = match s with
                 | original => originalBuf pt
                 | modify => modifyBuf pt ++ text
                 end.
Proof. destruct s; unfold getBuf; cbn; congruence. Qed.

Lemma getBuf_valid (s : bufSrc) : Utf8.Valid (getBuf pt s) = true.
Proof. destruct s; unfold getBuf; cbn; assumption. Qed.

Lemma RuneOffset_appended (s : bufSrc) (r : Z) :
  r <= Utf8.RuneCount (getBuf pt s) ->
  tb_RuneOffset (getBuf pt' s) r = tb_RuneOffset (getBuf pt s) r.
Proof.
  intros Hr. rewrite getBuf_appended. destruct s; [reflexivity|].
  apply RuneOffset_app; assumption.
Qed.

Lemma RuneCount_appended (s : bufSrc) :
  Utf8.RuneCount (getBuf pt s) <= Utf8.RuneCount (getBuf pt' s).
Proof.
  rewrite getBuf_appended. destruct s; [reflexivity|].
  change (getBuf pt modify) with (modifyBuf pt).
  rewrite RuneCount_app by assumption.
  pose proof (RuneCount_nonneg text). lia.
Qed.

(** A piece of the table before is one of the table after, with the
    same runes. *)
Lemma piece_ok_appended pc :
  piece_ok pt pc ->
  piece_ok pt' pc /\ chunks_of pt' pc = chunks_of pt pc.
Proof.
  intros (Ho & Hl & Hr & Hbo & Hb).
  pose proof (RuneCount_appended (source pc)) as Hc.
  split.
  - repeat split; try assumption; try lia.
    + rewrite RuneOffset_appended by lia. exact Hbo.
    + unfold tb_bytesForRange in *. rewrite !RuneOffset_appended by lia. exact Hb.
  - unfold chunks_of. rewrite getBuf_appended.
    destruct (source pc) eqn:Hs; [reflexivity|].
    change (getBuf pt modify) with (modifyBuf pt) in *.
    rewrite runes_app by assumption. apply slice_app.
    unfold Utf8.RuneCount in Hr. lia.
Qed.

(** The new piece of an insert covers the text. *)
Lemma new_piece_appended pc :
  text <> [] -> span_of pc = span_of (new_piece pt text) ->
  piece_ok pt' pc /\ chunks_of pt' pc = Utf8.runes text.
Proof.
  intros Hne Hs.
  assert (H : piece_ok pt' (new_piece pt text) /\
              chunks_of pt' (new_piece pt text) = Utf8.runes text).
  2:{ destruct H as [H1 H2]. split.
      - apply (piece_ok_span _ (new_piece pt text)); [symmetry|]; assumption.
      - rewrite (chunks_of_span _ _ _ Hs). exact H2. }
  unfold new_piece. rewrite (text_pos_nonempty _ _ Hne).
  pose proof (RuneCount_nonneg (modifyBuf pt)) as Hn1.
  pose proof (RuneCount_nonneg text) as Hn2.
  assert (Hb : getBuf pt' modify = modifyBuf pt ++ text)
    by (rewrite getBuf_appended; reflexivity).
  split.
  - unfold piece_ok. cbn [source offset length' byteOff byteLength fst snd].
    rewrite Hb. rewrite RuneCount_app by assumption.
    assert (E1 : tb_RuneOffset (modifyBuf pt ++ text) (Utf8.RuneCount (modifyBuf pt))
                 = len (modifyBuf pt)).
    { rewrite RuneOffset_app by (assumption || lia).
      apply RuneOffset_all. lia. }
    repeat split; try lia.
    unfold tb_bytesForRange. rewrite E1.
    rewrite RuneOffset_all by (rewrite RuneCount_app by assumption; lia).
    rewrite len_app. lia.
  - unfold chunks_of. cbn [source offset length' fst snd]. rewrite Hb.
    rewrite runes_app by assumption. unfold Utf8.RuneCount.
    rewrite !Nat2Z.id, drop_app_length. apply take_ge. lia.
Qed.

(** The piece grown by a merged insert covers the text after what it
    covered, when it ended where the modify buffer ended. *)
Lemma grow_appended pc :
  piece_ok pt pc -> source pc = modify ->
  offset pc + length' pc = Utf8.RuneCount (modifyBuf pt) ->
  piece_ok pt' (grow (Utf8.RuneCount text) (len text) pc) /\
  chunks_of pt' (grow (Utf8.RuneCount text) (len text) pc)
  = chunks_of pt pc ++ Utf8.runes text.
Proof.
  intros Hok Hs He. pose proof (piece_ok_appended pc Hok) as [Hok' _].
  destruct Hok as (Ho & Hl & Hr & Hbo & Hb).
  destruct Hok' as (_ & _ & _ & Hbo' & Hb').
  pose proof (RuneCount_nonneg text) as Hn2.
  assert (Hbuf : getBuf pt' modify = modifyBuf pt ++ text)
    by (rewrite getBuf_appended; reflexivity).
  split.
  - unfold piece_ok. cbn [grow source offset length' byteOff byteLength].
    rewrite Hs in *. rewrite Hbuf in *.
    change (getBuf pt modify) with (modifyBuf pt) in *.
    rewrite RuneCount_app by assumption.
    repeat split; try lia; try assumption.
    rewrite Hb'. unfold tb_bytesForRange.
    rewrite (RuneOffset_all _ (offset pc + (length' pc + Utf8.RuneCount text)))
      by (rewrite RuneCount_app by assumption; lia).
    rewrite (RuneOffset_app _ _ (offset pc + length' pc)) by (assumption || lia).
    rewrite (RuneOffset_all _ (offset pc + length' pc)) by lia.
    rewrite len_app. lia.
  - unfold chunks_of. cbn [grow source offset length'].
    rewrite Hs, Hbuf. change (getBuf pt modify) with (modifyBuf pt).
    rewrite runes_app by assumption. unfold Utf8.RuneCount in *.
    rewrite drop_app_le by lia.
    rewrite (take_ge (drop _ _ ++ _)) by (rewrite length_app, length_drop; lia).
    rewrite (take_ge (drop _ _)) by (rewrite length_drop; lia).
    reflexivity.
Qed.

(** The two parts of a split piece cover what the piece covered, in
    order. *)
Lemma split_appended pc pcl pcr (off : Z) :
  piece_ok pt pc -> 0 < off < length' pc ->
  span_of pcl = span_of (left_piece pt text pc off) ->
  span_of pcr = span_of (right_piece pt text pc off) ->
  piece_ok pt' pcl /\ piece_ok pt' pcr /\
  chunks_of pt' pcl ++ chunks_of pt' pcr = chunks_of pt pc /\
  length' pcl = off /\ length' pcr = length' pc - off /\
  byteLength pcl + byteLength pcr = byteLength pc.
Proof.
  intros Hok Hoff Hsl Hsr.
  pose proof (piece_ok_appended pc Hok) as [Hok' Hch].
  destruct Hok as (Ho & Hl & Hr & Hbo & Hb).
  destruct Hok' as (_ & _ & Hr' & Hbo' & Hb').
  assert (Hg : getBuf (buffered pt text) (source pc) = getBuf pt' (source pc)).
  { rewrite getBuf_appended. destruct (source pc); reflexivity. }
  assert (Hl_ok : piece_ok pt' (left_piece pt text pc off)).
  { unfold piece_ok, left_piece.
    cbn [source offset length' byteOff byteLength]. rewrite Hg.
    repeat split; try lia; try assumption. }
  assert (Hr_ok : piece_ok pt' (right_piece pt text pc off)).
  { unfold piece_ok, right_piece.
    cbn [source offset length' byteOff byteLength]. rewrite Hg.
    repeat split; try lia. }
  split; [apply (piece_ok_span _ _ _ (eq_sym Hsl) Hl_ok)|].
  split; [apply (piece_ok_span _ _ _ (eq_sym Hsr) Hr_ok)|].
  rewrite (chunks_of_span _ _ _ Hsl), (chunks_of_span _ _ _ Hsr).
  unfold span_of in Hsl, Hsr.
  injection Hsl as _ _ Hll _ Hlb. injection Hsr as _ _ Hrl _ Hrb.
  cbn [left_piece right_piece source offset length' byteOff byteLength] in *.
  split; [|split; [exact Hll|split; [exact Hrl|]]].
  - rewrite <- Hch. unfold chunks_of, left_piece, right_piece.
    cbn [source offset length'].
    replace (Z.to_nat (offset pc + off))
      with (Z.to_nat (offset pc) + Z.to_nat off)%nat by lia.
    rewrite <- drop_drop.
    replace (Z.to_nat (length' pc))
      with (Z.to_nat off + Z.to_nat (length' pc - off))%nat by lia.
    rewrite <- take_take_drop. reflexivity.
  - rewrite Hlb, Hrb, Hg, Hb'. unfold tb_bytesForRange.
    replace (offset pc + off + (length' pc - off)) with (offset pc + length' pc) by lia.
    lia.
Qed.

End Appended.

End Chunks.

(** ** Reading the document *)

Section Document.
Import Buffer.
Implicit Types (st : store) (pt : PieceTable) (l body : list nat).

Lemma doc_chunks_app pt l1 l2 :
  doc_chunks pt (l1 ++ l2) = doc_chunks pt l1 ++ doc_chunks pt l2.
Proof. unfold doc_chunks. rewrite map_app. apply List.concat_app. Qed.

Lemma doc_chunks_cons pt x l :
  doc_chunks pt (x :: l) = chunks_of pt (piece_at (pieces pt) x) ++ doc_chunks pt l.
Proof. reflexivity. Qed.

Lemma sum_runes_cons st a l :
  sum_runes st (a :: l) = length' (piece_at st a) + sum_runes st l.
Proof. reflexivity. Qed.

Lemma sum_bytes_cons st a l :
  sum_bytes st (a :: l) = byteLength (piece_at st a) + sum_bytes st l.
Proof. reflexivity. Qed.

Lemma sum_runes_app st l1 l2 :
  sum_runes st (l1 ++ l2) = sum_runes st l1 + sum_runes st l2.
Proof.
  induction l1 as [|a l1 IH]; [reflexivity|].
  rewrite <- app_comm_cons, !sum_runes_cons, IH. lia.
Qed.

Lemma sum_bytes_app st l1 l2 :
  sum_bytes st (l1 ++ l2) = sum_bytes st l1 + sum_bytes st l2.
Proof.
  induction l1 as [|a l1 IH]; [reflexivity|].
  rewrite <- app_comm_cons, !sum_bytes_cons, IH. lia.
Qed.

Lemma spn_length st a : length' (piece_at st a) = snd (fst (fst (spn st a))).
Proof. reflexivity. Qed.

Lemma spn_byteLength st a : byteLength (piece_at st a) = snd (spn st a).
Proof. reflexivity. Qed.

(** The sums depend on the spans only. *)
Lemma sum_runes_ext st st' l :
  (forall a, a ∈ l -> spn st' a = spn st a) -> sum_runes st' l = sum_runes st l.
Proof.
  induction l as [|a l IH]; intros H; [reflexivity|].
  rewrite !sum_runes_cons, !spn_length, H by left. rewrite IH; [reflexivity|].
  intros b Hb. apply H. right. exact Hb.
Qed.

Lemma sum_bytes_ext st st' l :
  (forall a, a ∈ l -> spn st' a = spn st a) -> sum_bytes st' l = sum_bytes st l.
Proof.
  induction l as [|a l IH]; intros H; [reflexivity|].
  rewrite !sum_bytes_cons, !spn_byteLength, H by left. rewrite IH; [reflexivity|].
  intros b Hb. apply H. right. exact Hb.
Qed.

Lemma doc_chunks_count pt l :
  Forall (fun p => piece_ok pt (piece_at (pieces pt) p)) l ->
  Z.of_nat (List.length (doc_chunks pt l)) = sum_runes (pieces pt) l.
Proof.
  induction 1 as [|a l Ha _ IH]; [reflexivity|].
  rewrite doc_chunks_cons, length_app, Nat2Z.inj_add, IH, sum_runes_cons.
  rewrite (piece_ok_length _ _ Ha). reflexivity.
Qed.

Lemma doc_chunks_bytes pt l :
  Forall (fun p => piece_ok pt (piece_at (pieces pt) p)) l ->
  len (concat (doc_chunks pt l)) = sum_bytes (pieces pt) l.
Proof.
  induction 1 as [|a l Ha _ IH]; [reflexivity|].
  rewrite doc_chunks_cons, len_concat_app, IH, sum_bytes_cons.
  rewrite (piece_ok_bytes _ _ Ha). reflexivity.
Qed.

Lemma sum_bytes_nonneg pt l :
  Forall (fun p => piece_ok pt (piece_at (pieces pt) p)) l ->
  0 <= sum_bytes (pieces pt) l.
Proof. intros H. rewrite <- (doc_chunks_bytes _ _ H). apply len_nonneg. Qed.

Lemma sum_runes_nonneg pt l :
  Forall (fun p => piece_ok pt (piece_at (pieces pt) p)) l ->
  0 <= sum_runes (pieces pt) l.
Proof. intros H. rewrite <- (doc_chunks_count _ _ H). lia. Qed.

Lemma doc_chunks_good pt l :
  Utf8.Valid (originalBuf pt) = true -> Utf8.Valid (modifyBuf pt) = true ->
  Forall Utf8.good (doc_chunks pt l).
Proof.
  intros Ho Hm. induction l as [|a l IH]; [constructor|].
  rewrite doc_chunks_cons. apply Forall_app. split; [|exact IH].
  apply chunks_good, getBuf_valid; assumption.
Qed.

Lemma len_zero_nil (p : list byte) : len p = 0 -> p = [].
Proof. destruct p; [reflexivity|]. unfold len. cbn. lia. Qed.

Lemma piece_at_lookup st a pc : st !! a = Some pc -> piece_at st a = pc.
Proof. unfold piece_at. intros ->. reflexivity. Qed.

(** The loop of [ReadAt] started at the beginning of the pieces [body]
    with room for all their bytes: it writes them all. *)
Lemma ReadAt_loop_whole pt body :
  forall fuel (out p : list byte) (t : Z),
    seg (pieces pt) (body ++ [tail]) -> tail ∉ body ->
    Forall (fun a => piece_ok pt (piece_at (pieces pt) a)) body ->
    (List.length (body ++ [tail]) <= fuel)%nat ->
    len p = sum_bytes (pieces pt) body ->
    ReadAt_loop fuel pt (List.hd tail (body ++ [tail])) out p t (t + len p) t t
    = Some (out ++ concat (doc_chunks pt body), [], t + len p).
Proof.
  induction body as [|x body IH]; intros fuel out p t Hseg Ht Hok Hf Hp.
  - destruct fuel as [|f]; [cbn in Hf; lia|]. cbn.
    apply len_zero_nil in Hp. subst p. rewrite app_nil_r.
    repeat f_equal. unfold len. cbn. lia.
  - destruct fuel as [|f]; [cbn in Hf; lia|].
    assert (Hx : x <> tail) by (intros ->; apply Ht; left).
    assert (Ht' : tail ∉ body) by (intros H; apply Ht; right; exact H).
    inversion Hok as [|? ? Hokx Hok']; subst.
    change ((x :: body) ++ [tail]) with (x :: body ++ [tail]) in *.
    destruct (cons_snoc x body) as (A & q & HA).
    assert (Hlink : linked (pieces pt) x (List.hd tail (body ++ [tail])) /\
                    seg (pieces pt) (body ++ [tail])).
    { destruct body; cbn in Hseg |- *; tauto. }
    destruct Hlink as [Hlink Hseg'].
    destruct (linked_lookup _ _ _ Hlink) as (pc & _ & Hpc & Hnx & _).
    pose proof (piece_at_lookup _ _ _ Hpc) as Hat.
    rewrite Hat in Hokx.
    pose proof (piece_ok_bytes _ _ Hokx) as Hbl.
    pose proof (len_nonneg (piece_bytes pt pc)) as Hnn.
    pose proof (sum_bytes_nonneg _ _ Hok') as Hnn'.
    rewrite sum_bytes_cons, Hat in Hp.
    cbn [ReadAt_loop List.hd]. rewrite (proj2 (Nat.eqb_neq x tail) Hx), Hpc.
    rewrite doc_chunks_cons, Hat, List.concat_app.
    fold (piece_bytes pt pc).
    destruct (t <? t + byteLength pc) eqn:Hlt.
    + replace (byteOff pc + byteLength pc - (t + byteLength pc - t))
        with (byteOff pc) by lia.
      replace (t + byteLength pc - t) with (byteLength pc) by lia.
      rewrite (piece_ok_text _ _ Hokx). unfold copy.
      assert (Hmin : Nat.min (List.length p) (List.length (piece_bytes pt pc))
                     = List.length (piece_bytes pt pc))
        by (unfold len in *; lia).
      rewrite Hmin, take_ge by lia.
      assert (Hrest : len (drop (List.length (piece_bytes pt pc)) p)
                      = sum_bytes (pieces pt) body)
        by (unfold len in *; rewrite length_drop; lia).
      destruct (t + len p <=? t + len (piece_bytes pt pc)) eqn:Hdone.
      * apply Z.leb_le in Hdone.
        assert (H0 : sum_bytes (pieces pt) body = 0) by lia.
        rewrite H0 in Hrest. apply len_zero_nil in Hrest. rewrite Hrest.
        assert (Hnil : concat (doc_chunks pt body) = []).
        { apply len_zero_nil. rewrite doc_chunks_bytes by assumption. exact H0. }
        rewrite Hnil, app_nil_r.
        replace (t + len p) with (t + len (piece_bytes pt pc)) by lia.
        reflexivity.
      * rewrite Hnx.
        specialize (IH f (out ++ piece_bytes pt pc)
                      (drop (List.length (piece_bytes pt pc)) p)
                      (t + len (piece_bytes pt pc)) Hseg' Ht' Hok'
                      ltac:(cbn in Hf; lia) Hrest).
        replace (t + len (piece_bytes pt pc)
                 + len (drop (List.length (piece_bytes pt pc)) p))
          with (t + len p) in IH by lia.
        rewrite <- Hbl, <- app_assoc in *. exact IH.
    + apply Z.ltb_ge in Hlt.
      assert (H0 : byteLength pc = 0) by lia.
      assert (Hnil : piece_bytes pt pc = []) by (apply len_zero_nil; lia).
      rewrite Hnil, H0, Z.add_0_r, Hnx. cbn [app].
      apply IH; try assumption; [cbn in Hf; lia | lia].
Qed.

(** [ReadAt] from offset zero into a buffer of the size of the
    document. *)
Lemma ReadAt_whole pt ps (p : list byte) lns lp c :
  doc_ok pt ps -> len p = seqBytes pt -> 0 < seqBytes pt ->
  ReadAt (mkReader pt lns lp c) p 0
  = Some (concat (doc_chunks pt ps), seqBytes pt, nil).
Proof.
  intros (Hl & Hvo & Hvm & Hok & Hsl & Hsb) Hp Hpos.
  unfold ReadAt. cbn [table].
  replace (len p =? 0) with false by (symmetry; apply Z.eqb_neq; lia).
  replace (seqBytes pt <=? 0) with false by (symmetry; apply Z.leb_gt; lia).
  rewrite (is_list_Head _ _ Hl). cbv beta iota.
  destruct (is_list_body _ _ Hl) as [Hseg Ht].
  pose proof (is_list_fuel _ _ Hl) as Hf.
  pose proof (ReadAt_loop_whole pt ps (List.length (pieces pt)) [] p 0
                Hseg Ht Hok ltac:(lia) ltac:(lia)) as H.
  rewrite Z.add_0_l in H. rewrite H. cbv beta iota.
  rewrite app_nil_r, Z.ltb_irrefl, Hp. reflexivity.
Qed.

Lemma replicate_len (n : Z) (x : byte) : 0 <= n -> len (replicate (Z.to_nat n) x) = n.
Proof. intros H. unfold len. rewrite length_replicate. lia. Qed.

(** What [Text] reads is the bytes of the runes of the pieces, in list
    order. *)
Lemma document_spec pt ps :
  doc_ok pt ps -> document pt = Some (concat (doc_chunks pt ps)).
Proof.
  intros Hd. pose proof Hd as (Hl & Hvo & Hvm & Hok & Hsl & Hsb).
  pose proof (sum_bytes_nonneg _ _ Hok) as Hnn.
  pose proof (doc_chunks_bytes _ _ Hok) as Hlen.
  unfold document, Text, NewReader. cbn [table].
  replace (seqBytes pt <? 0) with false by (symmetry; apply Z.ltb_ge; lia).
  destruct (Z.eq_dec (seqBytes pt) 0) as [H0|H0].
  - rewrite H0. cbn.
    assert (Hnil : concat (doc_chunks pt ps) = [])
      by (apply len_zero_nil; lia).
    rewrite Hnil. reflexivity.
  - assert (Hpos : 0 < seqBytes pt) by lia.
    change (len []) with 0.
    replace (0 <? seqBytes pt) with true by (symmetry; apply Z.ltb_lt; lia).
    set (buf := replicate (Z.to_nat (seqBytes pt)) x00).
    assert (Hbuf : len buf = seqBytes pt) by (apply replicate_len; lia).
    rewrite take_ge by (unfold len in Hbuf; lia).
    unfold Seek, with_seekCursor, ReadFull. cbn [table lines lastPiece seekCursor].
    cbn [ReadAtLeast_loop]. rewrite Hbuf.
    replace (0 <? seqBytes pt) with true by (symmetry; apply Z.ltb_lt; lia).
    cbn [andb error_eqb]. unfold Read. cbn [seekCursor].
    rewrite (ReadAt_whole pt ps buf [] None 0 Hd Hbuf Hpos).
    cbn [with_seekCursor table lines lastPiece seekCursor app Z.add].
    assert (Hall : Z.to_nat (seqBytes pt) = List.length (concat (doc_chunks pt ps)))
      by (unfold len in Hlen; lia).
    rewrite Hall, take_ge, drop_all by lia.
    destruct (List.length buf);
      cbn [ReadAtLeast_loop]; rewrite Z.ltb_irrefl; cbn [andb];
      rewrite app_nil_r, take_ge by lia; reflexivity.
Qed.

End Document.

(** ** Insert and the runes of the document *)

Section InsertDoc.
Import Buffer.
Implicit Types (st : store) (pt : PieceTable) (l ps : list nat)
         (text : list byte).

(** The pieces an insert does not touch keep their runes. *)
Lemma old_pieces pt pt' text l :
  originalBuf pt' = originalBuf pt -> modifyBuf pt' = modifyBuf pt ++ text ->
  Utf8.Valid (originalBuf pt) = true -> Utf8.Valid (modifyBuf pt) = true ->
  (forall a, a ∈ l -> spn (pieces pt') a = spn (pieces pt) a) ->
  Forall (fun a => piece_ok pt (piece_at (pieces pt) a)) l ->
  Forall (fun a => piece_ok pt' (piece_at (pieces pt') a)) l /\
  doc_chunks pt' l = doc_chunks pt l /\
  sum_runes (pieces pt') l = sum_runes (pieces pt) l /\
  sum_bytes (pieces pt') l = sum_bytes (pieces pt) l.
Proof.
  intros Ho Hm Hvo Hvm Hs Hok.
  split; [|split; [|split]].
  - apply Forall_forall. intros a Ha.
    rewrite Forall_forall in Hok. specialize (Hok a Ha).
    destruct (piece_ok_appended pt pt' text Ho Hm Hvm _ Hok) as [H1 _].
    apply (piece_ok_span _ (piece_at (pieces pt) a)); [|exact H1].
    symmetry. apply Hs. exact Ha.
  - induction Hok as [|a l Ha Hl IH]; [reflexivity|].
    rewrite !doc_chunks_cons, IH by (intros b Hb; apply Hs; right; exact Hb).
    f_equal.
    destruct (piece_ok_appended pt pt' text Ho Hm Hvm _ Ha) as [_ H2].
    rewrite <- H2. apply chunks_of_span. apply Hs. left.
  - apply sum_runes_ext, Hs.
  - apply sum_bytes_ext, Hs.
Qed.

Lemma insert_at (X Y T : list (list byte)) (i : Z) :
  Z.of_nat (List.length X) = i ->
  take (Z.to_nat i) (X ++ Y) ++ T ++ drop (Z.to_nat i) (X ++ Y) = X ++ T ++ Y.
Proof. intros <-. rewrite Nat2Z.id, take_app_length, drop_app_length. reflexivity. Qed.

Lemma is_list_nodup st ps : is_list st ps -> NoDup ps.
Proof.
  intros [_ H]. apply NoDup_cons in H as [_ H].
  apply NoDup_app in H as [H _]. exact H.
Qed.

Lemma is_list_fresh st ps : is_list st ps -> forall a, a ∈ ps -> (a < List.length st)%nat.
Proof.
  intros H a Ha. apply (is_list_lt st ps a H). right.
  apply elem_of_app. left. exact Ha.
Qed.

Lemma span_fields (pc pc' : piece) :
  span_of pc = span_of pc' ->
  source pc = source pc' /\ offset pc = offset pc' /\ length' pc = length' pc' /\
  byteOff pc = byteOff pc' /\ byteLength pc = byteLength pc'.
Proof. unfold span_of. intros H. injection H as -> -> -> -> ->. tauto. Qed.

(** An insert merged into the last inserted piece. *)
Lemma coalesced_doc pt ps i text lp :
  doc_inv pt ps -> Utf8.Valid text = true ->
  coalesces pt i text = true -> lastInsertPiece pt = Some lp ->
  (lp < List.length (pieces pt))%nat ->
  doc_inv (coalesced pt i text lp) ps /\
  doc_chunks (coalesced pt i text lp) ps =
  take (Z.to_nat i) (doc_chunks pt ps) ++ Utf8.runes text ++
  drop (Z.to_nat i) (doc_chunks pt ps).
Proof.
  intros [Hd Hlast] Hvt Hc Hlp Hlt.
  pose proof Hd as (Hl & Hvo & Hvm & Hok & Hsl & Hsb).
  apply coalesces_spec in Hc as (Ha & Hi & _ & _).
  destruct Hlast as [_ Hl2].
  destruct (Hl2 Ha lp Hlp) as (l1 & l2 & Hps & Hsrc & Hend & Hsum).
  pose proof (is_list_nodup _ _ Hl) as Hnd.
  set (pt' := coalesced pt i text lp).
  assert (Ho' : originalBuf pt' = originalBuf pt) by reflexivity.
  assert (Hm' : modifyBuf pt' = modifyBuf pt ++ text) by reflexivity.
  assert (Hspn : forall a, spn (pieces pt') a =
                   if decide (a = lp)
                   then span_of (grow (Utf8.RuneCount text) (len text)
                                      (piece_at (pieces pt) lp))
                   else spn (pieces pt) a)
    by (intros a; apply spn_grow; exact Hlt).
  subst ps.
  apply NoDup_app in Hnd as (_ & Hn1 & Hnd).
  apply NoDup_cons in Hnd as (Hn2 & _).
  apply Forall_app in Hok as [Hok1 Hok2].
  apply Forall_cons in Hok2 as [Hokp Hok2].
  destruct (old_pieces pt pt' text l1 Ho' Hm' Hvo Hvm) as (Hok1' & Hdc1 & Hsr1 & Hsb1);
    [intros a Ha1; rewrite Hspn; destruct (decide (a = lp)) as [->|];
       [exfalso; apply (Hn1 lp Ha1); left | reflexivity]
    | exact Hok1 |].
  destruct (old_pieces pt pt' text l2 Ho' Hm' Hvo Hvm) as (Hok2' & Hdc2 & Hsr2 & Hsb2);
    [intros a Ha1; rewrite Hspn; destruct (decide (a = lp)) as [->|];
       [exfalso; exact (Hn2 Ha1) | reflexivity]
    | exact Hok2 |].
  destruct (grow_appended pt pt' text Ho' Hm' Hvm _ Hokp Hsrc Hend) as [Hg_ok Hg_ch].
  assert (Hsp : span_of (piece_at (pieces pt') lp) =
                span_of (grow (Utf8.RuneCount text) (len text)
                              (piece_at (pieces pt) lp))).
  { specialize (Hspn lp). rewrite decide_True in Hspn by reflexivity. exact Hspn. }
  pose proof (piece_ok_span _ _ _ (eq_sym Hsp) Hg_ok) as Hokp'.
  pose proof (chunks_of_span pt' _ _ Hsp) as Hch. rewrite Hg_ch in Hch.
  destruct (span_fields _ _ Hsp) as (Es & Eo & El & _ & Eb).
  cbn [grow source offset length' byteLength] in Es, Eo, El, Eb.
  rewrite sum_runes_app, sum_runes_cons in Hsum. cbn [sum_runes fold_right] in Hsum.
  pose proof (doc_chunks_count _ _ Hok1) as Hc1.
  pose proof (piece_ok_length _ _ Hokp) as Hcp.
  split; [split; [|split]|].
  - (* doc_ok *)
    split; [|split; [|split; [|split; [|split]]]].
    + apply (is_list_ext (pieces pt)); [exact Hl | |];
        intros a; cbn [pt' coalesced pieces]; [apply nxt_grow | apply prv_grow].
    + exact Hvo.
    + rewrite Hm'. apply Valid_app; assumption.
    + apply Forall_app. split; [exact Hok1'|].
      apply Forall_cons. split; [exact Hokp' | exact Hok2'].
    + rewrite sum_runes_app, sum_runes_cons, Hsr1, Hsr2, El.
      rewrite sum_runes_app, sum_runes_cons in Hsl.
      cbn [pt' coalesced seqLength]. lia.
    + rewrite sum_bytes_app, sum_bytes_cons, Hsb1, Hsb2, Eb.
      rewrite sum_bytes_app, sum_bytes_cons in Hsb.
      cbn [pt' coalesced seqBytes]. lia.
  - intros q Hq. cbn [pt' coalesced lastInsertPiece] in Hq. injection Hq as <-.
    apply lookup_lt_is_Some. cbn [pt' coalesced pieces].
    rewrite length_alter. exact Hlt.
  - intros _ q Hq. cbn [pt' coalesced lastInsertPiece] in Hq. injection Hq as <-.
    exists l1, l2. split; [reflexivity|]. split; [congruence|]. split.
    + rewrite Eo, El, Hm', RuneCount_app by assumption. lia.
    + rewrite sum_runes_app, sum_runes_cons, Hsr1, El.
      cbn [sum_runes fold_right pt' coalesced lastActionEndIdx]. lia.
  - rewrite !doc_chunks_app, !doc_chunks_cons, Hdc1, Hdc2, Hch.
    rewrite (app_assoc (doc_chunks pt l1) (chunks_of pt _) (doc_chunks pt l2)).
    rewrite insert_at.
    + rewrite <- !app_assoc. reflexivity.
    + rewrite length_app, Nat2Z.inj_add. lia.
Qed.

(** An insert at the boundary before the piece [x]. *)
Lemma boundary_doc pt ps i text x l1 l2 p :
  doc_inv pt ps -> Utf8.Valid text = true -> text <> [] ->
  0 <= i <= seqLength pt ->
  ps ++ [tail] = l1 ++ x :: l2 ->
  sum_runes (pieces pt) l1 <= i ->
  ((x = tail /\ l2 = []) \/
   (x <> tail /\ i = sum_runes (pieces pt) l1 /\
    0 < length' (piece_at (pieces pt) x))) ->
  prv (pieces pt) x = Some p ->
  exists ps',
    doc_inv (inserted_boundary pt i text p x) ps' /\
    doc_chunks (inserted_boundary pt i text p x) ps' =
    take (Z.to_nat i) (doc_chunks pt ps) ++ Utf8.runes text ++
    drop (Z.to_nat i) (doc_chunks pt ps).
Proof.
  intros [Hd Hlast] Hvt Hne Hi Hsplit Hle Hx Hprv.
  pose proof Hd as (Hl & Hvo & Hvm & Hok & Hsl & Hsb).
  set (n := List.length (pieces pt)).
  set (pt' := inserted_boundary pt i text p x).
  destruct (boundary_is_list _ ps l1 x l2 p (new_piece pt text) Hl Hsplit Hprv)
    as (ps' & Hps' & Hl').
  fold n in Hps'.
  assert (Hc : exists rest, ps = l1 ++ rest /\ ps' = l1 ++ n :: rest /\
                            i = sum_runes (pieces pt) l1).
  { destruct (snoc_split ps l1 l2 tail x Hsplit) as [(E2 & Ex & E1)|(l2' & E2 & E1)].
    - exists []. subst l2 x ps. rewrite app_nil_r. split; [reflexivity|]. split.
      + apply (app_inv_tail [tail]). rewrite Hps', <- app_assoc. reflexivity.
      + lia.
    - exists (x :: l2'). subst l2 ps. split; [reflexivity|]. split.
      + apply (app_inv_tail [tail]). rewrite Hps', <- app_assoc. reflexivity.
      + destruct Hx as [[-> _]|(_ & Hx & _)]; [|exact Hx].
        exfalso. destruct (is_list_body _ _ Hl) as [_ Ht]. apply Ht.
        apply elem_of_app. right. left. }
  destruct Hc as (rest & -> & -> & Hi').
  clear Hsplit Hps' Hx Hle.
  assert (Ho' : originalBuf pt' = originalBuf pt) by reflexivity.
  assert (Hm' : modifyBuf pt' = modifyBuf pt ++ text) by reflexivity.
  assert (Hspn : forall a, spn (pieces pt') a =
                   if decide (a = n) then span_of (new_piece pt text)
                   else spn (pieces pt) a)
    by (intros a; apply boundary_spn).
  assert (Hold : forall a, a ∈ l1 ++ rest -> spn (pieces pt') a = spn (pieces pt) a).
  { intros a Ha. rewrite Hspn. pose proof (is_list_fresh _ _ Hl a Ha) as Hlt.
    fold n in Hlt. rewrite decide_False by lia. reflexivity. }
  apply Forall_app in Hok as [Hok1 Hok2].
  destruct (old_pieces pt pt' text l1 Ho' Hm' Hvo Hvm) as (Hok1' & Hdc1 & Hsr1 & Hsb1);
    [intros a Ha; apply Hold, elem_of_app; left; exact Ha | exact Hok1 |].
  destruct (old_pieces pt pt' text rest Ho' Hm' Hvo Hvm) as (Hok2' & Hdc2 & Hsr2 & Hsb2);
    [intros a Ha; apply Hold, elem_of_app; right; exact Ha | exact Hok2 |].
  assert (Hsp : span_of (piece_at (pieces pt') n) = span_of (new_piece pt text)).
  { specialize (Hspn n). rewrite decide_True in Hspn by reflexivity. exact Hspn. }
  destruct (new_piece_appended pt pt' text Ho' Hm' Hvm _ Hne Hsp) as [Hokn Hchn].
  destruct (span_fields _ _ Hsp) as (Es & Eo & El & _ & Eb).
  unfold new_piece in Es, Eo, El, Eb. rewrite (text_pos_nonempty _ _ Hne) in Eo.
  cbn [source offset length' byteLength fst snd] in Es, Eo, El, Eb.
  pose proof (doc_chunks_count _ _ Hok1) as Hc1.
  rewrite sum_runes_app in Hsl. rewrite sum_bytes_app in Hsb.
  exists (l1 ++ n :: rest).
  split; [split; [|split]|].
  - split; [exact Hl'|]. split; [exact Hvo|].
    split; [rewrite Hm'; apply Valid_app; assumption|].
    split; [|split].
    + apply Forall_app. split; [exact Hok1'|].
      apply Forall_cons. split; [exact Hokn | exact Hok2'].
    + rewrite sum_runes_app, sum_runes_cons, Hsr1, Hsr2, El.
      cbn [pt' inserted_boundary seqLength]. lia.
    + rewrite sum_bytes_app, sum_bytes_cons, Hsb1, Hsb2, Eb.
      cbn [pt' inserted_boundary seqBytes]. lia.
  - intros q Hq. cbn [pt' inserted_boundary lastInsertPiece] in Hq.
    injection Hq as <-. apply lookup_lt_is_Some.
    cbn [pt' inserted_boundary pieces]. rewrite boundary_length. lia.
  - intros _ q Hq. cbn [pt' inserted_boundary lastInsertPiece] in Hq.
    injection Hq as <-. fold n.
    exists l1, rest. split; [reflexivity|]. split; [exact Es|]. split.
    + rewrite Eo, El, Hm', RuneCount_app by assumption. lia.
    + rewrite sum_runes_app, sum_runes_cons, Hsr1, El.
      cbn [sum_runes fold_right pt' inserted_boundary lastActionEndIdx]. lia.
  - rewrite !doc_chunks_app, !doc_chunks_cons, Hdc1, Hdc2, Hchn.
    rewrite insert_at by lia. reflexivity.
Qed.

(** An insert in the middle of the piece [x]. *)
Lemma middle_doc pt i text x l1 l2 p s off :
  doc_inv pt (l1 ++ x :: l2) -> Utf8.Valid text = true -> text <> [] ->
  off = i - sum_runes (pieces pt) l1 ->
  0 < off < length' (piece_at (pieces pt) x) ->
  prv (pieces pt) x = Some p -> nxt (pieces pt) x = Some s ->
  exists ps',
    doc_inv (inserted_middle pt i text p s x off) ps' /\
    doc_chunks (inserted_middle pt i text p s x off) ps' =
    take (Z.to_nat i) (doc_chunks pt (l1 ++ x :: l2)) ++ Utf8.runes text ++
    drop (Z.to_nat i) (doc_chunks pt (l1 ++ x :: l2)).
Proof.
  intros [Hd Hlast] Hvt Hne Hoff Hin Hprv Hnxt.
  pose proof Hd as (Hl & Hvo & Hvm & Hok & Hsl & Hsb).
  set (m := List.length (pieces pt)).
  set (pt' := inserted_middle pt i text p s x off).
  set (pcx := piece_at (pieces pt) x) in *.
  pose proof (middle_is_list _ l1 x l2 p s (new_piece pt text)
                (left_piece pt text pcx off) (right_piece pt text pcx off)
                Hl Hprv Hnxt) as Hl'.
  cbv zeta in Hl'. fold m in Hl'.
  assert (Ho' : originalBuf pt' = originalBuf pt) by reflexivity.
  assert (Hm' : modifyBuf pt' = modifyBuf pt ++ text) by reflexivity.
  assert (Hspn : forall a, spn (pieces pt') a =
                   if decide (a = m) then span_of (new_piece pt text)
                   else if decide (a = S m) then span_of (left_piece pt text pcx off)
                   else if decide (a = S (S m)) then span_of (right_piece pt text pcx off)
                   else spn (pieces pt) a)
    by (intros a; apply middle_spn).
  assert (Hold : forall a, a ∈ l1 ++ x :: l2 -> a <> x ->
                           spn (pieces pt') a = spn (pieces pt) a).
  { intros a Ha _. rewrite Hspn. pose proof (is_list_fresh _ _ Hl a Ha) as Hlt.
    fold m in Hlt. rewrite !decide_False by lia. reflexivity. }
  pose proof (is_list_nodup _ _ Hl) as Hnd.
  apply NoDup_app in Hnd as (_ & Hn1 & Hnd).
  apply NoDup_cons in Hnd as (Hn2 & _).
  apply Forall_app in Hok as [Hok1 Hok2].
  apply Forall_cons in Hok2 as [Hokx Hok2]. fold pcx in Hokx.
  destruct (old_pieces pt pt' text l1 Ho' Hm' Hvo Hvm) as (Hok1' & Hdc1 & Hsr1 & Hsb1);
    [intros a Ha; apply Hold;
       [apply elem_of_app; left; exact Ha
       | intros ->; apply (Hn1 x Ha); left]
    | exact Hok1 |].
  destruct (old_pieces pt pt' text l2 Ho' Hm' Hvo Hvm) as (Hok2' & Hdc2 & Hsr2 & Hsb2);
    [intros a Ha; apply Hold;
       [apply elem_of_app; right; right; exact Ha
       | intros ->; exact (Hn2 Ha)]
    | exact Hok2 |].
  assert (Hspm : span_of (piece_at (pieces pt') m) = span_of (new_piece pt text)).
  { specialize (Hspn m). rewrite decide_True in Hspn by reflexivity. exact Hspn. }
  assert (Hspl : span_of (piece_at (pieces pt') (S m))
                 = span_of (left_piece pt text pcx off)).
  { specialize (Hspn (S m)). rewrite decide_False, decide_True in Hspn by lia.
    exact Hspn. }
  assert (Hspr : span_of (piece_at (pieces pt') (S (S m)))
                 = span_of (right_piece pt text pcx off)).
  { specialize (Hspn (S (S m))).
    rewrite decide_False, decide_False, decide_True in Hspn by lia. exact Hspn. }
  destruct (new_piece_appended pt pt' text Ho' Hm' Hvm _ Hne Hspm) as [Hokn Hchn].
  destruct (split_appended pt pt' text Ho' Hm' Hvm pcx _ _ off Hokx Hin Hspl Hspr)
    as (Hokl & Hokr & Hchs & Hll & Hlr & Hbs).
  destruct (span_fields _ _ Hspm) as (Es & Eo & El & _ & Eb).
  unfold new_piece in Es, Eo, El, Eb. rewrite (text_pos_nonempty _ _ Hne) in Eo.
  cbn [source offset length' byteLength fst snd] in Es, Eo, El, Eb.
  pose proof (doc_chunks_count _ _ Hok1) as Hc1.
  pose proof (piece_ok_length _ _ Hokl) as Hcl.
  rewrite sum_runes_app, sum_runes_cons in Hsl.
  rewrite sum_bytes_app, sum_bytes_cons in Hsb. fold pcx in Hsl, Hsb.
  exists (l1 ++ S m :: m :: S (S m) :: l2).
  split; [split; [|split]|].
  - split; [exact Hl'|]. split; [exact Hvo|].
    split; [rewrite Hm'; apply Valid_app; assumption|].
    split; [|split].
    + apply Forall_app. split; [exact Hok1'|].
      repeat (apply Forall_cons; split; [assumption|]). exact Hok2'.
    + rewrite sum_runes_app, !sum_runes_cons, Hsr1, Hsr2, El, Hll, Hlr.
      cbn [pt' inserted_middle seqLength]. lia.
    + rewrite sum_bytes_app, !sum_bytes_cons, Hsb1, Hsb2, Eb.
      cbn [pt' inserted_middle seqBytes]. lia.
  - intros q Hq. cbn [pt' inserted_middle lastInsertPiece] in Hq.
    injection Hq as <-. apply lookup_lt_is_Some.
    cbn [pt' inserted_middle pieces]. rewrite middle_length. lia.
  - intros _ q Hq. cbn [pt' inserted_middle lastInsertPiece] in Hq.
    injection Hq as <-. fold m.
    exists (l1 ++ [S m]), (S (S m) :: l2).
    split; [rewrite <- app_assoc; reflexivity|]. split; [exact Es|]. split.
    + rewrite Eo, El, Hm', RuneCount_app by assumption. lia.
    + rewrite !sum_runes_app, !sum_runes_cons, Hsr1, El, Hll.
      cbn [sum_runes fold_right pt' inserted_middle lastActionEndIdx]. lia.
  - rewrite !doc_chunks_app, !doc_chunks_cons, Hdc1, Hdc2, Hchn. fold pcx.
    rewrite <- Hchs, <- (app_assoc (chunks_of pt' _) (chunks_of pt' _)).
    rewrite (app_assoc (doc_chunks pt l1)
               (chunks_of pt' (piece_at (pieces pt') (S m)))
               (chunks_of pt' (piece_at (pieces pt') (S (S m))) ++ doc_chunks pt l2)).
    rewrite insert_at.
    + rewrite <- !app_assoc. reflexivity.
    + rewrite length_app, Nat2Z.inj_add. lia.
Qed.

End InsertDoc.

(** ** Sequences of inserts against the reference string *)

Section InsertReference.
Import Buffer.
Implicit Types (pt : PieceTable) (ps : list nat) (text s : list byte).

Lemma doc_inv_wf pt ps : doc_inv pt ps -> wf_table pt ps.
Proof. intros [(Hl & _) [Hp _]]. split; assumption. Qed.

(** An insert of non-empty valid UTF-8 in range keeps the invariant and
    puts the runes of the text before the rune at the index. *)
Lemma Insert_doc pt ps i text :
  doc_inv pt ps -> 0 <= i <= seqLength pt ->
  Utf8.Valid text = true -> text <> [] ->
  exists pt' ps',
    Insert pt i text = Some (true, pt') /\ doc_inv pt' ps' /\
    doc_chunks pt' ps' =
    take (Z.to_nat i) (doc_chunks pt ps) ++ Utf8.runes text ++
    drop (Z.to_nat i) (doc_chunks pt ps).
Proof.
  intros Hinv Hi Hv Hne.
  destruct (Insert_cases pt ps i text (doc_inv_wf _ _ Hinv) Hi)
    as [(Hc & lp & Hlp & Hlt & HI)
       |[(Hc & x & l1 & l2 & p & Hs & Hle & Hx & Hp & HI)
        |(Hc & x & l1 & l2 & p & s & off & Hs & Hoff & Hin & Hp & Hn & HI)]].
  - destruct (coalesced_doc pt ps i text lp Hinv Hv Hc Hlp Hlt) as [H1 H2].
    eauto.
  - destruct (boundary_doc pt ps i text x l1 l2 p Hinv Hv Hne Hi Hs Hle Hx Hp)
      as (ps' & H1 & H2).
    eauto.
  - subst ps.
    destruct (middle_doc pt i text x l1 l2 p s off Hinv Hv Hne Hoff Hin Hp Hn)
      as (ps' & H1 & H2).
    eauto.
Qed.

(** A piece that covers a whole buffer. *)
Lemma whole_piece pt text (pc : piece) :
  getBuf pt (source pc) = text -> offset pc = 0 ->
  length' pc = Utf8.RuneCount text -> byteOff pc = 0 ->
  byteLength pc = len text ->
  piece_ok pt pc /\ chunks_of pt pc = Utf8.runes text.
Proof.
  intros Hb Ho Hl Hbo Hbl. pose proof (RuneCount_nonneg text) as Hnn.
  split.
  - unfold piece_ok, tb_bytesForRange. rewrite Hb, Ho, Hl, Hbo, Hbl.
    rewrite (RuneOffset_all text (0 + Utf8.RuneCount text)) by lia.
    change (tb_RuneOffset text 0) with 0. lia.
  - unfold chunks_of. rewrite Hb, Ho, Hl. cbn [Z.to_nat drop].
    apply take_ge. unfold Utf8.RuneCount. lia.
Qed.

(** The table of a valid UTF-8 text holds its runes. *)
Lemma NewPieceTable_doc text :
  Utf8.Valid text = true ->
  exists pt ps, NewPieceTable text = Some pt /\ doc_inv pt ps /\
                doc_chunks pt ps = Utf8.runes text.
Proof.
  intros Hv. unfold NewPieceTable, init, addToBuffer.
  destruct (len text <=? 0) eqn:E.
  - apply Z.leb_le in E.
    assert (text = []) by (apply len_zero_nil; pose proof (len_nonneg text); lia).
    subst text.
    exists (mkPT newTextBuffer newTextBuffer 0 0 [] [] newPieceList
                 actionUnknown 0 None), [].
    split; [reflexivity|]. split; [|reflexivity].
    split; [split; [|repeat split; constructor] | split].
    + split; [simpl; repeat split | nodup_small].
    + intros q Hq. discriminate Hq.
    + intros Hq. discriminate Hq.
  - cbn [bufSrc_eqb tb_set with_bufs].
    apply Z.leb_gt in E.
    assert (Hne : text <> []) by (intros ->; unfold len in E; cbn in E; lia).
    pose proof (RuneCount_pos text Hne) as Hpos.
    replace (Utf8.RuneCount text <=? 0) with false by (symmetry; apply Z.leb_gt; lia).
    eexists _, [2%nat]. split; [reflexivity|].
    cbn [alloc newPieceList app List.length InsertBeforeTail].
    split; [split; [split; [|split; [|split; [|split; [|split]]]] | split]|].
    + split; [simpl; repeat split | nodup_small].
    + exact Hv.
    + reflexivity.
    + apply Forall_cons. split; [|constructor].
      apply (whole_piece _ text); reflexivity.
    + cbn. lia.
    + cbn. lia.
    + intros q Hq. discriminate Hq.
    + intros Hq. discriminate Hq.
    + rewrite doc_chunks_cons. change (doc_chunks _ []) with (@List.nil (list byte)).
      rewrite app_nil_r. apply (whole_piece _ text); reflexivity.
Qed.

(** The reference insert, on the runes of the string. *)
Lemma ref_insert_chunks (dc : list (list byte)) (i : Z) text :
  Forall Utf8.good dc ->
  ref_insert (concat dc) i text =
  concat (take (Z.to_nat i) dc ++ Utf8.runes text ++ drop (Z.to_nat i) dc).
Proof.
  intros Hg. unfold ref_insert.
  rewrite RuneOffset_runes, runes_concat_good by exact Hg.
  unfold len. rewrite Nat2Z.id.
  rewrite <- (take_drop (Z.to_nat i) dc) at 2 4.
  rewrite List.concat_app, take_app_length, drop_app_length.
  rewrite !List.concat_app, runes_concat. reflexivity.
Qed.

Lemma doc_inv_count pt ps :
  doc_inv pt ps -> Utf8.RuneCount (concat (doc_chunks pt ps)) = seqLength pt.
Proof.
  intros [(Hl & Hvo & Hvm & Hok & Hsl & Hsb) _].
  unfold Utf8.RuneCount.
  rewrite runes_concat_good by (apply doc_chunks_good; assumption).
  rewrite doc_chunks_count by assumption. congruence.
Qed.

(** Inserts accepted by the reference string are accepted by the table,
    and the table then holds the reference string. *)
Lemma run_inserts_doc (ops : list (Z * list byte)) :
  forall pt ps s',
    doc_inv pt ps -> Forall text_ok ops ->
    ref_run (concat (doc_chunks pt ps)) ops = Some s' ->
    exists pt' ps',
      run_inserts pt ops = Some pt' /\ doc_inv pt' ps' /\
      concat (doc_chunks pt' ps') = s'.
Proof.
  induction ops as [|[i text] ops IH]; intros pt ps s' Hinv Hops Href.
  - cbn in Href. injection Href as <-. exists pt, ps. auto.
  - apply Forall_cons in Hops as [[Hv Hne] Hops]. cbn [fst snd] in Hv, Hne.
    cbn [ref_run] in Href. unfold ref_step in Href. cbn [fst snd] in Href.
    rewrite (doc_inv_count _ _ Hinv) in Href.
    destruct ((0 <=? i) && (i <=? seqLength pt)) eqn:Hr; [|discriminate Href].
    apply andb_true_iff in Hr as [H1 H2].
    apply Z.leb_le in H1. apply Z.leb_le in H2.
    destruct (Insert_doc pt ps i text Hinv (conj H1 H2) Hv Hne)
      as (pt1 & ps1 & HI & Hinv1 & Hdc).
    rewrite ref_insert_chunks in Href
      by (destruct Hinv as [(? & ? & ? & _) _]; apply doc_chunks_good; assumption).
    rewrite <- Hdc in Href.
    destruct (IH pt1 ps1 s' Hinv1 Hops Href) as (pt' & ps' & HR & Hinv' & Hs).
    exists pt', ps'. cbn [run_inserts fst snd]. rewrite HI. auto.
Qed.

(** C1, for the operations the table has: on the table of a valid
    UTF-8 text, every sequence of inserts of non-empty valid UTF-8 texts
    at indices in range is accepted, and the whole document read
    afterwards is the reference string, the same inserts applied to the
    plain text.  [Erase] and [Replace] take no range and leave the table
    as it is. *)
Theorem C1_inserts_match_reference (text : list byte)
    (ops : list (Z * list byte)) (s' : list byte) :
  Utf8.Valid text = true -> Forall text_ok ops ->
  ref_run text ops = Some s' ->
  exists pt0 pt',
    NewPieceTable text = Some pt0 /\
    run_inserts pt0 ops = Some pt' /\
    document pt' = Some s' /\
    document (Erase pt') = Some s' /\ document (Replace pt') = Some s'.
Proof.
  intros Hv Hops Href.
  destruct (NewPieceTable_doc text Hv) as (pt0 & ps0 & HN & Hinv0 & Hdc0).
  assert (Hs0 : concat (doc_chunks pt0 ps0) = text)
    by (rewrite Hdc0; apply runes_concat).
  rewrite <- Hs0 in Href.
  destruct (run_inserts_doc ops pt0 ps0 s' Hinv0 Hops Href)
    as (pt' & ps' & HR & [Hd' _] & Hs').
  exists pt0, pt'. split; [exact HN|]. split; [exact HR|].
  assert (Hdoc : document pt' = Some s')
    by (rewrite (document_spec _ _ Hd'), Hs'; reflexivity).
  unfold Erase, Replace. auto.
Qed.

(** The theorem on "hello" with an insert in the middle of the first
    piece, one at the end and one of a rune of three bytes. *)
Lemma C1_inserts_match_reference_witness :
  exists pt0 pt',
    NewPieceTable (B "hello") = Some pt0 /\
    run_inserts pt0 [(2, B "XY"); (7, B "!"); (0, B "日")] = Some pt' /\
    document pt' = Some (B "日heXYllo!") /\
    document (Erase pt') = Some (B "日heXYllo!") /\
    document (Replace pt') = Some (B "日heXYllo!").
Proof.
  apply (C1_inserts_match_reference (B "hello")
           [(2, B "XY"); (7, B "!"); (0, B "日")] (B "日heXYllo!")).
  - vm_compute. reflexivity.
  - repeat (apply Forall_cons; split;
            [split; [vm_compute; reflexivity | discriminate]|]).
    constructor.
  - vm_compute. reflexivity.
Defined.

(** C1 as the specification words it fails for erase: [Erase] takes no
    range and removes nothing, so after it the document "hello" is not
    the reference string with the runes from 1 up to 3 erased. *)
Lemma C1_erase_counterexample :
  ref_erase (B "hello") 1 3 = B "hlo" /\
  document (Erase hello_table) = Some (B "hello") /\
  document (Erase hello_table) <> Some (ref_erase (B "hello") 1 3).
Proof.
  split. { vm_compute. reflexivity. }
  split. { vm_compute. reflexivity. }
  vm_compute. discriminate.
Qed.

(** The empty text is outside the theorem above: it is given a piece of
    its own at the start of the modify buffer, which a merged insert
    then grows over bytes that are not its. *)
Lemma empty_insert_then_merge :
  exists pt1 pt2 pt3,
    Insert empty_table 0 (B "x") = Some (true, pt1) /\
    Insert pt1 0 [] = Some (true, pt2) /\
    Insert pt2 0 (B "c") = Some (true, pt3) /\
    document pt3 = Some (B "xx") /\
    ref_run [] [(0, B "x"); (0, []); (0, B "c")] = Some (B "cx").
Proof.
  eexists _, _, _.
  split. { vm_compute. reflexivity. }
  split. { vm_compute. reflexivity. }
  split. { vm_compute. reflexivity. }
  split. { vm_compute. reflexivity. }
  vm_compute. reflexivity.
Qed.

End InsertReference.

(** ** RuneOffset *)

Section RuneOffsetProps.
Import Buffer.
Implicit Types (pt : PieceTable) (ps body : list nat) (doc : list byte).

(** The forward walk counts the bytes of the first [r] runes. *)
Lemma byte_walk_spec (fuel : nat) :
  forall doc (r bytes : Z),
    (List.length doc <= fuel)%nat ->
    byte_walk fuel doc r bytes = bytes + tb_RuneOffset doc r.
Proof.
  induction fuel as [|f IH]; intros doc r bytes Hf.
  - destruct doc; [|cbn in Hf; lia]. cbn [byte_walk].
    rewrite RuneOffset_runes, runes_nil, take_nil. unfold len. cbn. lia.
  - cbn [byte_walk].
    destruct (r <=? 0) eqn:Hr; cbn [orb].
    + apply Z.leb_le in Hr. rewrite RuneOffset_runes.
      replace (Z.to_nat r) with 0%nat by lia. rewrite take_0. unfold len. cbn. lia.
    + apply Z.leb_gt in Hr.
      destruct (len doc =? 0) eqn:Hd.
      * apply Z.eqb_eq, len_zero_nil in Hd. subst doc.
        rewrite RuneOffset_runes, runes_nil, take_nil. unfold len. cbn. lia.
      * apply Z.eqb_neq in Hd.
        assert (Hne : doc <> []) by (intros ->; apply Hd; reflexivity).
        pose proof (width_bounds doc Hne) as Hw.
        rewrite IH by (rewrite length_drop; lia).
        rewrite (RuneOffset_runes doc), (runes_step doc Hne).
        replace (Z.to_nat r) with (S (Z.to_nat (r - 1))) by lia.
        cbn [take concat]. rewrite len_app, <- RuneOffset_runes.
        unfold len. rewrite length_take. lia.
Qed.

Lemma forward_walk_spec doc r : forward_walk doc r = tb_RuneOffset doc r.
Proof. unfold forward_walk. rewrite byte_walk_spec by lia. lia. Qed.

(** The loop of [RuneOffset] over the pieces [body], entered with the
    bytes and runes of the pieces before them. *)
Lemma RuneOffset_loop_spec pt body (r : Z) :
  forall fuel (bytes runes : Z),
    seg (pieces pt) (body ++ [tail]) -> tail ∉ body ->
    Forall (fun a => piece_ok pt (piece_at (pieces pt) a)) body ->
    (List.length (body ++ [tail]) <= fuel)%nat ->
    runes <= r ->
    RuneOffset_loop fuel pt (List.hd tail (body ++ [tail])) bytes runes r
    = Some (bytes +
            len (concat (take (Z.to_nat (r - runes)) (doc_chunks pt body)))).
Proof.
  induction body as [|x body IH]; intros fuel bytes runes Hseg Ht Hok Hf Hr.
  - destruct fuel as [|f]; [cbn in Hf; lia|]. cbn.
    rewrite take_nil. unfold len. cbn. f_equal. lia.
  - destruct fuel as [|f]; [cbn in Hf; lia|].
    assert (Hx : x <> tail) by (intros ->; apply Ht; left).
    assert (Ht' : tail ∉ body) by (intros H; apply Ht; right; exact H).
    inversion Hok as [|? ? Hokx Hok']; subst.
    change ((x :: body) ++ [tail]) with (x :: body ++ [tail]) in *.
    assert (Hlink : linked (pieces pt) x (List.hd tail (body ++ [tail])) /\
                    seg (pieces pt) (body ++ [tail])).
    { destruct body; cbn in Hseg |- *; tauto. }
    destruct Hlink as [Hlink Hseg'].
    destruct (linked_lookup _ _ _ Hlink) as (pc & _ & Hpc & Hnx & _).
    pose proof (piece_at_lookup _ _ _ Hpc) as Hat.
    rewrite Hat in Hokx.
    pose proof (piece_ok_length _ _ Hokx) as Hlen.
    pose proof (piece_ok_bytes _ _ Hokx) as Hbl.
    cbn [RuneOffset_loop List.hd]. rewrite (proj2 (Nat.eqb_neq x tail) Hx), Hpc.
    rewrite doc_chunks_cons, Hat.
    destruct (r <? runes + length' pc) eqn:Hlt.
    + apply Z.ltb_lt in Hlt. destruct Hokx as (Ho & Hl & _).
      rewrite bytesForRange_runes by lia.
      rewrite take_app_le by lia.
      unfold chunks_of. rewrite take_take.
      replace (Nat.min (Z.to_nat (r - runes)) (Z.to_nat (length' pc)))
        with (Z.to_nat (r - runes)) by lia.
      reflexivity.
    + apply Z.ltb_ge in Hlt. rewrite Hnx.
      rewrite IH by (try assumption; try lia; cbn in Hf; lia).
      rewrite take_app_ge by lia.
      rewrite len_concat_app. fold (piece_bytes pt pc).
      replace (Z.to_nat (r - runes) - List.length (chunks_of pt pc))%nat
        with (Z.to_nat (r - (runes + length' pc))) by lia.
      f_equal. lia.
Qed.

Lemma doc_ok_runes pt ps :
  doc_ok pt ps -> Utf8.runes (concat (doc_chunks pt ps)) = doc_chunks pt ps.
Proof.
  intros (_ & Hvo & Hvm & _). apply runes_concat_good, doc_chunks_good; assumption.
Qed.

(** [RuneOffset] is the byte offset of the rune in the document text. *)
Lemma RuneOffset_spec pt ps (r : Z) :
  doc_ok pt ps -> 0 <= r ->
  RuneOffset (NewReader pt) r
  = Some (tb_RuneOffset (concat (doc_chunks pt ps)) r).
Proof.
  intros Hd Hr. pose proof Hd as (Hl & Hvo & Hvm & Hok & Hsl & Hsb).
  pose proof (doc_chunks_count _ _ Hok) as Hcnt.
  pose proof (doc_chunks_bytes _ _ Hok) as Hbytes.
  rewrite RuneOffset_runes, (doc_ok_runes _ _ Hd).
  unfold RuneOffset, NewReader. cbn [table].
  destruct (seqLength pt =? 0) eqn:H0.
  - apply Z.eqb_eq in H0.
    assert (Hnil : doc_chunks pt ps = [])
      by (apply length_zero_iff_nil; lia).
    rewrite Hnil, take_nil. reflexivity.
  - destruct (seqLength pt <=? r) eqn:Hge.
    + apply Z.leb_le in Hge. rewrite take_ge by lia. congruence.
    + rewrite (is_list_Head _ _ Hl). cbv beta iota.
      destruct (is_list_body _ _ Hl) as [Hseg Ht].
      pose proof (is_list_fuel _ _ Hl) as Hf.
      rewrite (RuneOffset_loop_spec pt ps r) by (try assumption; lia).
      rewrite Z.sub_0_r, Z.add_0_l. reflexivity.
Qed.

(** The rune index of the byte offset of a rune is that rune. *)
Lemma RuneIndex_RuneOffset (dc : list (list byte)) (r : Z) :
  Forall Utf8.good dc -> 0 <= r <= Z.of_nat (List.length dc) ->
  RuneIndex (concat dc) (tb_RuneOffset (concat dc) r) = r.
Proof.
  intros Hg Hr. unfold RuneIndex.
  rewrite RuneOffset_runes, runes_concat_good by exact Hg.
  unfold len. rewrite Nat2Z.id.
  rewrite <- (take_drop (Z.to_nat r) dc) at 2.
  rewrite List.concat_app, take_app_length.
  unfold Utf8.RuneCount.
  rewrite runes_concat_good by (apply Forall_take; exact Hg).
  rewrite length_take. lia.
Qed.

Lemma document_chunks pt ps doc :
  doc_ok pt ps -> document pt = Some doc -> doc = concat (doc_chunks pt ps).
Proof. intros Hd H. rewrite (document_spec _ _ Hd) in H. congruence. Qed.

(** C6: on a well-formed document, for a rune index in range
    [RuneOffset] is the byte offset the forward walk over the document
    reaches, converting that byte offset back gives the rune index, and
    a byte offset at a rune boundary converted to a rune index and back
    is the same byte offset. *)
Theorem C6_RuneOffset_roundtrip pt ps doc :
  doc_ok pt ps -> document pt = Some doc ->
  (forall r, 0 <= r <= seqLength pt ->
     RuneOffset (NewReader pt) r = Some (forward_walk doc r) /\
     RuneIndex doc (forward_walk doc r) = r) /\
  (forall b k, 0 <= k <= seqLength pt -> b = forward_walk doc k ->
     RuneOffset (NewReader pt) (RuneIndex doc b) = Some b).
Proof.
  intros Hd Hdoc. pose proof (document_chunks _ _ _ Hd Hdoc) as ->.
  pose proof Hd as (Hl & Hvo & Hvm & Hok & Hsl & Hsb).
  pose proof (doc_chunks_count _ _ Hok) as Hcnt.
  pose proof (doc_chunks_good pt ps Hvo Hvm) as Hg.
  assert (H1 : forall r, 0 <= r <= seqLength pt ->
     RuneOffset (NewReader pt) r
     = Some (forward_walk (concat (doc_chunks pt ps)) r) /\
     RuneIndex (concat (doc_chunks pt ps))
               (forward_walk (concat (doc_chunks pt ps)) r) = r).
  { intros r Hr. rewrite forward_walk_spec. split.
    - apply RuneOffset_spec; [exact Hd | lia].
    - apply RuneIndex_RuneOffset; [exact Hg | lia]. }
  split; [exact H1|].
  intros b k Hk ->. destruct (H1 k Hk) as [H2 H3]. rewrite H3. exact H2.
Qed.

(** A document with runes of one, two and three bytes in three pieces. *)
Lemma mixed_table_ok : exists ps, doc_ok mixed_table ps.
Proof.
  destruct (NewPieceTable_doc (B "héllo")) as (pt0 & ps0 & HN & Hinv0 & _).
  { vm_compute. reflexivity. }
  assert (E : Some pt0 = NewPieceTable (B "héllo")) by (symmetry; exact HN).
  vm_compute in E. injection E as ->.
  match type of Hinv0 with doc_inv ?t _ => set (pt0 := t) in * end.
  assert (Hr : 0 <= 3 <= seqLength pt0) by (split; vm_compute; discriminate).
  destruct (Insert_doc pt0 ps0 3 (B "日本") Hinv0 Hr) as (pt1 & ps1 & HI & [Hd _] & _).
  { vm_compute. reflexivity. }
  { discriminate. }
  assert (E : Some (true, pt1) = Insert pt0 3 (B "日本")) by (symmetry; exact HI).
  vm_compute in E. injection E as ->.
  exists ps1. exact Hd.
Qed.

(** The theorem on that document, at the rune of index 4 and at the
    byte offset of the rune of index 5. *)
Lemma C6_RuneOffset_roundtrip_witness :
  RuneOffset (NewReader mixed_table) 4 = Some 7 /\
  RuneIndex (B "hél日本lo") 7 = 4 /\
  RuneOffset (NewReader mixed_table) (RuneIndex (B "hél日本lo") 10) = Some 10.
Proof.
  destruct mixed_table_ok as [ps Hd].
  assert (Hdoc : document mixed_table = Some (B "hél日本lo"))
    by (vm_compute; reflexivity).
  destruct (C6_RuneOffset_roundtrip mixed_table ps (B "hél日本lo") Hd Hdoc)
    as [H1 H2].
  destruct (H1 4 ltac:(split; vm_compute; discriminate)) as [Ha Hb].
  change (forward_walk (B "hél日本lo") 4) with 7 in Ha, Hb.
  split; [exact Ha|]. split; [exact Hb|].
  apply (H2 10 5); [split; vm_compute; discriminate | vm_compute; reflexivity].
Defined.

End RuneOffsetProps.

(** ** ReadAt at any offset, Read, Text and ReadRuneAt *)

Section ReadAtGeneral.
Import Buffer.
Implicit Types (pt : PieceTable) (ps body : list nat) (doc p out : list byte).

(** The bytes of a piece from byte [o] of it on, as [ReadAt] takes them
    out of the buffer. *)
Lemma piece_ok_text_from (pc : piece) pt (o : Z) :
  piece_ok pt pc -> 0 <= o <= byteLength pc ->
  tb_getTextByRange (getBuf pt (source pc)) (byteOff pc + o) (byteLength pc - o)
  = Some (drop (Z.to_nat o) (piece_bytes pt pc)).
Proof.
  intros Hok Ho. pose proof (piece_ok_text _ _ Hok) as H.
  pose proof (piece_ok_bytes _ _ Hok) as Hbl.
  unfold tb_getTextByRange in *.
  destruct ((0 <=? byteOff pc) && (0 <=? byteLength pc)
            && (byteOff pc + byteLength pc <=? len (getBuf pt (source pc))))
    eqn:E; [|discriminate H].
  injection H as H.
  apply andb_true_iff in E as [E E3]. apply andb_true_iff in E as [E1 E2].
  apply Z.leb_le in E1, E2, E3.
  replace ((0 <=? byteOff pc + o) && (0 <=? byteLength pc - o)
           && (byteOff pc + o + (byteLength pc - o)
               <=? len (getBuf pt (source pc)))) with true
    by (symmetry; rewrite !andb_true_iff, !Z.leb_le; lia).
  f_equal. rewrite <- H.
  replace (Z.to_nat (byteOff pc + o))
    with (Z.to_nat (byteOff pc) + Z.to_nat o)%nat by lia.
  rewrite <- drop_drop, take_drop_commute. f_equal. f_equal. lia.
Qed.

(** The loop of [ReadAt] entered at the pieces [body], [bytes] being
    the bytes of the pieces before them: it copies the bytes of the
    document from [offset] on, as many as the destination takes. *)
Lemma ReadAt_loop_spec pt body :
  forall fuel out p (total bytes offset : Z),
    seg (pieces pt) (body ++ [tail]) -> tail ∉ body ->
    Forall (fun a => piece_ok pt (piece_at (pieces pt) a)) body ->
    (List.length (body ++ [tail]) <= fuel)%nat ->
    bytes <= offset ->
    ReadAt_loop fuel pt (List.hd tail (body ++ [tail])) out p total
                (total + len p) bytes offset
    = Some (out ++ take (List.length p)
                        (drop (Z.to_nat (offset - bytes))
                              (concat (doc_chunks pt body))),
            drop (List.length
                    (take (List.length p)
                          (drop (Z.to_nat (offset - bytes))
                                (concat (doc_chunks pt body))))) p,
            total + len (take (List.length p)
                              (drop (Z.to_nat (offset - bytes))
                                    (concat (doc_chunks pt body))))).
Proof.
  induction body as [|x body IH]; intros fuel out p total bytes offset
                                         Hseg Ht Hok Hf Hle.
  - destruct fuel as [|f]; [cbn in Hf; lia|]. cbn [ReadAt_loop app List.hd].
    change (Nat.eqb tail tail) with true. cbv iota.
    change (concat (doc_chunks pt [])) with (@List.nil byte).
    rewrite drop_nil, take_nil, app_nil_r. unfold len. cbn [List.length drop].
    repeat f_equal. lia.
  - destruct fuel as [|f]; [cbn in Hf; lia|].
    assert (Hx : x <> tail) by (intros ->; apply Ht; left).
    assert (Ht' : tail ∉ body) by (intros H; apply Ht; right; exact H).
    inversion Hok as [|? ? Hokx Hok']; subst.
    change ((x :: body) ++ [tail]) with (x :: body ++ [tail]) in *.
    assert (Hlink : linked (pieces pt) x (List.hd tail (body ++ [tail])) /\
                    seg (pieces pt) (body ++ [tail])).
    { destruct body; cbn in Hseg |- *; tauto. }
    destruct Hlink as [Hlink Hseg'].
    destruct (linked_lookup _ _ _ Hlink) as (pc & _ & Hpc & Hnx & _).
    pose proof (piece_at_lookup _ _ _ Hpc) as Hat.
    rewrite Hat in Hokx.
    pose proof (piece_ok_bytes _ _ Hokx) as Hbl.
    cbn [ReadAt_loop List.hd]. rewrite (proj2 (Nat.eqb_neq x tail) Hx), Hpc.
    rewrite doc_chunks_cons, Hat, List.concat_app.
    fold (piece_bytes pt pc).
    set (PB := piece_bytes pt pc) in *.
    set (D := concat (doc_chunks pt body)) in *.
    set (o := Z.to_nat (offset - bytes)).
    assert (Hlen : List.length PB = Z.to_nat (byteLength pc))
      by (unfold len in Hbl; lia).
    destruct (offset <? bytes + byteLength pc) eqn:Hlt.
    + apply Z.ltb_lt in Hlt.
      replace (byteOff pc + byteLength pc - (bytes + byteLength pc - offset))
        with (byteOff pc + (offset - bytes)) by lia.
      replace (bytes + byteLength pc - offset)
        with (byteLength pc - (offset - bytes)) by lia.
      rewrite (piece_ok_text_from _ _ (offset - bytes) Hokx) by lia.
      fold o. fold PB. unfold copy.
      set (frag := drop o PB).
      assert (Hfrag : List.length frag = (List.length PB - o)%nat)
        by (unfold frag; apply length_drop).
      rewrite (drop_app_le PB D o) by lia. fold frag.
      destruct (Nat.le_gt_cases (List.length p) (List.length frag)) as [Hfit|Hmore].
      * rewrite Nat.min_l by exact Hfit.
        rewrite (take_app_le frag D) by exact Hfit.
        replace (total + len p <=? total + len (take (List.length p) frag))
          with true
          by (symmetry; apply Z.leb_le; unfold len; rewrite length_take; lia).
        rewrite (length_take_le frag) by exact Hfit. reflexivity.
      * rewrite Nat.min_r by lia.
        rewrite (take_ge frag) by lia.
        replace (total + len p <=? total + len frag) with false
          by (symmetry; apply Z.leb_gt; unfold len; lia).
        rewrite Hnx.
        specialize (IH f (out ++ frag) (drop (List.length frag) p)
                      (total + len frag) (bytes + byteLength pc)
                      (offset + len frag) Hseg' Ht' Hok'
                      ltac:(cbn in Hf; lia)
                      ltac:(unfold len; lia)).
        replace (total + len frag + len (drop (List.length frag) p))
          with (total + len p) in IH
          by (unfold len; rewrite length_drop; lia).
        replace (Z.to_nat (offset + len frag - (bytes + byteLength pc)))
          with 0%nat in IH by (unfold len; lia).
        rewrite IH. cbn [drop].
        rewrite (take_app_ge frag D) by lia.
        rewrite length_drop, <- app_assoc, drop_drop.
        change (drop 0 D) with D.
        rewrite length_app, len_app, Z.add_assoc. reflexivity.
    + apply Z.ltb_ge in Hlt. rewrite Hnx.
      rewrite (drop_app_ge PB D o) by lia.
      specialize (IH f out p total (bytes + byteLength pc) offset
                    Hseg' Ht' Hok' ltac:(cbn in Hf; lia) ltac:(lia)).
      replace (Z.to_nat (offset - (bytes + byteLength pc)))
        with (o - List.length PB)%nat in IH
        by (unfold o; unfold len in Hbl; lia).
      exact IH.
Qed.

(** What [ReadAt] delivers for the bytes [doc] of a document. *)
Lemma ReadAt_doc pt ps p (offset : Z) lns lp c :
  doc_ok pt ps -> 0 <= offset ->
  let w := take (List.length p)
                (drop (Z.to_nat offset) (concat (doc_chunks pt ps))) in
  ReadAt (mkReader pt lns lp c) p offset
  = Some (w ++ drop (List.length w) p, len w,
          if len w <? len p then EOF else nil).
Proof.
  intros Hd Hoff w. pose proof Hd as (Hl & Hvo & Hvm & Hok & Hsl & Hsb).
  pose proof (doc_chunks_bytes _ _ Hok) as Hbytes.
  unfold ReadAt. cbn [table].
  destruct (len p =? 0) eqn:Hp0.
  - apply Z.eqb_eq, len_zero_nil in Hp0. subst p. subst w.
    cbn [List.length take]. reflexivity.
  - apply Z.eqb_neq in Hp0.
    destruct (seqBytes pt <=? offset) eqn:Hge.
    + apply Z.leb_le in Hge.
      assert (Hw : w = []).
      { subst w. rewrite drop_ge by (unfold len in Hbytes; lia).
        apply take_nil. }
      rewrite Hw. cbn [app List.length drop]. change (len []) with 0.
      replace (0 <? len p) with true
        by (symmetry; apply Z.ltb_lt; pose proof (len_nonneg p); lia).
      reflexivity.
    + rewrite (is_list_Head _ _ Hl). cbv beta iota.
      destruct (is_list_body _ _ Hl) as [Hseg Ht].
      pose proof (is_list_fuel _ _ Hl) as Hf.
      pose proof (ReadAt_loop_spec pt ps (List.length (pieces pt)) [] p 0 0
                    offset Hseg Ht Hok ltac:(lia) Hoff) as H.
      rewrite Z.add_0_l, Z.sub_0_r in H. rewrite H. cbv beta iota.
      fold w. rewrite !Z.add_0_l. reflexivity.
Qed.

End ReadAtGeneral.

(** ** The reader on a well-formed document *)

Section ReaderProps.
Import Buffer.
Implicit Types (pt : PieceTable) (ps : list nat) (doc p buf : list byte).

Lemma width_le_4 (p : list byte) : (Utf8.width p <= 4)%nat.
Proof.
  destruct p as [|c0 t0]; [cbn; lia|].
  unfold Utf8.width, Utf8.DecodeRune.
  destruct (first_cases (b2z c0)) as [H|[H|[H|[H|[H|[H|[H|[H|H]]]]]]]];
    rewrite H; cbn -[b2z Z.of_nat List.length Z.lor Z.land Z.shiftl];
    repeat match goal with
           | |- context [if ?c then _ else _] => destruct c eqn:?
           | |- context [match ?l with [] => _ | _ :: _ => _ end] =>
             destruct l; cbn -[b2z Z.of_nat List.length Z.lor Z.land Z.shiftl] in *
           end; simpl; try lia.
Qed.

Lemma good_length (c : list byte) : Utf8.good c -> (1 <= List.length c <= 4)%nat.
Proof.
  intros (Hne & Hw & _). pose proof (width_le_4 c). rewrite Hw in H.
  destruct c; [congruence|]. cbn in *. lia.
Qed.

Lemma reader_RuneOffset pt lns lp c r :
  RuneOffset (mkReader pt lns lp c) r = RuneOffset (NewReader pt) r.
Proof. reflexivity. Qed.

(** The bytes from the start of rune [r] on. *)
Lemma drop_RuneOffset (dc : list (list byte)) (r : Z) :
  Forall Utf8.good dc ->
  drop (Z.to_nat (tb_RuneOffset (concat dc) r)) (concat dc)
  = concat (drop (Z.to_nat r) dc).
Proof.
  intros Hg. rewrite RuneOffset_runes, runes_concat_good by exact Hg.
  unfold len. rewrite Nat2Z.id.
  rewrite <- (take_drop (Z.to_nat r) dc) at 2.
  rewrite List.concat_app, drop_app_length. reflexivity.
Qed.

Lemma len_take_drop doc (n : nat) (offset : Z) :
  0 <= offset ->
  len (take n (drop (Z.to_nat offset) doc))
  = Z.min (Z.of_nat n) (Z.max 0 (len doc - offset)).
Proof. intros H. unfold len. rewrite length_take, length_drop. lia. Qed.

(** X1: on a well-formed document, [ReadAt(p, offset)] with
    [offset >= 0] copies into the front of [p] the bytes of the document
    text from [offset] on, as many as [p] takes and the document has,
    leaves the rest of [p] as it was, returns their number, and returns
    [io.EOF] exactly when that number is less than [len(p)]. *)
Theorem ReadAt_window pt ps doc p (offset : Z) lns lp c :
  doc_ok pt ps -> document pt = Some doc -> 0 <= offset ->
  let w := take (List.length p) (drop (Z.to_nat offset) doc) in
  ReadAt (mkReader pt lns lp c) p offset
  = Some (w ++ drop (List.length w) p, len w,
          if len w <? len p then EOF else nil) /\
  len w = Z.min (len p) (Z.max 0 (len doc - offset)).
Proof.
  intros Hd Hdoc Hoff. pose proof (document_chunks _ _ _ Hd Hdoc) as ->.
  split; [apply ReadAt_doc; assumption | apply len_take_drop; exact Hoff].
Qed.

(** The theorem on the document "hél日本lo": four bytes asked at byte
    offset 10, two are there. *)
Lemma ReadAt_window_witness :
  ReadAt (NewReader mixed_table) (B "....") 10 = Some (B "lo..", 2, EOF).
Proof.
  destruct mixed_table_ok as [ps Hd].
  assert (Hdoc : document mixed_table = Some (B "hél日本lo"))
    by (vm_compute; reflexivity).
  unfold NewReader.
  rewrite (proj1 (ReadAt_window mixed_table ps (B "hél日本lo") (B "....") 10
                    [] None 0 Hd Hdoc ltac:(lia))).
  vm_compute. reflexivity.
Defined.

(** X2: [Read] returns the bytes at the seek cursor and moves the
    cursor past them, so that two reads in a row deliver, in order, the
    bytes of the document from the cursor on, as many as both
    destinations take. *)
Theorem Read_sequential pt ps doc p1 p2 lns lp (c : Z) :
  doc_ok pt ps -> document pt = Some doc -> 0 <= c ->
  exists r1 out1 n1 e1 r2 out2 n2 e2,
    Read (mkReader pt lns lp c) p1 = Some (r1, out1, n1, e1) /\
    Read r1 p2 = Some (r2, out2, n2, e2) /\
    seekCursor r1 = c + n1 /\ seekCursor r2 = c + n1 + n2 /\
    take (Z.to_nat n1) out1 ++ take (Z.to_nat n2) out2
    = take (List.length p1 + List.length p2) (drop (Z.to_nat c) doc).
Proof.
  intros Hd Hdoc Hc. pose proof (document_chunks _ _ _ Hd Hdoc) as ->.
  set (doc := concat (doc_chunks pt ps)).
  set (w1 := take (List.length p1) (drop (Z.to_nat c) doc)).
  set (w2 := take (List.length p2) (drop (Z.to_nat (c + len w1)) doc)).
  exists (mkReader pt lns lp (c + len w1)), (w1 ++ drop (List.length w1) p1),
         (len w1), (if len w1 <? len p1 then EOF else nil),
         (mkReader pt lns lp (c + len w1 + len w2)),
         (w2 ++ drop (List.length w2) p2),
         (len w2), (if len w2 <? len p2 then EOF else nil).
  split; [|split; [|split; [reflexivity|split; [reflexivity|]]]].
  - unfold Read. cbn [seekCursor].
    rewrite (ReadAt_doc pt ps p1 c lns lp c Hd Hc). reflexivity.
  - unfold Read. cbn [seekCursor].
    rewrite (ReadAt_doc pt ps p2 (c + len w1) lns lp (c + len w1) Hd)
      by (pose proof (len_nonneg w1); lia).
    reflexivity.
  - unfold len. rewrite !Nat2Z.id, !take_app_length.
    unfold w2. replace (Z.to_nat (c + len w1))
      with (Z.to_nat c + List.length w1)%nat by (unfold len; lia).
    rewrite <- drop_drop. set (D := drop (Z.to_nat c) doc) in *.
    destruct (Nat.le_gt_cases (List.length p1) (List.length D)) as [H|H].
    + assert (Hl : List.length w1 = List.length p1)
        by (unfold w1; apply length_take_le; exact H).
      rewrite Hl. unfold w1. apply take_take_drop.
    + assert (Hw : w1 = D) by (unfold w1; apply take_ge; lia).
      rewrite Hw, drop_all, take_nil, app_nil_r.
      symmetry. apply take_ge. lia.
Qed.

(** The theorem on "hél日本lo": three bytes, then five, from byte 1. *)
Lemma Read_sequential_witness :
  exists r1 out1 n1 e1 r2 out2 n2 e2,
    Read (mkReader mixed_table [] None 1) (B "...") = Some (r1, out1, n1, e1) /\
    Read r1 (B ".....") = Some (r2, out2, n2, e2) /\
    seekCursor r1 = 1 + n1 /\ seekCursor r2 = 1 + n1 + n2 /\
    take (Z.to_nat n1) out1 ++ take (Z.to_nat n2) out2
    = take (3 + 5) (drop 1 (B "hél日本lo")).
Proof.
  destruct mixed_table_ok as [ps Hd].
  assert (Hdoc : document mixed_table = Some (B "hél日本lo"))
    by (vm_compute; reflexivity).
  exact (Read_sequential mixed_table ps (B "hél日本lo") (B "...") (B ".....")
           [] None 1 Hd Hdoc ltac:(lia)).
Defined.

(** X3: on a well-formed document, [Text] returns the whole document
    text whatever buffer it is given and wherever the seek cursor was,
    and leaves the cursor at the end of the document. *)
Theorem Text_any_buffer pt ps doc buf lns lp c :
  doc_ok pt ps -> document pt = Some doc ->
  Text (mkReader pt lns lp c) buf = Some (mkReader pt lns lp (seqBytes pt), doc).
Proof.
  intros Hd Hdoc. pose proof (document_chunks _ _ _ Hd Hdoc) as ->.
  pose proof Hd as (Hl & Hvo & Hvm & Hok & Hsl & Hsb).
  pose proof (sum_bytes_nonneg _ _ Hok) as Hnn.
  pose proof (doc_chunks_bytes _ _ Hok) as Hlen.
  unfold Text. cbn [table].
  replace (seqBytes pt <? 0) with false by (symmetry; apply Z.ltb_ge; lia).
  set (b0 := if len buf <? seqBytes pt
             then replicate (Z.to_nat (seqBytes pt)) x00 else buf).
  set (b := take (Z.to_nat (seqBytes pt)) b0).
  assert (Hb : len b = seqBytes pt).
  { unfold b, b0. destruct (len buf <? seqBytes pt) eqn:E;
      unfold len; rewrite length_take.
    - rewrite length_replicate. lia.
    - apply Z.ltb_ge in E. unfold len in E. lia. }
  unfold Seek, with_seekCursor, ReadFull. cbn [table lines lastPiece seekCursor].
  destruct (Z.eq_dec (seqBytes pt) 0) as [H0|H0].
  - assert (Hbn : b = []) by (apply len_zero_nil; lia).
    assert (Hnil : concat (doc_chunks pt ps) = []) by (apply len_zero_nil; lia).
    rewrite Hbn, Hnil, H0. reflexivity.
  - assert (Hpos : 0 < seqBytes pt) by lia.
    cbn [ReadAtLeast_loop]. rewrite Hb.
    replace (0 <? seqBytes pt) with true by (symmetry; apply Z.ltb_lt; lia).
    cbn [andb error_eqb]. unfold Read. cbn [seekCursor].
    rewrite (ReadAt_whole pt ps b lns lp 0 Hd Hb Hpos).
    cbn [with_seekCursor table lines lastPiece seekCursor app Z.add].
    assert (Hall : Z.to_nat (seqBytes pt) = List.length (concat (doc_chunks pt ps)))
      by (unfold len in Hlen; lia).
    rewrite Hall, take_ge, drop_all by lia.
    destruct (List.length b);
      cbn [ReadAtLeast_loop]; rewrite Z.ltb_irrefl; cbn [andb];
      rewrite app_nil_r, Z.add_0_l, take_ge by lia; reflexivity.
Qed.

(** The theorem on "hél日本lo" with a buffer that is too small and a
    cursor in the middle. *)
Lemma Text_any_buffer_witness :
  Text (mkReader mixed_table [] None 5) (B "xy")
  = Some (mkReader mixed_table [] None 12, B "hél日本lo").
Proof.
  destruct mixed_table_ok as [ps Hd].
  assert (Hdoc : document mixed_table = Some (B "hél日本lo"))
    by (vm_compute; reflexivity).
  exact (Text_any_buffer mixed_table ps (B "hél日本lo") (B "xy") [] None 5 Hd Hdoc).
Defined.

(** X4: on a well-formed document, [ReadRuneAt(r)] for [r >= 0]
    returns the rune of index [r] of the document text with a nil
    error, and [(RuneError, io.EOF)] when the document has no rune of
    that index. *)
Theorem ReadRuneAt_spec pt ps doc (r : Z) lns lp c :
  doc_ok pt ps -> document pt = Some doc -> 0 <= r ->
  ReadRuneAt (mkReader pt lns lp c) r
  = Some (match Utf8.to_runes doc !! Z.to_nat r with
          | Some x => (x, nil)
          | None => (Utf8.RuneError, EOF)
          end).
Proof.
  intros Hd Hdoc Hr. pose proof (document_chunks _ _ _ Hd Hdoc) as ->.
  pose proof Hd as (Hl & Hvo & Hvm & Hok & Hsl & Hsb).
  pose proof (doc_chunks_good pt ps Hvo Hvm) as Hg.
  set (dc := doc_chunks pt ps) in *.
  unfold ReadRuneAt. rewrite reader_RuneOffset, (RuneOffset_spec pt ps r Hd Hr).
  cbv beta iota. fold dc. unfold ReadRuneAtBytes.
  rewrite (ReadAt_doc pt ps _ _ lns lp c Hd (RuneOffset_nonneg _ _)).
  cbv beta iota zeta. fold dc.
  rewrite (drop_RuneOffset dc r Hg).
  unfold Utf8.to_runes. rewrite (runes_concat_good dc Hg), list_lookup_fmap.
  change (Z.to_nat Utf8.UTFMax) with 4%nat. rewrite length_replicate.
  set (w := take 4 (concat (drop (Z.to_nat r) dc))).
  replace (Z.to_nat (len w)) with (List.length w) by (unfold len; lia).
  rewrite take_app_length.
  change (len (replicate 4 x00)) with 4.
  destruct (dc !! Z.to_nat r) as [cr|] eqn:E.
  - cbn [fmap option_fmap option_map].
    assert (Hdrop : drop (Z.to_nat r) dc = cr :: drop (S (Z.to_nat r)) dc)
      by (apply drop_S; exact E).
    assert (Hgc : Utf8.good cr).
    { rewrite Forall_forall in Hg. apply Hg.
      apply (list_elem_of_lookup_2 _ (Z.to_nat r)). exact E. }
    pose proof (good_length cr Hgc) as Hlc.
    assert (Hw : w = cr ++ take (4 - List.length cr)
                              (concat (drop (S (Z.to_nat r)) dc))).
    { unfold w. rewrite Hdrop. cbn [concat].
      rewrite take_app, (take_ge cr) by lia. reflexivity. }
    rewrite Hw, (good_decode cr _ Hgc).
    destruct (Utf8.DecodeRune cr) as [x s] eqn:Ed. cbn [fst].
    set (w' := cr ++ take (4 - List.length cr)
                          (concat (drop (S (Z.to_nat r)) dc))).
    assert (Hn : (0 <? len w') = true)
      by (apply Z.ltb_lt; unfold w'; rewrite len_app; unfold len; lia).
    rewrite Hn. destruct (len w' <? 4); reflexivity.
  - cbn [fmap option_fmap option_map].
    assert (Hw : w = []).
    { unfold w. rewrite drop_ge; [reflexivity|].
      apply lookup_ge_None. exact E. }
    rewrite Hw. reflexivity.
Qed.

(** The theorem on "hél日本lo" at the rune of index 4 and past the
    end. *)
Lemma ReadRuneAt_spec_witness :
  ReadRuneAt (NewReader mixed_table) 4 = Some (26412, nil) /\
  ReadRuneAt (NewReader mixed_table) 7 = Some (Utf8.RuneError, EOF).
Proof.
  destruct mixed_table_ok as [ps Hd].
  assert (Hdoc : document mixed_table = Some (B "hél日本lo"))
    by (vm_compute; reflexivity).
  unfold NewReader. split.
  - rewrite (ReadRuneAt_spec mixed_table ps (B "hél日本lo") 4 [] None 0 Hd Hdoc
               ltac:(lia)).
    vm_compute. reflexivity.
  - rewrite (ReadRuneAt_spec mixed_table ps (B "hél日本lo") 7 [] None 0 Hd Hdoc
               ltac:(lia)).
    vm_compute. reflexivity.
Defined.

(** X5: on a well-formed document, [Length] is the number of runes of
    the document text (not its size in bytes, which is [seqBytes]). *)
Theorem Length_is_rune_count pt ps doc :
  doc_ok pt ps -> document pt = Some doc ->
  Length pt = Utf8.RuneCount doc /\ seqBytes pt = len doc.
Proof.
  intros Hd Hdoc. pose proof (document_chunks _ _ _ Hd Hdoc) as ->.
  pose proof Hd as (Hl & Hvo & Hvm & Hok & Hsl & Hsb).
  split.
  - unfold Length, Utf8.RuneCount. rewrite (doc_ok_runes _ _ Hd).
    rewrite doc_chunks_count by exact Hok. exact Hsl.
  - rewrite doc_chunks_bytes by exact Hok. exact Hsb.
Qed.

Lemma Length_is_rune_count_witness :
  Length mixed_table = 7 /\ seqBytes mixed_table = 12.
Proof.
  destruct mixed_table_ok as [ps Hd].
  assert (Hdoc : document mixed_table = Some (B "hél日本lo"))
    by (vm_compute; reflexivity).
  exact (Length_is_rune_count mixed_table ps (B "hél日本lo") Hd Hdoc).
Defined.

(** X6: an accepted [Insert] discards the redo history: [Redo] right
    after it returns false and changes nothing. *)
Theorem Redo_after_Insert pt ps (i : Z) (text : list byte) :
  wf_table pt ps -> 0 <= i <= seqLength pt ->
  exists pt', Insert pt i text = Some (true, pt') /\
              Redo pt' = Some (false, pt').
Proof.
  intros Hwf Hi.
  destruct (Insert_wf pt ps i text Hwf Hi) as (pt' & ps' & HI & _ & Hr & _).
  exists pt'. split; [exact HI|].
  unfold Redo, undoRedo. rewrite Hr. reflexivity.
Qed.

Lemma Redo_after_Insert_witness :
  exists pt', Insert hello_table 2 (B "XY") = Some (true, pt') /\
              Redo pt' = Some (false, pt').
Proof.
  apply (Redo_after_Insert hello_table [2%nat] 2 (B "XY")).
  - exact hello_table_wf.
  - split; vm_compute; discriminate.
Defined.

(** Bytes of the first runes: more runes, more bytes. *)
Lemma RuneOffset_chunks_mono (dc : list (list byte)) (r1 r2 : Z) :
  Forall Utf8.good dc -> 0 <= r1 <= r2 ->
  len (concat (take (Z.to_nat r1) dc)) <= len (concat (take (Z.to_nat r2) dc)) /\
  (r1 < r2 <= Z.of_nat (List.length dc) ->
   len (concat (take (Z.to_nat r1) dc)) < len (concat (take (Z.to_nat r2) dc))).
Proof.
  intros Hg Hr.
  replace (Z.to_nat r2) with (Z.to_nat r1 + Z.to_nat (r2 - r1))%nat by lia.
  rewrite <- take_take_drop, len_concat_app.
  set (k := Z.to_nat (r2 - r1)).
  split; [pose proof (len_nonneg (concat (take k (drop (Z.to_nat r1) dc)))); lia|].
  intros Hlt.
  destruct (drop (Z.to_nat r1) dc) as [|cr rest] eqn:E.
  - apply (f_equal (@List.length _)) in E. rewrite length_drop in E.
    cbn in E. lia.
  - assert (Hgc : Utf8.good cr).
    { rewrite Forall_forall in Hg. apply Hg.
      rewrite <- (take_drop (Z.to_nat r1) dc), E.
      apply elem_of_app. right. left. }
    pose proof (good_length cr Hgc).
    replace k with (S (k - 1)) by lia. cbn [take concat]. rewrite len_app.
    pose proof (len_nonneg (concat (take (k - 1) rest))).
    unfold len in *. lia.
Qed.

(** X7: on a well-formed document [RuneOffset] is monotone, stays
    within the bytes of the document, is the byte size of the document
    from the rune length on, and sends different rune indices in range
    to different byte offsets. *)
Theorem RuneOffset_monotone pt ps (r1 r2 : Z) :
  doc_ok pt ps -> 0 <= r1 <= r2 ->
  exists b1 b2,
    RuneOffset (NewReader pt) r1 = Some b1 /\
    RuneOffset (NewReader pt) r2 = Some b2 /\
    0 <= b1 <= b2 /\ b2 <= seqBytes pt /\
    (seqLength pt <= r2 -> b2 = seqBytes pt) /\
    (r1 < r2 <= seqLength pt -> b1 < b2).
Proof.
  intros Hd Hr. pose proof Hd as (Hl & Hvo & Hvm & Hok & Hsl & Hsb).
  pose proof (doc_chunks_good pt ps Hvo Hvm) as Hg.
  pose proof (doc_chunks_count _ _ Hok) as Hcnt.
  pose proof (doc_chunks_bytes _ _ Hok) as Hbytes.
  eexists _, _.
  split; [apply (RuneOffset_spec pt ps r1 Hd); lia|].
  split; [apply (RuneOffset_spec pt ps r2 Hd); lia|].
  rewrite !RuneOffset_runes, (doc_ok_runes _ _ Hd).
  destruct (RuneOffset_chunks_mono (doc_chunks pt ps) r1 r2 Hg Hr) as [Hm Hs].
  pose proof (len_nonneg (concat (take (Z.to_nat r1) (doc_chunks pt ps)))).
  pose proof (len_concat_take_le (doc_chunks pt ps) (Z.to_nat r2)).
  split; [lia|]. split; [lia|]. split.
  - intros Hge. rewrite take_ge by lia. lia.
  - intros Hlt. apply Hs. lia.
Qed.

Lemma RuneOffset_monotone_witness :
  exists b1 b2,
    RuneOffset (NewReader mixed_table) 3 = Some b1 /\
    RuneOffset (NewReader mixed_table) 5 = Some b2 /\
    0 <= b1 <= b2 /\ b2 <= seqBytes mixed_table /\
    (seqLength mixed_table <= 5 -> b2 = seqBytes mixed_table) /\
    (3 < 5 <= seqLength mixed_table -> b1 < b2).
Proof.
  destruct mixed_table_ok as [ps Hd].
  exact (RuneOffset_monotone mixed_table ps 3 5 Hd ltac:(lia)).
Defined.

End ReaderProps.

(** ** Lines of the document *)

Section LinesProps.
Import Buffer.
Implicit Types (rs : list Z) (lines : list lineInfo) (pt : PieceTable).

Lemma parseLine_loop_acc rs :
  forall n lines,
    parseLine_loop rs n lines
    = (lines ++ fst (parseLine_loop rs n []), snd (parseLine_loop rs n [])).
Proof.
  induction rs as [|c rs IH]; intros n lines.
  - cbn. rewrite app_nil_r. reflexivity.
  - cbn [parseLine_loop]. destruct (c =? lineBreak).
    + rewrite (IH 0 (lines ++ _)), (IH 0 ([] ++ _)). cbn [fst snd app].
      rewrite <- app_assoc. reflexivity.
    + apply IH.
Qed.

(** Entering the loop with [n] runes already counted only lengthens
    the first line. *)
Lemma parseLine_loop_shift rs :
  forall n,
    parseLine_loop rs n []
    = match parseLine_loop rs 0 [] with
      | ([], k) => ([], n + k)
      | (l0 :: rest, k) =>
        (mkLineInfo (li_length l0 + n) (hasLineBreak l0) :: rest, k)
      end.
Proof.
  induction rs as [|c rs IH]; intros n.
  - cbn. f_equal. lia.
  - cbn [parseLine_loop]. destruct (c =? lineBreak).
    + rewrite (parseLine_loop_acc rs 0 ([] ++ [mkLineInfo (n + 1) true])).
      rewrite (parseLine_loop_acc rs 0 ([] ++ [mkLineInfo (0 + 1) true])).
      cbn [app fst snd li_length hasLineBreak].
      replace (0 + 1 + n) with (n + 1) by lia. reflexivity.
    + rewrite (IH (n + 1)), (IH (0 + 1)).
      destruct (parseLine_loop rs 0 []) as [[|l0 rest] k].
      * f_equal. lia.
      * cbn [li_length hasLineBreak].
        replace (li_length l0 + (0 + 1) + n) with (li_length l0 + (n + 1)) by lia.
        reflexivity.
Qed.

Lemma parseLine_loop_app rs1 rs2 :
  forall n,
    parseLine_loop (rs1 ++ rs2) n []
    = (fst (parseLine_loop rs1 n [])
       ++ fst (parseLine_loop rs2 (snd (parseLine_loop rs1 n [])) []),
       snd (parseLine_loop rs2 (snd (parseLine_loop rs1 n [])) [])).
Proof.
  induction rs1 as [|c rs1 IH]; intros n.
  - cbn. destruct (parseLine_loop rs2 n []). reflexivity.
  - cbn [app parseLine_loop]. destruct (c =? lineBreak).
    + rewrite (parseLine_loop_acc (rs1 ++ rs2)), (parseLine_loop_acc rs1), IH.
      cbn [fst snd]. rewrite <- app_assoc. reflexivity.
    + apply IH.
Qed.

(** The lines the loop completes end with a line break and are not
    empty; the runes are all counted. *)
Lemma parseLine_loop_lines rs :
  forall n, 0 <= n ->
    Forall (fun l => hasLineBreak l = true /\ 1 <= li_length l)
           (fst (parseLine_loop rs n [])) /\
    0 <= snd (parseLine_loop rs n []) /\
    lines_runes (fst (parseLine_loop rs n [])) + snd (parseLine_loop rs n [])
    = n + Z.of_nat (List.length rs) /\
    (snd (parseLine_loop rs n []) = 0 <->
     match list.last rs with Some c => c = lineBreak | None => n = 0 end).
Proof.
  induction rs as [|c rs IH]; intros n Hn.
  - cbn. split; [constructor|]. split; [exact Hn|]. split; [lia|]. reflexivity.
  - cbn [parseLine_loop]. destruct (c =? lineBreak) eqn:E.
    + rewrite parseLine_loop_acc. cbn [fst snd app].
      destruct (IH 0 ltac:(lia)) as (H1 & H2 & H3 & H4).
      split; [constructor; [cbn; split; [reflexivity | lia] | exact H1]|].
      split; [exact H2|]. split.
      * cbn [lines_runes fold_right li_length List.length].
        fold (lines_runes (fst (parseLine_loop rs 0 []))). lia.
      * rewrite H4. apply Z.eqb_eq in E.
        destruct rs as [|c' rs']; [cbn; tauto|].
        change (list.last (c :: c' :: rs')) with (list.last (c' :: rs')).
        destruct (list.last (c' :: rs')) eqn:El; [reflexivity|].
        exfalso. apply last_None in El. discriminate El.
    + destruct (IH (n + 1) ltac:(lia)) as (H1 & H2 & H3 & H4).
      split; [exact H1|]. split; [exact H2|]. split.
      * cbn [List.length]. lia.
      * rewrite H4. apply Z.eqb_neq in E.
        destruct rs as [|c' rs']; [cbn; split; [lia | congruence]|].
        change (list.last (c :: c' :: rs')) with (list.last (c' :: rs')).
        destruct (list.last (c' :: rs')) eqn:El; [reflexivity|].
        exfalso. apply last_None in El. discriminate El.
Qed.

Lemma lines_runes_app lines1 lines2 :
  lines_runes (lines1 ++ lines2) = lines_runes lines1 + lines_runes lines2.
Proof.
  induction lines1 as [|l ls IH]; [reflexivity|].
  cbn [app lines_runes fold_right] in *. fold (lines_runes (ls ++ lines2)).
  fold (lines_runes ls). lia.
Qed.

Lemma to_runes_length (text : list byte) :
  Z.of_nat (List.length (Utf8.to_runes text)) = Utf8.RuneCount text.
Proof. unfold Utf8.to_runes, Utf8.RuneCount. rewrite length_map. reflexivity. Qed.

(** X8: [parseLine] splits a text into lines whose rune lengths add up
    to the rune count of the text; every line has at least one rune,
    every line but the last ends with a line break, and the last one
    does exactly when the text ends with a line break. *)
Theorem parseLine_spec (text : list byte) :
  lines_runes (parseLine text) = Utf8.RuneCount text /\
  Forall (fun l => 1 <= li_length l) (parseLine text) /\
  (forall lines1 l lines2,
      parseLine text = lines1 ++ l :: lines2 -> lines2 <> [] ->
      hasLineBreak l = true) /\
  (forall l, list.last (parseLine text) = Some l ->
             exists c, list.last (Utf8.to_runes text) = Some c /\
                       hasLineBreak l = (c =? lineBreak)) /\
  (parseLine text = [] <-> text = []).
Proof.
  unfold parseLine, parseRunes. rewrite <- to_runes_length.
  set (rs := Utf8.to_runes text).
  assert (Hrs : rs = [] <-> text = []).
  { unfold rs, Utf8.to_runes. split.
    - intros H. apply fmap_nil_inv in H.
      destruct text as [|b t]; [reflexivity|].
      rewrite runes_step in H by discriminate. discriminate H.
    - intros ->. reflexivity. }
  destruct (parseLine_loop_lines rs 0 ltac:(lia)) as (H1 & H2 & H3 & H4).
  destruct (parseLine_loop rs 0 []) as [lines n]. cbn [fst snd] in *.
  assert (Hlast : forall c, list.last rs = Some c -> rs <> []).
  { intros c Hc ->. discriminate Hc. }
  destruct (0 <? n) eqn:En.
  - apply Z.ltb_lt in En.
    split; [rewrite lines_runes_app; cbn; lia|].
    split.
    { apply Forall_app. split.
      - eapply Forall_impl; [exact H1|]. cbn. tauto.
      - constructor; [cbn; lia | constructor]. }
    split.
    { intros l1 l l2 E Hne.
      destruct (exists_last Hne) as (l2' & z & ->).
      rewrite app_comm_cons, app_assoc in E.
      apply app_inj_tail in E as [E _].
      rewrite Forall_forall in H1.
      apply (H1 l). rewrite E. apply elem_of_app. right. left. }
    split.
    { intros l Hl. rewrite last_snoc in Hl. injection Hl as <-.
      destruct (list.last rs) as [c|] eqn:El.
      - exists c. split; [reflexivity|]. cbn.
        symmetry. apply Z.eqb_neq. intros Hc. apply H4 in Hc. lia.
      - exfalso. assert (n = 0) by (apply H4; reflexivity). lia. }
    split.
    { intros H. destruct lines; discriminate H. }
    { intros Ht. apply Hrs in Ht. rewrite Ht in H3. cbn in H3.
      assert (0 <= lines_runes lines).
      { clear -H1. induction H1 as [|l ls [_ Hl] _ IH]; [cbn; lia|].
        cbn [lines_runes fold_right]. fold (lines_runes ls). lia. }
      lia. }
  - apply Z.ltb_ge in En. assert (n = 0) by lia. subst n.
    split; [lia|].
    split; [eapply Forall_impl; [exact H1|]; cbn; tauto|].
    split.
    { intros l1 l l2 E Hne. rewrite Forall_forall in H1.
      apply (H1 l). rewrite E. apply elem_of_app. right. left. }
    split.
    { intros l Hl.
      destruct (list.last rs) as [c|] eqn:El.
      - exists c. split; [reflexivity|].
        assert (Hc : c = lineBreak) by (apply H4; reflexivity).
        rewrite Forall_forall in H1.
        destruct (H1 l) as [Hb _].
        { apply last_Some in Hl as [l' ->]. apply elem_of_app. right. left. }
        rewrite Hb. symmetry. apply Z.eqb_eq. exact Hc.
      - apply last_None in El. rewrite El in H3. cbn in H3.
        assert (Hz : lines_runes lines = 0) by lia.
        apply last_Some in Hl as [l' ->].
        rewrite lines_runes_app in Hz. cbn in Hz.
        apply Forall_app in H1 as [H1a H1b].
        apply Forall_cons in H1b as [[_ Hl1] _].
        assert (0 <= lines_runes l').
        { clear -H1a. induction H1a as [|x ls [_ Hx] _ IH]; [cbn; lia|].
          cbn [lines_runes fold_right]. fold (lines_runes ls). lia. }
        lia. }
    rewrite <- Hrs. split.
    { intros ->. cbn in H3. destruct rs; [reflexivity|]. cbn in H3. lia. }
    { intros Ht. rewrite Ht in H3. cbn in H3. destruct lines as [|l ls]; [reflexivity|].
      apply Forall_cons in H1 as [[_ Hl1] H1].
      assert (0 <= lines_runes ls).
      { clear -H1. induction H1 as [|x ls [_ Hx] _ IH]; [cbn; lia|].
        cbn [lines_runes fold_right]. fold (lines_runes ls). lia. }
      cbn [lines_runes fold_right] in H3. fold (lines_runes ls) in H3. lia. }
Qed.

Lemma lineInfo_eta (l : lineInfo) :
  mkLineInfo (li_length l + 0) (hasLineBreak l) = l.
Proof. destruct l. cbn. rewrite Z.add_0_r. reflexivity. Qed.

(** Parsing two rune sequences one after the other and merging, as
    [Lines] does, is parsing them as one. *)
Lemma parseRunes_app rs1 rs2 :
  add_lines (parseRunes rs1) (parseRunes rs2) = parseRunes (rs1 ++ rs2).
Proof.
  unfold parseRunes. rewrite parseLine_loop_app.
  rewrite (parseLine_loop_shift rs2 (snd (parseLine_loop rs1 0 []))).
  destruct (parseLine_loop_lines rs1 0 ltac:(lia)) as (F1 & Hn1 & _ & _).
  destruct (parseLine_loop_lines rs2 0 ltac:(lia)) as (_ & Hn2 & _ & _).
  destruct (parseLine_loop rs1 0 []) as [l1 n1].
  destruct (parseLine_loop rs2 0 []) as [l2 n2]. cbn [fst snd] in *.
  assert (Hlast : forall x, list.last l1 = Some x -> hasLineBreak x = true).
  { intros x Hx. apply last_Some in Hx as [l' ->].
    apply Forall_app in F1 as [_ F1]. apply Forall_cons in F1 as [[F1 _] _].
    exact F1. }
  destruct (0 <? n1) eqn:E1.
  - apply Z.ltb_lt in E1.
    destruct l2 as [|l0 rest].
    + cbn [fst snd app]. rewrite app_nil_r.
      destruct (0 <? n2) eqn:E2.
      * apply Z.ltb_lt in E2.
        replace (0 <? n1 + n2) with true by (symmetry; apply Z.ltb_lt; lia).
        unfold add_lines. cbn [app]. rewrite last_snoc. cbn [hasLineBreak negb].
        rewrite removelast_last. cbn [li_length].
        replace (n2 + n1) with (n1 + n2) by lia. reflexivity.
      * apply Z.ltb_ge in E2. assert (n2 = 0) by lia. subst n2.
        rewrite Z.add_0_r.
        replace (0 <? n1) with true by (symmetry; apply Z.ltb_lt; lia).
        reflexivity.
    + cbn [fst snd].
      assert (Hm : add_lines (l1 ++ [mkLineInfo n1 false])
                     ((l0 :: rest) ++ (if 0 <? n2 then [mkLineInfo n2 false] else []))
                   = l1 ++ mkLineInfo (li_length l0 + n1) (hasLineBreak l0)
                        :: rest ++ (if 0 <? n2 then [mkLineInfo n2 false] else [])).
      { unfold add_lines. cbn [app]. rewrite last_snoc. cbn [hasLineBreak negb].
        rewrite removelast_last. reflexivity. }
      destruct (0 <? n2); cbn [app] in Hm |- *.
      * rewrite Hm, <- app_assoc. reflexivity.
      * rewrite app_nil_r in Hm. rewrite Hm. reflexivity.
  - apply Z.ltb_ge in E1. assert (n1 = 0) by lia. subst n1.
    assert (Hadd : forall new, new <> [] -> add_lines l1 new = l1 ++ new).
    { intros new Hne. unfold add_lines. destruct new; [congruence|].
      destruct (list.last l1) as [x|] eqn:El; [|reflexivity].
      rewrite (Hlast x eq_refl). reflexivity. }
    destruct l2 as [|l0 rest]; cbn [fst snd].
    + rewrite Z.add_0_l, app_nil_r.
      destruct (0 <? n2); [apply Hadd; discriminate | reflexivity].
    + rewrite lineInfo_eta.
      destruct (0 <? n2).
      * rewrite Hadd by discriminate. rewrite app_assoc. reflexivity.
      * apply Hadd. discriminate.
Qed.

Lemma to_runes_app (a b : list byte) :
  Utf8.Valid a = true -> Utf8.to_runes (a ++ b) = Utf8.to_runes a ++ Utf8.to_runes b.
Proof.
  intros H. unfold Utf8.to_runes. rewrite runes_app by exact H. apply map_app.
Qed.

Lemma parseLine_app (a b : list byte) :
  Utf8.Valid a = true ->
  add_lines (parseLine a) (parseLine b) = parseLine (a ++ b).
Proof.
  intros H. unfold parseLine. rewrite to_runes_app by exact H.
  apply parseRunes_app.
Qed.

(** The loop of [Lines] entered at the pieces [body] with the lines of
    the text [A] before them. *)
Lemma Lines_loop_spec pt body :
  Utf8.Valid (originalBuf pt) = true -> Utf8.Valid (modifyBuf pt) = true ->
  forall fuel (A : list byte),
    seg (pieces pt) (body ++ [tail]) -> tail ∉ body ->
    Forall (fun a => piece_ok pt (piece_at (pieces pt) a)) body ->
    (List.length (body ++ [tail]) <= fuel)%nat ->
    Utf8.Valid A = true ->
    Lines_loop fuel pt (List.hd tail (body ++ [tail])) (parseLine A)
    = Some (parseLine (A ++ concat (doc_chunks pt body))).
Proof.
  intros Hvo Hvm.
  induction body as [|x body IH]; intros fuel A Hseg Ht Hok Hf HA.
  - destruct fuel as [|f]; [cbn in Hf; lia|]. cbn. rewrite app_nil_r. reflexivity.
  - destruct fuel as [|f]; [cbn in Hf; lia|].
    assert (Hx : x <> tail) by (intros ->; apply Ht; left).
    assert (Ht' : tail ∉ body) by (intros H; apply Ht; right; exact H).
    inversion Hok as [|? ? Hokx Hok']; subst.
    change ((x :: body) ++ [tail]) with (x :: body ++ [tail]) in *.
    assert (Hlink : linked (pieces pt) x (List.hd tail (body ++ [tail])) /\
                    seg (pieces pt) (body ++ [tail])).
    { destruct body; cbn in Hseg |- *; tauto. }
    destruct Hlink as [Hlink Hseg'].
    destruct (linked_lookup _ _ _ Hlink) as (pc & _ & Hpc & Hnx & _).
    pose proof (piece_at_lookup _ _ _ Hpc) as Hat.
    rewrite Hat in Hokx.
    cbn [Lines_loop List.hd]. rewrite (proj2 (Nat.eqb_neq x tail) Hx), Hpc.
    rewrite (piece_ok_text _ _ Hokx), Hnx. cbv beta iota.
    rewrite (parseLine_app A _ HA).
    assert (HPB : Utf8.Valid (piece_bytes pt pc) = true).
    { apply Valid_concat, chunks_good, getBuf_valid; assumption. }
    rewrite (IH f (A ++ piece_bytes pt pc) Hseg' Ht' Hok'
               ltac:(cbn in Hf; lia) (Valid_app _ _ HA HPB)).
    rewrite doc_chunks_cons, Hat, List.concat_app, <- app_assoc. reflexivity.
Qed.

(** X9: on a well-formed document, [Lines] rebuilds the line table as
    that of the whole document text: piece boundaries leave no trace,
    and the number returned is the number of its lines. *)
Theorem Lines_spec pt ps doc lns lp c :
  doc_ok pt ps -> document pt = Some doc ->
  Lines (mkReader pt lns lp c)
  = Some (mkReader pt (parseLine doc) lp c,
          Z.of_nat (List.length (parseLine doc))).
Proof.
  intros Hd Hdoc. pose proof (document_chunks _ _ _ Hd Hdoc) as ->.
  pose proof Hd as (Hl & Hvo & Hvm & Hok & Hsl & Hsb).
  unfold Lines. cbn [table lastPiece seekCursor].
  rewrite (is_list_Head _ _ Hl). cbv beta iota.
  destruct (is_list_body _ _ Hl) as [Hseg Ht].
  pose proof (is_list_fuel _ _ Hl) as Hf.
  change (@List.nil lineInfo) with (parseLine []).
  rewrite (Lines_loop_spec pt ps Hvo Hvm (List.length (pieces pt)) []
             Hseg Ht Hok ltac:(lia) eq_refl).
  reflexivity.
Qed.

Lemma lines_table_ok :
  exists ps, doc_ok lines_table ps /\
             document lines_table
             = Some (B "ax" ++ [x0a] ++ B "yb" ++ [x0a] ++ B "cd").
Proof.
  destruct (NewPieceTable_doc (B "ab" ++ [x0a] ++ B "cd"))
    as (pt0 & ps0 & HN & Hinv0 & _).
  { vm_compute. reflexivity. }
  assert (E : Some pt0 = NewPieceTable (B "ab" ++ [x0a] ++ B "cd"))
    by (symmetry; exact HN).
  vm_compute in E. injection E as ->.
  match type of Hinv0 with doc_inv ?t _ => set (pt0 := t) in * end.
  assert (Hr : 0 <= 1 <= seqLength pt0) by (split; vm_compute; discriminate).
  destruct (Insert_doc pt0 ps0 1 (B "x" ++ [x0a] ++ B "y") Hinv0 Hr)
    as (pt1 & ps1 & HI & [Hd _] & _).
  { vm_compute. reflexivity. }
  { discriminate. }
  assert (E : Some (true, pt1) = Insert pt0 1 (B "x" ++ [x0a] ++ B "y"))
    by (symmetry; exact HI).
  vm_compute in E. injection E as ->.
  exists ps1. split; [exact Hd|]. vm_compute. reflexivity.
Qed.

(** The theorem on the document "ax\nyb\ncd" held in the pieces "a",
    "x\ny" and "b\ncd". *)
Lemma Lines_spec_witness :
  exists r, Lines (NewReader lines_table) = Some (r, 3) /\
            lines r = [mkLineInfo 3 true; mkLineInfo 3 true; mkLineInfo 2 false].
Proof.
  destruct lines_table_ok as (ps & Hd & Hdoc).
  eexists. unfold NewReader.
  rewrite (Lines_spec lines_table ps _ [] None 0 Hd Hdoc).
  split; reflexivity.
Defined.

End LinesProps.

(** ** Paragraph lookup, tab stops and words *)

Section TextviewProps.
Import Layout Textview.
Implicit Types (ps : list Paragraph) (p q : Paragraph) (rs : list Z).

Lemma index_nat {A} (l : list A) (i : nat) : index l (Z.of_nat i) = l !! i.
Proof.
  unfold index. replace (Z.of_nat i <? 0) with false
    by (symmetry; apply Z.ltb_ge; lia).
  rewrite Nat2Z.id. reflexivity.
Qed.

Lemma index_lookup {A} (l : list A) (x : Z) :
  0 <= x -> index l x = l !! Z.to_nat x.
Proof.
  intros Hx. unfold index. replace (x <? 0) with false
    by (symmetry; apply Z.ltb_ge; lia).
  reflexivity.
Qed.

(** The binary search finds the least index at which a monotone
    predicate is true. *)
Lemma Search_loop_spec (f : Z -> option bool) (g : Z -> bool) (n : Z) :
  (forall x, 0 <= x < n -> f x = Some (g x)) ->
  (forall x y, 0 <= x <= y -> y < n -> g x = true -> g y = true) ->
  forall (fuel : nat) (i j : Z),
    0 <= i <= j -> j <= n -> (Z.to_nat (j - i) < fuel)%nat ->
    (forall x, 0 <= x < i -> g x = false) ->
    (forall x, j <= x < n -> g x = true) ->
    exists k, Search_loop fuel f i j = Some k /\ i <= k <= j /\
              (forall x, 0 <= x < k -> g x = false) /\
              (forall x, k <= x < n -> g x = true).
Proof.
  intros Hf Hmono. induction fuel as [|fuel IH]; intros i j Hij Hjn Hfuel Hlo Hhi;
    [lia|].
  cbn [Search_loop]. destruct (i <? j) eqn:E.
  - apply Z.ltb_lt in E.
    assert (Hh : i <= Z.shiftr (i + j) 1 < j).
    { rewrite Z.shiftr_div_pow2 by lia. change (2 ^ 1) with 2.
      pose proof (Z.div_mod (i + j) 2 ltac:(lia)).
      pose proof (Z.mod_pos_bound (i + j) 2 ltac:(lia)). lia. }
    set (h := Z.shiftr (i + j) 1) in *.
    rewrite (Hf h) by lia. destruct (g h) eqn:Eg; cbn [negb].
    + destruct (IH i h ltac:(lia) ltac:(lia) ltac:(lia) Hlo) as (k & H1 & H2 & H3 & H4).
      { intros x Hx. apply (Hmono h x); [lia | lia | exact Eg]. }
      exists k. split; [exact H1|]. split; [lia|]. split; assumption.
    + destruct (IH (h + 1) j ltac:(lia) ltac:(lia) ltac:(lia)) as (k & H1 & H2 & H3 & H4).
      { intros x Hx. destruct (g x) eqn:Ex; [|reflexivity].
        rewrite (Hmono x h) in Eg; [discriminate | lia | lia | exact Ex]. }
      { exact Hhi. }
      exists k. split; [exact H1|]. split; [lia|]. split; assumption.
  - apply Z.ltb_ge in E. exists i. split; [reflexivity|].
    split; [lia|]. split; [exact Hlo|].
    intros x Hx. apply Hhi. lia.
Qed.

Lemma Search_spec (f : Z -> option bool) (g : Z -> bool) (n : Z) :
  0 <= n ->
  (forall x, 0 <= x < n -> f x = Some (g x)) ->
  (forall x y, 0 <= x <= y -> y < n -> g x = true -> g y = true) ->
  exists k, Search n f = Some k /\ 0 <= k <= n /\
            (forall x, 0 <= x < k -> g x = false) /\
            (forall x, k <= x < n -> g x = true).
Proof.
  intros Hn Hf Hmono. unfold Search.
  apply (Search_loop_spec f g n Hf Hmono); try lia.
Qed.

(** *** Paragraphs that follow one another *)

Lemma total_runes_app ps1 ps2 :
  total_runes (ps1 ++ ps2) = total_runes ps1 + total_runes ps2.
Proof.
  unfold total_runes. induction ps1 as [|p t IH]; cbn [app fold_right]; lia.
Qed.

Lemma contiguous_nonneg (off : Z) ps :
  contiguous off ps -> Forall (fun p => 0 <= PRunes p) ps.
Proof.
  revert off. induction ps as [|p t IH]; intros off H; constructor.
  - apply H.
  - apply (IH (off + PRunes p)), H.
Qed.

Lemma total_runes_nonneg ps :
  Forall (fun p => 0 <= PRunes p) ps -> 0 <= total_runes ps.
Proof.
  induction 1 as [|p t Hp H IH]; unfold total_runes in *; cbn [fold_right]; lia.
Qed.

Lemma contiguous_lookup (off : Z) ps (i : nat) p :
  contiguous off ps -> ps !! i = Some p ->
  PRuneOff p = off + total_runes (take i ps) /\ 0 <= PRunes p.
Proof.
  revert off i. induction ps as [|a t IH]; intros off i H Hi; [discriminate Hi|].
  destruct H as (Ha & Hr & Ht). destruct i as [|i].
  - injection Hi as <-. cbn. split; [lia | exact Hr].
  - destruct (IH (off + PRunes a) i Ht Hi) as [H1 H2].
    split; [|exact H2]. rewrite H1. unfold total_runes. cbn [take fold_right]. lia.
Qed.

Lemma total_runes_take_S ps (i : nat) p :
  ps !! i = Some p -> total_runes (take (S i) ps) = total_runes (take i ps) + PRunes p.
Proof.
  intros Hi. rewrite (take_S_r _ _ _ Hi), total_runes_app.
  unfold total_runes. cbn [fold_right]. lia.
Qed.

Lemma total_runes_take_mono ps (i j : nat) :
  Forall (fun p => 0 <= PRunes p) ps -> (i <= j)%nat ->
  total_runes (take i ps) <= total_runes (take j ps).
Proof.
  intros Hnn Hij. replace j with (i + (j - i))%nat by lia.
  rewrite <- take_take_drop, total_runes_app.
  pose proof (total_runes_nonneg (take (j - i) (drop i ps))
                (Forall_take _ _ _ (Forall_drop _ _ _ Hnn))). lia.
Qed.

Lemma total_runes_take_le ps (i : nat) :
  Forall (fun p => 0 <= PRunes p) ps ->
  total_runes (take i ps) <= total_runes ps.
Proof.
  intros Hnn. rewrite <- (take_drop i ps) at 2. rewrite total_runes_app.
  pose proof (total_runes_nonneg (drop i ps) (Forall_drop _ _ _ Hnn)). lia.
Qed.

(** Where the paragraph of index [i] ends. *)
Lemma contiguous_end (off : Z) ps (i : nat) p :
  contiguous off ps -> ps !! i = Some p ->
  PRuneOff p + PRunes p = off + total_runes (take (S i) ps).
Proof.
  intros H Hi. destruct (contiguous_lookup off ps i p H Hi) as [H1 _].
  rewrite (total_runes_take_S ps i p Hi). lia.
Qed.

Lemma Paragraph_eqb_eq p q : Paragraph_eqb p q = true <-> p = q.
Proof.
  unfold Paragraph_eqb. rewrite !andb_true_iff, !Z.eqb_eq.
  destruct p, q; cbn. split.
  - intros (((((-> & ->) & ->) & ->) & ->) & ->). reflexivity.
  - intros H. injection H as -> -> -> -> -> ->. tauto.
Qed.

(** The paragraph that holds a rune. *)
Lemma FindParagraph_found (off : Z) ps (runeIdx : Z) :
  contiguous off ps -> ps <> [] ->
  exists (idx : nat) p,
    FindParagraph ps runeIdx = Some (Z.of_nat idx, p) /\
    ps !! idx = Some p /\
    (off <= runeIdx -> PRuneOff p <= runeIdx) /\
    (runeIdx < off + total_runes ps ->
     runeIdx < PRuneOff p + PRunes p /\
     forall (j : nat) q, (j < idx)%nat -> ps !! j = Some q ->
                         PRuneOff q + PRunes q <= runeIdx) /\
    (off + total_runes ps <= runeIdx -> S idx = List.length ps).
Proof.
  intros Hc Hne.
  pose proof (contiguous_nonneg off ps Hc) as Hnn.
  set (n := Z.of_nat (List.length ps)).
  assert (Hn : 0 < n) by (destruct ps; [congruence | unfold n; cbn; lia]).
  set (f := fun i : Z => let? rng := index ps i in
                         Some (runeIdx <? PRuneOff rng + PRunes rng)).
  set (g := fun i : Z => match index ps i with
                         | Some rng => runeIdx <? PRuneOff rng + PRunes rng
                         | None => true
                         end).
  assert (Hin : forall x, 0 <= x < n -> exists p, index ps x = Some p /\
                                                   ps !! Z.to_nat x = Some p).
  { intros x Hx. destruct (lookup_lt_is_Some_2 ps (Z.to_nat x)) as [p Hp];
      [unfold n in Hx; lia|].
    exists p. split; [|exact Hp]. rewrite index_lookup by lia. exact Hp. }
  assert (Hf : forall x, 0 <= x < n -> f x = Some (g x)).
  { intros x Hx. destruct (Hin x Hx) as (p & Hp & _). unfold f, g.
    rewrite Hp. reflexivity. }
  assert (Hmono : forall x y, 0 <= x <= y -> y < n -> g x = true -> g y = true).
  { intros x y Hxy Hy. destruct (Hin x ltac:(lia)) as (p & Hp & Hp').
    destruct (Hin y ltac:(lia)) as (q & Hq & Hq'). unfold g. rewrite Hp, Hq.
    rewrite !Z.ltb_lt, (contiguous_end off ps _ p Hc Hp'),
      (contiguous_end off ps _ q Hc Hq').
    pose proof (total_runes_take_mono ps (S (Z.to_nat x)) (S (Z.to_nat y)) Hnn
                  ltac:(lia)). lia. }
  destruct (Search_spec f g n ltac:(lia) Hf Hmono) as (k & Hk & Hkn & Hlo & Hhi).
  unfold FindParagraph. fold n.
  replace (n =? 0) with false by (symmetry; apply Z.eqb_neq; lia).
  fold f. rewrite Hk. cbv beta iota.
  assert (Hlast : forall p, ps !! (List.length ps - 1)%nat = Some p ->
                            PRuneOff p + PRunes p = off + total_runes ps).
  { intros p Hp. rewrite (contiguous_end off ps _ p Hc Hp).
    rewrite take_ge by lia. reflexivity. }
  assert (Hgf : forall x p, 0 <= x < n -> ps !! Z.to_nat x = Some p ->
                            g x = false -> PRuneOff p + PRunes p <= runeIdx).
  { intros x p Hx Hp Hg. destruct (Hin x Hx) as (p' & Hp1 & Hp2).
    assert (p' = p) by congruence. subst p'.
    unfold g in Hg. rewrite Hp1 in Hg. apply Z.ltb_ge in Hg. exact Hg. }
  destruct (k =? n) eqn:Ekn.
  - apply Z.eqb_eq in Ekn. subst k.
    destruct (Hin (n - 1) ltac:(lia)) as (p & Hp & Hp'). rewrite Hp.
    replace (Z.to_nat (n - 1)) with (List.length ps - 1)%nat in Hp'
      by (unfold n; lia).
    exists (List.length ps - 1)%nat, p.
    replace (Z.of_nat (List.length ps - 1)) with (n - 1) by (unfold n; lia).
    split; [reflexivity|]. split; [exact Hp'|].
    pose proof (Hlast p Hp') as He.
    assert (Hle : PRuneOff p + PRunes p <= runeIdx).
    { apply (Hgf (n - 1)); [lia | | apply Hlo; lia].
      replace (Z.to_nat (n - 1)) with (List.length ps - 1)%nat by (unfold n; lia).
      exact Hp'. }
    destruct (contiguous_lookup off ps _ p Hc Hp') as [_ Hr].
    split; [lia|]. split; [lia|]. intros _. unfold n in Hn. lia.
  - apply Z.eqb_neq in Ekn.
    destruct (Hin k ltac:(lia)) as (p & Hp & Hp'). rewrite Hp.
    exists (Z.to_nat k), p. rewrite Z2Nat.id by lia.
    split; [reflexivity|]. split; [exact Hp'|].
    assert (Hgk : runeIdx < PRuneOff p + PRunes p).
    { pose proof (Hhi k ltac:(lia)) as Hg. unfold g in Hg. rewrite Hp in Hg.
      apply Z.ltb_lt in Hg. exact Hg. }
    assert (Hbefore : forall (j : nat) q, (j < Z.to_nat k)%nat -> ps !! j = Some q ->
                                          PRuneOff q + PRunes q <= runeIdx).
    { intros j q Hj Hq. apply (Hgf (Z.of_nat j)); [lia | | apply Hlo; lia].
      rewrite Nat2Z.id. exact Hq. }
    split; [|split; [intros _; split; [exact Hgk | exact Hbefore]|]].
    + intros Hoff. destruct (contiguous_lookup off ps _ p Hc Hp') as [Ho _].
      destruct (Z.to_nat k) as [|k'] eqn:Ek.
      * rewrite take_0 in Ho. unfold total_runes in Ho. cbn in Ho. lia.
      * destruct (lookup_lt_is_Some_2 ps k') as [q Hq];
          [apply lookup_lt_Some in Hp'; lia|].
        pose proof (Hbefore k' q ltac:(lia) Hq) as Hb.
        rewrite (contiguous_end off ps _ q Hc Hq) in Hb. lia.
    + intros Hge. exfalso.
      rewrite (contiguous_end off ps _ p Hc Hp') in Hgk.
      pose proof (total_runes_take_le ps (S (Z.to_nat k)) Hnn). lia.
Qed.

(** X19: [FindParagraph] on paragraphs that follow one another
    returns the index and the paragraph that holds the rune: the first
    paragraph that ends after the rune index, so that the rune index
    lies between the start and the end of the paragraph returned when it
    lies within the text; for a rune index at or after the end of the
    text it returns the last paragraph.  Without paragraphs it returns
    index 0 and the zero paragraph. *)
Theorem FindParagraph_spec (off : Z) ps (runeIdx : Z) :
  FindParagraph [] runeIdx = Some (0, Paragraph_zero) /\
  (contiguous off ps -> ps <> [] ->
   exists (idx : nat) p,
     FindParagraph ps runeIdx = Some (Z.of_nat idx, p) /\
     ps !! idx = Some p /\
     (off <= runeIdx -> PRuneOff p <= runeIdx) /\
     (runeIdx < off + total_runes ps ->
      runeIdx < PRuneOff p + PRunes p /\
      forall (j : nat) q, (j < idx)%nat -> ps !! j = Some q ->
                          PRuneOff q + PRunes q <= runeIdx) /\
     (off + total_runes ps <= runeIdx -> S idx = List.length ps)).
Proof.
  split; [reflexivity|]. intros Hc Hne.
  exact (FindParagraph_found off ps runeIdx Hc Hne).
Qed.

(** The theorem on three paragraphs of 5, 3 and 4 runes: the rune of
    index 6 is in the second. *)
Lemma FindParagraph_spec_witness :
  let ps := [mkParagraph 0 0 0 0 5 0; mkParagraph 0 1 0 1 3 5;
             mkParagraph 0 2 0 2 4 8] in
  exists (idx : nat) p,
    FindParagraph ps 6 = Some (Z.of_nat idx, p) /\ ps !! idx = Some p /\
    PRuneOff p <= 6 < PRuneOff p + PRunes p.
Proof.
  intros ps.
  destruct (proj2 (FindParagraph_spec 0 ps 6)
              ltac:(cbn; repeat split; lia) ltac:(discriminate))
    as (idx & p & H1 & H2 & H3 & H4 & _).
  exists idx, p. split; [exact H1|]. split; [exact H2|].
  split; [apply H3; lia | apply H4; vm_compute; reflexivity].
Defined.

(** *** Tab stops *)

Lemma Repeat_space (n : Z) :
  0 <= n -> Repeat [x20] n = Some (replicate (Z.to_nat n) x20).
Proof.
  intros Hn. unfold Repeat.
  replace (n <? 0) with false by (symmetry; apply Z.ltb_ge; lia).
  f_equal. induction (Z.to_nat n) as [|k IH]; [reflexivity|].
  cbn [replicate concat app]. rewrite IH. reflexivity.
Qed.

(** X20: with soft tabs and a positive tab width, [expandTab] turns a
    single tab character typed at the rune [min start end] into spaces,
    at least one and at most the tab width, as many as it takes to
    reach the next tab stop counted from the start of the paragraph that
    [FindParagraph] returns (when that paragraph is the zero paragraph,
    a full tab width of spaces); without soft tabs, or for any other
    text, it returns the text as it is. *)
Theorem expandTab_spec (e : TextView) (off start end' : Z) (s : list byte) :
  (SoftTab e = false \/ s <> [x09] -> expandTab e start end' s = Some s) /\
  (SoftTab e = true -> 0 < TabWidth e ->
   contiguous off (Paragraphs e) ->
   (Paragraphs e <> [] -> off <= Z.min start end') ->
   exists (n idx : Z) p,
     FindParagraph (Paragraphs e) (Z.min start end') = Some (idx, p) /\
     expandTab e start end' [x09] = Some (replicate (Z.to_nat n) x20) /\
     1 <= n <= TabWidth e /\
     (p = Paragraph_zero -> n = TabWidth e) /\
     (p <> Paragraph_zero ->
      0 <= Z.min start end' - PRuneOff p /\
      (Z.min start end' - PRuneOff p + n) mod TabWidth e = 0)).
Proof.
  split.
  - intros H. unfold expandTab. destruct H as [H|H].
    + rewrite H. reflexivity.
    + rewrite (bool_decide_eq_false_2 _ H), orb_true_r. reflexivity.
  - intros Hsoft Hw Hc Hoff. unfold expandTab. rewrite Hsoft.
    rewrite (bool_decide_eq_true_2 _ eq_refl). cbn [negb orb].
    replace (if end' <? start then end' else start) with (Z.min start end')
      by (destruct (end' <? start) eqn:E;
          [apply Z.ltb_lt in E | apply Z.ltb_ge in E]; lia).
    set (st := Z.min start end') in *.
    assert (HF : exists idx p,
               FindParagraph (Paragraphs e) st = Some (idx, p) /\
               (p <> Paragraph_zero -> PRuneOff p <= st)).
    { destruct (Paragraphs e) as [|a t] eqn:Ep.
      - exists 0, Paragraph_zero. split; [reflexivity | congruence].
      - destruct (FindParagraph_found off (a :: t) st Hc ltac:(discriminate))
          as (idx & p & H1 & _ & H3 & _).
        exists (Z.of_nat idx), p. split; [exact H1|].
        intros _. apply H3, Hoff. discriminate. }
    destruct HF as (idx & p & HF & Hle). rewrite HF. cbv beta iota.
    destruct (Paragraph_eqb p Paragraph_zero) eqn:Ez.
    + apply Paragraph_eqb_eq in Ez.
      exists (TabWidth e), idx, p. split; [reflexivity|].
      split; [apply Repeat_space; lia|]. split; [lia|].
      split; [reflexivity | congruence].
    + assert (Hnz : p <> Paragraph_zero).
      { intros E. apply Paragraph_eqb_eq in E. congruence. }
      specialize (Hle Hnz).
      replace (TabWidth e =? 0) with false by (symmetry; apply Z.eqb_neq; lia).
      set (advance := st - PRuneOff p).
      assert (Ha : 0 <= advance) by (unfold advance; lia).
      rewrite Z.quot_div_nonneg by lia.
      pose proof (Z.div_mod advance (TabWidth e) ltac:(lia)) as Hdm.
      pose proof (Z.mod_pos_bound advance (TabWidth e) Hw) as Hmb.
      set (n := (advance / TabWidth e + 1) * TabWidth e - advance).
      exists n, idx, p. split; [reflexivity|].
      split; [apply Repeat_space; unfold n; nia|].
      split; [unfold n; nia|]. split; [congruence|]. intros _.
      split; [exact Ha|].
      replace (st - PRuneOff p + n) with ((advance / TabWidth e + 1) * TabWidth e)
        by (unfold n, advance; lia).
      apply Z_mod_mult.
Qed.

(** The theorem for a tab typed at rune 6 of the second of two
    paragraphs, which starts at rune 4, with tab stops every 4 runes:
    two spaces. *)
Lemma expandTab_spec_witness :
  let e := mkTextView true 4 []
             [mkParagraph 0 0 0 0 4 0; mkParagraph 0 1 0 1 9 4]
             (source_of []) 6 6 in
  expandTab e 6 6 [x09] = Some [x20; x20].
Proof.
  intros e.
  destruct (proj2 (expandTab_spec e 0 6 6 [x09]) eq_refl ltac:(cbn; lia)
              ltac:(cbn; repeat split; lia) ltac:(intros _; cbn; lia))
    as (n & idx & p & HF & HE & Hn & _ & Hm).
  rewrite HE. vm_compute in HF. injection HF as <- <-.
  destruct (Hm ltac:(discriminate)) as [_ Hmod].
  cbn [TabWidth e PRuneOff] in Hn, Hmod.
  assert (En : n = 2).
  { change (Z.min 6 6 - 4) with 2 in Hmod.
    assert (H : n = 1 \/ n = 2 \/ n = 3 \/ n = 4) by lia.
    destruct H as [-> | [-> | [-> | ->]]]; [discriminate Hmod | reflexivity
                                      | discriminate Hmod | discriminate Hmod]. }
  rewrite En. reflexivity.
Defined.

(** *** Words *)

Lemma word_prefix_split (sep : Z -> bool) rs :
  exists rest, rs = word_prefix sep rs ++ rest /\
    Forall (fun x => sep x = false) (word_prefix sep rs) /\
    match rest with x :: _ => sep x = true | [] => True end.
Proof.
  induction rs as [|r t IH]; cbn [word_prefix].
  - exists []. split; [reflexivity|]. split; [constructor | exact Logic.I].
  - destruct (sep r) eqn:E.
    + exists (r :: t). split; [reflexivity|]. split; [constructor | exact E].
    + destruct IH as (rest & H1 & H2 & H3). exists rest.
      split; [cbn [app]; rewrite <- H1; reflexivity|].
      split; [constructor; assumption | exact H3].
Qed.

(** Reading forwards from the rune [c]. *)
Lemma readBySeperator_forward (s : TextSource) rs (sep : Z -> bool) :
  reads s rs ->
  forall (fuel : nat) (c : Z) (buf : list Z),
    0 <= c <= Z.of_nat (List.length rs) ->
    (List.length rs - Z.to_nat c + 1 < fuel)%nat ->
    readBySeperator_loop fuel s 1 c sep buf
    = Some (buf ++ word_prefix sep (drop (Z.to_nat c) rs)).
Proof.
  intros [HL HR]. induction fuel as [|fuel IH]; intros c buf Hc Hf; [lia|].
  cbn [readBySeperator_loop].
  replace ((c <? 0) || (Len s <? c)) with false
    by (symmetry; apply orb_false_iff; split; [apply Z.ltb_ge | apply Z.ltb_ge]; lia).
  rewrite (HR c) by lia.
  destruct (rs !! Z.to_nat c) as [x|] eqn:E.
  - rewrite (drop_S _ _ _ E). cbn [word_prefix Buffer.error_eqb negb].
    rewrite orb_false_r. destruct (sep x); [rewrite app_nil_r; reflexivity|].
    change (1 <? 0) with false. cbv iota.
    pose proof (lookup_lt_Some _ _ _ E) as Hlt.
    rewrite IH by lia.
    replace (Z.to_nat (c + 1)) with (S (Z.to_nat c)) by lia.
    rewrite <- app_assoc. reflexivity.
  - cbn [Buffer.error_eqb negb]. rewrite orb_true_r.
    apply lookup_ge_None in E. rewrite drop_ge by lia.
    rewrite app_nil_r. reflexivity.
Qed.

(** Reading backwards from the rune [c]. *)
Lemma readBySeperator_backward (s : TextSource) rs (sep : Z -> bool) :
  reads s rs ->
  forall (fuel : nat) (c : Z) (buf : list Z),
    -1 <= c < Z.of_nat (List.length rs) ->
    (Z.to_nat (c + 1) < fuel)%nat ->
    readBySeperator_loop fuel s (-1) c sep buf
    = Some (rev (word_prefix sep (rev (take (Z.to_nat (c + 1)) rs))) ++ buf).
Proof.
  intros [HL HR]. induction fuel as [|fuel IH]; intros c buf Hc Hf; [lia|].
  cbn [readBySeperator_loop].
  destruct (c <? 0) eqn:E0.
  - apply Z.ltb_lt in E0. cbn [orb].
    replace (Z.to_nat (c + 1)) with 0%nat by lia. rewrite take_0. reflexivity.
  - apply Z.ltb_ge in E0. cbn [orb].
    replace (Len s <? c) with false by (symmetry; apply Z.ltb_ge; lia).
    rewrite (HR c) by lia.
    destruct (lookup_lt_is_Some_2 rs (Z.to_nat c)) as [x E]; [lia|].
    rewrite E. cbn [Buffer.error_eqb negb]. rewrite orb_false_r.
    replace (Z.to_nat (c + 1)) with (S (Z.to_nat c)) by lia.
    rewrite (take_S_r _ _ _ E), rev_app_distr. cbn [rev app word_prefix].
    destruct (sep x); [reflexivity|].
    change (-1 <? 0) with true. cbv iota.
    rewrite IH by lia.
    replace (Z.to_nat (c - 1 + 1)) with (Z.to_nat c) by lia.
    cbn [rev]. rewrite <- app_assoc. reflexivity.
Qed.

Lemma last_rev_head {A} (l : list A) :
  list.last (rev l) = match l with x :: _ => Some x | [] => None end.
Proof. destruct l as [|x t]; [reflexivity|]. cbn [rev]. apply last_snoc. Qed.

(** The word around the rune position [caret]: the text is
    [pre ++ w1 ++ w2 ++ post], the caret is between [w1] and [w2], the
    word [w1 ++ w2] has no separator, and it cannot be made longer. *)
Lemma word_around (e : TextView) rs (caret : Z) (sep : Z -> bool) :
  reads (src e) rs -> 0 <= caret <= Z.of_nat (List.length rs) ->
  exists pre w1 w2 post,
    rs = pre ++ w1 ++ w2 ++ post /\
    Z.of_nat (List.length (pre ++ w1)) = caret /\
    readBySeperator e (-1) (caret - 1) sep = Some w1 /\
    readBySeperator e 1 caret sep = Some w2 /\
    Forall (fun x => sep x = false) (w1 ++ w2) /\
    match list.last pre with Some x => sep x = true | None => True end /\
    match post with x :: _ => sep x = true | [] => True end.
Proof.
  intros Hr Hc. pose proof Hr as [HL _].
  destruct (word_prefix_split sep (rev (take (Z.to_nat caret) rs)))
    as (rest1 & E1 & F1 & S1).
  destruct (word_prefix_split sep (drop (Z.to_nat caret) rs))
    as (post & E2 & F2 & S2).
  set (W1 := word_prefix sep (rev (take (Z.to_nat caret) rs))) in *.
  set (w2 := word_prefix sep (drop (Z.to_nat caret) rs)) in *.
  assert (Et : take (Z.to_nat caret) rs = rev rest1 ++ rev W1).
  { rewrite <- rev_app_distr, <- E1, rev_involutive. reflexivity. }
  exists (rev rest1), (rev W1), w2, post.
  split.
  { rewrite <- (take_drop (Z.to_nat caret) rs) at 1.
    rewrite Et, E2 at 1. rewrite <- app_assoc. reflexivity. }
  split.
  { rewrite <- Et, length_take. lia. }
  split.
  { unfold readBySeperator. rewrite (readBySeperator_backward _ rs sep Hr) by lia.
    replace (Z.to_nat (caret - 1 + 1)) with (Z.to_nat caret) by lia.
    fold W1. rewrite app_nil_r. reflexivity. }
  split.
  { unfold readBySeperator. rewrite (readBySeperator_forward _ rs sep Hr) by lia.
    reflexivity. }
  split.
  { apply Forall_app. split; [|exact F2]. apply List.Forall_rev. exact F1. }
  split; [|exact S2].
  rewrite last_rev_head. destruct rest1; exact S1.
Qed.

(** X21: on a text source that delivers the runes of the text,
    [WordBoundariesAt] returns the rune offsets of the longest stretch
    of runes without a separator around the caret: the text is
    [pre ++ w1 ++ w2 ++ post] with the caret between [w1] and [w2], the
    word [w1 ++ w2] holds no separator, the rune before it and the rune
    after it, if any, are separators, and the offsets are those of the
    start and of the end of the word.  [ReadWord] returns that word for
    the caret at the greater end of the selection, and the offset of the
    caret in it. *)
Theorem word_at_caret (e : TextView) rs (caret : Z) (bySpace : bool) :
  reads (src e) rs -> 0 <= caret <= Z.of_nat (List.length rs) ->
  exists pre w1 w2 post,
    rs = pre ++ w1 ++ w2 ++ post /\
    Z.of_nat (List.length (pre ++ w1)) = caret /\
    Forall (fun x => seperator_of e bySpace x = false) (w1 ++ w2) /\
    match list.last pre with
    | Some x => seperator_of e bySpace x = true
    | None => True
    end /\
    match post with x :: _ => seperator_of e bySpace x = true | [] => True end /\
    WordBoundariesAt e caret bySpace
    = Some (Z.of_nat (List.length pre), Z.of_nat (List.length (pre ++ w1 ++ w2))) /\
    (Z.max (caret_start e) (caret_end e) = caret ->
     ReadWord e bySpace
     = Some (Utf8.of_runes (w1 ++ w2), Z.of_nat (List.length w1))).
Proof.
  intros Hr Hc.
  destruct (word_around e rs caret (seperator_of e bySpace) Hr Hc)
    as (pre & w1 & w2 & post & H1 & H2 & H3 & H4 & H5 & H6 & H7).
  exists pre, w1, w2, post.
  split; [exact H1|]. split; [exact H2|]. split; [exact H5|].
  split; [exact H6|]. split; [exact H7|]. split.
  - unfold WordBoundariesAt. rewrite H3, H4. cbv beta iota.
    rewrite !length_app in *. f_equal. f_equal; lia.
  - intros Hm. unfold ReadWord. rewrite Hm, H3, H4. reflexivity.
Qed.

(** The theorem on "hello,world!!!" with the caret at rune 6, after
    the comma: the word is "world", from rune 6 to rune 11. *)
Lemma word_at_caret_witness :
  let rs := Utf8.to_runes (B "hello,world!!!") in
  let e := mkTextView false 4 [] [] (source_of rs) 6 6 in
  WordBoundariesAt e 6 false = Some (6, 11) /\
  ReadWord e false = Some (B "world", 0).
Proof.
  intros rs e.
  assert (Hr : reads (src e) rs).
  { split; [reflexivity|]. intros i Hi. cbn [src e ReadRuneAt source_of].
    rewrite index_lookup by exact Hi. reflexivity. }
  destruct (word_at_caret e rs 6 false Hr ltac:(vm_compute; split; discriminate))
    as (pre & w1 & w2 & post & _ & _ & _ & _ & _ & HW & HR).
  specialize (HR eq_refl).
  split.
  - rewrite HW. clear HR.
    assert (E : WordBoundariesAt e 6 false = Some (6, 11)) by (vm_compute; reflexivity).
    rewrite HW in E. exact E.
  - rewrite HR. clear HW.
    assert (E : ReadWord e false = Some (B "world", 0)) by (vm_compute; reflexivity).
    rewrite HR in E. exact E.
Defined.

End TextviewProps.

(** ** The selection of the editor *)

Section EditorProps.
Import Buffer.
Implicit Types (pt : PieceTable) (ps : list nat) (doc buf : list byte)
         (dc : list (list byte)).

Lemma to_runes_chunks dc :
  Forall Utf8.good dc ->
  Utf8.to_runes (concat dc) = map (fun c => fst (Utf8.DecodeRune c)) dc.
Proof.
  intros Hg. unfold Utf8.to_runes. rewrite runes_concat_good by exact Hg.
  reflexivity.
Qed.

Lemma chunks_offset dc (r : Z) :
  Forall Utf8.good dc ->
  tb_RuneOffset (concat dc) r = len (concat (take (Z.to_nat r) dc)).
Proof.
  intros Hg. rewrite RuneOffset_runes, runes_concat_good by exact Hg. reflexivity.
Qed.

(** X22: on a well-formed document, [SelectedText] returns the bytes
    of the runes between the two ends of the selection, whichever end
    comes first and whatever buffer it is given: the document is
    [before ++ sel ++ after] where [before] holds the runes before the
    smaller end and [sel], the text returned, the runes from the smaller
    end up to the greater.  When both ends are within the text, the
    number of runes returned is [SelectionLen]. *)
Theorem SelectedText_spec pt ps doc lns lp c (s e : Z) buf :
  doc_ok pt ps -> document pt = Some doc -> 0 <= s -> 0 <= e ->
  let ed := Editor.mkTextView (mkReader pt lns lp c) s e in
  let lo := Z.to_nat (Z.min s e) in
  let hi := Z.to_nat (Z.max s e) in
  exists before sel after,
    Editor.SelectedText ed buf = Some sel /\
    doc = before ++ sel ++ after /\
    Utf8.to_runes before = take lo (Utf8.to_runes doc) /\
    Utf8.to_runes sel = take (hi - lo) (drop lo (Utf8.to_runes doc)) /\
    (s <= seqLength pt -> e <= seqLength pt ->
     Utf8.RuneCount sel = Editor.SelectionLen ed).
Proof.
  intros Hd Hdoc Hs He ed lo hi.
  pose proof (document_chunks _ _ _ Hd Hdoc) as ->.
  pose proof Hd as (Hl & Hvo & Hvm & Hok & Hsl & Hsb).
  pose proof (doc_chunks_good pt ps Hvo Hvm) as Hg.
  pose proof (doc_chunks_count _ _ Hok) as Hcnt.
  set (dc := doc_chunks pt ps) in *.
  set (before := concat (take lo dc)).
  set (sel := concat (take (hi - lo) (drop lo dc))).
  set (after := concat (drop hi dc)).
  assert (Hlohi : (lo <= hi)%nat) by (unfold lo, hi; lia).
  assert (Esplit : dc = take lo dc ++ take (hi - lo) (drop lo dc) ++ drop hi dc).
  { rewrite <- (take_drop lo dc) at 1. f_equal.
    rewrite <- (take_drop (hi - lo) (drop lo dc)) at 1. f_equal.
    rewrite drop_drop. f_equal. lia. }
  assert (Ehi : take hi dc = take lo dc ++ take (hi - lo) (drop lo dc)).
  { replace hi with (lo + (hi - lo))%nat at 1 by lia.
    symmetry. apply take_take_drop. }
  exists before, sel, after.
  split; [|split; [|split; [|split]]].
  - unfold Editor.SelectedText, ed.
    cbn [Editor.src Editor.caret_start Editor.caret_end].
    rewrite !reader_RuneOffset.
    rewrite (RuneOffset_spec pt ps s Hd Hs), (RuneOffset_spec pt ps e Hd He).
    cbv beta iota. fold dc. rewrite !(chunks_offset dc) by exact Hg.
    assert (Emin : Z.min (len (concat (take (Z.to_nat s) dc)))
                         (len (concat (take (Z.to_nat e) dc)))
                   = len before).
    { unfold before, lo. destruct (Z.le_ge_cases s e) as [H|H].
      - destruct (RuneOffset_chunks_mono dc s e Hg ltac:(lia)) as [Hm _].
        rewrite (Z.min_l s e) by lia. lia.
      - destruct (RuneOffset_chunks_mono dc e s Hg ltac:(lia)) as [Hm _].
        rewrite (Z.min_r s e) by lia. lia. }
    assert (Emax : Z.max (len (concat (take (Z.to_nat s) dc)))
                         (len (concat (take (Z.to_nat e) dc)))
                   = len (concat (take hi dc))).
    { unfold hi. destruct (Z.le_ge_cases s e) as [H|H].
      - destruct (RuneOffset_chunks_mono dc s e Hg ltac:(lia)) as [Hm _].
        rewrite (Z.max_r s e) by lia. lia.
      - destruct (RuneOffset_chunks_mono dc e s Hg ltac:(lia)) as [Hm _].
        rewrite (Z.max_l s e) by lia. lia. }
    rewrite Emin, Emax. rewrite Ehi, len_concat_app. fold before sel.
    replace (len before + len sel - len before) with (len sel) by lia.
    set (b0 := if len buf <? len sel
               then replicate (Z.to_nat (len sel)) x00 else buf).
    set (b := take (Z.to_nat (len sel)) b0).
    assert (Hb : List.length b = List.length sel).
    { unfold b, b0. rewrite length_take.
      destruct (len buf <? len sel) eqn:E.
      - rewrite length_replicate. unfold len. lia.
      - apply Z.ltb_ge in E. unfold len in *. lia. }
    rewrite (ReadAt_doc pt ps b (len before) lns lp c Hd (len_nonneg _)).
    cbv beta iota zeta. fold dc.
    assert (Ew : take (List.length b) (drop (Z.to_nat (len before)) (concat dc))
                 = sel).
    { rewrite Hb. rewrite Esplit at 1. rewrite !List.concat_app.
      fold before sel after.
      replace (Z.to_nat (len before)) with (List.length before)
        by (unfold len; lia).
      rewrite drop_app_length, take_app_length. reflexivity. }
    rewrite Ew.
    replace (Z.to_nat (len sel)) with (List.length sel) by (unfold len; lia).
    rewrite take_app_length. reflexivity.
  - rewrite Esplit at 1. rewrite !List.concat_app. reflexivity.
  - unfold before. rewrite !to_runes_chunks; [|exact Hg | apply Forall_take, Hg].
    symmetry. apply firstn_map.
  - unfold sel.
    rewrite !to_runes_chunks;
      [|exact Hg | apply Forall_take, Forall_drop, Hg].
    rewrite skipn_map. symmetry. apply firstn_map.
  - intros Hsl' Hel'. unfold Utf8.RuneCount, sel.
    rewrite runes_concat_good by (apply Forall_take, Forall_drop, Hg).
    rewrite length_take, length_drop.
    unfold Editor.SelectionLen, ed. cbn [Editor.caret_start Editor.caret_end].
    unfold lo, hi in *. lia.
Qed.

(** The theorem on "hél日本lo" with the selection from rune 5 back to
    rune 2. *)
Lemma SelectedText_spec_witness :
  let ed := Editor.mkTextView (NewReader mixed_table) 5 2 in
  exists sel, Editor.SelectedText ed [] = Some sel /\
              Utf8.to_runes sel = take 3 (drop 2 (Utf8.to_runes (B "hél日本lo"))) /\
              Utf8.RuneCount sel = Editor.SelectionLen ed.
Proof.
  intros ed. destruct mixed_table_ok as [ps Hd].
  assert (Hdoc : document mixed_table = Some (B "hél日本lo"))
    by (vm_compute; reflexivity).
  destruct (SelectedText_spec mixed_table ps (B "hél日本lo") [] None 0 5 2 []
              Hd Hdoc ltac:(lia) ltac:(lia))
    as (before & sel & after & H1 & _ & _ & H4 & H5).
  exists sel. split; [exact H1|]. split; [exact H4|].
  apply H5; vm_compute; discriminate.
Defined.

End EditorProps.
